(** * Media download subsystem: rate limiter, progress parser, job
      orchestration, cleanup timers and artifact server.

    A shallow embedding of the download route
    ([src/app/api/files/process/route.ts], the module with [checkRateLimit],
    [parseProgress], [scheduleFileCleanup], [POST] and [DELETE]) and of the
    artifact route ([GET] of [src/unnamed/part_002]); then of the assistant
    ([HumanizedAIAgent] of [src/unnamed/part_000]) and of the two routes that
    stream its progress.  Definitions come first, module by module; the
    properties proved of them follow. *)

From Stdlib Require Import ZArith List String Ascii Bool Lia DecimalString DecimalPos.
From Stdlib Require DecimalFacts.
From Stdlib.Strings Require Import Byte.
From stdpp Require Import base option list gmap.
Import ListNotations.

Local Open Scope Z_scope.

(** ** JavaScript strings

    A JavaScript string is a sequence of UTF-16 code units; a code unit is
    kept as an [N].  Nothing below needs the bound [< 65536]. *)

Abbreviation jsstring := (list N).

(** A source literal, written as a Rocq string of ASCII characters. *)
Definition js (s : string) : jsstring :=
  map N_of_ascii (list_ascii_of_string s).

(** ** JavaScript built-ins used by the routes *)

Module JS.

(** [\s] of a regular expression, the characters [trim] removes and the
    ones [parseInt] skips: WhiteSpace and LineTerminator of ECMA-262. *)
Definition is_space (c : N) : bool :=
  ((9 <=? c) && (c <=? 13) || (c =? 32) || (c =? 160) || (c =? 5760)
   || (8192 <=? c) && (c <=? 8202) || (c =? 8232) || (c =? 8233)
   || (c =? 8239) || (c =? 8287) || (c =? 12288) || (c =? 65279))%N.

(** [\d]: the ten ASCII digits. *)
Definition is_digit (c : N) : bool := ((48 <=? c) && (c <=? 57))%N.

Definition digit_value (c : N) : Z := Z.of_N c - 48.

(** Length of the longest prefix of [s] whose characters satisfy [P]. *)
Fixpoint run (P : N → bool) (s : jsstring) : nat :=
  match s with
  | c :: s' => if P c then S (run P s') else O
  | [] => O
  end.

(** [s.startsWith(p)], returning what follows the prefix. *)
Fixpoint strip_prefix (p s : jsstring) : option jsstring :=
  match p, s with
  | [], _ => Some s
  | a :: p', b :: s' => if (a =? b)%N then strip_prefix p' s' else None
  | _ :: _, [] => None
  end.

Definition startsWith (s p : jsstring) : bool :=
  match strip_prefix p s with Some _ => true | None => false end.

(** [s.includes(p)] *)
Fixpoint includes (s p : jsstring) : bool :=
  startsWith s p ||
  match s with
  | [] => false
  | _ :: s' => includes s' p
  end.

(** [s.replace(p, r)] for a string pattern [p] and a replacement [r] without
    [$]: the first occurrence of [p] is replaced, if there is one. *)
Fixpoint replace (s p r : jsstring) : jsstring :=
  match strip_prefix p s with
  | Some rest => r ++ rest
  | None =>
      match s with
      | [] => []
      | c :: s' => c :: replace s' p r
      end
  end.

(** [s.split(sep)] for a separator of one character; never empty. *)
Fixpoint split (sep : N) (s : jsstring) : list jsstring :=
  match s with
  | [] => [[]]
  | c :: s' =>
      if (c =? sep)%N then [] :: split sep s'
      else match split sep s' with
           | w :: ws => (c :: w) :: ws
           | [] => [[c]]
           end
  end.

(** [s.trim()] *)
Definition trimStart (s : jsstring) : jsstring := drop (run is_space s) s.
Definition trim (s : jsstring) : jsstring := rev (trimStart (rev (trimStart s))).

(** Value of a string of decimal digits, most significant first. *)
Definition digits_value (ds : jsstring) : Z :=
  fold_left (fun acc c => 10 * acc + digit_value c) ds 0.

(** *** Numbers

    A JavaScript number is a binary64 floating-point number.  A finite one
    that is not negative is [m * 2^e] for a mantissa [m] below [2^53] and an
    exponent [e] from [-1074] to [971]; it is written in one way only when the
    mantissa is at least [2^52] unless the exponent is the least one. *)
Definition representable (m e : Z) : Prop := 0 <= m < 2 ^ 53 ∧ -1074 <= e <= 971.

Definition canonical (m e : Z) : Prop :=
  representable m e ∧ (2 ^ 52 <= m ∨ e = -1074).

Inductive binary64 := Finite (m e : Z) | Infinity.

(** [m * 2^e] in units of [2^-1074], the least positive number. *)
Definition scaled (m e : Z) : Z := m * 2 ^ (e + 1074).

(** The Number value for [n / d], where [0 <= n] and [0 < d]: the number
    nearest to it, the one with the even mantissa if two are equally near,
    and [Infinity] if that number would be [2^1024].  All is counted in units
    of [2^-1074]: [t] is the least exponent, from [0] on, at which the
    quotient has no more than 53 bits; [q] and [r] are quotient and remainder
    there, and the quotient goes up by one if the remainder is more than half
    the divisor, or is half of it and the quotient is odd. *)
Definition nearest (n d : Z) : binary64 :=
  let N := n * 2 ^ 1074 in
  let t := Z.max 0 (Z.log2 (N / d) - 52) in
  let q := N / (d * 2 ^ t) in
  let r := N mod (d * 2 ^ t) in
  let m := if (d * 2 ^ t <? 2 * r) || ((d * 2 ^ t =? 2 * r) && Z.odd q) then q + 1 else q in
  if m =? 2 ^ 53 then (if 2045 <=? t then Infinity else Finite (2 ^ 52) (t + 1 - 1074))
  else if 2045 <? t then Infinity else Finite m (t - 1074).

(** The numbers that are integers, infinite or [NaN]: what [parseInt]
    returns and what sums and differences of such numbers are.  [-0] is kept
    as [0]. *)
Inductive number := NaN | Int (z : Z) | PosInfinity | NegInfinity.

(** The Number value for an integer. *)
Definition of_Z (z : Z) : number :=
  match nearest (Z.abs z) 1 with
  | Finite m e => Int (Z.sgn z * (scaled m e / 2 ^ 1074))
  | Infinity => if z <? 0 then NegInfinity else PosInfinity
  end.

(** [x + y], [-x] and [x - y] *)
Definition plus (x y : number) : number :=
  match x, y with
  | NaN, _ | _, NaN => NaN
  | Int a, Int b => of_Z (a + b)
  | PosInfinity, NegInfinity | NegInfinity, PosInfinity => NaN
  | PosInfinity, _ | _, PosInfinity => PosInfinity
  | NegInfinity, _ | _, NegInfinity => NegInfinity
  end.

Definition opposite (x : number) : number :=
  match x with
  | NaN => NaN
  | Int z => Int (- z)
  | PosInfinity => NegInfinity
  | NegInfinity => PosInfinity
  end.

Definition minus (x y : number) : number := plus x (opposite y).

(** [parseInt(s, 10)]: leading white space and one sign are skipped, the
    longest run of digits is read, and the result is the Number value for the
    integer they write. *)
Definition parseInt (s : jsstring) : number :=
  let s1 := trimStart s in
  let '(sign, s2) :=
    match s1 with
    | 45%N :: r => (-1, r)
    | 43%N :: r => (1, r)
    | _ => (1, s1)
    end in
  let ds := take (run is_digit s2) s2 in
  match ds with
  | [] => NaN
  | _ => of_Z (sign * digits_value ds)
  end.

(** [String(n)] and template substitution of an integer below [10^21]. *)
Definition toString (n : Z) : jsstring :=
  js (NilZero.string_of_int (Z.to_int n)).

(** [String(x)], [x.toString()] and template substitution of a number; an
    integer is taken to be below [10^21]. *)
Definition Number_toString (x : number) : jsstring :=
  match x with
  | NaN => js "NaN"
  | Int z => toString z
  | PosInfinity => js "Infinity"
  | NegInfinity => js "-Infinity"
  end.

(** [s.toLowerCase()] on the letters [A] to [Z].  It is only compared with
    lower-case ASCII words without [k]; no other character lowers to one of
    their letters. *)
Definition toLowerCase (s : jsstring) : jsstring :=
  map (fun c => if ((65 <=? c) && (c <=? 90))%N then (c + 32)%N else c) s.

(** [(bytes / (1024 * 1024)).toFixed(2)] for a size below [2^53]: the
    division by a power of two is exact, and [toFixed] picks the integer [n]
    with [n / 100] nearest to the quotient, the larger one on a tie. *)
Definition megabytes_toFixed2 (bytes : Z) : jsstring :=
  let n := (200 * bytes + 1048576) / 2097152 in
  let frac := n mod 100 in
  toString (n / 100) ++ js "." ++
  (if frac <? 10 then js "0" else []) ++ toString frac.

(** *** URI coding *)

Definition hex_value (c : N) : option N :=
  (if (48 <=? c) && (c <=? 57) then Some (c - 48)
   else if (65 <=? c) && (c <=? 70) then Some (c - 55)
   else if (97 <=? c) && (c <=? 102) then Some (c - 87)
   else None)%N.

Definition hex_digit (v : N) : N := (if v <? 10 then 48 + v else 55 + v)%N.

(** The characters [encodeURIComponent] leaves alone: letters, digits and
    [- _ . ! ~ * ' ( )]. *)
Definition uri_unescaped (c : N) : bool :=
  ((65 <=? c) && (c <=? 90) || (97 <=? c) && (c <=? 122) || (48 <=? c) && (c <=? 57)
   || (c =? 45) || (c =? 95) || (c =? 46) || (c =? 33) || (c =? 126) || (c =? 42)
   || (c =? 39) || (c =? 40) || (c =? 41))%N.

Definition utf8_encode (cp : N) : list N :=
  (if cp <? 128 then [cp]
   else if cp <? 2048 then [192 + cp / 64; 128 + cp mod 64]
   else if cp <? 65536 then [224 + cp / 4096; 128 + (cp / 64) mod 64; 128 + cp mod 64]
   else [240 + cp / 262144; 128 + (cp / 4096) mod 64; 128 + (cp / 64) mod 64;
         128 + cp mod 64])%N.

Definition percent (b : N) : jsstring := [37; hex_digit (b / 16); hex_digit (b mod 16)]%N.

Definition is_lead_surrogate (c : N) : bool := ((55296 <=? c) && (c <=? 56319))%N.
Definition is_trail_surrogate (c : N) : bool := ((56320 <=? c) && (c <=? 57343))%N.

(** [encodeURIComponent(s)]; [None] is the [URIError] for a lone
    surrogate. *)
Fixpoint encodeURIComponent (s : jsstring) : option jsstring :=
  match s with
  | [] => Some []
  | c :: rest =>
      if uri_unescaped c then cons c <$> encodeURIComponent rest
      else if is_trail_surrogate c then None
      else if is_lead_surrogate c then
        match rest with
        | d :: rest' =>
            if is_trail_surrogate d then
              let cp := ((c - 55296) * 1024 + (d - 56320) + 65536)%N in
              app (concat (map percent (utf8_encode cp))) <$> encodeURIComponent rest'
            else None
        | [] => None
        end
      else app (concat (map percent (utf8_encode c))) <$> encodeURIComponent rest
  end.

(** The code point that the UTF-8 sequence [bs] encodes, if it is the
    shortest encoding of a code point that is no surrogate. *)
Definition utf8_decode (bs : list N) : option N :=
  (match bs with
   | [a; b] =>
       let cp := (a - 192) * 64 + (b - 128) in
       if 128 <=? cp then Some cp else None
   | [a; b; c] =>
       let cp := (a - 224) * 4096 + (b - 128) * 64 + (c - 128) in
       if (2048 <=? cp) && negb ((55296 <=? cp) && (cp <=? 57343)) then Some cp else None
   | [a; b; c; d] =>
       let cp := (a - 240) * 262144 + (b - 128) * 4096 + (c - 128) * 64 + (d - 128) in
       if (65536 <=? cp) && (cp <=? 1114111) then Some cp else None
   | _ => None
   end)%N.

Definition utf16_encode (cp : N) : jsstring :=
  (if cp <? 65536 then [cp]
   else [55296 + (cp - 65536) / 1024; 56320 + (cp - 65536) mod 1024])%N.

(** Number of continuation bytes announced by the first byte of a UTF-8
    sequence of more than one byte. *)
Definition utf8_continuations (b : N) : option nat :=
  (if (192 <=? b) && (b <=? 223) then Some 1%nat
   else if (224 <=? b) && (b <=? 239) then Some 2%nat
   else if (240 <=? b) && (b <=? 247) then Some 3%nat
   else None)%N.

(** Where [decodeURIComponent] stands in its input: between escapes, after
    a [%], after the first hexadecimal digit, or before the [%] of a
    continuation byte.  [more] holds the continuation bytes still to come and
    the bytes of the sequence read so far. *)
Inductive decoding :=
| Plain
| Pct (more : option (nat * list N))
| Hex (more : option (nat * list N)) (hi : N)
| Want (need : nat) (acc : list N).

Fixpoint decode (st : decoding) (s : jsstring) : option jsstring :=
  match s with
  | [] => match st with Plain => Some [] | _ => None end
  | c :: rest =>
      match st with
      | Plain =>
          if (c =? 37)%N then decode (Pct None) rest
          else cons c <$> decode Plain rest
      | Pct more =>
          match hex_value c with
          | Some hi => decode (Hex more hi) rest
          | None => None
          end
      | Hex more hi =>
          match hex_value c with
          | None => None
          | Some lo =>
              let b := (16 * hi + lo)%N in
              match more with
              | None =>
                  if (b <? 128)%N then cons b <$> decode Plain rest
                  else match utf8_continuations b with
                       | Some n => decode (Want n [b]) rest
                       | None => None
                       end
              | Some (need, acc) =>
                  if ((128 <=? b) && (b <=? 191))%N then
                    match need with
                    | O =>
                        match utf8_decode (acc ++ [b]) with
                        | Some cp => app (utf16_encode cp) <$> decode Plain rest
                        | None => None
                        end
                    | S _ => decode (Want need (acc ++ [b])) rest
                    end
                  else None
              end
          end
      | Want need acc =>
          if (c =? 37)%N then decode (Pct (Some (Nat.pred need, acc))) rest else None
      end
  end.

(** [decodeURIComponent(s)]; [None] is the [URIError] for a malformed
    escape. *)
Definition decodeURIComponent (s : jsstring) : option jsstring := decode Plain s.

(** What follows the longest run does not continue it. *)
Definition stops (P : N → bool) (s : jsstring) : Prop :=
  match s with
  | [] => True
  | c :: _ => P c = false
  end.

End JS.

(** ** Decimal numerals *)

Module Numerals.

(** The code units of a decimal numeral. *)
Fixpoint numeral (d : Decimal.uint) : jsstring :=
  match d with
  | Decimal.Nil => []
  | Decimal.D0 l => 48%N :: numeral l
  | Decimal.D1 l => 49%N :: numeral l
  | Decimal.D2 l => 50%N :: numeral l
  | Decimal.D3 l => 51%N :: numeral l
  | Decimal.D4 l => 52%N :: numeral l
  | Decimal.D5 l => 53%N :: numeral l
  | Decimal.D6 l => 54%N :: numeral l
  | Decimal.D7 l => 55%N :: numeral l
  | Decimal.D8 l => 56%N :: numeral l
  | Decimal.D9 l => 57%N :: numeral l
  end.

(** The code unit of a decimal digit. *)
Definition code (c : DecimalFacts.digits) : N :=
  match c with
  | DecimalFacts.d0 => 48 | DecimalFacts.d1 => 49 | DecimalFacts.d2 => 50
  | DecimalFacts.d3 => 51 | DecimalFacts.d4 => 52 | DecimalFacts.d5 => 53
  | DecimalFacts.d6 => 54 | DecimalFacts.d7 => 55 | DecimalFacts.d8 => 56
  | DecimalFacts.d9 => 57
  end%N.

(** Comparisons on code units, from booleans to propositions. *)
Ltac nbool :=
  repeat match goal with
  | H : (_ <=? _)%N = true |- _ => apply N.leb_le in H
  | H : (_ <=? _)%N = false |- _ => apply N.leb_gt in H
  | H : (_ <? _)%N = true |- _ => apply N.ltb_lt in H
  | H : (_ <? _)%N = false |- _ => apply N.ltb_ge in H
  | H : (_ =? _)%N = true |- _ => apply N.eqb_eq in H
  | H : (_ =? _)%N = false |- _ => apply N.eqb_neq in H
  | H : _ && _ = true |- _ => apply andb_prop in H as [? ?]
  end.

(** Decides the comparisons of the goal by arithmetic. *)
Ltac ncases :=
  repeat match goal with
  | |- context [(?a <=? ?b)%N] =>
      first [ rewrite (proj2 (N.leb_le a b)) by lia
            | rewrite (proj2 (N.leb_gt a b)) by lia ]
  | |- context [(?a <? ?b)%N] =>
      first [ rewrite (proj2 (N.ltb_lt a b)) by lia
            | rewrite (proj2 (N.ltb_ge a b)) by lia ]
  | |- context [(?a =? ?b)%N] =>
      first [ rewrite (proj2 (N.eqb_eq a b)) by lia
            | rewrite (proj2 (N.eqb_neq a b)) by lia ]
  end; cbn [andb orb negb].

(** Quotients and remainders, named and forgotten, so that what is left
    is linear. *)
Ltac nabs :=
  repeat match goal with
  | |- context [N.modulo ?a ?b] =>
      let x := fresh "r" in set (x := N.modulo a b) in *; clearbody x
  | |- context [N.div ?a ?b] =>
      let x := fresh "q" in set (x := N.div a b) in *; clearbody x
  | H : context [N.modulo ?a ?b] |- _ =>
      let x := fresh "r" in set (x := N.modulo a b) in *; clearbody x
  | H : context [N.div ?a ?b] |- _ =>
      let x := fresh "q" in set (x := N.div a b) in *; clearbody x
  end.

Ltac divmod x n :=
  pose proof (N.div_mod x n ltac:(lia)); pose proof (N.mod_lt x n ltac:(lia)).

End Numerals.

(** ** Rate limiter *)

Module RateLimit.

(** [{ count: number; resetTime: number }] *)
Record Limit := mkLimit { count : Z; resetTime : Z }.

#[global] Instance Limit_eq_dec : EqDecision Limit.
Proof. solve_decision. Defined.

Definition MAX_DOWNLOADS_PER_HOUR : Z := 5.

(** [checkRateLimit(clientId)], with [Date.now()] passed in as [now] and the
    module-level [rateLimits] map threaded through.  [limit.count++] mutates
    the object stored in the map, hence the re-insertion under the same
    key. *)
Definition checkRateLimit (now : Z) (clientId : jsstring)
    (rateLimits : gmap jsstring Limit) : bool * gmap jsstring Limit :=
  match rateLimits !! clientId with
  | None =>
      (true, <[clientId := mkLimit 1 (now + 3600000)]> rateLimits)
  | Some limit =>
      if now >? resetTime limit then
        (true, <[clientId := mkLimit 1 (now + 3600000)]> rateLimits)
      else if count limit >=? MAX_DOWNLOADS_PER_HOUR then
        (false, rateLimits)
      else
        (true, <[clientId := mkLimit (count limit + 1) (resetTime limit)]> rateLimits)
  end.

(** The window of [clientId] is absent or has expired at [now]. *)
Definition expired (now : Z) (clientId : jsstring)
    (rateLimits : gmap jsstring Limit) : Prop :=
  match rateLimits !! clientId with
  | None => True
  | Some limit => now > resetTime limit
  end.

(** A timed sequence of admission requests, in arrival order. *)
Fixpoint serve_all (reqs : list (Z * jsstring))
    (rateLimits : gmap jsstring Limit) : list bool * gmap jsstring Limit :=
  match reqs with
  | [] => ([], rateLimits)
  | (now, clientId) :: reqs' =>
      let '(b, rl1) := checkRateLimit now clientId rateLimits in
      let '(bs, rl2) := serve_all reqs' rl1 in
      (b :: bs, rl2)
  end.

(** The requests of [reqs] that were admitted, with their time stamps. *)
Fixpoint granted (reqs : list (Z * jsstring)) (verdicts : list bool)
    : list (Z * jsstring) :=
  match reqs, verdicts with
  | r :: reqs', true :: vs => r :: granted reqs' vs
  | _ :: reqs', false :: vs => granted reqs' vs
  | _, _ => []
  end.

(** Number of jobs admitted for [clientId] with a time stamp in the hour
    that starts at [from]. *)
Definition admitted_in_hour (clientId : jsstring) (from : Z)
    (adm : list (Z * jsstring)) : nat :=
  length (List.filter
            (fun r : Z * jsstring =>
               bool_decide (r.2 = clientId) && (from <=? r.1) && (r.1 <? from + 3600000))
            adm).

(** Number of jobs admitted for [clientId]. *)
Definition admitted_for (clientId : jsstring) (adm : list (Z * jsstring)) : nat :=
  length (List.filter (fun r : Z * jsstring => bool_decide (r.2 = clientId)) adm).

(** Time stamps do not decrease along [reqs]. *)
Fixpoint in_time_order (reqs : list (Z * jsstring)) : Prop :=
  match reqs with
  | [] => True
  | r :: reqs' =>
      match reqs' with
      | [] => True
      | r' :: _ => r.1 <= r'.1
      end ∧ in_time_order reqs'
  end.

(** The bound in the specification's words: whatever the requests, a client
    is admitted at most five times in any hour. *)
Definition rolling_hour_bound : Prop :=
  ∀ (reqs : list (Z * jsstring)) (clientId : jsstring) (from : Z),
    in_time_order reqs →
    (admitted_in_hour clientId from (granted reqs (serve_all reqs ∅).1) <= 5)%nat.

(** Seven requests of one client: one opens a window, four more arrive
    in its last milliseconds, two right after it has expired. *)
Definition burst : list (Z * jsstring) :=
  [ (0, js "10.0.0.7"); (3599997, js "10.0.0.7"); (3599998, js "10.0.0.7");
    (3599999, js "10.0.0.7"); (3600000, js "10.0.0.7"); (3600001, js "10.0.0.7");
    (3600002, js "10.0.0.7") ].

(** The four requests that follow the first one of [burst] inside its
    window. *)
Definition window_tail : list (Z * jsstring) :=
  [ (3599997, js "10.0.0.7"); (3599998, js "10.0.0.7");
    (3599999, js "10.0.0.7"); (3600000, js "10.0.0.7") ].

End RateLimit.


(** ** Progress parser *)

Module Progress.
Import JS.

(** The character classes the pattern uses: [\s], [\d] and [[^\s]]. *)
Inductive cls := Space | Digit | NonSpace.

Definition in_cls (k : cls) (c : N) : bool :=
  match k with
  | Space => is_space c
  | Digit => is_digit c
  | NonSpace => negb (is_space c)
  end.

(** The pieces a pattern is a sequence of.  [Open] and [Close] are the
    parentheses of a capture group. *)
Inductive item :=
| Lit (l : jsstring)
| Plus (k : cls)
| Star (k : cls)
| Opt (c : N)
| Open
| Close.

(** A greedy quantifier: the continuation [f] is tried on the longest
    repetition first and then on each shorter one down to [lo]. *)
Fixpoint greedy {A} (f : nat → option A) (lo n : nat) : option A :=
  if (n <? lo)%nat then None
  else match f n with
       | Some r => Some r
       | None =>
           match n with
           | O => None
           | S n' => greedy f lo n'
           end
       end.

(** Backtracking match of the pattern [p] at the start of [s].  [mark] is
    the input as it stood at the last [Open]; [caps] are the groups closed so
    far.  The result is the captures and the unmatched rest. *)
Fixpoint exec (p : list item) (s mark : jsstring) (caps : list jsstring)
    : option (list jsstring * jsstring) :=
  match p with
  | [] => Some (caps, s)
  | Lit l :: p' =>
      match strip_prefix l s with
      | Some s' => exec p' s' mark caps
      | None => None
      end
  | Plus k :: p' =>
      greedy (fun i => exec p' (drop i s) mark caps) 1 (run (in_cls k) s)
  | Star k :: p' =>
      greedy (fun i => exec p' (drop i s) mark caps) 0 (run (in_cls k) s)
  | Opt c :: p' =>
      match s with
      | c' :: s' =>
          if (c' =? c)%N then
            match exec p' s' mark caps with
            | Some r => Some r
            | None => exec p' s mark caps
            end
          else exec p' s mark caps
      | [] => exec p' s mark caps
      end
  | Open :: p' => exec p' s s caps
  | Close :: p' =>
      exec p' s mark (caps ++ [take (length mark - length s) mark])
  end.

(** [s.match(p)] for a pattern without the [g] flag: the match that starts
    leftmost. *)
Fixpoint search (p : list item) (s : jsstring) : option (list jsstring) :=
  match exec p s [] [] with
  | Some (caps, _) => Some caps
  | None =>
      match s with
      | [] => None
      | _ :: s' => search p s'
      end
  end.

(** The pattern of [parseProgress], piece by piece (spaces added here for
    reading only):
    [\[download\] \s+ ( \d+ \.? \d* ) % \s+ of \s+ ( [^\s]+ ) \s+ at \s+
     ( [^\s]+ ) \s+ ETA \s+ ( [^\s]+ )]. *)
Definition progressRegex : list item :=
  [ Lit (js "[download]"); Plus Space;
    Open; Plus Digit; Opt 46; Star Digit; Close;
    Lit (js "%"); Plus Space; Lit (js "of"); Plus Space;
    Open; Plus NonSpace; Close;
    Plus Space; Lit (js "at"); Plus Space;
    Open; Plus NonSpace; Close;
    Plus Space; Lit (js "ETA"); Plus Space;
    Open; Plus NonSpace; Close ].

(** [parseFloat] on what group 1 can hold: digits, then possibly a dot and
    more digits.  The result is the Number value for the decimal fraction
    read, [digits / 10^(number of digits after the dot)].  [None] is
    [NaN]. *)
Definition parseFloat (s : jsstring) : option binary64 :=
  let int := take (run is_digit s) s in
  let rest := drop (run is_digit s) s in
  match int with
  | [] => None
  | _ =>
      match rest with
      | 46%N :: r =>
          let frac := take (run is_digit r) r in
          Some (nearest (digits_value (int ++ frac)) (10 ^ Z.of_nat (length frac)))
      | _ => Some (nearest (digits_value int) 1)
      end
  end.

(** [interface DownloadProgress]; [percentage] is [None] for [NaN]. *)
Record DownloadProgress := mkProgress {
  percentage : option binary64;
  speed : jsstring;
  eta : jsstring;
  size : jsstring
}.

Definition parseProgress (line : jsstring) : option DownloadProgress :=
  match search progressRegex line with
  | Some [g1; g2; g3; g4] =>
      Some {| percentage := parseFloat g1; size := g2; speed := g3; eta := g4 |}
  | _ => None
  end.

(** *** The pattern in the specification's words

    A progress line holds, in this order, a percentage, a total size token,
    a speed token and an ETA token, introduced by the downloader's keywords
    and separated by white space. *)

(** A non-empty stretch of white space. *)
Definition blank (w : jsstring) : Prop :=
  w ≠ [] ∧ Forall (fun c => is_space c = true) w.

(** A token: a non-empty stretch without white space. *)
Definition token (t : jsstring) : Prop :=
  t ≠ [] ∧ Forall (fun c => is_space c = false) t.

(** A percentage figure: digits, then possibly a dot and more digits. *)
Definition figure (t : jsstring) : Prop :=
  ∃ int frac, t = int ++ frac ∧ int ≠ [] ∧
    Forall (fun c => is_digit c = true) int ∧
    (frac = [] ∨ ∃ ds, frac = 46%N :: ds ∧ Forall (fun c => is_digit c = true) ds).

(** The figure [t] reads as the decimal fraction [n / 10^s]: it is the
    numeral of an integer, followed or not by a dot and the [s] digits of a
    fractional part. *)
Definition reads_as (t : jsstring) (n : Z) (s : nat) : Prop :=
  ∃ i f : Decimal.uint,
    i ≠ Decimal.Nil
    ∧ (t = Numerals.numeral i ∧ f = Decimal.Nil
       ∨ t = Numerals.numeral i ++ 46%N :: Numerals.numeral f)
    ∧ n = Z.of_uint (Decimal.app i f)
    ∧ s = Decimal.nb_digits f.

(** How far [m * 2^e] is from [n / d], in units of [2^-1074 / d]. *)
Definition distance (n d m e : Z) : Z := Z.abs (n * 2 ^ 1074 - d * scaled m e).

(** [x] is the Number value for [n / d]: [Infinity] from [2^1024 - 2^970]
    on; below that the finite number, in its one writing, than which no
    other is nearer to [n / d], and whose mantissa is even if another one is
    as near. *)
Definition Number_value (n d : Z) (x : binary64) : Prop :=
  match x with
  | Infinity => d * (2 ^ 1024 - 2 ^ 970) <= n
  | Finite m e =>
      n < d * (2 ^ 1024 - 2 ^ 970)
      ∧ canonical m e
      ∧ ∀ m' e' : Z, representable m' e' →
          distance n d m e <= distance n d m' e'
          ∧ (distance n d m' e' = distance n d m e → scaled m' e' ≠ scaled m e →
             Z.even m = true)
  end.

(** The text ends at [post]: [post] is empty or begins with white space. *)
Definition ends_token (post : jsstring) : Prop :=
  match post with
  | [] => True
  | c :: _ => is_space c = true
  end.

(** [line] holds the progress pattern right after [pre], with the four
    fields [pct], [sz], [spd] and [et], and [post] after them. *)
Definition progress_at (line pre pct sz spd et post : jsstring) : Prop :=
  ∃ w1 w2 w3 w4 w5 w6 w7,
    line = pre ++ js "[download]" ++ w1 ++ pct ++ js "%" ++ w2 ++ js "of" ++ w3
               ++ sz ++ w4 ++ js "at" ++ w5 ++ spd ++ w6 ++ js "ETA" ++ w7
               ++ et ++ post
    ∧ blank w1 ∧ blank w2 ∧ blank w3 ∧ blank w4 ∧ blank w5 ∧ blank w6 ∧ blank w7
    ∧ figure pct ∧ token sz ∧ token spd ∧ token et.

(** [line] is a progress line. *)
Definition progress_line (line : jsstring) : Prop :=
  ∃ pre pct sz spd et post, progress_at line pre pct sz spd et post.

(** The occurrence after [pre] is the first one of the line, and its last
    token is taken whole. *)
Definition first_progress_at (line pre pct sz spd et post : jsstring) : Prop :=
  progress_at line pre pct sz spd et post ∧ ends_token post ∧
  ∀ pre' pct' sz' spd' et' post',
    progress_at line pre' pct' sz' spd' et' post' → (length pre <= length pre')%nat.

(** The pattern [p] matches at the start of [s], whatever was matched and
    captured before. *)
Definition accepts (p : list item) (s : jsstring) : Prop :=
  ∀ m c, is_Some (exec p s m c).

End Progress.

(** ** The download directory *)

Module FS.
Import JS.

(** One entry of the directory.  [removable] is [false] for an entry that
    [unlinkSync] fails on (a sub-directory, a file of another owner). *)
Record Entry := mkEntry {
  name : jsstring;
  content : list byte;
  removable : bool
}.

(** The directory [/tmp/youtube-downloads], in the order [readdirSync] lists
    it; [None] when it does not exist. *)
Abbreviation Dir := (option (list Entry)).

Definition tempDir : jsstring := js "/tmp/youtube-downloads".

(** [join(tempDir, name)] for an entry name, which holds no [/] and is
    neither [.] nor [..]: nothing to normalise. *)
Definition join (dir name : jsstring) : jsstring := dir ++ js "/" ++ name.

Definition entries (d : Dir) : list Entry := default [] d.

Definition at_path (path : jsstring) (e : Entry) : bool :=
  bool_decide (join tempDir (name e) = path).

(** [readdirSync(tempDir)]; [None] when it throws. *)
Definition readdirSync (d : Dir) : option (list jsstring) := map name <$> d.

Definition existsSync (d : Dir) (path : jsstring) : bool :=
  existsb (at_path path) (entries d).

(** [statSync(path).size]; [None] when it throws. *)
Definition statSync (d : Dir) (path : jsstring) : option Z :=
  (fun e => Z.of_nat (length (content e))) <$> List.find (at_path path) (entries d).

(** [unlinkSync(path)]; [None] when it throws. *)
Definition unlinkSync (d : Dir) (path : jsstring) : option Dir :=
  match List.find (at_path path) (entries d) with
  | Some e =>
      if removable e
      then Some (Some (List.filter (fun e' => negb (at_path path e')) (entries d)))
      else None
  | None => None
  end.

Definition MAX_SAFE_INTEGER : Z := 9007199254740991.

(** The bytes that [createReadStream(path, { start, end })] delivers: from
    offset [start] to offset [end] inclusive, or to the end of the file if
    that comes first.  [None] when the constructor throws: [start] is not a
    safe integer from [0] on; or [end] is neither that nor [Infinity]; or
    [start > end]; or the file is missing. *)
Definition safe_offset (x : number) : option Z :=
  match x with
  | Int z => if (0 <=? z) && (z <=? MAX_SAFE_INTEGER) then Some z else None
  | _ => None
  end.

Definition createReadStream (d : Dir) (path : jsstring) (range : option (number * number))
    : option (list byte) :=
  match List.find (at_path path) (entries d) with
  | None => None
  | Some e =>
      match range with
      | None => Some (content e)
      | Some (start, end_) =>
          match safe_offset start with
          | None => None
          | Some s =>
              match end_ with
              | PosInfinity => Some (drop (Z.to_nat s) (content e))
              | _ =>
                  match safe_offset end_ with
                  | Some e' =>
                      if s <=? e'
                      then Some (take (Z.to_nat (e' - s + 1)) (drop (Z.to_nat s) (content e)))
                      else None
                  | None => None
                  end
              end
          end
      end
  end.

End FS.

(** ** Artifact server *)

Module Artifact.
Import JS FS.

(** A response: [NextResponse.json({ error: message }, { status })], or a
    [Response] around a read stream, with the bytes the stream delivers. *)
Inductive Response :=
| Json (status : Z) (error : jsstring)
| File (status : Z) (headers : list (jsstring * jsstring)) (body : list byte).

(** The double quote, as a string. *)
Definition quote : jsstring := [34%N].

(** A header value the [Response] constructor accepts, as the Fetch
    standard has it: a byte string without NUL, CR and LF.  (The values built
    below neither start nor end with white space.) *)
Definition valid_header_value (v : jsstring) : bool :=
  forallb (fun c => (c <=? 255) && negb (c =? 0) && negb (c =? 10) && negb (c =? 13))%N v.

Definition disposition (decoded : jsstring) : jsstring :=
  js "attachment; filename=" ++ quote ++ decoded ++ quote.

(** The [switch] on the file extension. *)
Definition contentType (actualFilename : jsstring) : jsstring :=
  let ext := toLowerCase (List.last (split 46 actualFilename) []) in
  if bool_decide (ext = js "mp4") then js "video/mp4"
  else if bool_decide (ext = js "mp3") then js "audio/mpeg"
  else if bool_decide (ext = js "webm") then js "video/webm"
  else if bool_decide (ext = js "m4a") then js "audio/mp4"
  else js "application/octet-stream".

(** The file the request resolves to: the first entry whose name starts
    with the job id.  The outer [None] is a throwing [readdirSync]. *)
Definition resolve (d : Dir) (downloadId : jsstring) : option (option jsstring) :=
  List.find (fun f => startsWith f downloadId) <$> readdirSync d.

(** [start] and [end] of the [Range] header.  [fileSize] is a safe
    integer, and so [fileSize - 1] is exact. *)
Definition range_bounds (range : jsstring) (fileSize : Z) : number * number :=
  let parts := split 45 (replace range (js "bytes=") []) in
  let start := parseInt (List.nth 0 parts []) in
  let end_ :=
    match List.nth_error parts 1 with
    | Some (c :: p) => parseInt (c :: p)
    | _ => Int (fileSize - 1)
    end in
  (start, end_).

Definition failed : Response := Json 500 (js "Failed to download file").
Definition not_found : Response := Json 404 (js "File not found or has expired").

(** [GET(req, { params })] with [params = { downloadId, filename }] and
    [range = req.headers.get(range)] ([None] for [null]).  Everything that
    throws inside the [try] ends in [failed]. *)
Definition GET (d : Dir) (downloadId filename : jsstring) (range : option jsstring)
    : Response :=
  if bool_decide (downloadId = []) || bool_decide (filename = []) then
    Json 400 (js "Missing parameters")
  else
    match resolve d downloadId with
    | None => failed
    | Some None => not_found
    | Some (Some actualFilename) =>
        let filePath := join tempDir actualFilename in
        if negb (existsSync d filePath) then not_found
        else
          match statSync d filePath with
          | None => failed
          | Some fileSize =>
              match range with
              | Some (c :: r) =>
                  let '(start, end_) := range_bounds (c :: r) fileSize in
                  let chunkSize := plus (minus end_ start) (Int 1) in
                  match createReadStream d filePath (Some (start, end_)),
                        decodeURIComponent filename with
                  | Some stream, Some decoded =>
                      if valid_header_value (disposition decoded) then
                        File 206
                          [ (js "Content-Range",
                             js "bytes " ++ Number_toString start ++ js "-"
                               ++ Number_toString end_ ++ js "/" ++ toString fileSize);
                            (js "Accept-Ranges", js "bytes");
                            (js "Content-Length", Number_toString chunkSize);
                            (js "Content-Type", contentType actualFilename);
                            (js "Content-Disposition", disposition decoded);
                            (js "Cache-Control", js "no-cache") ]
                          stream
                      else failed
                  | _, _ => failed
                  end
              | _ =>
                  match createReadStream d filePath None, decodeURIComponent filename with
                  | Some stream, Some decoded =>
                      if valid_header_value (disposition decoded) then
                        File 200
                          [ (js "Content-Type", contentType actualFilename);
                            (js "Content-Length", toString fileSize);
                            (js "Content-Disposition", disposition decoded);
                            (js "Cache-Control", js "no-cache") ]
                          stream
                      else failed
                  | _, _ => failed
                  end
              end
          end
    end.

(** *** What a response shows *)

Definition status_of (r : Response) : Z :=
  match r with Json st _ => st | File st _ _ => st end.

Definition body_of (r : Response) : list byte :=
  match r with Json _ _ => [] | File _ _ b => b end.

Definition header (h : jsstring) (r : Response) : option jsstring :=
  match r with
  | Json _ _ => None
  | File _ hs _ => snd <$> List.find (fun kv => bool_decide (kv.1 = h)) hs
  end.

(** The response without its [Content-Disposition] header. *)
Definition without_disposition (r : Response) : Response :=
  match r with
  | Json st e => Json st e
  | File st hs b =>
      File st (List.filter (fun kv => negb (bool_decide (kv.1 = js "Content-Disposition"))) hs) b
  end.

(** The file name of an answered request: not empty, a well-formed
    percent-encoding, and decoding to something a header can carry. *)
Definition acceptable (filename : jsstring) : Prop :=
  filename ≠ [] ∧
  ∃ decoded, decodeURIComponent filename = Some decoded ∧
             valid_header_value (disposition decoded) = true.

(** A file of one hundred bytes under the job id [job1]. *)
Definition hundred : Dir :=
  Some [ mkEntry (js "job1.mp4") (repeat "x"%byte 100) true ].

End Artifact.

(** ** Download orchestrator: jobs, event streams, cleanup timers *)

Module Orchestrator.
Import JS FS Progress RateLimit.

(** The events a job writes to its stream ([data: {...}] records), by
    their [type] field. *)
Inductive Event :=
| Started (downloadId message : jsstring)
| ProgressEvent (downloadId : jsstring) (progress : DownloadProgress)
| Processing (downloadId message : jsstring)
| Complete (downloadId filename size downloadUrl : jsstring)
| Error (downloadId error : jsstring).

(** The controller of a job's [ReadableStream]: what was enqueued, and
    whether [close()] was called.  The consumer is taken to read the stream
    to its end: a stream is closed by [close()] only. *)
Record Stream := mkStream { queue : list Event; closed : bool }.

(** A timeout pending in the runtime, with what its callback closes over. *)
Record Timeout := mkTimeout {
  handle : nat;
  due : Z;
  filePath : jsstring;
  owner : jsstring
}.

(** [{ process, startTime }]; the child process is kept as its argument
    list. *)
Record Download := mkDownload { process : list jsstring; startTime : Z }.

(** The module-level maps of the route, the timeouts of the runtime, the
    download directory, the stream controllers of the jobs started so far and
    the signals sent to their processes. *)
Record World := mkWorld {
  rateLimits : gmap jsstring Limit;
  activeDownloads : gmap jsstring Download;
  fileCleanupTimers : gmap jsstring nat;
  timeouts : list Timeout;
  next_handle : nat;
  dir : Dir;
  streams : gmap jsstring Stream;
  signals : list (jsstring * jsstring)
}.

Definition init : World := mkWorld ∅ ∅ ∅ [] O None ∅ [].

Definition with_rateLimits (f : gmap jsstring Limit → gmap jsstring Limit) (w : World) :=
  mkWorld (f (rateLimits w)) (activeDownloads w) (fileCleanupTimers w) (timeouts w)
          (next_handle w) (dir w) (streams w) (signals w).
Definition with_activeDownloads (f : gmap jsstring Download → gmap jsstring Download)
    (w : World) :=
  mkWorld (rateLimits w) (f (activeDownloads w)) (fileCleanupTimers w) (timeouts w)
          (next_handle w) (dir w) (streams w) (signals w).
Definition with_fileCleanupTimers (f : gmap jsstring nat → gmap jsstring nat) (w : World) :=
  mkWorld (rateLimits w) (activeDownloads w) (f (fileCleanupTimers w)) (timeouts w)
          (next_handle w) (dir w) (streams w) (signals w).
Definition with_timeouts (f : list Timeout → list Timeout) (w : World) :=
  mkWorld (rateLimits w) (activeDownloads w) (fileCleanupTimers w) (f (timeouts w))
          (next_handle w) (dir w) (streams w) (signals w).
Definition with_next_handle (f : nat → nat) (w : World) :=
  mkWorld (rateLimits w) (activeDownloads w) (fileCleanupTimers w) (timeouts w)
          (f (next_handle w)) (dir w) (streams w) (signals w).
Definition with_dir (f : Dir → Dir) (w : World) :=
  mkWorld (rateLimits w) (activeDownloads w) (fileCleanupTimers w) (timeouts w)
          (next_handle w) (f (dir w)) (streams w) (signals w).
Definition with_streams (f : gmap jsstring Stream → gmap jsstring Stream) (w : World) :=
  mkWorld (rateLimits w) (activeDownloads w) (fileCleanupTimers w) (timeouts w)
          (next_handle w) (dir w) (f (streams w)) (signals w).
Definition with_signals (f : list (jsstring * jsstring) → list (jsstring * jsstring))
    (w : World) :=
  mkWorld (rateLimits w) (activeDownloads w) (fileCleanupTimers w) (timeouts w)
          (next_handle w) (dir w) (streams w) (f (signals w)).

(** *** Handlers as computations that may throw

    A handler runs on the world and either returns or throws; what it did
    before throwing stays done. *)
Definition M (A : Type) : Type := World → World * option A.

Definition ret {A} (a : A) : M A := fun w => (w, Some a).
Definition throw {A} : M A := fun w => (w, None).
Definition bind {A B} (m : M A) (k : A → M B) : M B :=
  fun w => match m w with
           | (w', Some a) => k a w'
           | (w', None) => (w', None)
           end.
Definition try_catch {A} (m : M A) (h : M A) : M A :=
  fun w => match m w with
           | (w', Some a) => (w', Some a)
           | (w', None) => h w'
           end.
Definition modify (f : World → World) : M unit := fun w => (f w, Some tt).
Definition read {A} (f : World → A) : M A := fun w => (w, Some (f w)).
Definition lift {A} (o : option A) : M A := fun w => (w, o).

#[global] Instance M_ret : MRet M := @ret.
#[global] Instance M_bind : MBind M := fun A B k m => bind m k.

(** The world a handler leaves behind, returned or thrown. *)
Definition exec_handler {A} (m : M A) (w : World) : World := (m w).1.

Fixpoint for_each {A} (xs : list A) (body : A → M unit) : M unit :=
  match xs with
  | [] => ret tt
  | x :: xs' => body x ;; for_each xs' body
  end.

(** [controller.enqueue(...)] on the stream of [downloadId]: a [TypeError]
    once the stream is closed. *)
Definition enqueue (downloadId : jsstring) (ev : Event) : M unit :=
  fun w =>
    match streams w !! downloadId with
    | Some s =>
        if closed s then (w, None)
        else (with_streams <[downloadId := mkStream (queue s ++ [ev]) false]> w, Some tt)
    | None => (w, None)
    end.

(** [controller.close()]: a [TypeError] if already closed. *)
Definition close (downloadId : jsstring) : M unit :=
  fun w =>
    match streams w !! downloadId with
    | Some s =>
        if closed s then (w, None)
        else (with_streams <[downloadId := mkStream (queue s) true]> w, Some tt)
    | None => (w, None)
    end.

(** *** Cleanup timers *)

(** The callback of the timeout set by [scheduleFileCleanup]. *)
Definition cleanup (filePath downloadId : jsstring) : M unit :=
  try_catch
    ((exists_ ← read (fun w => existsSync (dir w) filePath);
      if exists_ : bool then
        d ← ((fun w => (w, unlinkSync (dir w) filePath)) : M Dir);
        modify (with_dir (fun _ => d))
      else ret tt);;
     modify (with_fileCleanupTimers (delete downloadId)))
    (ret tt).

(** [scheduleFileCleanup(filePath, downloadId)] at time [now]: a timeout
    of three minutes is set and stored under the job id. *)
Definition scheduleFileCleanup (now : Z) (filePath downloadId : jsstring) : M unit :=
  timer ← read next_handle;
  modify (with_next_handle S);;
  modify (with_timeouts
            (fun ts => ts ++ [mkTimeout timer (now + 3 * 60 * 1000) filePath downloadId]));;
  modify (with_fileCleanupTimers <[downloadId := timer]>).

(** [clearTimeout(timer)] *)
Definition clearTimeout (timer : nat) : M unit :=
  modify (with_timeouts (List.filter (fun t => negb (Nat.eqb (handle t) timer)))).

(** The event loop at time [now]: the timeouts that are due leave the
    list of the runtime and their callbacks run, in the order the timeouts
    were set. *)
Definition is_due (now : Z) (t : Timeout) : bool := due t <=? now.

Definition callbacks (ts : list Timeout) (w : World) : World :=
  fold_left (fun w' t => exec_handler (cleanup (filePath t) (owner t)) w') ts w.

Definition advance (now : Z) (w : World) : World :=
  callbacks (List.filter (is_due now) (timeouts w))
            (with_timeouts (List.filter (fun t => negb (is_due now t))) w).

(** *** The download route *)

(** A response: [NextResponse.json({ field: message }, { status })]; the
    answer of the [catch] of [POST], which has status 500 and carries the
    message of the error caught; or the event stream of a job. *)
Inductive Response :=
| Json (status : Z) (field message : jsstring)
| Caught
| EventStream (downloadId : jsstring).

(** [youtubeRegex.test(url)] for
    [/^(https?:\/\/)?(www\.)?(youtube\.com|youtu\.be)\/.+/]: every way of
    taking or skipping the two optional groups is tried. *)
Definition optionally (p s : jsstring) : list jsstring :=
  match strip_prefix p s with
  | Some r => [r; s]
  | None => [s]
  end.

Definition is_line_terminator (c : N) : bool :=
  ((c =? 10) || (c =? 13) || (c =? 8232) || (c =? 8233))%N.

Definition youtube_tail (s : jsstring) : bool :=
  existsb (fun host =>
             match strip_prefix (host ++ js "/") s with
             | Some (c :: _) => negb (is_line_terminator c)
             | _ => false
             end)
          [js "youtube.com"; js "youtu.be"].

Definition youtubeRegex_test (url : jsstring) : bool :=
  existsb youtube_tail
    (s1 ← optionally (js "https://") url ++ optionally (js "http://") url;
     optionally (js "www.") s1).

(** The arguments the downloader is started with. *)
Definition ytDlpArgs (url format downloadId : jsstring) : list jsstring :=
  [ url; js "--no-playlist"; js "--extract-flat"; js "false"; js "--output";
    join tempDir (downloadId ++ js ".%(ext)s"); js "--progress"; js "--newline" ]
  ++ (if bool_decide (format = js "mp3")
      then [ js "--extract-audio"; js "--audio-format"; js "mp3";
             js "--audio-quality"; js "192K" ]
      else [ js "--format"; js "best[height<=720]";
             js "--merge-output-format"; js "mp4" ]).

(** [a || b || unknown] on two header values. *)
Definition clientId_of (forwardedFor realIp : option jsstring) : jsstring :=
  match forwardedFor with
  | Some (c :: r) => c :: r
  | _ => match realIp with
         | Some (c :: r) => c :: r
         | _ => js "unknown"
         end
  end.

(** [spawn(yt-dlp, args, ...)] throws before it has made a process when an
    argument holds a null character; every other failure to start arrives
    later, as the [error] event of the process.  The child process is kept as
    its argument list. *)
Definition has_null (s : jsstring) : bool := existsb (N.eqb 0) s.

Definition spawn (args : list jsstring) : M (list jsstring) :=
  if existsb has_null args then throw else ret args.

(** [POST(req)] at time [now].  [url] and [format] are the fields of the
    body that [req.json()] has parsed, strings as [DownloadRequest] has them
    (empty when missing), [forwardedFor] and [realIp] the two request
    headers, and [uuid] is what [randomUUID()] returns.  The [start] callback
    of the stream runs inside the handler, and what it throws ends in the
    [catch] of the handler; the controller of a stream whose [start] has
    thrown is lost with the stream, hence entered here once [spawn] has
    returned. *)
Definition POST (now : Z) (url format : jsstring) (forwardedFor realIp : option jsstring)
    (uuid : jsstring) : M Response :=
  try_catch
    (if bool_decide (url = []) || bool_decide (format = []) then
       ret (Json 400 (js "error") (js "Missing required parameters: url and format"))
     else if negb (youtubeRegex_test url) then
       ret (Json 400 (js "error") (js "Invalid YouTube URL"))
     else
       admitted ← ((fun w =>
                      let '(b, rl) := checkRateLimit now (clientId_of forwardedFor realIp)
                                        (rateLimits w) in
                      (with_rateLimits (fun _ => rl) w, Some b)) : M bool);
       if negb admitted then
         ret (Json 429 (js "error") (js "Rate limit exceeded. Maximum 5 downloads per hour."))
       else
         let downloadId := uuid in
         modify (with_dir (fun d => match d with None => Some [] | Some _ => d end));;
         (* new ReadableStream({ start(controller) { ... } }) *)
         ytDlpProcess ← spawn (ytDlpArgs url format downloadId);
         modify (with_streams <[downloadId := mkStream [] false]>);;
         modify (with_activeDownloads <[downloadId := mkDownload ytDlpProcess now]>);;
         enqueue downloadId (Started downloadId (js "Starting download..."));;
         ret (EventStream downloadId))
    (ret Caught).

(** [ytDlpProcess.stdout.on(data, ...)] of the job [downloadId]. *)
Definition on_stdout (downloadId data : jsstring) : M unit :=
  for_each (split 10 data) (fun line =>
    match trim line with
    | [] => ret tt
    | _ =>
        match parseProgress line with
        | Some progress => enqueue downloadId (ProgressEvent downloadId progress)
        | None => ret tt
        end;;
        if includes line (js "[download] 100%")
           || includes line (js "has already been downloaded")
        then enqueue downloadId (Processing downloadId (js "Processing file..."))
        else ret tt
    end).

(** *** What a chunk of output publishes, line by line

    A line that is not blank publishes a progress event if it holds the
    progress pattern, and then a processing event if it holds a completion
    marker. *)
Definition has_marker (line : jsstring) : bool :=
  includes line (js "[download] 100%") || includes line (js "has already been downloaded").

Definition line_events (downloadId line : jsstring) : list Event :=
  match trim line with
  | [] => []
  | _ =>
      match parseProgress line with
      | Some progress => [ProgressEvent downloadId progress]
      | None => []
      end
      ++ (if has_marker line then [Processing downloadId (js "Processing file...")] else [])
  end.

Definition stdout_events (downloadId data : jsstring) : list Event :=
  concat (map (line_events downloadId) (split 10 data)).

(** The lines of a chunk that are not blank and hold a completion
    marker. *)
Definition marker_lines (data : jsstring) : list jsstring :=
  List.filter (fun line => negb (bool_decide (trim line = [])) && has_marker line)
    (split 10 data).

(** [ytDlpProcess.stderr.on(data, ...)] *)
Definition on_stderr (downloadId errorLine : jsstring) : M unit :=
  if includes errorLine (js "ERROR") then
    enqueue downloadId (Error downloadId (js "Download failed: " ++ errorLine));;
    close downloadId;;
    modify (with_activeDownloads (delete downloadId))
  else ret tt.

(** [null] or a number, in a template. *)
Definition code_text (code : option Z) : jsstring :=
  match code with
  | Some n => toString n
  | None => js "null"
  end.

(** The [try] block of the [close] listener: find the downloaded file,
    measure it, schedule its cleanup and publish [complete]. *)
Definition finalize (now : Z) (downloadId : jsstring) : M unit :=
  files ← ((fun w => (w, readdirSync (dir w))) : M (list jsstring));
  match List.find (fun f => startsWith f downloadId) files with
  | Some downloadedFile =>
      let outputPath := join tempDir downloadedFile in
      let finalFilename := replace downloadedFile (downloadId ++ js ".") [] in
      size_ ← ((fun w => (w, statSync (dir w) outputPath)) : M Z);
      let fileSizeInMB := megabytes_toFixed2 size_ in
      scheduleFileCleanup now outputPath downloadId;;
      encoded ← lift (encodeURIComponent finalFilename);
      enqueue downloadId
        (Complete downloadId finalFilename (fileSizeInMB ++ js " MB")
           (js "/api/download-file/" ++ downloadId ++ js "/" ++ encoded))
  | None =>
      enqueue downloadId (Error downloadId (js "Downloaded file not found"))
  end.

(** [ytDlpProcess.on(close, (code) => ...)] at time [now]. *)
Definition on_close (now : Z) (downloadId : jsstring) (code : option Z) : M unit :=
  modify (with_activeDownloads (delete downloadId));;
  (if bool_decide (code = Some 0) then
     try_catch
       (finalize now downloadId)
       (enqueue downloadId (Error downloadId (js "Error processing downloaded file")))
   else
     enqueue downloadId
       (Error downloadId (js "Download failed with code " ++ code_text code)));;
  close downloadId.

(** [ytDlpProcess.on(error, (error) => ...)] *)
Definition on_error (downloadId message : jsstring) : M unit :=
  modify (with_activeDownloads (delete downloadId));;
  enqueue downloadId (Error downloadId (js "Failed to start download: " ++ message));;
  close downloadId.

(** [DELETE(req)]; [downloadId] is the query parameter, [None] if absent. *)
Definition DELETE (downloadId : option jsstring) : M Response :=
  match downloadId with
  | Some (c :: r) =>
      let downloadId := c :: r in
      download ← read (fun w => activeDownloads w !! downloadId);
      match download with
      | Some _ =>
          modify (with_signals (fun l => l ++ [(downloadId, js "SIGTERM")]));;
          modify (with_activeDownloads (delete downloadId));;
          timer ← read (fun w => fileCleanupTimers w !! downloadId);
          match timer with
          | Some t =>
              clearTimeout t;;
              modify (with_fileCleanupTimers (delete downloadId))
          | None => ret tt
          end;;
          ret (Json 200 (js "message") (js "Download cancelled"))
      | None => ret (Json 404 (js "error") (js "Download not found"))
      end
  | _ => ret (Json 400 (js "error") (js "Missing downloadId"))
  end.

(** *** What happens to the server *)

Inductive Input :=
| Post (url format : jsstring) (forwardedFor realIp : option jsstring) (uuid : jsstring)
| Stdout (downloadId data : jsstring)
| Stderr (downloadId data : jsstring)
| Close (downloadId : jsstring) (code : option Z)
| ProcessError (downloadId message : jsstring)
| Delete (downloadId : option jsstring)
| Write (e : Entry).

(** The listeners of a process exist once its job has been started. *)
Definition listening (downloadId : jsstring) (m : M unit) : M unit :=
  fun w => match streams w !! downloadId with
           | Some _ => m w
           | None => (w, Some tt)
           end.

(** A file appears in the directory (or is overwritten). *)
Definition write (e : Entry) (d : Dir) : Dir :=
  Some (List.filter (fun e' => negb (bool_decide (name e' = name e))) (entries d) ++ [e]).

Definition handle_input (now : Z) (i : Input) : World → World :=
  match i with
  | Post url format ff ri uuid => exec_handler (POST now url format ff ri uuid)
  | Stdout id data => exec_handler (listening id (on_stdout id data))
  | Stderr id data => exec_handler (listening id (on_stderr id data))
  | Close id code => exec_handler (listening id (on_close now id code))
  | ProcessError id msg => exec_handler (listening id (on_error id msg))
  | Delete id => exec_handler (DELETE id)
  | Write e => with_dir (write e)
  end.

(** One input at time [now]: the timeouts due by then have run. *)
Definition step (now : Z) (i : Input) (w : World) : World :=
  handle_input now i (advance now w).

Fixpoint run (trace : list (Z * Input)) (w : World) : World :=
  match trace with
  | [] => w
  | (now, i) :: trace' => run trace' (step now i w)
  end.

(** [randomUUID()] returns a non-empty string it has not returned before. *)
Definition fresh (i : Input) (w : World) : Prop :=
  match i with
  | Post _ _ _ _ uuid => uuid ≠ [] ∧ streams w !! uuid = None
  | _ => True
  end.

Fixpoint fresh_trace (trace : list (Z * Input)) (w : World) : Prop :=
  match trace with
  | [] => True
  | (now, i) :: trace' => fresh i (advance now w) ∧ fresh_trace trace' (step now i w)
  end.

(** The worlds the server can be in. *)
Inductive reachable : World → Prop :=
| reachable_init : reachable init
| reachable_step now i w :
    reachable w → fresh i (advance now w) → reachable (step now i w).

(** *** Reading a stream *)

Definition is_started (ev : Event) : bool :=
  match ev with Started _ _ => true | _ => false end.
Definition is_progress (ev : Event) : bool :=
  match ev with ProgressEvent _ _ => true | _ => false end.
Definition is_processing (ev : Event) : bool :=
  match ev with Processing _ _ => true | _ => false end.
Definition is_complete (ev : Event) : bool :=
  match ev with Complete _ _ _ _ => true | _ => false end.
Definition is_error (ev : Event) : bool :=
  match ev with Error _ _ => true | _ => false end.
Definition is_terminal (ev : Event) : bool := is_complete ev || is_error ev.

Definition count_events (p : Event → bool) (evs : list Event) : nat :=
  length (List.filter p evs).

(** The events of the job [downloadId] so far. *)
Definition events (w : World) (downloadId : jsstring) : list Event :=
  match streams w !! downloadId with
  | Some s => queue s
  | None => []
  end.

(** The timeouts of the job [downloadId] that are pending. *)
Definition pending_for (downloadId : jsstring) (w : World) : list Timeout :=
  List.filter (fun t => bool_decide (owner t = downloadId)) (timeouts w).

(** What one input can do to the stream of a job: nothing; start it;
    add progress and processing events while it is open; or add one terminal
    event and close it. *)
Inductive stream_move : option Stream → option Stream → Prop :=
| move_none o : stream_move o o
| move_start o id msg : stream_move o (Some (mkStream [Started id msg] false))
| move_more s evs :
    closed s = false →
    Forall (fun ev => is_progress ev || is_processing ev = true) evs →
    stream_move (Some s) (Some (mkStream (queue s ++ evs) false))
| move_end s t :
    closed s = false → is_terminal t = true →
    stream_move (Some s) (Some (mkStream (queue s ++ [t]) true)).

(** A stream in good order: it begins with the one [started] event; while
    open it holds no terminal event; once closed, the one terminal event is
    its last. *)
Definition stream_in_order (s : Stream) : Prop :=
  match queue s with
  | Started _ _ :: body =>
      count_events is_started body = O ∧
      if closed s then
        ∃ body' t, body = body' ++ [t] ∧ is_terminal t = true ∧
                   count_events is_terminal body' = O
      else count_events is_terminal body = O
  | _ => False
  end.

(** No file appears under a name that starts with [downloadId]. *)
Definition writes_nothing_for (downloadId : jsstring) (i : Input) : Prop :=
  match i with
  | Write e => startsWith (name e) downloadId = false
  | _ => True
  end.

(** The processing events that an input makes for the job [downloadId],
    if the stream of the job is open: one for each marker line of a chunk of
    output of its process. *)
Definition markers_for (downloadId : jsstring) (i : Input) : nat :=
  match i with
  | Stdout id data =>
      if bool_decide (id = downloadId) then length (marker_lines data) else O
  | _ => O
  end.

(** The process of [downloadId] does not close with exit code 0. *)
Definition no_clean_exit_of (downloadId : jsstring) (i : Input) : Prop :=
  match i with
  | Close id code => id = downloadId → code ≠ Some 0
  | _ => True
  end.

(** [w'] is [w] with more progress and processing events, if any, on the
    open stream of [id]. *)
Definition appends (id : jsstring) (w w' : World) : Prop :=
  w' = w ∨
  ∃ s evs, streams w !! id = Some s ∧ closed s = false ∧
           Forall (fun ev => is_progress ev || is_processing ev = true) evs ∧
           w' = with_streams <[id := mkStream (queue s ++ evs) false]> w.

(** The timers and the registry speak of started jobs only, whose ids are
    not empty; and a job in the registry has neither a complete event nor a
    timer yet. *)
Definition consistent (w : World) : Prop :=
  (∀ t, t ∈ timeouts w → is_Some (streams w !! owner t))
  ∧ (∀ id : jsstring, is_Some (fileCleanupTimers w !! id) → is_Some (streams w !! id))
  ∧ (∀ id : jsstring, is_Some (streams w !! id) → id ≠ [])
  ∧ (∀ id : jsstring, is_Some (activeDownloads w !! id) →
       is_Some (streams w !! id)
       ∧ count_events is_complete (events w id) = O
       ∧ fileCleanupTimers w !! id = None
       ∧ pending_for id w = []).

(** The job [id] was started, is in the registry no more, and has neither
    a complete event nor a timer. *)
Definition cancelled (id : jsstring) (w : World) : Prop :=
  is_Some (streams w !! id)
  ∧ activeDownloads w !! id = None
  ∧ count_events is_complete (events w id) = O
  ∧ fileCleanupTimers w !! id = None
  ∧ pending_for id w = [].

(** The artifact [f] of the job [id] is the only file under that job id
    and can be deleted, and either the timeout that deletes it at time [D] is
    pending or no file is left under the job id. *)
Definition retained (id f : jsstring) (D : Z) (w : World) : Prop :=
  is_Some (dir w)
  ∧ (∀ e, e ∈ entries (dir w) → startsWith (name e) id = true →
          name e = f ∧ removable e = true)
  ∧ ((∃ t, t ∈ timeouts w ∧ filePath t = join tempDir f ∧ due t = D)
     ∨ (∀ e, e ∈ entries (dir w) → startsWith (name e) id = false)).

(** The entry [e] is the one file under the job id [id]. *)
Definition only_file (id : jsstring) (e : Entry) (w : World) : Prop :=
  is_Some (dir w)
  ∧ List.filter (fun e' => startsWith (name e') id) (entries (dir w)) = [e].

(** *** Sample runs *)

Definition sample_post (uuid : jsstring) : Input :=
  Post (js "https://youtu.be/abc123") (js "mp3") (Some (js "10.0.0.7")) None uuid.

(** A job whose process exits with code 1 before any output. *)
Definition failed_early : list (Z * Input) :=
  [ (0, sample_post (js "job1")); (900, Close (js "job1") (Some 1)) ].

(** A job whose process reports two finished transfers, as it does when
    it fetches two streams to merge. *)
Definition two_markers : list (Z * Input) :=
  [ (0, sample_post (js "job1"));
    (500, Stdout (js "job1") (js "[download] 100% of 9.31MiB in 00:04"));
    (900, Stdout (js "job1") (js "[download] 100% of 1.02MiB in 00:01")) ].

(** A job that runs to its end: progress, the finished transfer, the
    file written by the downloader, exit code 0. *)
Definition full_run : list (Z * Input) :=
  [ (0, sample_post (js "job1"));
    (500, Stdout (js "job1") (js "[download]  45.3% of 10.00MiB at 1.20MiB/s ETA 00:05"));
    (900, Stdout (js "job1") (js "[download] 100% of 10.00MiB in 00:05"));
    (950, Write (mkEntry (js "job1.mp3") (repeat "x"%byte 5000) true));
    (1000, Close (js "job1") (Some 0)) ].

(** [full_run] just before the process exits. *)
Definition before_exit : World := run (take 4 full_run) init.

(** A job whose only file carries the job id without the dot after it. *)
Definition odd_name : list (Z * Input) :=
  [ (0, sample_post (js "job1"));
    (950, Write (mkEntry (js "job1-a.mp4") (repeat "x"%byte 5000) true));
    (1000, Close (js "job1") (Some 0)) ].

(** A job whose process writes a line with [ERROR] to its error stream
    and still produces its file and exits with code 0. *)
Definition late_success : list (Z * Input) :=
  [ (0, sample_post (js "job1"));
    (500, Stderr (js "job1") (js "ERROR: unable to download video subtitles"));
    (950, Write (mkEntry (js "job1.mp3") (repeat "x"%byte 5000) true));
    (1000, Close (js "job1") (Some 0)) ].

(** The [type] field of an event. *)
Definition type_of (ev : Event) : jsstring :=
  match ev with
  | Started _ _ => js "started"
  | ProgressEvent _ _ => js "progress"
  | Processing _ _ => js "processing"
  | Complete _ _ _ _ => js "complete"
  | Error _ _ => js "error"
  end.

(** A job is cancelled while its process runs; a line of output that was
    under way still arrives, then the process closes, ended by the signal
    (exit code [null]). *)
Definition cancel_then_exit : list (Z * Input) :=
  [ (0, sample_post (js "job1"));
    (500, Stdout (js "job1") (js "[download]  45.3% of 10.00MiB at 1.20MiB/s ETA 00:05"));
    (1200, Delete (Some (js "job1")));
    (1201, Stdout (js "job1") (js "[download]  52.0% of 10.00MiB at 1.20MiB/s ETA 00:04"));
    (1250, Close (js "job1") None) ].

(** [cancel_then_exit] up to the cancellation request. *)
Definition running : World := run (take 2 cancel_then_exit) init.

(** The cancellation request arrives when the process has just finished
    its work and is about to exit with code 0. *)
Definition cancel_too_late : list (Z * Input) :=
  [ (0, sample_post (js "job1"));
    (950, Write (mkEntry (js "job1.mp3") (repeat "x"%byte 5000) true));
    (999, Delete (Some (js "job1")));
    (1000, Close (js "job1") (Some 0)) ].

(** A job that runs to its end, with a file that [unlinkSync] fails
    on. *)
Definition undeletable : list (Z * Input) :=
  [ (0, sample_post (js "job1"));
    (950, Write (mkEntry (js "job1.mp3") (repeat "x"%byte 5000) false));
    (1000, Close (js "job1") (Some 0)) ].

(** A directory whose one entry cannot be deleted. *)
Definition stuck_file : World :=
  with_fileCleanupTimers <[js "job1" := O]>
    (with_dir (fun _ => Some [ mkEntry (js "job1.mp4") [] false ]) init).

(** *** Two timeouts for one job

    A directory with two files of the job [job1], and the cleanup of each
    scheduled under that job id, one second apart. *)
Definition two_files : World :=
  with_dir (fun _ => Some [ mkEntry (js "job1.webm") [] true;
                            mkEntry (js "job1.mp4") [] true ]) init.

Definition scheduled_twice : World :=
  exec_handler
    (scheduleFileCleanup 0 (join tempDir (js "job1.webm")) (js "job1");;
     scheduleFileCleanup 1000 (join tempDir (js "job1.mp4")) (js "job1"))
    two_files.

(** Running a handler by hand: the monad unfolded, the record fields
    computed. *)
Ltac mrun :=
  unfold exec_handler, mbind, M_bind, bind, try_catch, read, modify, lift, ret,
    throw, mret, M_ret in *.

Ltac wsimpl :=
  cbn [rateLimits activeDownloads fileCleanupTimers timeouts next_handle dir
       streams signals with_rateLimits with_activeDownloads
       with_fileCleanupTimers with_timeouts with_next_handle with_dir
       with_streams with_signals fst snd queue closed fmap option_fmap
       option_map] in *.

End Orchestrator.

(** ** Auxiliary definitions for the properties of the download route *)

Module Routes.
Import JS FS Progress RateLimit Orchestrator.

(** What the [stdout] listener does with one line. *)
Definition on_line (downloadId line : jsstring) : M unit :=
  match trim line with
  | [] => ret tt
  | _ =>
      match parseProgress line with
      | Some progress => enqueue downloadId (ProgressEvent downloadId progress)
      | None => ret tt
      end;;
      if includes line (js "[download] 100%")
         || includes line (js "has already been downloaded")
      then enqueue downloadId (Processing downloadId (js "Processing file..."))
      else ret tt
  end.

(** The stream of [id] exists and is open. *)
Definition open_at (id : jsstring) (w : World) : Prop :=
  ∃ s, streams w !! id = Some s ∧ closed s = false.

(** A registered job: its stream is open, and its process was started on
    an address that passed the check. *)
Definition registered_well (w : World) : Prop :=
  ∀ (id : jsstring) (dl : Download),
    activeDownloads w !! id = Some dl →
    (∃ s, streams w !! id = Some s ∧ closed s = false)
    ∧ (∃ url format, process dl = ytDlpArgs url format id ∧ youtubeRegex_test url = true).

End Routes.

(** ** Auxiliary definitions for the properties of the rate limiter *)

Module LimiterDefs.
Import JS RateLimit.

(** The requests of [clientId] among [reqs]. *)
Definition of_client (clientId : jsstring) (reqs : list (Z * jsstring)) : list (Z * jsstring) :=
  List.filter (fun r : Z * jsstring => bool_decide (r.2 = clientId)) reqs.

(** The verdicts that the requests of [clientId] got. *)
Fixpoint verdicts_of (clientId : jsstring) (reqs : list (Z * jsstring)) (verdicts : list bool)
    : list bool :=
  match reqs, verdicts with
  | r :: reqs', v :: vs =>
      if bool_decide (r.2 = clientId) then v :: verdicts_of clientId reqs' vs
      else verdicts_of clientId reqs' vs
  | _, _ => []
  end.

(** Every entry of the table counts between one and five admissions. *)
Definition counts_in_range (rl : gmap jsstring Limit) : Prop :=
  ∀ (c : jsstring) (l : Limit), rl !! c = Some l → 1 <= count l <= 5.

End LimiterDefs.

Module RollingDefs.
Import JS RateLimit.

(** How many more jobs of [clientId] can be admitted in the hour that
    starts at [from], from a state of the table in which every request still
    to come is made at [from] or later: those left in the open window, and
    five more if that window ends before the hour does. *)
Definition still_admissible (clientId : jsstring) (from : Z) (rl : gmap jsstring Limit) : Z :=
  match rl !! clientId with
  | Some l => (5 - count l) + (if resetTime l <? from + 3600000 - 1 then 5 else 0)
  | None => 5
  end.

(** One request opens a window, four more follow in its last
    milliseconds, five more right after it has expired. *)
Definition nine : list (Z * jsstring) :=
  [ (0, js "10.0.0.7"); (3599997, js "10.0.0.7"); (3599998, js "10.0.0.7");
    (3599999, js "10.0.0.7"); (3600000, js "10.0.0.7"); (3600001, js "10.0.0.7");
    (3600002, js "10.0.0.7"); (3600003, js "10.0.0.7"); (3600004, js "10.0.0.7");
    (3600005, js "10.0.0.7") ].

End RollingDefs.

(** ** Auxiliary definitions for the properties of the cleanup timers *)

Module TimerDefs.
Import JS FS Orchestrator.

(** Every pending timeout is for a file of the download directory whose
    name begins with the id of the job it belongs to, a job that has been
    started. *)
Definition timers_on_job_files (w : World) : Prop :=
  ∀ t, t ∈ timeouts w →
    is_Some (streams w !! owner t)
    ∧ ∃ f, filePath t = join tempDir f ∧ startsWith f (owner t) = true.

(** [full_run], after which a file that belongs to no job appears in the
    directory. *)
Definition with_notes : World :=
  step 2000 (Write (mkEntry (js "notes.txt") [] true)) (run full_run init).

End TimerDefs.

(** ** The assistant: phases, progress events and the two routes that
       stream them

    [HumanizedAIAgent] of [src/unnamed/part_000], the file route ([POST] and
    [GET] of the first module of [src/app/api/files/process/route.ts]) and the
    deep-search route ([GET] of [src/unnamed/part_001]).  The services the
    agent asks (the language model, the search engine, the reading of a file)
    are the environment: what each request ends in is given, request by
    request. *)

Module Agent.
Import JS.

(** What a promise ends in: rejected with an [Error] of this message, or
    fulfilled. *)
Inductive Outcome (A : Type) :=
| Fails (message : jsstring)
| Answers (a : A).
Arguments Fails {A} message.
Arguments Answers {A} a.

(** A [File].  [reading] is what the [FileReader] delivers for it: its
    text, or nothing when reading fails. *)
Record File := mkFile {
  name : jsstring;
  type : jsstring;
  size : Z;
  lastModified : Z;
  reading : option jsstring
}.

(** What the agent is handed as [files]: [length], [item] and what an
    index access [files[i]] gives. *)
Record FileList := mkFileList {
  length : nat;
  item : nat → option File;
  index : nat → option File
}.

(** One item of a search reply. *)
Record Item := mkItem { title : jsstring; snippet : jsstring; link : jsstring; displayLink : jsstring }.

Record SearchResult := mkSearchResult { query : jsstring; results : list Item }.

Section Agent.

(** The JavaScript values that [JSON.parse] yields, and what
    [analyzeFileContent] and [processFiles] make of an analysis text:
    [(JSON.parse(analysis), or { insights: [analysis] } when that throws)
     .insights || []]; [None] when the property access throws, the parsed
    value being [null]. *)
Variable Value : Type.
Variable insights_of : jsstring → option Value.
(** [['File could not be processed']] *)
Variable could_not_be_processed : Value.

Inductive Metadata :=
| Described (name : jsstring) (size lastModified : Z)
| Undescribed (name error : jsstring).

(** [interface FileAnalysisResult] *)
Record FileAnalysisResult := mkResult {
  result_type : jsstring;
  content : jsstring;
  metadata : Metadata;
  insights : Value
}.

(** The [result] of a finished phase. *)
Inductive Payload :=
| Text (s : jsstring)
| FileResults (rs : list FileAnalysisResult)
| Queries (qs : list jsstring)
| SearchResults (rs : list SearchResult).

(** The records the two routes write to their stream, by their [type]
    field.  The progress of a [phase_update] is [(i / n) * 100]. *)
Inductive Event :=
| PhaseStart (phaseId description : jsstring)
| PhaseUpdate (phaseId : jsstring) (i n : nat)
| PhaseComplete (phaseId : jsstring) (result : Payload)
| ErrorEvent (error : jsstring)
| CompleteEvent (result : jsstring).

(** The environment: what the [n]-th request to the language model ends
    in (the text of the first candidate of the reply, if the reply holds one),
    and what the [n]-th request to the search engine ends in (the [items] of
    the reply, if it holds any). *)
Record Env := mkEnv {
  gemini : nat → Outcome (option jsstring);
  search : nat → Outcome (option (list Item))
}.

(** The controller of the stream, and the requests made so far. *)
Record State := mkState {
  queue : list Event;
  closed : bool;
  gemini_calls : nat;
  search_calls : nat
}.

Definition start_state : State := mkState [] false O O.

(** *** Computations that may throw an [Error] with a message *)

Definition M (A : Type) : Type := State → State * Outcome A.

Definition ret {A} (a : A) : M A := fun st => (st, Answers a).
Definition throw {A} (message : jsstring) : M A := fun st => (st, Fails message).
Definition bind {A B} (m : M A) (k : A → M B) : M B :=
  fun st => match m st with
            | (st', Answers a) => k a st'
            | (st', Fails message) => (st', Fails message)
            end.
Definition try_catch {A} (m : M A) (h : jsstring → M A) : M A :=
  fun st => match m st with
            | (st', Answers a) => (st', Answers a)
            | (st', Fails message) => h message st'
            end.

#[global] Instance Agent_ret : MRet M := @ret.
#[global] Instance Agent_bind : MBind M := fun A B k m => bind m k.

(** The message of the [TypeError] of a controller that is closed. *)
Definition already_closed : jsstring := js "Invalid state: Controller is already closed".

(** [controller.enqueue(...)] and [controller.close()] *)
Definition enqueue (ev : Event) : M unit :=
  fun st =>
    if closed st then (st, Fails already_closed)
    else (mkState (queue st ++ [ev]) false (gemini_calls st) (search_calls st), Answers tt).

Definition close : M unit :=
  fun st =>
    if closed st then (st, Fails already_closed)
    else (mkState (queue st) true (gemini_calls st) (search_calls st), Answers tt).

(** [interface AgentCallbacks] *)
Record AgentCallbacks := mkCallbacks {
  onPhaseStart : jsstring → jsstring → M unit;
  onPhaseUpdate : jsstring → nat → nat → M unit;
  onPhaseComplete : jsstring → Payload → M unit;
  onError : jsstring → M unit
}.

(** The callbacks that both routes hand to the agent. *)
Definition stream_callbacks : AgentCallbacks := {|
  onPhaseStart phaseId description := enqueue (PhaseStart phaseId description);
  onPhaseUpdate phaseId i n := enqueue (PhaseUpdate phaseId i n);
  onPhaseComplete phaseId result := enqueue (PhaseComplete phaseId result);
  onError error := enqueue (ErrorEvent error);; close
|}.

(** *** The agent *)

Variable env : Env.
Variable callbacks : AgentCallbacks.

Definition quote : jsstring := [34%N].

(** The brand line that opens every reply. *)
Definition brand : jsstring :=
  js "**ScynV** <img src=" ++ quote ++ js "/ai-logo.ico" ++ quote ++ js " alt=" ++ quote
    ++ js "AI" ++ quote ++ js " style=" ++ quote
    ++ js "width: 16px; height: 16px; display: inline; margin-left: 4px;" ++ quote ++ js ">".

Definition formatFinalResponse (response : jsstring) : jsstring :=
  brand ++ [10; 10]%N ++ response.

Definition apology : jsstring :=
  js "I apologize, but I couldn't generate a response at the moment. Please try again.".

(** [callGemini(prompt)]: the request is made, and the text of the reply
    is returned, or the apology when the reply holds no text.  The prompt goes
    to the service and plays no other role: the environment answers request by
    request. *)
Definition callGemini : M jsstring :=
  fun st =>
    let st' := mkState (queue st) (closed st) (S (gemini_calls st)) (search_calls st) in
    match gemini env (gemini_calls st) with
    | Fails message => (st', Fails message)
    | Answers (Some (c :: text)) => (st', Answers (c :: text))
    | Answers _ => (st', Answers apology)
    end.

Definition analyzeMessage (message : jsstring) : M jsstring := callGemini.
Definition generateHumanizedResponse (message analysis : jsstring)
    (fileResults : list FileAnalysisResult) : M jsstring := callGemini.
Definition polishResponse (response : jsstring) : M jsstring := callGemini.
Definition synthesizeSearchResults (originalQuery : jsstring)
    (searchResults : list SearchResult) : M jsstring := callGemini.
Definition humanizeSearchResponse (query synthesizedInfo : jsstring) : M jsstring := callGemini.

(** The message of the [TypeError] for [file.type] when [file] is
    [undefined], as V8 words it. *)
Definition type_of_undefined : jsstring :=
  js "Cannot read properties of undefined (reading 'type')".

(** [extractFileContent(file)]; the promise is rejected when the file is
    [undefined] or cannot be read. *)
Definition extractFileContent (file : option File) : M jsstring :=
  match file with
  | None => throw type_of_undefined
  | Some f =>
      match reading f with
      | Some text => ret text
      | None => throw (js "Failed to read file")
      end
  end.

(** [analyzeFileContent(fileName, content, fileType)], with the
    [.insights || []] that [processFiles] applies to what it returns. *)
Definition analyzeFileContent (fileName content fileType : jsstring) : M Value :=
  analysis ← callGemini;
  match insights_of analysis with
  | Some v => ret v
  | None => throw (js "Cannot read properties of null (reading 'insights')")
  end.

(** The body of the loop of [processFiles], for the index [i]. *)
Definition processFile (files : FileList) (i : nat) (results : list FileAnalysisResult)
    : M (list FileAnalysisResult) :=
  let file := index files i in
  onPhaseUpdate callbacks (js "file_processing") i (length files);;
  try_catch
    (fileContent ← extractFileContent file;
     match file with
     | None => throw type_of_undefined
     | Some f =>
         insights_ ← analyzeFileContent (name f) fileContent (type f);
         ret (results ++ [mkResult (type f) fileContent
                            (Described (name f) (size f) (lastModified f)) insights_])
     end)
    (fun _ =>
       match file with
       | None => throw type_of_undefined
       | Some f =>
           ret (results ++ [mkResult (type f) []
                              (Undescribed (name f) (js "Failed to process file"))
                              could_not_be_processed])
       end).

(** [for (let i = ...; i < files.length; i++)], with [todo] rounds to
    go. *)
Fixpoint processFiles_from (files : FileList) (i todo : nat)
    (results : list FileAnalysisResult) : M (list FileAnalysisResult) :=
  match todo with
  | O => ret results
  | S todo' =>
      results' ← processFile files i results;
      processFiles_from files (S i) todo' results'
  end.

Definition processFiles (files : FileList) : M (list FileAnalysisResult) :=
  processFiles_from files O (length files) [].

(** [processMessage(message, files)] *)
Definition processMessage (message : jsstring) (files : option FileList) : M jsstring :=
  try_catch
    (onPhaseStart callbacks (js "analysis") (js "Understanding your message and context");;
     messageAnalysis ← analyzeMessage message;
     onPhaseComplete callbacks (js "analysis") (Text messageAnalysis);;
     fileResults ←
       match files with
       | Some fl =>
           if (0 <? length fl)%nat then
             onPhaseStart callbacks (js "file_processing")
               (js "Processing your files and extracting insights");;
             fileResults ← processFiles fl;
             onPhaseComplete callbacks (js "file_processing") (FileResults fileResults);;
             ret fileResults
           else ret []
       | None => ret []
       end;
     onPhaseStart callbacks (js "response_generation") (js "Crafting a personalized response");;
     enhancedResponse ← generateHumanizedResponse message messageAnalysis fileResults;
     onPhaseComplete callbacks (js "response_generation") (Text enhancedResponse);;
     onPhaseStart callbacks (js "polishing") (js "Adding final touches for natural flow");;
     finalResponse ← polishResponse enhancedResponse;
     onPhaseComplete callbacks (js "polishing") (Text finalResponse);;
     ret (formatFinalResponse finalResponse))
    (fun message => onError callbacks message;; throw message).

(** [enhanceSearchQuery(query)]: the lines of the reply that are not
    blank, five at most. *)
Definition enhanceSearchQuery (query : jsstring) : M (list jsstring) :=
  response ← callGemini;
  ret (take 5 (List.filter (fun line => match trim line with [] => false | _ => true end)
                 (split 10 response))).

(** The body of the loop of [performMultiSourceSearch], for the query
    [q] at index [i] of [n]. *)
Definition searchOne (q : jsstring) (i n : nat) (results : list SearchResult)
    : M (list SearchResult) :=
  onPhaseUpdate callbacks (js "deep_search") i n;;
  try_catch
    (match encodeURIComponent q with
     | None => throw (js "URI malformed")
     | Some _ =>
         items ← ((fun st =>
                     (mkState (queue st) (closed st) (gemini_calls st) (S (search_calls st)),
                      search env (search_calls st))) : M (option (list Item)));
         match items with
         | Some items => ret (results ++ [mkSearchResult q items])
         | None => ret results
         end
     end)
    (fun _ => ret results).

Fixpoint searchAll (queries : list jsstring) (i n : nat) (results : list SearchResult)
    : M (list SearchResult) :=
  match queries with
  | [] => ret results
  | q :: queries' =>
      results' ← searchOne q i n results;
      searchAll queries' (S i) n results'
  end.

Definition performMultiSourceSearch (queries : list jsstring) : M (list SearchResult) :=
  searchAll queries O (List.length queries) [].

(** [performDeepSearch(query)] *)
Definition performDeepSearch (query : jsstring) : M jsstring :=
  try_catch
    (onPhaseStart callbacks (js "query_enhancement")
       (js "Enhancing your search query for better results");;
     enhancedQueries ← enhanceSearchQuery query;
     onPhaseComplete callbacks (js "query_enhancement") (Queries enhancedQueries);;
     onPhaseStart callbacks (js "deep_search") (js "Searching across multiple sources");;
     searchResults ← performMultiSourceSearch enhancedQueries;
     onPhaseComplete callbacks (js "deep_search") (SearchResults searchResults);;
     onPhaseStart callbacks (js "synthesis")
       (js "Analyzing and connecting information from different sources");;
     synthesizedInfo ← synthesizeSearchResults query searchResults;
     onPhaseComplete callbacks (js "synthesis") (Text synthesizedInfo);;
     onPhaseStart callbacks (js "humanization")
       (js "Creating a natural, conversational response");;
     humanizedResponse ← humanizeSearchResponse query synthesizedInfo;
     onPhaseComplete callbacks (js "humanization") (Text humanizedResponse);;
     ret (formatFinalResponse humanizedResponse))
    (fun message => onError callbacks message;; throw message).

End Agent.

Arguments Text {Value} s.
Arguments FileResults {Value} rs.
Arguments Queries {Value} qs.
Arguments SearchResults {Value} rs.
Arguments PhaseStart {Value} phaseId description.
Arguments PhaseUpdate {Value} phaseId i n.
Arguments PhaseComplete {Value} phaseId result.
Arguments ErrorEvent {Value} error.
Arguments CompleteEvent {Value} result.
Arguments mkState {Value} queue closed gemini_calls search_calls.
Arguments queue {Value} s.
Arguments closed {Value} s.
Arguments gemini_calls {Value} s.
Arguments search_calls {Value} s.
Arguments start_state {Value}.
Arguments ret {Value A} a.
Arguments throw {Value A} message.
Arguments bind {Value A B} m k.
Arguments try_catch {Value A} m h.
Arguments enqueue {Value} ev.
Arguments close {Value}.
Arguments stream_callbacks {Value}.
Arguments onPhaseStart {Value} a phaseId description : rename.
Arguments onPhaseUpdate {Value} a phaseId i n : rename.
Arguments onPhaseComplete {Value} a phaseId result : rename.
Arguments onError {Value} a message : rename.
Arguments callGemini {Value} env.
Arguments processFile {Value} insights_of could_not_be_processed env callbacks files i results.
Arguments processFiles_from {Value} insights_of could_not_be_processed env callbacks files i todo
  results.
Arguments processFiles {Value} insights_of could_not_be_processed env callbacks files.
Arguments processMessage {Value} insights_of could_not_be_processed env callbacks message files.
Arguments enhanceSearchQuery {Value} env query.
Arguments searchOne {Value} env callbacks q i n results.
Arguments searchAll {Value} env callbacks queries i n results.
Arguments performMultiSourceSearch {Value} env callbacks queries.
Arguments performDeepSearch {Value} env callbacks query.

End Agent.

(** ** The file route *)

Module FileRoute.
Import JS Agent.

Section FileRoute.
Variable Value : Type.
Variable insights_of : jsstring → option Value.
Variable could_not_be_processed : Value.
Variable env : Env.

Inductive Response :=
| Json (status : Z) (field message : jsstring)
| EventStream.

(** [a || b] on two environment variables, as a condition: the first
    that is set and not empty. *)
Definition first_set (a b : option jsstring) : option jsstring :=
  match a with
  | Some (c :: r) => Some (c :: r)
  | _ => match b with
         | Some (c :: r) => Some (c :: r)
         | _ => None
         end
  end.

Definition demo_reply : jsstring :=
  brand ++ [10; 10]%N
    ++ js "I'm currently in demo mode, but I can still help you with basic tasks! What would you like to do?".

(** The [FileList]-like object that the route makes of the uploaded
    files: it has [length], [item] and an iterator, and no property under an
    index, so that [fileList[i]] is [undefined]. *)
Definition fileList (files : list File) : FileList :=
  {| length := List.length files;
     item := fun i => nth_error files i;
     index := fun _ => None |}.

(** What the [start] callback of the stream sets going, run to its end:
    [agent.processMessage(...).then(...).catch(...)].  An error thrown in the
    [catch] handler is an unhandled rejection. *)
Definition start (message : jsstring) (files : list File) : State Value :=
  (try_catch
     (result ← processMessage insights_of could_not_be_processed env stream_callbacks
                 (match message with [] => js "Please analyze these files" | _ => message end)
                 (Some (fileList files));
      enqueue (CompleteEvent result);; close)
     (fun message => enqueue (ErrorEvent message);; close)
     start_state).1.

(** [POST(req)]; [formData] is what [req.formData()] ends in, with the
    [message] field (empty when absent) and the [files] fields.  With the
    response comes the stream, as it ends. *)
Definition POST (formData : Outcome (jsstring * list File))
    (GEMINI_KEY_1 GEMINI_KEY_2 GOOGLE_SEARCH_API_KEY : option jsstring)
    : Response * option (State Value) :=
  match formData with
  | Fails message => (Json 500 (js "error") message, None)
  | Answers (message, files) =>
      if bool_decide (message = []) && bool_decide (files = []) then
        (Json 400 (js "error") (js "Missing message or files"), None)
      else
        match first_set GEMINI_KEY_1 GEMINI_KEY_2 with
        | None => (Json 200 (js "reply") demo_reply, None)
        | Some geminiKey => (EventStream, Some (start message files))
        end
  end.

(** [GET()] *)
Definition GET : Response := Json 200 (js "message") (js "File processing endpoint ready").

End FileRoute.

Arguments start {Value} insights_of could_not_be_processed env message files.
Arguments POST {Value} insights_of could_not_be_processed env formData
  GEMINI_KEY_1 GEMINI_KEY_2 GOOGLE_SEARCH_API_KEY.

End FileRoute.

(** ** The deep-search route *)

Module DeepSearchRoute.
Import JS Agent.

Section DeepSearchRoute.
Variable Value : Type.
Variable env : Env.

Inductive Response :=
| Json (status : Z) (field message : jsstring)
| EventStream.

Definition start (query : jsstring) : State Value :=
  (try_catch
     (result ← performDeepSearch env stream_callbacks query;
      enqueue (CompleteEvent result);; close)
     (fun message => enqueue (ErrorEvent message);; close)
     start_state).1.

(** [GET(req)]; [query] is the query parameter, [None] if absent. *)
Definition GET (query : option jsstring)
    (GEMINI_KEY_1 GEMINI_KEY_2 GOOGLE_SEARCH_API_KEY : option jsstring)
    : Response * option (State Value) :=
  match query with
  | Some (c :: q) =>
      match FileRoute.first_set GEMINI_KEY_1 GEMINI_KEY_2 with
      | None =>
          (Json 400 (js "error") (js "Demo mode - Deep search requires API configuration"),
           None)
      | Some geminiKey =>
          match GOOGLE_SEARCH_API_KEY with
          | Some (_ :: _) => (EventStream, Some (start (c :: q)))
          | _ =>
              (Json 400 (js "error")
                 (js "Search functionality not available - missing search API key"), None)
          end
      end
  | _ => (Json 400 (js "error") (js "Missing query parameter"), None)
  end.

End DeepSearchRoute.

Arguments start {Value} env query.
Arguments GET {Value} env query GEMINI_KEY_1 GEMINI_KEY_2 GOOGLE_SEARCH_API_KEY.

End DeepSearchRoute.

Module AgentDefs.
Import JS Agent.

Section AgentDefs.
Context {Value : Type}.

Definition is_terminal (ev : Event Value) : bool :=
  match ev with
  | ErrorEvent _ | CompleteEvent _ => true
  | _ => false
  end.

Definition is_update (ev : Event Value) : bool :=
  match ev with
  | PhaseUpdate _ _ _ => true
  | _ => false
  end.

(** [st'] is [st] with more events on its open stream, none of them
    terminal. *)
Definition extends (st st' : State Value) : Prop :=
  closed st' = false ∧
  ∃ evs, queue st' = queue st ++ evs ∧ Forall (fun ev => is_terminal ev = false) evs.

(** A computation that, begun with the stream open, leaves it open and
    publishes no terminal event, whether it returns or throws. *)
Definition quiet {A} (m : M Value A) : Prop :=
  ∀ st, closed st = false → extends st (m st).1.

(** A stream that has ended as it should: closed, with one terminal
    event, the last. *)
Definition ended (st : State Value) : Prop :=
  closed st = true ∧
  ∃ body t, queue st = body ++ [t] ∧ is_terminal t = true
            ∧ Forall (fun ev => is_terminal ev = false) body.

(** What a method of the agent leaves behind, [first] being the event it
    begins with: the stream open and no terminal event if it returns; the
    stream closed after one error event, which carries the message, if it
    throws. *)
Definition reported {A} (first : Event Value) (m : M Value A) : Prop :=
  ∀ st, closed st = false →
    match m st with
    | (st', Answers _) =>
        closed st' = false ∧
        ∃ evs, queue st' = queue st ++ first :: evs
               ∧ Forall (fun ev => is_terminal ev = false) evs
    | (st', Fails msg) =>
        closed st' = true ∧
        ∃ evs, queue st' = queue st ++ first :: evs ++ [ErrorEvent msg]
               ∧ Forall (fun ev => is_terminal ev = false) evs
    end.

End AgentDefs.

(** The text that [callGemini] returns for a reply. *)
Definition reply_text (reply : option jsstring) : jsstring :=
  match reply with
  | Some (c :: text) => c :: text
  | _ => apology
  end.

(** The queries that [enhanceSearchQuery] makes of a reply. *)
Definition enhanced_queries (response : jsstring) : list jsstring :=
  take 5 (List.filter (fun line => match trim line with [] => false | _ => true end)
            (split 10 response)).

(** *** Sample services and requests *)

Definition found : Item :=
  mkItem (js "Solar power") (js "Solar power is the conversion of sunlight.")
    (js "https://example.org/solar") (js "example.org").

(** The language model answers the first request with three lines, the
    second of them blank, and the second request with a reply without text;
    its third request fails.  The search engine answers the first request and
    fails from then on. *)
Definition sample_env : Env :=
  {| gemini n :=
       match n with
       | O => Answers (Some (js "solar panels" ++ [10%N] ++ js "  " ++ [10%N]
                               ++ js "wind turbines"))
       | S O => Answers None
       | _ => Fails (js "fetch failed")
       end;
     search n :=
       match n with
       | O => Answers (Some [found])
       | _ => Fails (js "fetch failed")
       end |}.

Definition sample_file : File :=
  mkFile (js "notes.txt") (js "text/plain") 3 0 (Some (js "abc")).

Ltac arun :=
  unfold mbind, Agent_bind, bind, mret, Agent_ret, ret, try_catch, throw in *.

End AgentDefs.
(** * Theorems *)

(** ** Strings *)

Module JSFacts.
Import JS.

Lemma strip_prefix_Some (p s r : jsstring) :
  strip_prefix p s = Some r ↔ s = p ++ r.
Proof.
  revert s. induction p as [|a p IH]; intros s; simpl.
  - split; congruence.
  - destruct s as [|b s]; [split; discriminate|].
    destruct (N.eqb_spec a b) as [->|Hne].
    + rewrite IH. split; congruence.
    + split; [discriminate|]. intros [= ? ?]. congruence.
Qed.

Lemma strip_prefix_app (p r : jsstring) : strip_prefix p (p ++ r) = Some r.
Proof. by apply strip_prefix_Some. Qed.

Lemma startsWith_true (s p : jsstring) :
  startsWith s p = true ↔ ∃ r, s = p ++ r.
Proof.
  unfold startsWith. destruct (strip_prefix p s) as [r|] eqn:E.
  - apply strip_prefix_Some in E. split; eauto.
  - split; [discriminate|]. intros [r ->]. by rewrite strip_prefix_app in E.
Qed.

Lemma run_le_length (P : N → bool) (s : jsstring) : (run P s <= length s)%nat.
Proof. induction s as [|c s IH]; simpl; [lia|]. destruct (P c); simpl; lia. Qed.

Lemma run_take_Forall (P : N → bool) (s : jsstring) (i : nat) :
  (i <= run P s)%nat → Forall (fun c => P c = true) (take i s).
Proof.
  revert i. induction s as [|c s IH]; intros i Hi; simpl in *.
  - rewrite take_nil. constructor.
  - destruct i as [|i]; [constructor|]. simpl.
    destruct (P c) eqn:E; [|lia]. constructor; [done|]. apply IH. lia.
Qed.

Lemma run_app (P : N → bool) (w s : jsstring) :
  Forall (fun c => P c = true) w → run P (w ++ s) = (length w + run P s)%nat.
Proof.
  induction 1 as [|c w Hc _ IH]; simpl; [done|]. by rewrite Hc, IH.
Qed.

Lemma run_stops (P : N → bool) (s : jsstring) : stops P s → run P s = O.
Proof. destruct s as [|c s]; simpl; [done|]. by intros ->. Qed.

Lemma stops_drop_run (P : N → bool) (s : jsstring) : stops P (drop (run P s) s).
Proof.
  induction s as [|c s IH]; simpl; [done|].
  destruct (P c) eqn:E; simpl; done.
Qed.

(** A run followed by something that stops it can be split off in one way
    only. *)
Lemma run_split_unique (P : N → bool) (a b a' b' : jsstring) :
  a ++ b = a' ++ b' →
  Forall (fun c => P c = true) a → Forall (fun c => P c = true) a' →
  stops P b → stops P b' → a = a' ∧ b = b'.
Proof.
  intros Heq Ha Ha' Hb Hb'.
  assert (length a = length a') as Hlen.
  { assert (run P (a ++ b) = run P (a' ++ b')) as Hr by (by rewrite Heq).
    rewrite !run_app, (run_stops P b), (run_stops P b') in Hr by done. lia. }
  split.
  - apply (f_equal (take (length a))) in Heq.
    rewrite take_app_length in Heq. rewrite Hlen in Heq.
    by rewrite take_app_length in Heq.
  - apply (f_equal (drop (length a))) in Heq.
    rewrite drop_app_length in Heq. rewrite Hlen in Heq.
    by rewrite drop_app_length in Heq.
Qed.

(** Only white space trims to nothing. *)
Lemma trimStart_nil (s : jsstring) :
  trimStart s = [] → Forall (fun c => is_space c = true) s.
Proof.
  unfold trimStart. intros H.
  assert (length s <= run is_space s)%nat as Hlen.
  { apply (f_equal length) in H. rewrite length_drop in H. simpl in H. lia. }
  rewrite <- (firstn_all s). apply run_take_Forall. done.
Qed.

Lemma trim_nil (s : jsstring) : trim s = [] → Forall (fun c => is_space c = true) s.
Proof.
  unfold trim. intros H. apply (f_equal (@rev N)) in H. rewrite rev_involutive in H.
  cbn [rev] in H. apply trimStart_nil in H. apply Forall_rev in H.
  rewrite rev_involutive in H.
  pose proof (stops_drop_run is_space s) as Hstop. fold (trimStart s) in Hstop.
  destruct (trimStart s) as [|c r] eqn:E; [by apply trimStart_nil|].
  apply Forall_cons in H as [Hc _]. simpl in Hstop. congruence.
Qed.

End JSFacts.

(** ** Decimal numerals *)

Module NumeralFacts.
Import JS Numerals.


Lemma js_string_of_uint d : js (NilEmpty.string_of_uint d) = numeral d.
Proof. induction d; simpl; [done|..]; unfold js in *; simpl; by f_equal. Qed.

Lemma numeral_digits d : Forall (fun c => is_digit c = true) (numeral d).
Proof. induction d; simpl; constructor; done. Qed.

Lemma numeral_acc d (acc : positive) :
  fold_left (fun a c => 10 * a + digit_value c) (numeral d) (Z.pos acc)
  = Z.pos (Pos.of_uint_acc d acc).
Proof.
  revert acc. induction d; intros acc; cbn [numeral fold_left Pos.of_uint_acc]; [done|..];
    match goal with
    | |- fold_left _ _ ?a = Z.pos (Pos.of_uint_acc _ ?b) =>
        replace a with (Z.pos b) by (unfold digit_value; lia); apply IHd
    end.
Qed.

Lemma digits_value_numeral d : digits_value (numeral d) = Z.of_uint d.
Proof.
  unfold digits_value, Z.of_uint.
  induction d; cbn [numeral fold_left Pos.of_uint]; [done|exact IHd|..];
    match goal with
    | |- fold_left _ _ ?a = Z.of_N (N.pos (Pos.of_uint_acc _ ?b)) =>
        change a with (Z.pos b); apply numeral_acc
    end.
Qed.

Lemma run_all (P : N → bool) (s : jsstring) :
  Forall (fun c => P c = true) s → run P s = length s.
Proof. induction 1 as [|c s Hc _ IH]; simpl; [done|]. by rewrite Hc, IH. Qed.

Lemma to_uint_not_nil p : Pos.to_uint p ≠ Decimal.Nil.
Proof.
  intros E. pose proof (DecimalPos.Unsigned.of_to p) as H. rewrite E in H. done.
Qed.

Lemma toString_pos p : toString (Z.pos p) = numeral (Pos.to_uint p).
Proof.
  unfold toString. simpl. rewrite <- js_string_of_uint.
  pose proof (to_uint_not_nil p). by destruct (Pos.to_uint p).
Qed.

Lemma toString_neg p : toString (Z.neg p) = 45%N :: numeral (Pos.to_uint p).
Proof.
  unfold toString. cbn [Z.to_int NilZero.string_of_int].
  change (js (String "-" ?s)) with (45%N :: js s).
  rewrite <- js_string_of_uint.
  pose proof (to_uint_not_nil p). by destruct (Pos.to_uint p).
Qed.

Lemma numeral_not_nil d : d ≠ Decimal.Nil → numeral d ≠ [].
Proof. by destruct d. Qed.

Lemma numeral_to_list d : numeral d = map code (DecimalFacts.to_list d).
Proof. induction d; simpl; [done|..]; by f_equal. Qed.

Lemma numeral_app i f : numeral (Decimal.app i f) = numeral i ++ numeral f.
Proof. by rewrite !numeral_to_list, DecimalFacts.app_spec, map_app. Qed.

Lemma numeral_length d : length (numeral d) = Decimal.nb_digits d.
Proof. induction d; simpl; [done|..]; by f_equal. Qed.

(** A string of digits is a numeral. *)
Lemma digits_numeral (ds : jsstring) :
  Forall (fun c => is_digit c = true) ds → ∃ d, numeral d = ds.
Proof.
  induction 1 as [|c ds Hc _ [d <-]]; [by exists Decimal.Nil|].
  unfold is_digit in Hc. apply andb_prop in Hc as [H1 H2]. apply N.leb_le in H1, H2.
  assert (c = 48 ∨ c = 49 ∨ c = 50 ∨ c = 51 ∨ c = 52 ∨ c = 53 ∨ c = 54 ∨ c = 55
          ∨ c = 56 ∨ c = 57)%N as Hcases by lia.
  destruct Hcases as [->|[->|[->|[->|[->|[->|[->|[->|[->| ->]]]]]]]]].
  - by exists (Decimal.D0 d).
  - by exists (Decimal.D1 d).
  - by exists (Decimal.D2 d).
  - by exists (Decimal.D3 d).
  - by exists (Decimal.D4 d).
  - by exists (Decimal.D5 d).
  - by exists (Decimal.D6 d).
  - by exists (Decimal.D7 d).
  - by exists (Decimal.D8 d).
  - by exists (Decimal.D9 d).
Qed.

Lemma of_uint_nonneg d : 0 <= Z.of_uint d.
Proof. unfold Z.of_uint. lia. Qed.

End NumeralFacts.

(** ** Numbers *)

Module NumberFacts.
Import JS Progress.

(** The quotient in units of the last place has at most 53 bits, and 53
    unless the place is the least one. *)
Lemma nearest_quotient (N d : Z) :
  0 <= N → 0 < d →
  let t := Z.max 0 (Z.log2 (N / d) - 52) in
  let q := N / (d * 2 ^ t) in
  0 <= t ∧ 0 <= q < 2 ^ 53 ∧ (2 ^ 52 <= q ∨ t = 0).
Proof.
  intros HN Hd t q.
  assert (0 <= N / d) as HQ by (apply Z.div_pos; lia).
  assert (0 <= t) as Ht by lia.
  assert (0 < 2 ^ t) as HG by (by apply Z.pow_pos_nonneg).
  assert (q = N / d / 2 ^ t) as Hq by (unfold q; rewrite Z.div_div; lia).
  split; [done|].
  destruct (Z.eq_dec (N / d) 0) as [H0|H0].
  { assert (t = 0) as Ht0 by (subst t; rewrite H0; reflexivity).
    rewrite Hq, H0, Z.div_0_l by lia. split; [|by right].
    split; [lia|]. by apply Z.pow_pos_nonneg. }
  pose proof (Z.log2_spec (N / d) ltac:(lia)) as [Hlo Hhi].
  destruct (Z.le_gt_cases (Z.log2 (N / d)) 52) as [Hs|Hs].
  - assert (t = 0) as Ht0 by lia. rewrite Hq, Ht0. change (2 ^ 0) with 1. rewrite Z.div_1_r.
    split; [|by right]. split; [lia|].
    eapply Z.lt_le_trans; [exact Hhi|]. apply Z.pow_le_mono_r; lia.
  - assert (Z.log2 (N / d) = t + 52) as Hl by lia. rewrite Hl in Hlo, Hhi.
    replace (Z.succ (t + 52)) with (t + 53) in Hhi by lia.
    rewrite Z.pow_add_r in Hlo, Hhi by lia.
    rewrite Hq. split; [split|left].
    + apply Z.div_pos; lia.
    + apply Z.div_lt_upper_bound; lia.
    + apply Z.div_le_lower_bound; lia.
Qed.

(** Rounding to the nearer neighbour on a grid of step [G]: no point that
    is not strictly between the two neighbours is nearer, and one as near is
    the chosen one unless the chosen one is even. *)
Lemma nearest_on_grid (N d G q r M' : Z) :
  0 < d → 0 < G → N = d * G * q + r → 0 <= r < d * G →
  M' <= q * G ∨ (q + 1) * G <= M' →
  let m := if (d * G <? 2 * r) || ((d * G =? 2 * r) && Z.odd q) then q + 1 else q in
  Z.abs (N - d * (m * G)) <= Z.abs (N - d * M')
  ∧ (Z.abs (N - d * M') = Z.abs (N - d * (m * G)) → M' ≠ m * G → Z.even m = true).
Proof.
  intros Hd HG HN Hr HM' m.
  assert (d * ((q + 1) * G) = d * (q * G) + d * G) as Hup by ring.
  assert (d * G * q = d * (q * G)) as Hlo by ring.
  assert ((M' = q * G ∧ d * M' = d * (q * G)) ∨ d * M' < d * (q * G)
          ∨ (M' = (q + 1) * G ∧ d * M' = d * (q * G) + d * G)
          ∨ d * (q * G) + d * G < d * M') as Hwhere.
  { destruct (Z.eq_dec M' (q * G)) as [->|]; [by left|].
    destruct (Z.eq_dec M' ((q + 1) * G)) as [->|]; [right; right; left; split; [done|ring]|].
    destruct HM'; [right; left|right; right; right]; nia. }
  clear HM'. rewrite Hlo in HN.
  set (lo := d * (q * G)) in *. set (X := d * M') in *. set (D := d * G) in *.
  subst m. rewrite <- Z.negb_odd.
  destruct (Z.ltb_spec D (2 * r)) as [H1|H1]; cbn [orb].
  - rewrite Hup. split; [lia|]. intros Heq Hne. exfalso. lia.
  - destruct (Z.eqb_spec D (2 * r)) as [H2|H2]; cbn [andb].
    + destruct (Z.odd q) eqn:Hodd.
      * rewrite Hup. split; [lia|].
        intros _ _. rewrite Z.odd_add. rewrite Hodd. reflexivity.
      * fold lo. split; [lia|]. intros. by rewrite Hodd.
    + fold lo. split; [lia|]. intros Heq Hne. exfalso. lia.
Qed.

(** A representable number lies on the grid of the last place of a
    quotient of 53 bits, or below it. *)
Lemma representable_on_grid (m' e' t q : Z) :
  representable m' e' → 0 <= t → 0 <= q → 2 ^ 52 <= q ∨ t = 0 →
  scaled m' e' <= q * 2 ^ t ∨ (q + 1) * 2 ^ t <= scaled m' e'.
Proof.
  intros [[Hm0 Hm] [He _]] Ht Hq Hnorm. unfold scaled.
  assert (0 < 2 ^ t) as HG by (by apply Z.pow_pos_nonneg).
  destruct (Z.le_gt_cases t (e' + 1074)) as [Hle|Hgt].
  - replace (e' + 1074) with (e' + 1074 - t + t) by lia.
    rewrite Z.pow_add_r by lia.
    assert (0 < 2 ^ (e' + 1074 - t)) as HP by (apply Z.pow_pos_nonneg; lia).
    set (k := m' * 2 ^ (e' + 1074 - t)).
    replace (m' * (2 ^ (e' + 1074 - t) * 2 ^ t)) with (k * 2 ^ t) by (subst k; ring).
    destruct (Z.le_gt_cases k q); [left|right]; nia.
  - left. destruct Hnorm as [Hq52|Ht0]; [|lia].
    assert (2 ^ t = 2 ^ (t - 1 - (e' + 1074)) * 2 ^ (e' + 1074) * 2) as ->.
    { rewrite <- Z.pow_add_r by lia. change 2 with (2 ^ 1) at 3.
      rewrite <- Z.pow_add_r by lia. f_equal. lia. }
    assert (0 < 2 ^ (e' + 1074)) as HP by (apply Z.pow_pos_nonneg; lia).
    assert (0 < 2 ^ (t - 1 - (e' + 1074))) as HP' by (apply Z.pow_pos_nonneg; lia).
    change (2 ^ 53) with (2 ^ 52 * 2) in Hm.
    set (a := 2 ^ 52) in *. set (b := 2 ^ (e' + 1074)) in *.
    set (c := 2 ^ (t - 1 - (e' + 1074))) in *.
    assert (m' * b <= (a * 2) * b) by nia.
    assert (a * 2 * b <= a * (c * b * 2)) by nia.
    assert (a * (c * b * 2) <= q * (c * b * 2)) by nia. lia.
Qed.

Lemma threshold_scaled :
  2 * (2 ^ 1074 * (2 ^ 1024 - 2 ^ 970)) = (2 * 2 ^ 53 - 1) * 2 ^ 2045.
Proof. reflexivity. Qed.

(** [nearest] rounds to the nearest number, to the even one of two that
    are equally near, and to [Infinity] from [2^1024 - 2^970] on. *)
Lemma nearest_spec (n d : Z) : 0 <= n → 0 < d → Number_value n d (nearest n d).
Proof.
  intros Hn Hd. unfold nearest, Number_value, distance.
  pose proof threshold_scaled as HT.
  assert (0 < 2 ^ 1074) as HS by (by apply Z.pow_pos_nonneg).
  assert (0 < 2 ^ 2045) as HK by (by apply Z.pow_pos_nonneg).
  assert (0 < 2 ^ 52) as Ha by (by apply Z.pow_pos_nonneg).
  assert (Z.even (2 ^ 52) = true) as Heven by reflexivity.
  change (2 ^ 53) with (2 * 2 ^ 52) in *.
  set (W := 2 ^ 1024 - 2 ^ 970) in *. set (S := 2 ^ 1074) in *.
  set (K := 2 ^ 2045) in *. set (a := 2 ^ 52) in *.
  assert (n < d * W ↔ 2 * (n * S) < d * ((2 * (2 * a) - 1) * K)) as Hlt.
  { rewrite <- HT. split; nia. }
  assert (d * W <= n ↔ d * ((2 * (2 * a) - 1) * K) <= 2 * (n * S)) as Hle.
  { rewrite <- HT. split; nia. }
  assert (0 <= n * S) as HN by nia.
  pose proof (nearest_quotient (n * S) d HN Hd) as Hquot. cbv zeta in Hquot.
  change (2 ^ 53) with (2 * a) in Hquot. fold a in Hquot.
  clear HT. clearbody W.
  set (N := n * S) in *.
  set (t := Z.max 0 (Z.log2 (N / d) - 52)) in *.
  destruct Hquot as (Ht & Hq & Hnorm).
  assert (0 < 2 ^ t) as HG by (by apply Z.pow_pos_nonneg).
  assert (0 < d * 2 ^ t) as HD by nia.
  pose proof (Z.div_mod N (d * 2 ^ t) ltac:(lia)) as Hdm.
  pose proof (Z.mod_pos_bound N (d * 2 ^ t) HD) as Hr.
  assert (∀ m' e', representable m' e' →
            let m := if (d * 2 ^ t <? 2 * (N mod (d * 2 ^ t)))
                        || ((d * 2 ^ t =? 2 * (N mod (d * 2 ^ t)))
                            && Z.odd (N / (d * 2 ^ t)))
                     then N / (d * 2 ^ t) + 1 else N / (d * 2 ^ t) in
            Z.abs (N - d * (m * 2 ^ t)) <= Z.abs (N - d * scaled m' e')
            ∧ (Z.abs (N - d * scaled m' e') = Z.abs (N - d * (m * 2 ^ t)) →
               scaled m' e' ≠ m * 2 ^ t → Z.even m = true)) as Hnear.
  { intros m' e' Hrep.
    apply (nearest_on_grid N d (2 ^ t) (N / (d * 2 ^ t)) (N mod (d * 2 ^ t))
             (scaled m' e') Hd HG Hdm Hr).
    apply representable_on_grid; [exact Hrep|exact Ht|apply Hq|exact Hnorm]. }
  cbv zeta in Hnear.
  assert (t < 2045 → 2 ^ t * 2 <= K) as Hsmall.
  { intros H. change 2 with (2 ^ 1) at 2. rewrite <- Z.pow_add_r by lia.
    apply Z.pow_le_mono_r; lia. }
  assert (2045 <= t → K <= 2 ^ t) as Hbig.
  { intros H. apply Z.pow_le_mono_r; lia. }
  assert (2045 < t → K * 2 <= 2 ^ t) as Hbigger.
  { intros H. unfold K. change 2 with (2 ^ 1) at 2. rewrite <- Z.pow_add_r by lia.
    apply Z.pow_le_mono_r; lia. }
  assert (t = 2045 → 2 ^ t = K) as Hsame by (by intros ->).
  assert (scaled a (t + 1 - 1074) = (2 * a) * 2 ^ t) as Hsc1.
  { unfold scaled. replace (t + 1 - 1074 + 1074) with (t + 1) by lia.
    rewrite Z.pow_add_r by lia. change (2 ^ 1) with 2. ring. }
  assert (∀ m, scaled m (t - 1074) = m * 2 ^ t) as Hsc2.
  { intros m. unfold scaled. by replace (t - 1074 + 1074) with t by lia. }
  assert (Z.odd (2 * a - 1) = true) as Hodd.
  { rewrite Z.odd_sub, Z.odd_mul. reflexivity. }
  assert (∀ m e, 0 <= m < 2 * a → -1074 <= e <= 971 → a <= m ∨ e = -1074 →
            canonical m e) as Hcanon.
  { intros m e Hm He Hn'. split; [split; [exact Hm|exact He]|exact Hn']. }
  clearbody S K a.
  set (q := N / (d * 2 ^ t)) in *. set (r := N mod (d * 2 ^ t)) in *.
  set (G := 2 ^ t) in *.
  set (up := (d * G <? 2 * r) || ((d * G =? 2 * r) && Z.odd q)) in *.
  assert (up = true → d * G <= 2 * r) as Hup.
  { subst up. intros [H|H]%orb_prop.
    - apply Z.ltb_lt in H. lia.
    - apply andb_prop in H as [H _]. apply Z.eqb_eq in H. lia. }
  assert (up = false → q = 2 * a - 1 → 2 * r < d * G) as Hdown.
  { subst up. intros [H1 H2]%orb_false_elim Hq'. apply Z.ltb_ge in H1.
    apply andb_false_iff in H2 as [H2|H2].
    - apply Z.eqb_neq in H2. lia.
    - rewrite Hq', Hodd in H2. done. }
  clearbody up q r G N. clear Hodd HS.
  assert (t < 2045 → 2 * N < d * ((2 * (2 * a) - 1) * K)) as Hbelow.
  { intros Hlt'. specialize (Hsmall Hlt').
    assert (2 * N < 2 * (2 * a) * (d * G)) by nia.
    assert (d * (G * 2) <= d * K) by nia. nia. }
  assert (2045 < t → d * ((2 * (2 * a) - 1) * K) <= 2 * N) as Habove.
  { intros Hov. specialize (Hbigger Hov).
    destruct Hnorm as [Hq52|Ht0]; [|lia].
    assert (a * (d * G) <= q * (d * G)) by nia.
    assert (a * (d * (K * 2)) <= a * (d * G)) by nia. nia. }
  assert (q + 1 < 2 * a → 2 * N < d * ((2 * (2 * a) - 1) * G)) as Hroom.
  { intros Hq'. assert (2 * N < 2 * (q + 1) * (d * G)) by nia.
    assert (2 * (q + 1) * (d * G) <= (2 * (2 * a) - 2) * (d * G)) by nia. nia. }
  destruct up eqn:Hround.
  - specialize (Hup eq_refl). clear Hdown.
    destruct (Z.eqb_spec (q + 1) (2 * a)) as [Hm|Hm].
    + destruct (Z.leb_spec 2045 t) as [Hov|Hov].
      * apply Hle. specialize (Hbig Hov).
        assert ((2 * (2 * a) - 1) * (d * K) <= (2 * (2 * a) - 1) * (d * G)) by nia.
        assert (2 * N = 2 * q * (d * G) + 2 * r) by lia.
        replace (2 * q) with (2 * (2 * a) - 2) in * by lia. nia.
      * split; [|split].
        -- apply Hlt, Hbelow, Hov.
        -- apply Hcanon; [lia|lia|left; lia].
        -- intros m' e' Hrep. destruct (Hnear m' e' Hrep) as [H1 H2].
           rewrite Hsc1, <- Hm. split; [exact H1|]. intros. exact Heven.
    + destruct (Z.ltb_spec 2045 t) as [Hov|Hov].
      * apply Hle, Habove, Hov.
      * split; [|split].
        -- apply Hlt.
           destruct (Z.eq_dec t 2045) as [Heq|Hne].
           ++ rewrite <- (Hsame Heq). apply Hroom. lia.
           ++ apply Hbelow. lia.
        -- apply Hcanon; [lia|lia|]. destruct Hnorm; [left|right]; lia.
        -- intros m' e' Hrep. rewrite Hsc2. exact (Hnear m' e' Hrep).
  - clear Hup.
    assert ((q =? 2 * a) = false) as -> by (apply Z.eqb_neq; lia).
    destruct (Z.ltb_spec 2045 t) as [Hov|Hov].
    + apply Hle, Habove, Hov.
    + split; [|split].
      * apply Hlt.
        destruct (Z.eq_dec t 2045) as [Heq|Hne].
        -- rewrite <- (Hsame Heq).
           destruct (Z.eq_dec q (2 * a - 1)) as [Hq'|Hq'].
           ++ specialize (Hdown eq_refl Hq').
              assert (2 * N = 2 * q * (d * G) + 2 * r) by lia.
              replace (2 * q) with (2 * (2 * a) - 2) in * by lia. nia.
           ++ apply Hroom. lia.
        -- apply Hbelow. lia.
      * apply Hcanon; [lia|lia|]. destruct Hnorm; [left|right]; lia.
      * intros m' e' Hrep. rewrite Hsc2. exact (Hnear m' e' Hrep).
Qed.

(** An integer up to [2^53] is its own Number value. *)
Lemma of_Z_safe (z : Z) : Z.abs z <= 2 ^ 53 → of_Z z = Int z.
Proof.
  intros Hz. unfold of_Z.
  pose proof (nearest_spec (Z.abs z) 1 (Z.abs_nonneg z) eq_refl) as Hspec.
  assert (0 < 2 ^ 1074) as HS by (by apply Z.pow_pos_nonneg).
  assert (2 ^ 53 < 2 ^ 1024 - 2 ^ 970) as Hfar by (by apply Z.ltb_lt).
  destruct (nearest (Z.abs z) 1) as [m e|]; cbn [Number_value] in Hspec; [|lia].
  destruct Hspec as (_ & _ & Hnear).
  assert (∃ m' e', representable m' e' ∧ scaled m' e' = Z.abs z * 2 ^ 1074)
    as (m' & e' & Hrep & Hsc).
  { destruct (Z.eq_dec (Z.abs z) (2 ^ 53)) as [->|Hne].
    - by exists (2 ^ 52), 1.
    - exists (Z.abs z), 0. split; [|done].
      split; [split; [apply Z.abs_nonneg|lia]|done]. }
  destruct (Hnear m' e' Hrep) as [Hle _].
  unfold distance in Hle. rewrite Hsc in Hle.
  set (S := 2 ^ 1074) in *. clearbody S.
  replace (Z.abs z * S - 1 * (Z.abs z * S)) with 0 in Hle by ring.
  assert (scaled m e = Z.abs z * S) as -> by lia.
  rewrite Z.div_mul by lia. f_equal. lia.
Qed.

(** An integer beyond the safe ones has a Number value beyond them. *)
Lemma of_Z_unsafe (z : Z) :
  2 ^ 53 <= z → of_Z z = PosInfinity ∨ ∃ z', of_Z z = Int z' ∧ 2 ^ 53 <= z'.
Proof.
  intros Hz. unfold of_Z.
  pose proof (nearest_spec (Z.abs z) 1 (Z.abs_nonneg z) eq_refl) as Hspec.
  assert (0 < 2 ^ 1074) as HS by (by apply Z.pow_pos_nonneg).
  assert (0 < 2 ^ 53) as H53 by (by apply Z.pow_pos_nonneg).
  destruct (nearest (Z.abs z) 1) as [m e|]; cbn [Number_value] in Hspec.
  - right. destruct Hspec as (_ & _ & Hnear).
    destruct (Hnear (2 ^ 52) 1) as [Hle _]; [done|].
    unfold distance in Hle.
    change (scaled (2 ^ 52) 1) with (2 ^ 52 * (2 * 2 ^ 1074)) in Hle.
    change (2 ^ 53) with (2 * 2 ^ 52) in *.
    set (S := 2 ^ 1074) in *. set (a := 2 ^ 52) in *. clearbody S a.
    rewrite (Z.abs_eq z) in * by lia.
    assert (2 * a * S <= scaled m e) as Hm by nia.
    eexists. split; [reflexivity|].
    assert (2 * a <= scaled m e / S) by (apply Z.div_le_lower_bound; lia).
    assert (Z.sgn z = 1) as -> by lia. lia.
  - left. by destruct (Z.ltb_spec z 0); [lia|].
Qed.

(** The arithmetic of the safe integers is exact. *)
Lemma plus_minus_safe (a b : Z) :
  Z.abs (b - a) <= 2 ^ 53 → Z.abs (b - a + 1) <= 2 ^ 53 →
  plus (minus (Int b) (Int a)) (Int 1) = Int (b - a + 1).
Proof.
  intros H1 H2. unfold minus, opposite, plus at 2.
  replace (b + - a) with (b - a) by lia. rewrite (of_Z_safe _ H1).
  unfold plus. by rewrite (of_Z_safe _ H2).
Qed.

Example nearest_samples :
  nearest 453 10 = Finite 6375408222496358 (-47)
  ∧ nearest 10000000000000000001 100000000000000000 = nearest 100 1
  ∧ nearest (10 ^ 309) 1 = Infinity
  ∧ nearest (2 ^ 53 + 1) 1 = Finite (2 ^ 52) 1.
Proof. vm_compute. done. Qed.

End NumberFacts.

(** ** Rate limiter *)

Module RateLimitFacts.
Import RateLimit.

Lemma checkRateLimit_other (now : Z) (c c' : jsstring) (rl : gmap jsstring Limit) :
  c ≠ c' → (checkRateLimit now c rl).2 !! c' = rl !! c'.
Proof.
  intros Hne. unfold checkRateLimit.
  destruct (rl !! c) as [l|]; simpl.
  - destruct (now >? resetTime l); simpl; [by rewrite lookup_insert_ne|].
    destruct (count l >=? MAX_DOWNLOADS_PER_HOUR); simpl; [done|].
    by rewrite lookup_insert_ne.
  - by rewrite lookup_insert_ne.
Qed.

Lemma checkRateLimit_expired (now : Z) (c : jsstring) (rl : gmap jsstring Limit) :
  expired now c rl →
  checkRateLimit now c rl = (true, <[c := mkLimit 1 (now + 3600000)]> rl).
Proof.
  unfold expired, checkRateLimit. destruct (rl !! c) as [l|]; [|done].
  intros Hexp. by assert ((now >? resetTime l) = true) as -> by lia.
Qed.

Lemma checkRateLimit_live (now : Z) (c : jsstring) (rl : gmap jsstring Limit) (l : Limit) :
  rl !! c = Some l → now <= resetTime l →
  checkRateLimit now c rl =
    if count l <? 5 then (true, <[c := mkLimit (count l + 1) (resetTime l)]> rl)
    else (false, rl).
Proof.
  intros Hl Hlive. unfold checkRateLimit, MAX_DOWNLOADS_PER_HOUR. rewrite Hl.
  assert ((now >? resetTime l) = false) as -> by lia.
  destruct (count l <? 5) eqn:Hc.
  - by assert ((count l >=? 5) = false) as -> by lia.
  - by assert ((count l >=? 5) = true) as -> by lia.
Qed.

(** C1. The first request of an identity, and any request after its window
    has expired, is admitted and opens a window of one hour with the counter
    at one.  In a live window a request is admitted exactly while the
    counter is below 5; it then increments the counter, which stays at or
    below 5, and keeps the expiry time.  At the maximum the request is
    rejected and the table is left exactly as it was.  No other identity's
    window is ever touched. *)
Theorem C1_checkRateLimit_contract :
  ∀ (now : Z) (c : jsstring) (rl : gmap jsstring Limit),
    (expired now c rl →
       (checkRateLimit now c rl).1 = true ∧
       (checkRateLimit now c rl).2 !! c = Some (mkLimit 1 (now + 3600000)))
    ∧ (∀ l, rl !! c = Some l → now <= resetTime l →
         if count l <? 5
         then (checkRateLimit now c rl).1 = true ∧
              (checkRateLimit now c rl).2 !! c
                = Some (mkLimit (count l + 1) (resetTime l)) ∧
              count l + 1 <= 5
         else (checkRateLimit now c rl).1 = false ∧
              (checkRateLimit now c rl).2 = rl)
    ∧ (∀ c' : jsstring, c ≠ c' → (checkRateLimit now c rl).2 !! c' = rl !! c').
Proof.
  intros now c rl. split; [|split].
  - intros Hexp. rewrite checkRateLimit_expired by done. simpl.
    by rewrite lookup_insert_eq.
  - intros l Hl Hlive. rewrite (checkRateLimit_live _ _ _ l) by done.
    destruct (count l <? 5) eqn:Hc; simpl; [|done].
    rewrite lookup_insert_eq. repeat split; lia.
  - intros c' Hne. by apply checkRateLimit_other.
Qed.

(** The fifth request in a live window is admitted, the sixth is not. *)
Lemma C1_checkRateLimit_witness :
  ((checkRateLimit 10 (js "10.0.0.7") {[ js "10.0.0.7" := mkLimit 4 50 ]}).1 = true ∧
   (checkRateLimit 10 (js "10.0.0.7") {[ js "10.0.0.7" := mkLimit 4 50 ]}).2
     !! js "10.0.0.7" = Some (mkLimit 5 50) ∧ 4 + 1 <= 5)
  ∧ ((checkRateLimit 10 (js "10.0.0.7") {[ js "10.0.0.7" := mkLimit 5 50 ]}).1 = false ∧
     (checkRateLimit 10 (js "10.0.0.7") {[ js "10.0.0.7" := mkLimit 5 50 ]}).2
       = {[ js "10.0.0.7" := mkLimit 5 50 ]})
  ∧ ((checkRateLimit 51 (js "10.0.0.7") {[ js "10.0.0.7" := mkLimit 5 50 ]}).1 = true ∧
     (checkRateLimit 51 (js "10.0.0.7") {[ js "10.0.0.7" := mkLimit 5 50 ]}).2
       !! js "10.0.0.7" = Some (mkLimit 1 3600051)).
Proof.
  split; [|split].
  - apply (proj1 (proj2 (C1_checkRateLimit_contract 10 (js "10.0.0.7")
                           {[ js "10.0.0.7" := mkLimit 4 50 ]})) (mkLimit 4 50));
      [reflexivity|simpl; lia].
  - apply (proj1 (proj2 (C1_checkRateLimit_contract 10 (js "10.0.0.7")
                           {[ js "10.0.0.7" := mkLimit 5 50 ]})) (mkLimit 5 50));
      [reflexivity|simpl; lia].
  - apply (proj1 (C1_checkRateLimit_contract 51 (js "10.0.0.7")
                    {[ js "10.0.0.7" := mkLimit 5 50 ]})).
    unfold expired. replace ({[ js "10.0.0.7" := mkLimit 5 50 ]} !! js "10.0.0.7")
      with (Some (mkLimit 5 50)) by reflexivity. simpl. lia.
Defined.

(** *** One accounting window *)

(** While every request of [c] falls into the live window, the counter of
    the window counts the admissions and never passes 5. *)
Lemma admitted_for_cons_true (c c1 : jsstring) (t : Z) (adm : list (Z * jsstring)) :
  admitted_for c ((t, c1) :: adm)
  = if decide (c1 = c) then S (admitted_for c adm) else admitted_for c adm.
Proof.
  unfold admitted_for. simpl. destruct (decide (c1 = c)) as [->|Hne].
  - by rewrite bool_decide_eq_true_2.
  - by rewrite bool_decide_eq_false_2.
Qed.

Lemma serve_all_cons (t : Z) (c1 : jsstring) (reqs : list (Z * jsstring))
    (rl : gmap jsstring Limit) :
  serve_all ((t, c1) :: reqs) rl
  = ((checkRateLimit t c1 rl).1 :: (serve_all reqs (checkRateLimit t c1 rl).2).1,
     (serve_all reqs (checkRateLimit t c1 rl).2).2).
Proof.
  simpl. destruct (checkRateLimit t c1 rl) as [b rl1]. cbn [fst snd].
  by destruct (serve_all reqs rl1) as [bs rl2].
Qed.

Lemma window_invariant (c : jsstring) (R : Z) (reqs : list (Z * jsstring)) :
  ∀ (rl : gmap jsstring Limit) (k : Z),
    rl !! c = Some (mkLimit k R) → k <= 5 →
    (∀ t, (t, c) ∈ reqs → t <= R) →
    (serve_all reqs rl).2 !! c
      = Some (mkLimit (k + Z.of_nat (admitted_for c (granted reqs (serve_all reqs rl).1))) R)
    ∧ k + Z.of_nat (admitted_for c (granted reqs (serve_all reqs rl).1)) <= 5.
Proof.
  induction reqs as [|[t c1] reqs IH]; intros rl k Hk Hle Hin.
  - simpl. rewrite Z.add_0_r. done.
  - rewrite serve_all_cons. cbn [fst snd].
    assert (∀ t', (t', c) ∈ reqs → t' <= R) as Hin'.
    { intros t' Ht'. apply Hin. by right. }
    destruct (decide (c1 = c)) as [->|Hne].
    + assert (t <= R) as Ht by (apply Hin; left).
      rewrite (checkRateLimit_live _ _ _ _ Hk Ht). cbn [count resetTime].
      destruct (k <? 5) eqn:Hk5; cbn [fst snd granted].
      * destruct (IH (<[c := mkLimit (k + 1) R]> rl) (k + 1)) as [IH1 IH2];
          [by rewrite lookup_insert_eq|lia|done|].
        rewrite admitted_for_cons_true, decide_True by done.
        rewrite IH1. split; [f_equal; f_equal; lia|lia].
      * by apply IH.
    + destruct (IH (checkRateLimit t c1 rl).2 k) as [IH1 IH2];
        [by rewrite checkRateLimit_other|done|done|].
      destruct (checkRateLimit t c1 rl).1; cbn [granted]; [|done].
      by rewrite admitted_for_cons_true, decide_False.
Qed.

(** C5, as stated, fails: the window is a fixed one, opened by a request
    and closed an hour later, not a rolling one.  The seven requests of
    [burst] are all admitted, and six of them fall within the six
    milliseconds that start at 3599997. *)
Lemma C5_rolling_hour_counterexample :
  in_time_order burst
  ∧ (serve_all burst ∅).1 = [true; true; true; true; true; true; true]
  ∧ admitted_in_hour (js "10.0.0.7") 3599997 (granted burst (serve_all burst ∅).1) = 6%nat
  ∧ ¬ rolling_hour_bound.
Proof.
  assert (in_time_order burst) as Hord by (simpl; lia).
  assert (admitted_in_hour (js "10.0.0.7") 3599997
            (granted burst (serve_all burst ∅).1) = 6%nat) as Hsix
    by (vm_compute; reflexivity).
  split; [done|]. split; [vm_compute; reflexivity|]. split; [done|].
  intros Hbound. specialize (Hbound burst (js "10.0.0.7") 3599997 Hord).
  rewrite Hsix in Hbound. lia.
Qed.

(** C5, amended.  In one accounting window, from the request that opens it
    (the first of the client, or the first after an expiry) to the hour
    after, at most 5 jobs of the client are admitted whatever else is
    requested meanwhile; and once 5 have been admitted, a further attempt
    of the client within the window is rejected and leaves the table as it
    was. *)
Theorem C5_fixed_window_bound :
  ∀ (rl : gmap jsstring Limit) (c : jsstring) (t0 : Z) (reqs : list (Z * jsstring)),
    expired t0 c rl →
    (∀ t, (t, c) ∈ reqs → t <= t0 + 3600000) →
    (admitted_for c (granted ((t0, c) :: reqs) (serve_all ((t0, c) :: reqs) rl).1) <= 5)%nat
    ∧ (admitted_for c (granted ((t0, c) :: reqs) (serve_all ((t0, c) :: reqs) rl).1) = 5%nat →
       ∀ t, t <= t0 + 3600000 →
         checkRateLimit t c (serve_all ((t0, c) :: reqs) rl).2
         = (false, (serve_all ((t0, c) :: reqs) rl).2)).
Proof.
  intros rl c t0 reqs Hexp Hin.
  rewrite serve_all_cons, checkRateLimit_expired by done. cbn [fst snd granted].
  rewrite admitted_for_cons_true, decide_True by done.
  destruct (window_invariant c (t0 + 3600000) reqs
              (<[c := mkLimit 1 (t0 + 3600000)]> rl) 1) as [Hcount Hle];
    [by rewrite lookup_insert_eq|lia|done|].
  split; [lia|]. intros Hfive t Ht.
  rewrite (checkRateLimit_live _ _ _ _ Hcount) by done. cbn [count].
  by assert ((1 + Z.of_nat (admitted_for c (granted reqs
               (serve_all reqs (<[c := mkLimit 1 (t0 + 3600000)]> rl)).1)) <? 5) = false)
    as -> by lia.
Qed.

(** The window that the first request of [burst] opens. *)
Lemma C5_fixed_window_witness :
  (admitted_for (js "10.0.0.7")
     (granted ((0%Z, js "10.0.0.7") :: window_tail)
        (serve_all ((0%Z, js "10.0.0.7") :: window_tail) ∅).1) <= 5)%nat
  ∧ (admitted_for (js "10.0.0.7")
       (granted ((0%Z, js "10.0.0.7") :: window_tail)
          (serve_all ((0%Z, js "10.0.0.7") :: window_tail) ∅).1) = 5%nat →
     ∀ t, t <= 0 + 3600000 →
       checkRateLimit t (js "10.0.0.7") (serve_all ((0%Z, js "10.0.0.7") :: window_tail) ∅).2
       = (false, (serve_all ((0%Z, js "10.0.0.7") :: window_tail) ∅).2)).
Proof.
  apply (C5_fixed_window_bound ∅ (js "10.0.0.7") 0 window_tail).
  - unfold expired. by rewrite lookup_empty.
  - intros t Ht. unfold window_tail in Ht.
    repeat (apply elem_of_cons in Ht as [Ht|Ht]; [injection Ht as ->; lia|]).
    by apply elem_of_nil in Ht.
Defined.

End RateLimitFacts.

(** ** Progress parser *)

Module ProgressFacts.
Import JS Progress JSFacts Numerals NumeralFacts NumberFacts.

(** *** The greedy quantifier *)

Lemma greedy_Some {A} (f : nat → option A) (lo n : nat) (r : A) :
  greedy f lo n = Some r → ∃ i, (lo <= i <= n)%nat ∧ f i = Some r.
Proof.
  induction n as [|n IH]; simpl.
  - destruct (0 <? lo)%nat eqn:E; [discriminate|].
    apply Nat.ltb_ge in E. destruct (f O) eqn:F; [|discriminate].
    intros [= ->]. exists O. split; [lia|done].
  - destruct (S n <? lo)%nat eqn:E; [discriminate|].
    apply Nat.ltb_ge in E. destruct (f (S n)) eqn:F.
    + intros [= ->]. exists (S n). split; [lia|done].
    + intros H. destruct (IH H) as (i & Hi & Fi). exists i. split; [lia|done].
Qed.

Lemma greedy_find {A} (f : nat → option A) (lo n i : nat) :
  (lo <= i <= n)%nat → is_Some (f i) → is_Some (greedy f lo n).
Proof.
  intros Hi Hf. induction n as [|n IH]; simpl.
  - assert (i = O) as -> by lia. assert ((0 <? lo)%nat = false) as ->.
    { apply Nat.ltb_ge. lia. }
    destruct Hf as [r ->]. eauto.
  - assert ((S n <? lo)%nat = false) as ->. { apply Nat.ltb_ge. lia. }
    destruct (f (S n)) eqn:F; [eauto|].
    destruct (decide (i = S n)) as [->|Hne].
    + rewrite F in Hf. by destruct Hf.
    + apply IH. lia.
Qed.

Lemma greedy_top {A} (f : nat → option A) (lo n : nat) (r : A) :
  (lo <= n)%nat → f n = Some r → greedy f lo n = Some r.
Proof.
  intros Hn Hf. destruct n; simpl.
  - assert ((0 <? lo)%nat = false) as ->. { apply Nat.ltb_ge. lia. }
    by rewrite Hf.
  - assert ((S n <? lo)%nat = false) as ->. { apply Nat.ltb_ge. lia. }
    by rewrite Hf.
Qed.

(** *** What a successful match of each piece says about the input *)

Lemma exec_Lit_inv l p s m c r :
  exec (Lit l :: p) s m c = Some r → ∃ s', s = l ++ s' ∧ exec p s' m c = Some r.
Proof.
  simpl. destruct (strip_prefix l s) as [s'|] eqn:E; [|discriminate].
  apply strip_prefix_Some in E. eauto.
Qed.

Lemma exec_Plus_inv k p s m c r :
  exec (Plus k :: p) s m c = Some r →
  ∃ w s', s = w ++ s' ∧ w ≠ [] ∧ Forall (fun x => in_cls k x = true) w ∧
          exec p s' m c = Some r.
Proof.
  simpl. intros H. apply greedy_Some in H as (i & Hi & Hf).
  exists (take i s), (drop i s). split; [by rewrite take_drop|]. split.
  - pose proof (run_le_length (in_cls k) s) as Hl.
    intros E. apply (f_equal length) in E. rewrite length_take in E. change (length (@nil N)) with O in E. lia.
  - split; [apply run_take_Forall; lia|done].
Qed.

Lemma exec_Star_inv k p s m c r :
  exec (Star k :: p) s m c = Some r →
  ∃ w s', s = w ++ s' ∧ Forall (fun x => in_cls k x = true) w ∧
          exec p s' m c = Some r.
Proof.
  simpl. intros H. apply greedy_Some in H as (i & Hi & Hf).
  exists (take i s), (drop i s). split; [by rewrite take_drop|].
  split; [apply run_take_Forall; lia|done].
Qed.

Lemma exec_Opt_inv x p s m c r :
  exec (Opt x :: p) s m c = Some r →
  ∃ w s', s = w ++ s' ∧ (w = [] ∨ w = [x]) ∧ exec p s' m c = Some r.
Proof.
  simpl. destruct s as [|y s].
  - intros H. exists [], []. eauto.
  - destruct (N.eqb_spec y x) as [->|Hne].
    + destruct (exec p s m c) eqn:E.
      * intros [= ->]. exists [x], s. eauto.
      * intros H. exists [], (x :: s). eauto.
    + intros H. exists [], (y :: s). eauto.
Qed.

(** The last token of a pattern is taken whole. *)
Lemma exec_last_Plus_inv k s m c caps post :
  exec [Plus k; Close] s m c = Some (caps, post) →
  ∃ w, s = w ++ post ∧ w ≠ [] ∧ Forall (fun x => in_cls k x = true) w ∧
       stops (in_cls k) post ∧
       caps = c ++ [take (length m - length post) m].
Proof.
  intros H. cbn [exec] in H.
  pose proof (run_le_length (in_cls k) s) as Hl.
  destruct (run (in_cls k) s) as [|n] eqn:Hr; [simpl in H; discriminate|].
  erewrite greedy_top in H; [| lia | reflexivity].
  injection H as <- <-. exists (take (S n) s).
  split; [by rewrite take_drop|]. split.
  - intros E. apply (f_equal length) in E. rewrite length_take in E. change (length (@nil N)) with O in E. lia.
  - split; [apply run_take_Forall; lia|]. split; [|done].
    rewrite <- Hr. apply stops_drop_run.
Qed.

(** *** Inputs a pattern accepts *)

Lemma accepts_nil s : accepts [] s.
Proof. intros m c. simpl. eauto. Qed.

Lemma accepts_Lit l p s : accepts p s → accepts (Lit l :: p) (l ++ s).
Proof. intros H m c. simpl. rewrite strip_prefix_app. apply H. Qed.

Lemma accepts_Plus k p w s :
  w ≠ [] → Forall (fun x => in_cls k x = true) w → accepts p s →
  accepts (Plus k :: p) (w ++ s).
Proof.
  intros Hne Hw H m c. simpl.
  apply greedy_find with (i := length w).
  - rewrite run_app by done. destruct w; [done|]. simpl. lia.
  - rewrite drop_app_length. apply H.
Qed.

Lemma accepts_Star k p w s :
  Forall (fun x => in_cls k x = true) w → accepts p s →
  accepts (Star k :: p) (w ++ s).
Proof.
  intros Hw H m c. simpl.
  apply greedy_find with (i := length w).
  - rewrite run_app by done. lia.
  - rewrite drop_app_length. apply H.
Qed.

Lemma accepts_Opt_skip x p s : accepts p s → accepts (Opt x :: p) s.
Proof.
  intros H m c. simpl. destruct s as [|y s]; [apply H|].
  destruct (y =? x)%N; [|apply H].
  destruct (exec p s m c); [eauto|apply H].
Qed.

Lemma accepts_Opt_take x p s : accepts p s → accepts (Opt x :: p) (x :: s).
Proof.
  intros H m c. simpl. rewrite N.eqb_refl.
  destruct (H m c) as [r ->]. eauto.
Qed.

Lemma accepts_Open p s : accepts p s → accepts (Open :: p) s.
Proof. intros H m c. simpl. apply H. Qed.

Lemma accepts_Close p s : accepts p s → accepts (Close :: p) s.
Proof. intros H m c. simpl. apply H. Qed.

(** *** The leftmost search *)

Lemma search_Some p s caps :
  search p s = Some caps →
  ∃ pre rest post, s = pre ++ rest ∧ exec p rest [] [] = Some (caps, post) ∧
    ∀ pre' rest', s = pre' ++ rest' → (length pre' < length pre)%nat →
                  exec p rest' [] [] = None.
Proof.
  induction s as [|x s IH]; simpl.
  - destruct (exec p [] [] []) as [[c post]|] eqn:E; [|discriminate].
    intros [= ->]. exists [], [], post. repeat split; [done|]. simpl. lia.
  - destruct (exec p (x :: s) [] []) as [[c post]|] eqn:E.
    + intros [= ->]. exists [], (x :: s), post. repeat split; [done|]. simpl. lia.
    + intros H. destruct (IH H) as (pre & rest & post & -> & Hex & Hmin).
      exists (x :: pre), rest, post. repeat split; [done|].
      intros pre' rest' Heq Hlen. destruct pre' as [|y pre'].
      * simpl in Heq. by subst rest'.
      * simpl in Heq. injection Heq as -> Heq. apply (Hmin pre' rest' Heq).
        simpl in Hlen. lia.
Qed.

Lemma search_find p pre rest :
  is_Some (exec p rest [] []) → is_Some (search p (pre ++ rest)).
Proof.
  intros H. induction pre as [|x pre IH]; simpl.
  - destruct rest as [|y rest]; simpl; destruct H as [[c post] ->]; eauto.
  - destruct (exec p (x :: pre ++ rest) [] []) as [[c post]|]; eauto.
Qed.

(** *** The groups of the progress pattern *)

Lemma take_mark (a s : jsstring) : take (length (a ++ s) - length s) (a ++ s) = a.
Proof.
  rewrite length_app. replace (length a + length s - length s)%nat with (length a) by lia.
  apply take_app_length.
Qed.

Lemma exec_blank_inv p s m c r :
  exec (Plus Space :: p) s m c = Some r →
  ∃ w s', s = w ++ s' ∧ blank w ∧ exec p s' m c = Some r.
Proof.
  intros H. apply exec_Plus_inv in H as (w & s' & -> & Hne & Hw & H).
  exists w, s'. by repeat (split; [done|]).
Qed.

Lemma Forall_nonspace (w : jsstring) :
  Forall (fun x => in_cls NonSpace x = true) w → Forall (fun c => is_space c = false) w.
Proof.
  intros H. eapply Forall_impl; [exact H|]. intros x. simpl. by destruct (is_space x).
Qed.

Lemma Forall_nonspace' (w : jsstring) :
  Forall (fun c => is_space c = false) w → Forall (fun x => in_cls NonSpace x = true) w.
Proof.
  intros H. eapply Forall_impl; [exact H|]. intros x. simpl. by intros ->.
Qed.

Lemma exec_token_inv p s m c r :
  exec (Open :: Plus NonSpace :: Close :: p) s m c = Some r →
  ∃ t s', s = t ++ s' ∧ token t ∧ exec p s' (t ++ s') (c ++ [t]) = Some r.
Proof.
  intros H. cbn [exec] in H. change (greedy _ 1 _) with
    (exec (Plus NonSpace :: Close :: p) s s c) in H.
  apply exec_Plus_inv in H as (w & s' & -> & Hne & Hw & H).
  cbn [exec] in H. rewrite take_mark in H.
  exists w, s'. split; [done|]. split; [|done].
  split; [done|by apply Forall_nonspace].
Qed.

Lemma exec_last_token_inv s m c caps post :
  exec [Open; Plus NonSpace; Close] s m c = Some (caps, post) →
  ∃ t, s = t ++ post ∧ token t ∧ ends_token post ∧ caps = c ++ [t].
Proof.
  intros H. change (exec [Plus NonSpace; Close] s s c = Some (caps, post)) in H.
  apply exec_last_Plus_inv in H as (w & -> & Hne & Hw & Hstop & ->).
  rewrite take_mark. exists w. split; [done|].
  split; [split; [done|by apply Forall_nonspace]|]. split; [|done].
  destruct post as [|x post]; simpl in *; [done|]. by destruct (is_space x).
Qed.

Lemma exec_figure_inv p s m c r :
  exec (Open :: Plus Digit :: Opt 46 :: Star Digit :: Close :: p) s m c = Some r →
  ∃ t s', s = t ++ s' ∧ figure t ∧ exec p s' (t ++ s') (c ++ [t]) = Some r.
Proof.
  intros H.
  change (exec (Plus Digit :: Opt 46 :: Star Digit :: Close :: p) s s c = Some r) in H.
  apply exec_Plus_inv in H as (int & s1 & -> & Hne & Hint & H).
  apply exec_Opt_inv in H as (dot & s2 & -> & Hdot & H).
  apply exec_Star_inv in H as (ds & s3 & -> & Hds & H).
  cbn [exec] in H.
  replace (int ++ dot ++ ds ++ s3) with ((int ++ dot ++ ds) ++ s3) in H |- *
    by (by rewrite <- !app_assoc).
  rewrite take_mark in H.
  destruct Hdot as [-> | ->].
  - (* no dot: the digits after it belong to the integer part all the same *)
    exists (int ++ ds), s3. simpl in *. split; [done|]. split; [|done].
    exists (int ++ ds), []. rewrite app_nil_r. split; [done|].
    split; [destruct int; [done|discriminate]|].
    split; [by apply Forall_app|by left].
  - exists (int ++ [46%N] ++ ds), s3. split; [done|]. split; [|done].
    exists int, (46%N :: ds). split; [done|]. split; [done|]. split; [done|].
    right. eauto.
Qed.

(** A match of the whole pattern at the start of [s] spells out a progress
    line, with the four groups as its fields and the last token whole. *)
Lemma exec_progress_inv s caps post :
  exec progressRegex s [] [] = Some (caps, post) →
  ∃ pct sz spd et,
    progress_at s [] pct sz spd et post ∧ ends_token post ∧ caps = [pct; sz; spd; et].
Proof.
  unfold progressRegex. intros H.
  apply exec_Lit_inv in H as (s1 & -> & H).
  apply exec_blank_inv in H as (w1 & s2 & -> & Hw1 & H).
  apply exec_figure_inv in H as (pct & s3 & -> & Hpct & H).
  apply exec_Lit_inv in H as (s4 & -> & H).
  apply exec_blank_inv in H as (w2 & s5 & -> & Hw2 & H).
  apply exec_Lit_inv in H as (s6 & -> & H).
  apply exec_blank_inv in H as (w3 & s7 & -> & Hw3 & H).
  apply exec_token_inv in H as (sz & s8 & -> & Hsz & H).
  apply exec_blank_inv in H as (w4 & s9 & -> & Hw4 & H).
  apply exec_Lit_inv in H as (s10 & -> & H).
  apply exec_blank_inv in H as (w5 & s11 & -> & Hw5 & H).
  apply exec_token_inv in H as (spd & s12 & -> & Hspd & H).
  apply exec_blank_inv in H as (w6 & s13 & -> & Hw6 & H).
  apply exec_Lit_inv in H as (s14 & -> & H).
  apply exec_blank_inv in H as (w7 & s15 & -> & Hw7 & H).
  apply exec_last_token_inv in H as (et & -> & Het & Hpost & ->).
  exists pct, sz, spd, et. split; [|by split].
  exists w1, w2, w3, w4, w5, w6, w7. by repeat (split; [done|]).
Qed.

(** *** Acceptance of a progress line *)

Lemma accepts_blank p w s : blank w → accepts p s → accepts (Plus Space :: p) (w ++ s).
Proof. intros [Hne Hw]. by apply accepts_Plus. Qed.

Lemma accepts_token p t s :
  token t → accepts p s → accepts (Open :: Plus NonSpace :: Close :: p) (t ++ s).
Proof.
  intros [Hne Ht] H. apply accepts_Open, accepts_Plus; [done|by apply Forall_nonspace'|].
  by apply accepts_Close.
Qed.

Lemma accepts_figure p t s :
  figure t → accepts p s →
  accepts (Open :: Plus Digit :: Opt 46 :: Star Digit :: Close :: p) (t ++ s).
Proof.
  intros (int & frac & -> & Hne & Hint & Hfrac) H. apply accepts_Open.
  rewrite <- app_assoc. apply accepts_Plus; [done|done|].
  destruct Hfrac as [-> | (ds & -> & Hds)].
  - apply accepts_Opt_skip. apply (accepts_Star _ _ []); [constructor|].
    by apply accepts_Close.
  - simpl. apply accepts_Opt_take, accepts_Star; [done|]. by apply accepts_Close.
Qed.

Lemma progress_at_accepts line pre pct sz spd et post :
  progress_at line pre pct sz spd et post →
  ∃ rest, line = pre ++ rest ∧ accepts progressRegex rest.
Proof.
  intros (w1 & w2 & w3 & w4 & w5 & w6 & w7 & -> & Hw1 & Hw2 & Hw3 & Hw4 & Hw5
          & Hw6 & Hw7 & Hpct & Hsz & Hspd & Het).
  eexists. split; [reflexivity|]. unfold progressRegex.
  apply accepts_Lit, accepts_blank; [done|].
  apply accepts_figure; [done|].
  apply accepts_Lit, accepts_blank; [done|].
  apply accepts_Lit, accepts_blank; [done|].
  apply accepts_token; [done|]. apply accepts_blank; [done|].
  apply accepts_Lit, accepts_blank; [done|].
  apply accepts_token; [done|]. apply accepts_blank; [done|].
  apply accepts_Lit, accepts_blank; [done|].
  apply accepts_token; [done|]. apply accepts_nil.
Qed.

(** *** A progress line reads in one way only *)

Lemma digit_not_space c : is_digit c = true → is_space c = false.
Proof.
  unfold is_digit. intros H. apply andb_prop in H as [H1 H2].
  apply N.leb_le in H1, H2.
  assert (c = 48 ∨ c = 49 ∨ c = 50 ∨ c = 51 ∨ c = 52 ∨ c = 53 ∨ c = 54
          ∨ c = 55 ∨ c = 56 ∨ c = 57)%N as Hc by lia.
  repeat (destruct Hc as [-> | Hc]; [reflexivity|]). by subst c.
Qed.

Lemma blank_split w w' R R' :
  blank w → blank w' → w ++ R = w' ++ R' →
  stops is_space R → stops is_space R' → w = w' ∧ R = R'.
Proof. intros [_ Hw] [_ Hw'] Heq. by apply run_split_unique. Qed.

Lemma token_split t t' R R' :
  token t → token t' → t ++ R = t' ++ R' →
  ends_token R → ends_token R' → t = t' ∧ R = R'.
Proof.
  intros [_ Ht] [_ Ht'] Heq HR HR'.
  apply (run_split_unique (fun c => negb (is_space c))); [done| | | |].
  - eapply Forall_impl; [exact Ht|]. intros x. simpl. by intros ->.
  - eapply Forall_impl; [exact Ht'|]. intros x. simpl. by intros ->.
  - destruct R; simpl in *; [done|]. by rewrite HR.
  - destruct R'; simpl in *; [done|]. by rewrite HR'.
Qed.

Lemma stops_token t R : token t → stops is_space (t ++ R).
Proof.
  intros [Hne Ht]. destruct t as [|x t]; [done|]. simpl.
  by apply Forall_cons in Ht as [? _].
Qed.

Lemma ends_blank w R : blank w → ends_token (w ++ R).
Proof.
  intros [Hne Hw]. destruct w as [|x w]; [done|]. simpl.
  by apply Forall_cons in Hw as [? _].
Qed.

Lemma stops_figure t R : figure t → stops is_space (t ++ R).
Proof.
  intros (int & frac & -> & Hne & Hint & _). destruct int as [|x int]; [done|].
  simpl. apply Forall_cons in Hint as [? _]. by apply digit_not_space.
Qed.

Lemma figure_split t t' R R' :
  figure t → figure t' → t ++ 37%N :: R = t' ++ 37%N :: R' → t = t' ∧ R = R'.
Proof.
  intros (int & frac & -> & _ & Hint & Hfrac) (int' & frac' & -> & _ & Hint' & Hfrac').
  rewrite <- !app_assoc. intros Heq.
  apply (run_split_unique is_digit) in Heq as [<- Heq]; [|done|done| |].
  - destruct Hfrac as [-> | (ds & -> & Hds)], Hfrac' as [-> | (ds' & -> & Hds')];
      simpl in Heq.
    + by injection Heq as <-.
    + discriminate.
    + discriminate.
    + injection Heq as Heq.
      apply (run_split_unique is_digit) in Heq as [<- Heq]; [|done|done|done|done].
      by injection Heq as <-.
  - by destruct Hfrac as [-> | (ds & -> & Hds)].
  - by destruct Hfrac' as [-> | (ds & -> & Hds)].
Qed.

Lemma progress_at_unique line pre pct sz spd et post pre' pct' sz' spd' et' post' :
  progress_at line pre pct sz spd et post → ends_token post →
  progress_at line pre' pct' sz' spd' et' post' → ends_token post' →
  length pre = length pre' →
  pct = pct' ∧ sz = sz' ∧ spd = spd' ∧ et = et'.
Proof.
  intros (w1 & w2 & w3 & w4 & w5 & w6 & w7 & -> & Hw1 & Hw2 & Hw3 & Hw4 & Hw5
          & Hw6 & Hw7 & Hpct & Hsz & Hspd & Het) Hpost
         (v1 & v2 & v3 & v4 & v5 & v6 & v7 & Heq & Hv1 & Hv2 & Hv3 & Hv4 & Hv5
          & Hv6 & Hv7 & Hpct' & Hsz' & Hspd' & Het') Hpost' Hlen.
  apply app_inj_1 in Heq as [_ Heq]; [|done].
  apply app_inv_head in Heq.
  apply blank_split in Heq as [_ Heq]; [|done|done|by apply stops_figure..].
  apply (figure_split pct pct') in Heq as [<- Heq]; [|done|done].
  apply blank_split in Heq as [_ Heq]; [|done|done|done|done].
  apply app_inv_head in Heq.
  apply blank_split in Heq as [_ Heq]; [|done|done|by apply stops_token..].
  apply token_split in Heq as [<- Heq]; [|done|done|by apply ends_blank..].
  apply blank_split in Heq as [_ Heq]; [|done|done|done|done].
  apply app_inv_head in Heq.
  apply blank_split in Heq as [_ Heq]; [|done|done|by apply stops_token..].
  apply token_split in Heq as [<- Heq]; [|done|done|by apply ends_blank..].
  apply blank_split in Heq as [_ Heq]; [|done|done|done|done].
  apply app_inv_head in Heq.
  apply blank_split in Heq as [_ Heq]; [|done|done|by apply stops_token..].
  apply token_split in Heq as [<- Heq]; done.
Qed.

(** *** The parser against the pattern in the specification's words *)

Lemma parseProgress_Some_inv line r :
  parseProgress line = Some r →
  ∃ pre pct sz spd et post,
    first_progress_at line pre pct sz spd et post ∧
    r = mkProgress (parseFloat pct) spd et sz.
Proof.
  unfold parseProgress. destruct (search progressRegex line) as [caps|] eqn:E;
    [|discriminate].
  apply search_Some in E as (pre & rest & post & -> & Hex & Hmin).
  apply exec_progress_inv in Hex as Hinv.
  destruct Hinv as (pct & sz & spd & et & Hat & Hpost & ->).
  intros [= <-]. exists pre, pct, sz, spd, et, post. split; [|done].
  split; [|split; [done|]].
  - destruct Hat as (w1 & w2 & w3 & w4 & w5 & w6 & w7 & -> & Hrest).
    exists w1, w2, w3, w4, w5, w6, w7. split; [done|exact Hrest].
  - intros pre' pct' sz' spd' et' post' Hat'.
    destruct (decide (length pre <= length pre')%nat) as [|Hlt]; [done|].
    apply progress_at_accepts in Hat' as (rest' & Heq & Hacc).
    destruct (Hacc [] []) as [x Hx].
    rewrite (Hmin pre' rest' Heq) in Hx by lia. discriminate.
Qed.

Lemma progress_line_parsed line :
  progress_line line → is_Some (parseProgress line).
Proof.
  intros (pre & pct & sz & spd & et & post & Hat).
  apply progress_at_accepts in Hat as (rest & -> & Hacc).
  unfold parseProgress.
  destruct (search_find progressRegex pre rest (Hacc [] [])) as [caps Hs].
  rewrite Hs. apply search_Some in Hs as (pre0 & rest0 & post0 & _ & Hex & _).
  apply exec_progress_inv in Hex as (pct0 & sz0 & spd0 & et0 & _ & _ & ->). eauto.
Qed.

Lemma parseProgress_first line pre pct sz spd et post :
  first_progress_at line pre pct sz spd et post →
  parseProgress line = Some (mkProgress (parseFloat pct) spd et sz).
Proof.
  intros (Hat & Hpost & Hfirst).
  destruct (progress_line_parsed line) as [r Hr].
  { exists pre, pct, sz, spd, et, post. done. }
  rewrite Hr. f_equal.
  apply parseProgress_Some_inv in Hr
    as (pre0 & pct0 & sz0 & spd0 & et0 & post0 & (Hat0 & Hpost0 & Hfirst0) & ->).
  pose proof (Hfirst _ _ _ _ _ _ Hat0) as H1.
  pose proof (Hfirst0 _ _ _ _ _ _ Hat) as H2.
  destruct (progress_at_unique _ _ _ _ _ _ _ _ _ _ _ _ _ Hat Hpost Hat0 Hpost0)
    as (-> & -> & -> & ->); [lia|done].
Qed.

(** A blank line holds no progress pattern. *)
Lemma parseProgress_blank (line : jsstring) : trim line = [] → parseProgress line = None.
Proof.
  intros Hb. apply trim_nil in Hb.
  destruct (parseProgress line) as [r|] eqn:E; [|done]. exfalso.
  apply parseProgress_Some_inv in E
    as (pre & pct & sz & spd & et & post & ((w1 & w2 & w3 & w4 & w5 & w6 & w7 & -> & _) & _) & _).
  apply Forall_app in Hb as [_ Hb]. by apply Forall_cons in Hb as [Hb _].
Qed.

(** *** The percentage *)

(** [parseFloat] on a figure that reads as [n / 10^s]. *)
Lemma parseFloat_reads (t : jsstring) (n : Z) (s : nat) :
  reads_as t n s → parseFloat t = Some (nearest n (10 ^ Z.of_nat s)).
Proof.
  intros (i & f & Hi & Ht & -> & ->). unfold parseFloat.
  pose proof (numeral_digits i) as Hdi. pose proof (numeral_digits f) as Hdf.
  assert (numeral i ≠ []) as Hne by (by apply numeral_not_nil).
  destruct Ht as [[-> ->] | ->].
  - rewrite run_all by done. rewrite firstn_all, drop_all.
    rewrite DecimalFacts.app_nil_r. cbn [Decimal.nb_digits Z.of_nat].
    change (10 ^ 0) with 1. rewrite digits_value_numeral.
    by destruct (numeral i).
  - rewrite run_app by done. cbn [run is_digit N.leb N.compare Pos.compare
      Pos.compare_cont andb]. change (run is_digit (46%N :: numeral f)) with O.
    rewrite Nat.add_0_r, take_app_length, drop_app_length.
    rewrite run_all by done. rewrite firstn_all.
    rewrite <- numeral_app, digits_value_numeral, numeral_length.
    by destruct (numeral i).
Qed.

(** Every figure reads as a decimal fraction. *)
Lemma figure_reads (t : jsstring) : figure t → ∃ n s, reads_as t n s.
Proof.
  intros (int & frac & -> & Hne & Hint & Hfrac).
  destruct (digits_numeral int Hint) as [i <-].
  assert (i ≠ Decimal.Nil) as Hi by (intros ->; done).
  destruct Hfrac as [-> | (ds & -> & Hds)].
  - exists (Z.of_uint (Decimal.app i Decimal.Nil)), (Decimal.nb_digits Decimal.Nil).
    exists i, Decimal.Nil. rewrite app_nil_r. split; [done|]. split; [by left|done].
  - destruct (digits_numeral ds Hds) as [f <-].
    exists (Z.of_uint (Decimal.app i f)), (Decimal.nb_digits f).
    exists i, f. split; [done|]. split; [by right|done].
Qed.

(** The percentage of a progress record is the Number value for the
    decimal fraction that its figure reads as. *)
Lemma parseFloat_Number_value (t : jsstring) (n : Z) (s : nat) :
  reads_as t n s →
  ∃ x, parseFloat t = Some x ∧ Number_value n (10 ^ Z.of_nat s) x.
Proof.
  intros Hr. exists (nearest n (10 ^ Z.of_nat s)).
  split; [by apply parseFloat_reads|]. apply nearest_spec.
  - destruct Hr as (i & f & _ & _ & -> & _). apply of_uint_nonneg.
  - apply Z.pow_pos_nonneg; lia.
Qed.

(** C9. The progress parser is a function of the line alone: equal lines
    give equal results.  A line that holds the pattern (a percentage, a total
    size token, a speed token and an ETA token in this order, after the
    downloader's keywords) yields the record with these four fields, read at
    the first occurrence of the pattern with the last token taken whole; its
    percentage is the Number value for the decimal fraction that the figure
    reads as, that is the binary64 number nearest to it, and the figure does
    read as one.  Every progress line has such a first occurrence; every
    other line yields none. *)
Theorem C9_parseProgress_pattern :
  (∀ l1 l2 : jsstring, l1 = l2 → parseProgress l1 = parseProgress l2)
  ∧ (∀ line pre pct sz spd et post : jsstring,
       first_progress_at line pre pct sz spd et post →
       parseProgress line = Some (mkProgress (parseFloat pct) spd et sz)
       ∧ (∃ n s, reads_as pct n s)
       ∧ (∀ n s, reads_as pct n s →
            ∃ x, parseFloat pct = Some x ∧ Number_value n (10 ^ Z.of_nat s) x))
  ∧ (∀ line : jsstring, progress_line line →
       ∃ pre pct sz spd et post, first_progress_at line pre pct sz spd et post)
  ∧ (∀ line : jsstring, ¬ progress_line line → parseProgress line = None).
Proof.
  split; [by intros l1 l2 ->|]. split; [|split].
  - intros line pre pct sz spd et post H. split; [exact (parseProgress_first _ _ _ _ _ _ _ H)|].
    destruct H as ((w1 & w2 & w3 & w4 & w5 & w6 & w7 & _ & _ & _ & _ & _ & _ & _
                    & _ & Hpct & _) & _).
    split; [by apply figure_reads|]. intros n s. apply parseFloat_Number_value.
  - intros line H. destruct (progress_line_parsed line H) as [r Hr].
    apply parseProgress_Some_inv in Hr
      as (pre & pct & sz & spd & et & post & Hfirst & _). eauto 10.
  - intros line Hno. destruct (parseProgress line) as [r|] eqn:E; [|done].
    exfalso. apply Hno. apply parseProgress_Some_inv in E
      as (pre & pct & sz & spd & et & post & (Hat & _) & _).
    exists pre, pct, sz, spd, et, post. exact Hat.
Qed.

(** A line as the downloader prints it. *)
Lemma C9_parseProgress_witness :
  ∃ pre pct sz spd et post,
    first_progress_at (js "[download]  45.3% of 10.00MiB at 1.20MiB/s ETA 00:05")
                      pre pct sz spd et post.
Proof.
  apply (proj1 (proj2 (proj2 C9_parseProgress_pattern))).
  exists [], (js "45.3"), (js "10.00MiB"), (js "1.20MiB/s"), (js "00:05"), [].
  exists (js "  "), (js " "), (js " "), (js " "), (js " "), (js " "), (js " ").
  split; [reflexivity|].
  repeat (split; [split; [discriminate|repeat constructor]|]).
  split; [|repeat (split; [split; [discriminate|repeat constructor]|]);
           split; [discriminate|repeat constructor]].
  exists (js "45"), (js ".3"). split; [reflexivity|]. split; [discriminate|].
  split; [repeat constructor|]. right. exists (js "3"). split; [reflexivity|repeat constructor].
Defined.

(** [45.3] is stored as [6375408222496358 * 2^-47]. *)
Example parseProgress_sample :
  parseProgress (js "[download]  45.3% of 10.00MiB at 1.20MiB/s ETA 00:05")
  = Some (mkProgress (Some (Finite 6375408222496358 (-47)))
            (js "1.20MiB/s") (js "00:05") (js "10.00MiB")).
Proof. vm_compute. reflexivity. Qed.

(** A figure with more digits than a number holds is rounded: this one is
    stored as [100]. *)
Example parseFloat_rounds :
  parseFloat (js "100.00000000000000001") = parseFloat (js "100")
  ∧ parseFloat (js "100") = Some (Finite (100 * 2 ^ 46) (-46)).
Proof. vm_compute. done. Qed.

Example parseProgress_finished_line :
  parseProgress (js "[download] 100% of 10.00MiB in 00:05") = None.
Proof. reflexivity. Qed.

End ProgressFacts.

(** ** Artifact server *)

Module ArtifactFacts.
Import JS FS Artifact NumberFacts.

Lemma status_without_disposition r : status_of (without_disposition r) = status_of r.
Proof. by destruct r. Qed.

Lemma body_without_disposition r : body_of (without_disposition r) = body_of r.
Proof. by destruct r. Qed.

Lemma header_without_disposition (h : jsstring) r :
  h ≠ js "Content-Disposition" → header h (without_disposition r) = header h r.
Proof.
  intros Hne. destruct r as [|st hs b]; [done|]. simpl. f_equal.
  induction hs as [|[k v] hs IH]; [done|]. simpl.
  destruct (decide (k = js "Content-Disposition")) as [->|Hk].
  - rewrite bool_decide_eq_true_2 by done. simpl.
    by rewrite (bool_decide_eq_false_2 (js "Content-Disposition" = h)).
  - rewrite (bool_decide_eq_false_2 (k = js "Content-Disposition")) by done. simpl.
    by rewrite IH.
Qed.

Lemma GET_without_disposition (d : Dir) (downloadId f1 f2 : jsstring)
    (range : option jsstring) :
  acceptable f1 → acceptable f2 →
  without_disposition (GET d downloadId f1 range)
  = without_disposition (GET d downloadId f2 range).
Proof.
  intros (Hne1 & d1 & Hd1 & Hv1) (Hne2 & d2 & Hd2 & Hv2). unfold GET.
  rewrite (bool_decide_eq_false_2 (f1 = [])), (bool_decide_eq_false_2 (f2 = [])) by done.
  rewrite Hd1, Hd2, Hv1, Hv2.
  destruct (bool_decide (downloadId = [])); [done|]. cbn [orb].
  destruct (resolve d downloadId) as [[actual|]|]; [|done|done].
  cbv zeta. destruct (negb (existsSync d (join tempDir actual))); [done|].
  destruct (statSync d (join tempDir actual)) as [fileSize|]; [|done].
  destruct range as [[|c r]|].
  - destruct (createReadStream d (join tempDir actual) None); reflexivity.
  - destruct (range_bounds (c :: r) fileSize) as [start end_].
    destruct (createReadStream d (join tempDir actual) (Some (start, end_)));
      reflexivity.
  - destruct (createReadStream d (join tempDir actual) None); reflexivity.
Qed.

(** C8: a range that reaches past the end of the file.  The file has 100
    bytes and the request asks for bytes 0 to 199: the answer is a 206 that
    announces 200 bytes and carries 100. *)
Theorem C8_range_past_end_of_file :
  status_of (GET hundred (js "job1") (js "mp4") (Some (js "bytes=0-199"))) = 206
  ∧ header (js "Content-Range") (GET hundred (js "job1") (js "mp4") (Some (js "bytes=0-199")))
    = Some (js "bytes 0-199/100")
  ∧ header (js "Content-Length") (GET hundred (js "job1") (js "mp4") (Some (js "bytes=0-199")))
    = Some (js "200")
  ∧ length (body_of (GET hundred (js "job1") (js "mp4") (Some (js "bytes=0-199")))) = 100%nat.
Proof. vm_compute. done. Qed.

(** C10, as stated, fails: an empty file name is turned away by the
    parameter check, and one that is no percent-encoding ends in the
    [catch], while the same request with another name is served. *)
Lemma C10_filename_status_counterexample :
  status_of (GET hundred (js "job1") [] None) = 400
  ∧ status_of (GET hundred (js "job1") (js "100%") None) = 500
  ∧ status_of (GET hundred (js "job1") (js "mp4") None) = 200
  ∧ body_of (GET hundred (js "job1") [] None) ≠ body_of (GET hundred (js "job1") (js "mp4") None).
Proof. vm_compute. repeat split; discriminate. Qed.

(** C10, amended.  For two requests against the same directory with the
    same job id and range, whose file names are both acceptable, the
    responses are the same but for the [Content-Disposition] header: same
    status, same body bytes, same other headers; the resolved file does not
    depend on the file name at all. *)
Theorem C10_filename_only_in_disposition :
  ∀ (d : Dir) (downloadId f1 f2 : jsstring) (range : option jsstring),
    acceptable f1 → acceptable f2 →
    without_disposition (GET d downloadId f1 range)
      = without_disposition (GET d downloadId f2 range)
    ∧ status_of (GET d downloadId f1 range) = status_of (GET d downloadId f2 range)
    ∧ body_of (GET d downloadId f1 range) = body_of (GET d downloadId f2 range)
    ∧ ∀ h : jsstring, h ≠ js "Content-Disposition" →
        header h (GET d downloadId f1 range) = header h (GET d downloadId f2 range).
Proof.
  intros d downloadId f1 f2 range H1 H2.
  pose proof (GET_without_disposition d downloadId f1 f2 range H1 H2) as Heq.
  split; [done|]. split; [|split].
  - by rewrite <- (status_without_disposition (GET d downloadId f1 range)), Heq,
      status_without_disposition.
  - by rewrite <- (body_without_disposition (GET d downloadId f1 range)), Heq,
      body_without_disposition.
  - intros h Hh.
    by rewrite <- (header_without_disposition h (GET d downloadId f1 range)), Heq,
      header_without_disposition.
Qed.

(** Two names for the same artifact, one of them percent-encoded. *)
Lemma C10_filename_witness :
  without_disposition (GET hundred (js "job1") (js "mp4") (Some (js "bytes=0-9")))
    = without_disposition (GET hundred (js "job1") (js "My%20Video.mp4") (Some (js "bytes=0-9")))
  ∧ status_of (GET hundred (js "job1") (js "mp4") (Some (js "bytes=0-9")))
    = status_of (GET hundred (js "job1") (js "My%20Video.mp4") (Some (js "bytes=0-9")))
  ∧ body_of (GET hundred (js "job1") (js "mp4") (Some (js "bytes=0-9")))
    = body_of (GET hundred (js "job1") (js "My%20Video.mp4") (Some (js "bytes=0-9")))
  ∧ ∀ h : jsstring, h ≠ js "Content-Disposition" →
      header h (GET hundred (js "job1") (js "mp4") (Some (js "bytes=0-9")))
      = header h (GET hundred (js "job1") (js "My%20Video.mp4") (Some (js "bytes=0-9"))).
Proof.
  apply C10_filename_only_in_disposition.
  - split; [discriminate|]. exists (js "mp4"). split; reflexivity.
  - split; [discriminate|]. exists (js "My Video.mp4"). split; reflexivity.
Defined.

(** *** Requests that are answered with the file *)

(** Without a range header the whole file is sent, and the announced
    length is its size. *)
Theorem GET_full_file :
  ∀ (d : Dir) (downloadId filename f decoded : jsstring) (e : Entry),
    downloadId ≠ [] → filename ≠ [] →
    resolve d downloadId = Some (Some f) →
    List.find (at_path (join tempDir f)) (entries d) = Some e →
    decodeURIComponent filename = Some decoded →
    valid_header_value (disposition decoded) = true →
    GET d downloadId filename None
    = File 200
        [ (js "Content-Type", contentType f);
          (js "Content-Length", toString (Z.of_nat (length (content e))));
          (js "Content-Disposition", disposition decoded);
          (js "Cache-Control", js "no-cache") ]
        (content e).
Proof.
  intros d downloadId filename f decoded e Hid Hfn Hres Hfind Hdec Hvalid.
  unfold GET. rewrite !bool_decide_eq_false_2 by done. cbn [orb]. rewrite Hres. cbv zeta.
  assert (existsSync d (join tempDir f) = true) as ->.
  { unfold existsSync. apply existsb_exists. exists e.
    apply find_some in Hfind. done. }
  cbn [negb]. unfold statSync, createReadStream. rewrite Hfind.
  cbn [fmap option_fmap option_map]. by rewrite Hdec, Hvalid.
Qed.

Lemma GET_full_file_witness :
  GET hundred (js "job1") (js "My%20Video.mp4") None
  = File 200
      [ (js "Content-Type", contentType (js "job1.mp4"));
        (js "Content-Length",
         toString (Z.of_nat (length (content (mkEntry (js "job1.mp4")
                                                (repeat "x"%byte 100) true)))));
        (js "Content-Disposition", disposition (js "My Video.mp4"));
        (js "Cache-Control", js "no-cache") ]
      (content (mkEntry (js "job1.mp4") (repeat "x"%byte 100) true)).
Proof.
  apply GET_full_file; try discriminate; reflexivity.
Defined.

(** A range that lies within the file is answered with exactly the bytes
    it names, and the announced length is their number. *)
Theorem GET_range_within_file :
  ∀ (d : Dir) (downloadId filename f decoded range : jsstring) (e : Entry) (a b : Z),
    downloadId ≠ [] → filename ≠ [] → range ≠ [] →
    resolve d downloadId = Some (Some f) →
    List.find (at_path (join tempDir f)) (entries d) = Some e →
    decodeURIComponent filename = Some decoded →
    valid_header_value (disposition decoded) = true →
    Z.of_nat (length (content e)) <= MAX_SAFE_INTEGER →
    range_bounds range (Z.of_nat (length (content e))) = (Int a, Int b) →
    0 <= a → a <= b → b < Z.of_nat (length (content e)) →
    status_of (GET d downloadId filename (Some range)) = 206
    ∧ header (js "Content-Length") (GET d downloadId filename (Some range))
      = Some (toString (b - a + 1))
    ∧ body_of (GET d downloadId filename (Some range))
      = take (Z.to_nat (b - a + 1)) (drop (Z.to_nat a) (content e))
    ∧ Z.of_nat (length (body_of (GET d downloadId filename (Some range)))) = b - a + 1.
Proof.
  intros d downloadId filename f decoded range e a b Hid Hfn Hr Hres Hfind Hdec Hvalid
    Hsize Hbounds Ha Hab Hb.
  assert (GET d downloadId filename (Some range)
          = File 206
              [ (js "Content-Range",
                 js "bytes " ++ toString a ++ js "-" ++ toString b ++ js "/"
                   ++ toString (Z.of_nat (length (content e))));
                (js "Accept-Ranges", js "bytes");
                (js "Content-Length", toString (b - a + 1));
                (js "Content-Type", contentType f);
                (js "Content-Disposition", disposition decoded);
                (js "Cache-Control", js "no-cache") ]
              (take (Z.to_nat (b - a + 1)) (drop (Z.to_nat a) (content e)))) as ->.
  { unfold GET. rewrite !bool_decide_eq_false_2 by done. cbn [orb]. rewrite Hres. cbv zeta.
    assert (existsSync d (join tempDir f) = true) as ->.
    { unfold existsSync. apply existsb_exists. exists e. apply find_some in Hfind. done. }
    cbn [negb]. unfold statSync, createReadStream. rewrite Hfind.
    cbn [fmap option_fmap option_map]. destruct range as [|c r]; [done|].
    rewrite Hbounds, Hdec, Hvalid. cbn [safe_offset]. unfold MAX_SAFE_INTEGER in *.
    assert ((0 <=? a) && (a <=? 9007199254740991) = true) as ->
      by (apply andb_true_intro; split; lia).
    assert ((0 <=? b) && (b <=? 9007199254740991) = true) as ->
      by (apply andb_true_intro; split; lia).
    assert ((a <=? b) = true) as -> by lia.
    rewrite plus_minus_safe by (change (2 ^ 53) with 9007199254740992; lia).
    reflexivity. }
  split; [done|]. split; [reflexivity|]. split; [done|].
  cbn [body_of]. rewrite length_take, length_drop. lia.
Qed.

Lemma GET_range_within_file_witness :
  status_of (GET hundred (js "job1") (js "mp4") (Some (js "bytes=10-19"))) = 206
  ∧ header (js "Content-Length") (GET hundred (js "job1") (js "mp4") (Some (js "bytes=10-19")))
    = Some (toString (19 - 10 + 1))
  ∧ body_of (GET hundred (js "job1") (js "mp4") (Some (js "bytes=10-19")))
    = take (Z.to_nat (19 - 10 + 1))
        (drop (Z.to_nat 10)
           (content (mkEntry (js "job1.mp4") (repeat "x"%byte 100) true)))
  ∧ Z.of_nat (length (body_of (GET hundred (js "job1") (js "mp4")
                                 (Some (js "bytes=10-19"))))) = 19 - 10 + 1.
Proof.
  apply (GET_range_within_file hundred (js "job1") (js "mp4") (js "job1.mp4") (js "mp4")
           (js "bytes=10-19") (mkEntry (js "job1.mp4") (repeat "x"%byte 100) true) 10 19);
    try discriminate; try reflexivity; vm_compute; congruence.
Defined.

End ArtifactFacts.

(** ** Cleanup timers *)

Module CleanupFacts.
Import JS FS Orchestrator.

Lemma join_inj (d a b : jsstring) : join d a = join d b → a = b.
Proof. unfold join. intros H. by apply app_inv_head, app_inv_head in H. Qed.

Lemma at_path_join (f : jsstring) (e : Entry) :
  at_path (join tempDir f) e = bool_decide (name e = f).
Proof.
  unfold at_path. apply bool_decide_ext. split; [apply join_inj|by intros ->].
Qed.

Lemma existsSync_unlinkSync (d d' : Dir) (path : jsstring) :
  unlinkSync d path = Some d' → existsSync d' path = false.
Proof.
  unfold unlinkSync, existsSync.
  destruct (List.find (at_path path) (entries d)) as [e|]; [|discriminate].
  destruct (removable e); [|discriminate]. intros [= <-]. simpl.
  induction (entries d) as [|e' es IH]; [done|]. simpl.
  destruct (at_path path e') eqn:E; simpl; [done|]. by rewrite E.
Qed.

(** Deleting one path leaves the entries at other paths in place. *)
Lemma unlinkSync_others (d d' : Dir) (path : jsstring) :
  unlinkSync d path = Some d' →
  entries d' = List.filter (fun e => negb (at_path path e)) (entries d).
Proof.
  unfold unlinkSync.
  destruct (List.find (at_path path) (entries d)) as [e|]; [|discriminate].
  destruct (removable e); [|discriminate]. by intros [= <-].
Qed.

Lemma existsSync_find (d : Dir) (path : jsstring) :
  existsSync d path = true ↔ is_Some (List.find (at_path path) (entries d)).
Proof.
  unfold existsSync. induction (entries d) as [|e es IH]; simpl.
  - split; [discriminate|]. by intros [? ?].
  - destruct (at_path path e); simpl; [|done]. split; eauto.
Qed.

Lemma scheduleFileCleanup_world (now : Z) (path id : jsstring) (w : World) :
  exec_handler (scheduleFileCleanup now path id) w
  = with_fileCleanupTimers <[id := next_handle w]>
      (with_timeouts (fun ts => ts ++ [mkTimeout (next_handle w) (now + 180000) path id])
         (with_next_handle S w)).
Proof. reflexivity. Qed.

Lemma cleanup_world (path id : jsstring) (w : World) :
  exec_handler (cleanup path id) w
  = if existsSync (dir w) path then
      match unlinkSync (dir w) path with
      | Some d => with_fileCleanupTimers (delete id) (with_dir (fun _ => d) w)
      | None => w
      end
    else with_fileCleanupTimers (delete id) w.
Proof.
  unfold cleanup, exec_handler, try_catch, mbind, M_bind, bind, read, modify, ret.
  destruct (existsSync (dir w) path); [|done].
  by destruct (unlinkSync (dir w) path).
Qed.

(** C6, as stated, fails: setting a second timeout for a job does not
    cancel the first.  After two calls for the job [job1] two timeouts of the
    job are pending; three minutes after the first call the first timeout
    fires all the same: it deletes its file and discards the table entry of
    the job, which by then stood for the second timeout, still pending. *)
Lemma C6_two_pending_counterexample :
  length (pending_for (js "job1") scheduled_twice) = 2%nat
  ∧ existsSync (dir scheduled_twice) (join tempDir (js "job1.webm")) = true
  ∧ existsSync (dir (advance 180000 scheduled_twice)) (join tempDir (js "job1.webm")) = false
  ∧ fileCleanupTimers scheduled_twice !! js "job1" = Some 1%nat
  ∧ fileCleanupTimers (advance 180000 scheduled_twice) !! js "job1" = None
  ∧ length (pending_for (js "job1") (advance 180000 scheduled_twice)) = 1%nat.
Proof. vm_compute. done. Qed.

(** C6, amended.  The timer table holds one entry per job id: scheduling
    stores the new timeout under the job id, in place of an earlier entry,
    and adds it to the pending timeouts, all of which stay pending; files
    are not touched.  When a timeout fires, a file that no longer exists is
    skipped and the table entry is discarded; a file that exists and can be
    deleted is deleted, no other file is, and the table entry is
    discarded. *)
Theorem C6_cleanup_scheduler :
  ∀ (now : Z) (path id : jsstring) (w : World),
    (fileCleanupTimers (exec_handler (scheduleFileCleanup now path id) w) !! id
       = Some (next_handle w)
     ∧ (∀ id' : jsstring, id' ≠ id →
          fileCleanupTimers (exec_handler (scheduleFileCleanup now path id) w) !! id'
          = fileCleanupTimers w !! id')
     ∧ timeouts (exec_handler (scheduleFileCleanup now path id) w)
       = timeouts w ++ [mkTimeout (next_handle w) (now + 180000) path id]
     ∧ dir (exec_handler (scheduleFileCleanup now path id) w) = dir w)
    ∧ (existsSync (dir w) path = false →
         dir (exec_handler (cleanup path id) w) = dir w
         ∧ fileCleanupTimers (exec_handler (cleanup path id) w) !! id = None)
    ∧ (existsSync (dir w) path = true → is_Some (unlinkSync (dir w) path) →
         existsSync (dir (exec_handler (cleanup path id) w)) path = false
         ∧ entries (dir (exec_handler (cleanup path id) w))
           = List.filter (fun e => negb (at_path path e)) (entries (dir w))
         ∧ fileCleanupTimers (exec_handler (cleanup path id) w) !! id = None).
Proof.
  intros now path id w. split; [|split].
  - rewrite scheduleFileCleanup_world. simpl. split; [by rewrite lookup_insert_eq|].
    split; [|done]. intros id' Hne. by rewrite lookup_insert_ne.
  - intros Hno. rewrite cleanup_world, Hno. simpl. by rewrite lookup_delete_eq.
  - intros Hyes [d Hd]. rewrite cleanup_world, Hyes, Hd. simpl.
    split; [by eapply existsSync_unlinkSync|].
    split; [by apply unlinkSync_others|by rewrite lookup_delete_eq].
Qed.

(** The first timeout of [scheduled_twice] at work. *)
Lemma C6_cleanup_scheduler_witness :
  existsSync (dir (exec_handler (cleanup (join tempDir (js "job1.webm")) (js "job1"))
                     scheduled_twice))
             (join tempDir (js "job1.webm")) = false
  ∧ entries (dir (exec_handler (cleanup (join tempDir (js "job1.webm")) (js "job1"))
                    scheduled_twice))
    = List.filter (fun e => negb (at_path (join tempDir (js "job1.webm")) e))
        (entries (dir scheduled_twice))
  ∧ fileCleanupTimers (exec_handler (cleanup (join tempDir (js "job1.webm")) (js "job1"))
                         scheduled_twice) !! js "job1" = None.
Proof.
  apply (proj2 (proj2 (C6_cleanup_scheduler 0 (join tempDir (js "job1.webm")) (js "job1")
                         scheduled_twice))).
  - reflexivity.
  - vm_compute. eauto.
Defined.

(** When the deletion throws, the callback ends in its [catch] and
    changes nothing: the file stays, and so does the table entry. *)
Theorem cleanup_failure_changes_nothing :
  ∀ (path id : jsstring) (w : World),
    existsSync (dir w) path = true → unlinkSync (dir w) path = None →
    exec_handler (cleanup path id) w = w.
Proof. intros path id w Hex Hun. by rewrite cleanup_world, Hex, Hun. Qed.

Lemma cleanup_failure_witness :
  exec_handler (cleanup (join tempDir (js "job1.mp4")) (js "job1")) stuck_file = stuck_file.
Proof. apply cleanup_failure_changes_nothing; reflexivity. Defined.

End CleanupFacts.

(** ** Download orchestrator *)

Module OrchestratorFacts.
Import JS FS Progress RateLimit Orchestrator Routes JSFacts ProgressFacts CleanupFacts.

(** *** The two stream primitives *)

Lemma enqueue_open id ev w s :
  streams w !! id = Some s → closed s = false →
  enqueue id ev w = (with_streams <[id := mkStream (queue s ++ [ev]) false]> w, Some tt).
Proof. intros Hs Ho. unfold enqueue. by rewrite Hs, Ho. Qed.

Lemma enqueue_closed id ev w s :
  streams w !! id = Some s → closed s = true → enqueue id ev w = (w, None).
Proof. intros Hs Ho. unfold enqueue. by rewrite Hs, Ho. Qed.

Lemma close_open id w s :
  streams w !! id = Some s → closed s = false →
  close id w = (with_streams <[id := mkStream (queue s) true]> w, Some tt).
Proof. intros Hs Ho. unfold close. by rewrite Hs, Ho. Qed.

(** Publishing a last event and closing, on an open stream. *)
Lemma enqueue_close_open id ev w s :
  streams w !! id = Some s → closed s = false →
  (enqueue id ev;; close id) w
  = (with_streams <[id := mkStream (queue s ++ [ev]) true]> w, Some tt).
Proof.
  intros Hs Ho. mrun. rewrite (enqueue_open _ _ _ _ Hs Ho).
  erewrite close_open; [|wsimpl; apply lookup_insert_eq|done].
  wsimpl. unfold with_streams. wsimpl. by rewrite insert_insert_eq.
Qed.

(** *** Output lines only add to an open stream *)

Lemma appends_trans id w1 w2 w3 : appends id w1 w2 → appends id w2 w3 → appends id w1 w3.
Proof.
  intros [->|(s & evs & Hs & Ho & Hevs & ->)]; [done|].
  intros [->|(s' & evs' & Hs' & Ho' & Hevs' & ->)].
  - right. eauto 10.
  - right. wsimpl. rewrite lookup_insert_eq in Hs'. injection Hs' as <-. wsimpl.
    exists s, (evs ++ evs'). split; [done|]. split; [done|].
    split; [by apply Forall_app|].
    unfold with_streams. wsimpl. by rewrite insert_insert_eq, app_assoc.
Qed.

Lemma enqueue_appends id ev w :
  is_progress ev || is_processing ev = true → appends id w (enqueue id ev w).1.
Proof.
  intros Hev. unfold enqueue. destruct (streams w !! id) as [s|] eqn:Hs; [|by left].
  destruct (closed s) eqn:Ho; [by left|]. right. exists s, [ev]. eauto.
Qed.

Lemma bind_appends {A B} id (m : M A) (k : A → M B) w :
  (∀ w, appends id w (m w).1) → (∀ a w, appends id w (k a w).1) →
  appends id w ((m ≫= k) w).1.
Proof.
  intros Hm Hk. mrun. specialize (Hm w). destruct (m w) as [w' [a|]]; [|done].
  eapply appends_trans; [exact Hm|apply Hk].
Qed.

Lemma for_each_appends {A} id (xs : list A) (body : A → M unit) w :
  (∀ x w, appends id w (body x w).1) → appends id w (for_each xs body w).1.
Proof.
  intros Hbody. revert w. induction xs as [|x xs IH]; intros w; [by left|].
  simpl. apply bind_appends; [apply Hbody|]. intros _ w'. apply IH.
Qed.

Lemma on_stdout_appends id data w : appends id w (exec_handler (on_stdout id data) w).
Proof.
  unfold exec_handler, on_stdout. apply for_each_appends. intros line w'.
  destruct (trim line); [by left|].
  apply bind_appends.
  - intros w''. destruct (parseProgress line); [by apply enqueue_appends|by left].
  - intros _ w''.
    destruct (includes line (js "[download] 100%")
              || includes line (js "has already been downloaded"));
      [by apply enqueue_appends|by left].
Qed.

(** *** The [close] listener, case by case *)

Lemma finalize_eq now id w :
  finalize now id w =
  match readdirSync (dir w) with
  | None => (w, None)
  | Some files =>
      match List.find (fun f => startsWith f id) files with
      | None => enqueue id (Error id (js "Downloaded file not found")) w
      | Some f =>
          match statSync (dir w) (join tempDir f) with
          | None => (w, None)
          | Some size_ =>
              match encodeURIComponent (replace f (id ++ js ".") []) with
              | None => (exec_handler (scheduleFileCleanup now (join tempDir f) id) w, None)
              | Some enc =>
                  enqueue id
                    (Complete id (replace f (id ++ js ".") [])
                       (megabytes_toFixed2 size_ ++ js " MB")
                       (js "/api/download-file/" ++ id ++ js "/" ++ enc))
                    (exec_handler (scheduleFileCleanup now (join tempDir f) id) w)
              end
          end
      end
  end.
Proof.
  unfold finalize. mrun.
  destruct (readdirSync (dir w)) as [files|]; [|done].
  destruct (List.find _ files) as [f|]; [|done].
  destruct (statSync (dir w) (join tempDir f)) as [size_|]; [|done].
  unfold scheduleFileCleanup. mrun. wsimpl.
  by destruct (encodeURIComponent _).
Qed.

(** What the [try] block and its [catch] leave behind: perhaps a timeout
    for the file found, and, on an open stream, one terminal event. *)
Lemma finalize_caught now id w s :
  streams w !! id = Some s →
  ∃ w2 t,
    (w2 = w ∨ ∃ f, w2 = exec_handler (scheduleFileCleanup now (join tempDir f) id) w)
    ∧ is_terminal t = true
    ∧ try_catch (finalize now id)
        (enqueue id (Error id (js "Error processing downloaded file"))) w
      = if closed s then (w2, None)
        else (with_streams <[id := mkStream (queue s ++ [t]) false]> w2, Some tt).
Proof.
  intros Hs. unfold try_catch. rewrite finalize_eq.
  set (err := Error id (js "Error processing downloaded file")).
  assert (∀ ev, enqueue id ev w = if closed s then (w, None)
            else (with_streams <[id := mkStream (queue s ++ [ev]) false]> w, Some tt)) as Henq.
  { intros ev. unfold enqueue. rewrite Hs. by destruct (closed s). }
  assert (∀ ev f, enqueue id ev (exec_handler (scheduleFileCleanup now (join tempDir f) id) w)
            = if closed s then (exec_handler (scheduleFileCleanup now (join tempDir f) id) w, None)
              else (with_streams <[id := mkStream (queue s ++ [ev]) false]>
                      (exec_handler (scheduleFileCleanup now (join tempDir f) id) w), Some tt))
    as Henq'.
  { intros ev f. unfold enqueue. rewrite scheduleFileCleanup_world. wsimpl.
    rewrite Hs. by destruct (closed s). }
  destruct (readdirSync (dir w)) as [files|].
  2: { exists w, err. rewrite Henq. split; [by left|]. split; [done|]. by destruct (closed s). }
  destruct (List.find _ files) as [f|].
  2: { exists w, (if closed s then err else Error id (js "Downloaded file not found")).
       rewrite !Henq. split; [by left|]. by destruct (closed s). }
  destruct (statSync (dir w) (join tempDir f)) as [size_|].
  2: { exists w, err. rewrite Henq. split; [by left|]. split; [done|]. by destruct (closed s). }
  destruct (encodeURIComponent _) as [enc|].
  - eexists _, (if closed s then err else Complete id _ _ _). rewrite !Henq'.
    split; [right; by exists f|]. by destruct (closed s).
  - exists (exec_handler (scheduleFileCleanup now (join tempDir f) id) w), err.
    rewrite Henq'. split; [right; by exists f|]. split; [done|]. by destruct (closed s).
Qed.

Lemma on_close_summary now id code w s :
  streams w !! id = Some s →
  ∃ w2 t,
    (w2 = with_activeDownloads (delete id) w
     ∨ ∃ f, code = Some 0 ∧
            w2 = exec_handler (scheduleFileCleanup now (join tempDir f) id)
                   (with_activeDownloads (delete id) w))
    ∧ is_terminal t = true
    ∧ (is_complete t = true → code = Some 0)
    ∧ exec_handler (on_close now id code) w
      = if closed s then w2
        else with_streams <[id := mkStream (queue s ++ [t]) true]> w2.
Proof.
  intros Hs. unfold on_close, exec_handler.
  set (w1 := with_activeDownloads (delete id) w).
  assert (streams w1 !! id = Some s) as Hs1 by done.
  unfold mbind, M_bind, bind at 1. unfold modify at 1. fold w1.
  destruct (bool_decide (code = Some 0)) eqn:Hcode.
  - apply bool_decide_eq_true_1 in Hcode.
    destruct (finalize_caught now id w1 s Hs1) as (w2 & t & Hw2 & Ht & Heq).
    unfold bind at 1. rewrite Heq. exists w2, t.
    split. { destruct Hw2 as [->|[f ->]]; [by left|right; eauto]. }
    split; [done|]. split; [done|].
    destruct (closed s) eqn:Ho; [done|].
    erewrite close_open; [|wsimpl; apply lookup_insert_eq|done].
    wsimpl. unfold with_streams. wsimpl. by rewrite insert_insert_eq.
  - apply bool_decide_eq_false_1 in Hcode.
    exists w1, (Error id (js "Download failed with code " ++ code_text code)).
    split; [by left|]. split; [done|]. split; [done|].
    unfold bind. unfold enqueue at 1. rewrite Hs1. destruct (closed s) eqn:Ho; [done|].
    erewrite close_open; [|wsimpl; apply lookup_insert_eq|done].
    wsimpl. unfold with_streams. wsimpl. by rewrite insert_insert_eq.
Qed.

(** *** The other listeners and the two routes *)

Lemma on_stderr_world id data w s :
  streams w !! id = Some s →
  exec_handler (on_stderr id data) w
  = if includes data (js "ERROR") && negb (closed s) then
      with_activeDownloads (delete id)
        (with_streams
           <[id := mkStream (queue s ++ [Error id (js "Download failed: " ++ data)]) true]> w)
    else w.
Proof.
  intros Hs. unfold on_stderr, exec_handler.
  destruct (includes data (js "ERROR")); [|done]. cbn [andb].
  unfold enqueue, close. mrun. rewrite Hs.
  destruct (closed s) eqn:Ho; [done|]. wsimpl. rewrite lookup_insert_eq. wsimpl.
  unfold with_activeDownloads, with_streams. wsimpl. by rewrite insert_insert_eq.
Qed.

Lemma on_error_world id msg w s :
  streams w !! id = Some s →
  exec_handler (on_error id msg) w
  = if closed s then with_activeDownloads (delete id) w
    else with_streams
           <[id := mkStream (queue s ++ [Error id (js "Failed to start download: " ++ msg)]) true]>
           (with_activeDownloads (delete id) w).
Proof.
  intros Hs. unfold on_error, exec_handler.
  unfold enqueue, close. mrun. wsimpl. rewrite Hs.
  destruct (closed s) eqn:Ho; [done|]. wsimpl. rewrite lookup_insert_eq. wsimpl.
  unfold with_activeDownloads, with_streams. wsimpl. by rewrite insert_insert_eq.
Qed.

Lemma POST_world now url format ff ri uuid w :
  exec_handler (POST now url format ff ri uuid) w
  = if bool_decide (url = []) || bool_decide (format = []) || negb (youtubeRegex_test url)
    then w
    else if (checkRateLimit now (clientId_of ff ri) (rateLimits w)).1 then
      if existsb has_null (ytDlpArgs url format uuid) then
        with_dir (fun d => match d with None => Some [] | Some _ => d end)
          (with_rateLimits
             (fun _ => (checkRateLimit now (clientId_of ff ri) (rateLimits w)).2) w)
      else
        with_streams <[uuid := mkStream [Started uuid (js "Starting download...")] false]>
          (with_activeDownloads <[uuid := mkDownload (ytDlpArgs url format uuid) now]>
             (with_dir (fun d => match d with None => Some [] | Some _ => d end)
                (with_rateLimits
                   (fun _ => (checkRateLimit now (clientId_of ff ri) (rateLimits w)).2) w)))
    else with_rateLimits
           (fun _ => (checkRateLimit now (clientId_of ff ri) (rateLimits w)).2) w.
Proof.
  unfold POST, exec_handler, try_catch.
  destruct (bool_decide (url = []) || bool_decide (format = [])); [done|].
  destruct (youtubeRegex_test url); [|done]. cbn [negb orb].
  unfold enqueue, spawn. mrun.
  destruct (checkRateLimit now (clientId_of ff ri) (rateLimits w)) as [b rl].
  destruct b; [|done]. cbn [negb].
  destruct (existsb has_null (ytDlpArgs url format uuid)); [done|].
  wsimpl. rewrite lookup_insert_eq. wsimpl.
  unfold with_streams. wsimpl. by rewrite insert_insert_eq.
Qed.

Lemma DELETE_world oid w :
  exec_handler (DELETE oid) w
  = match oid with
    | Some (c :: r) =>
        match activeDownloads w !! (c :: r) with
        | Some _ =>
            match fileCleanupTimers w !! (c :: r) with
            | Some t =>
                with_fileCleanupTimers (delete (c :: r))
                  (with_timeouts (List.filter (fun t' => negb (Nat.eqb (handle t') t)))
                     (with_activeDownloads (delete (c :: r))
                        (with_signals (fun l => l ++ [(c :: r, js "SIGTERM")]) w)))
            | None =>
                with_activeDownloads (delete (c :: r))
                  (with_signals (fun l => l ++ [(c :: r, js "SIGTERM")]) w)
            end
        | None => w
        end
    | _ => w
    end.
Proof.
  unfold DELETE, exec_handler, clearTimeout. destruct oid as [[|c r]|]; [done| |done].
  mrun. destruct (activeDownloads w !! (c :: r)); [|done]. wsimpl.
  by destruct (fileCleanupTimers w !! (c :: r)).
Qed.

(** *** Timer callbacks touch the directory and the timer table only *)

Lemma callbacks_cons t ts w :
  callbacks (t :: ts) w = callbacks ts (exec_handler (cleanup (filePath t) (owner t)) w).
Proof. reflexivity. Qed.

Lemma cleanup_frame path id w :
  streams (exec_handler (cleanup path id) w) = streams w
  ∧ activeDownloads (exec_handler (cleanup path id) w) = activeDownloads w
  ∧ rateLimits (exec_handler (cleanup path id) w) = rateLimits w
  ∧ signals (exec_handler (cleanup path id) w) = signals w
  ∧ next_handle (exec_handler (cleanup path id) w) = next_handle w
  ∧ timeouts (exec_handler (cleanup path id) w) = timeouts w.
Proof.
  rewrite cleanup_world. destruct (existsSync (dir w) path); [|done].
  by destruct (unlinkSync (dir w) path).
Qed.

Lemma callbacks_frame ts w :
  streams (callbacks ts w) = streams w
  ∧ activeDownloads (callbacks ts w) = activeDownloads w
  ∧ rateLimits (callbacks ts w) = rateLimits w
  ∧ signals (callbacks ts w) = signals w
  ∧ next_handle (callbacks ts w) = next_handle w
  ∧ timeouts (callbacks ts w) = timeouts w.
Proof.
  revert w. induction ts as [|t ts IH]; intros w; [done|].
  rewrite callbacks_cons.
  destruct (IH (exec_handler (cleanup (filePath t) (owner t)) w))
    as (-> & -> & -> & -> & -> & ->).
  apply cleanup_frame.
Qed.

Lemma advance_frame now w :
  streams (advance now w) = streams w
  ∧ activeDownloads (advance now w) = activeDownloads w
  ∧ rateLimits (advance now w) = rateLimits w
  ∧ signals (advance now w) = signals w
  ∧ next_handle (advance now w) = next_handle w
  ∧ timeouts (advance now w) = List.filter (fun t => negb (is_due now t)) (timeouts w).
Proof.
  unfold advance.
  destruct (callbacks_frame (List.filter (is_due now) (timeouts w))
              (with_timeouts (List.filter (fun t => negb (is_due now t))) w))
    as (-> & -> & -> & -> & -> & ->). done.
Qed.

(** A callback leaves the table entry of a job as it was or discards
    it. *)
Lemma cleanup_table path id w (id' : jsstring) :
  fileCleanupTimers (exec_handler (cleanup path id) w) !! id' = None
  ∨ fileCleanupTimers (exec_handler (cleanup path id) w) !! id'
    = fileCleanupTimers w !! id'.
Proof.
  rewrite cleanup_world.
  destruct (decide (id = id')) as [->|Hne].
  - destruct (existsSync (dir w) path); [destruct (unlinkSync (dir w) path)|];
      wsimpl; rewrite ?lookup_delete_eq; auto.
  - right. destruct (existsSync (dir w) path); [destruct (unlinkSync (dir w) path)|];
      wsimpl; rewrite ?lookup_delete_ne by done; auto.
Qed.

Lemma callbacks_table ts w (id' : jsstring) :
  fileCleanupTimers (callbacks ts w) !! id' = None
  ∨ fileCleanupTimers (callbacks ts w) !! id' = fileCleanupTimers w !! id'.
Proof.
  revert w. induction ts as [|t ts IH]; intros w; [by right|].
  rewrite callbacks_cons.
  destruct (IH (exec_handler (cleanup (filePath t) (owner t)) w)) as [H|H]; [by left|].
  rewrite H. apply cleanup_table.
Qed.

(** A callback deletes entries, if anything: what is in the directory
    afterwards was there before, and an existing directory stays. *)
Lemma cleanup_dir path id w :
  (∀ e, e ∈ entries (dir (exec_handler (cleanup path id) w)) → e ∈ entries (dir w))
  ∧ (is_Some (dir w) → is_Some (dir (exec_handler (cleanup path id) w))).
Proof.
  rewrite cleanup_world. destruct (existsSync (dir w) path); [|done].
  destruct (unlinkSync (dir w) path) as [d|] eqn:Hd; [|done]. wsimpl. split.
  - intros e. rewrite (unlinkSync_others _ _ _ Hd).
    rewrite !list_elem_of_In, filter_In. tauto.
  - intros _. unfold unlinkSync in Hd.
    destruct (List.find _ _) as [e|]; [|discriminate].
    destruct (removable e); [|discriminate]. injection Hd as <-. eauto.
Qed.

Lemma callbacks_dir ts w :
  (∀ e, e ∈ entries (dir (callbacks ts w)) → e ∈ entries (dir w))
  ∧ (is_Some (dir w) → is_Some (dir (callbacks ts w))).
Proof.
  revert w. induction ts as [|t ts IH]; intros w; [done|].
  rewrite callbacks_cons.
  destruct (IH (exec_handler (cleanup (filePath t) (owner t)) w)) as [IH1 IH2].
  destruct (cleanup_dir (filePath t) (owner t) w) as [H1 H2].
  split; [intros e He; by apply H1, IH1|intros Hd; by apply IH2, H2].
Qed.

(** *** Every input moves every stream in one of four ways *)

Lemma scheduled_streams now path id w :
  streams (exec_handler (scheduleFileCleanup now path id) w) = streams w.
Proof. by rewrite scheduleFileCleanup_world. Qed.

Lemma handle_input_stream_move now i w (id' : jsstring) :
  stream_move (streams w !! id') (streams (handle_input now i w) !! id').
Proof.
  destruct i as [url format ff ri uuid|id data|id data|id code|id msg|oid|e];
    cbn [handle_input].
  - rewrite POST_world.
    destruct (_ || _ || _); [constructor|].
    destruct (checkRateLimit _ _ _).1; [|constructor].
    destruct (existsb has_null _); [constructor|]. wsimpl.
    destruct (decide (uuid = id')) as [->|Hne].
    + rewrite lookup_insert_eq. constructor.
    + rewrite lookup_insert_ne by done. constructor.
  - unfold listening, exec_handler. destruct (streams w !! id) as [s|] eqn:Hs; [|constructor].
    destruct (on_stdout_appends id data w) as [Heq|(s' & evs & Hs' & Ho & Hevs & Heq)];
      unfold exec_handler in Heq; rewrite Heq; [constructor|]. wsimpl.
    destruct (decide (id = id')) as [->|Hne].
    + rewrite lookup_insert_eq, Hs'. by constructor.
    + rewrite lookup_insert_ne by done. constructor.
  - unfold listening, exec_handler. destruct (streams w !! id) as [s|] eqn:Hs; [|constructor].
    pose proof (on_stderr_world id data w s Hs) as Heq. unfold exec_handler in Heq.
    rewrite Heq. destruct (includes data (js "ERROR") && negb (closed s)) eqn:Hc;
      [|constructor]. wsimpl.
    apply andb_prop in Hc as [_ Ho]. apply negb_true_iff in Ho.
    destruct (decide (id = id')) as [->|Hne].
    + rewrite lookup_insert_eq, Hs. by constructor.
    + rewrite lookup_insert_ne by done. constructor.
  - unfold listening, exec_handler. destruct (streams w !! id) as [s|] eqn:Hs; [|constructor].
    destruct (on_close_summary now id code w s Hs) as (w2 & t & Hw2 & Ht & _ & Heq).
    unfold exec_handler in Heq. rewrite Heq.
    assert (streams w2 = streams w) as Hsame.
    { destruct Hw2 as [->|(f & _ & ->)]; [done|]. by rewrite scheduled_streams. }
    destruct (closed s) eqn:Ho; [rewrite Hsame; constructor|]. wsimpl. rewrite Hsame.
    destruct (decide (id = id')) as [->|Hne].
    + rewrite lookup_insert_eq, Hs. by constructor.
    + rewrite lookup_insert_ne by done. constructor.
  - unfold listening, exec_handler. destruct (streams w !! id) as [s|] eqn:Hs; [|constructor].
    pose proof (on_error_world id msg w s Hs) as Heq. unfold exec_handler in Heq.
    rewrite Heq. destruct (closed s) eqn:Ho; [constructor|]. wsimpl.
    destruct (decide (id = id')) as [->|Hne].
    + rewrite lookup_insert_eq, Hs. by constructor.
    + rewrite lookup_insert_ne by done. constructor.
  - rewrite DELETE_world. destruct oid as [[|c r]|]; try constructor.
    destruct (activeDownloads w !! (c :: r)); [|constructor].
    destruct (fileCleanupTimers w !! (c :: r)); constructor.
  - constructor.
Qed.

Lemma step_stream_move now i w (id' : jsstring) :
  stream_move (streams w !! id') (streams (step now i w) !! id').
Proof.
  unfold step. destruct (advance_frame now w) as (Hs & _). rewrite <- Hs.
  apply handle_input_stream_move.
Qed.

(** *** Streams stay in good order *)

Lemma count_events_app p evs evs' :
  count_events p (evs ++ evs') = (count_events p evs + count_events p evs')%nat.
Proof. unfold count_events. by rewrite List.filter_app, length_app. Qed.

Lemma count_events_none p evs :
  Forall (fun ev => p ev = false) evs → count_events p evs = O.
Proof.
  unfold count_events. induction 1 as [|ev evs Hev _ IH]; [done|]. simpl. by rewrite Hev.
Qed.

Lemma more_not_started evs :
  Forall (fun ev => is_progress ev || is_processing ev = true) evs →
  count_events is_started evs = O ∧ count_events is_terminal evs = O.
Proof.
  intros H. split; apply count_events_none; (eapply Forall_impl; [exact H|]);
    by intros [].
Qed.

Lemma stream_move_in_order o o' s' :
  stream_move o o' → (∀ s, o = Some s → stream_in_order s) → o' = Some s' →
  stream_in_order s'.
Proof.
  intros Hmove Hin Hs'. destruct Hmove as [o|o id msg|s evs Ho Hevs|s t Ho Ht].
  - by apply Hin.
  - injection Hs' as <-. by split.
  - injection Hs' as <-. specialize (Hin s eq_refl). unfold stream_in_order in *.
    cbn [queue closed]. rewrite Ho in Hin.
    destruct (queue s) as [|[] body]; try done. simpl.
    destruct Hin as [H1 H2]. destruct (more_not_started evs Hevs) as [H3 H4].
    rewrite !count_events_app. split; lia.
  - injection Hs' as <-. specialize (Hin s eq_refl). unfold stream_in_order in *.
    cbn [queue closed]. rewrite Ho in Hin.
    destruct (queue s) as [|[] body]; try done. simpl.
    destruct Hin as [H1 H2]. split.
    + rewrite count_events_app, H1. by destruct t.
    + exists body, t. done.
Qed.

Lemma reachable_in_order w :
  reachable w → ∀ (id : jsstring) s, streams w !! id = Some s → stream_in_order s.
Proof.
  induction 1 as [|now i w Hw IH Hfresh]; intros id s Hs.
  - unfold init in Hs. wsimpl. by rewrite lookup_empty in Hs.
  - eapply stream_move_in_order; [apply (step_stream_move now i w id)| |exact Hs].
    intros s0 Hs0. by apply (IH id).
Qed.

Lemma reachable_run trace w : reachable w → fresh_trace trace w → reachable (run trace w).
Proof.
  revert w. induction trace as [|[now i] trace IH]; intros w Hw Hfresh; [done|].
  destruct Hfresh as [Hi Hrest]. simpl. apply IH; [by constructor|done].
Qed.

(** Once the process has closed, or has failed to start, the stream of
    its job is closed. *)
Lemma closed_after_close now id code w :
  is_Some (streams w !! id) →
  ∃ s', streams (step now (Close id code) w) !! id = Some s' ∧ closed s' = true.
Proof.
  unfold step. destruct (advance_frame now w) as (Hs & _). rewrite <- Hs.
  generalize (advance now w). clear w Hs. intros w [s Hs].
  cbn [handle_input]. unfold listening, exec_handler at 1. rewrite Hs.
  destruct (on_close_summary now id code w s Hs) as (w2 & t & Hw2 & Ht & _ & Heq).
  unfold exec_handler in Heq. rewrite Heq.
  assert (streams w2 = streams w) as Hsame.
  { destruct Hw2 as [->|(f & _ & ->)]; [done|]. by rewrite scheduled_streams. }
  destruct (closed s) eqn:Ho.
  - exists s. by rewrite Hsame.
  - eexists. wsimpl. by rewrite lookup_insert_eq.
Qed.

Lemma closed_after_error now id msg w :
  is_Some (streams w !! id) →
  ∃ s', streams (step now (ProcessError id msg) w) !! id = Some s' ∧ closed s' = true.
Proof.
  unfold step. destruct (advance_frame now w) as (Hs & _). rewrite <- Hs.
  generalize (advance now w). clear w Hs. intros w [s Hs].
  cbn [handle_input]. unfold listening, exec_handler at 1. rewrite Hs.
  pose proof (on_error_world id msg w s Hs) as Heq. unfold exec_handler in Heq.
  rewrite Heq. destruct (closed s) eqn:Ho.
  - exists s. done.
  - eexists. wsimpl. by rewrite lookup_insert_eq.
Qed.

Lemma fresh_failed_early : fresh_trace failed_early init.
Proof. repeat split; try done; vm_compute; done. Qed.

Lemma fresh_two_markers : fresh_trace two_markers init.
Proof. repeat split; try done; vm_compute; done. Qed.

Lemma fresh_full_run : fresh_trace full_run init.
Proof. repeat split; try done; vm_compute; done. Qed.

(** *** A clean exit *)

Lemma find_at_path (es : list Entry) (f : jsstring) :
  f ∈ map name es →
  ∃ e, List.find (at_path (join tempDir f)) es = Some e ∧ name e = f.
Proof.
  induction es as [|e es IH]; cbn [map List.find]; [by intros ?%elem_of_nil|].
  rewrite at_path_join. destruct (decide (name e = f)) as [Heq|Hne].
  - intros _. rewrite bool_decide_eq_true_2 by done. eauto.
  - rewrite bool_decide_eq_false_2 by done. intros [?|?]%elem_of_cons; [done|]. by apply IH.
Qed.

Lemma find_elem_of {A} (p : A → bool) (l : list A) (x : A) :
  List.find p l = Some x → x ∈ l ∧ p x = true.
Proof.
  intros H. apply find_some in H as [H1 H2]. by rewrite list_elem_of_In.
Qed.

(** A file that the scan finds can be measured. *)
Lemma resolve_statSync (d : Dir) (id f : jsstring) :
  Artifact.resolve d id = Some (Some f) →
  ∃ e, List.find (at_path (join tempDir f)) (entries d) = Some e ∧ name e = f
       ∧ statSync d (join tempDir f) = Some (Z.of_nat (length (content e))).
Proof.
  unfold Artifact.resolve, readdirSync, statSync. destruct d as [es|]; [|discriminate].
  simpl. intros [= H]. apply find_elem_of in H as [H _].
  destruct (find_at_path es f H) as (e & He & Hname). exists e. by rewrite He.
Qed.

Lemma replace_prefix (p rest r : jsstring) : replace (p ++ rest) p r = r ++ rest.
Proof. destruct (p ++ rest) eqn:E; simpl; rewrite <- E, strip_prefix_app; done. Qed.

Lemma on_close_complete now id w s f size_ enc :
  streams w !! id = Some s → closed s = false →
  Artifact.resolve (dir w) id = Some (Some f) →
  statSync (dir w) (join tempDir f) = Some size_ →
  encodeURIComponent (replace f (id ++ js ".") []) = Some enc →
  exec_handler (on_close now id (Some 0)) w
  = with_streams
      <[id := mkStream
                (queue s ++ [Complete id (replace f (id ++ js ".") [])
                               (megabytes_toFixed2 size_ ++ js " MB")
                               (js "/api/download-file/" ++ id ++ js "/" ++ enc)])
                true]>
      (exec_handler (scheduleFileCleanup now (join tempDir f) id)
         (with_activeDownloads (delete id) w)).
Proof.
  intros Hs Ho Hres Hstat Henc. unfold Artifact.resolve in Hres.
  unfold on_close, exec_handler. unfold mbind, M_bind. unfold bind at 1. unfold modify.
  set (w1 := with_activeDownloads (delete id) w).
  rewrite bool_decide_eq_true_2 by done. unfold bind, try_catch.
  rewrite finalize_eq. change (dir w1) with (dir w).
  destruct (readdirSync (dir w)) as [files|]; [|discriminate]. injection Hres as ->.
  rewrite Hstat, Henc. rewrite scheduleFileCleanup_world.
  erewrite enqueue_open; [|exact Hs|exact Ho].
  erewrite close_open; [|wsimpl; apply lookup_insert_eq|done].
  wsimpl. unfold with_streams. wsimpl. by rewrite insert_insert_eq.
Qed.

Lemma on_close_not_found now id w s :
  streams w !! id = Some s → closed s = false →
  Artifact.resolve (dir w) id = Some None →
  exec_handler (on_close now id (Some 0)) w
  = with_streams
      <[id := mkStream (queue s ++ [Error id (js "Downloaded file not found")]) true]>
      (with_activeDownloads (delete id) w).
Proof.
  intros Hs Ho Hres. unfold Artifact.resolve in Hres.
  unfold on_close, exec_handler. unfold mbind, M_bind. unfold bind at 1. unfold modify.
  set (w1 := with_activeDownloads (delete id) w).
  rewrite bool_decide_eq_true_2 by done. unfold bind, try_catch.
  rewrite finalize_eq. change (dir w1) with (dir w).
  destruct (readdirSync (dir w)) as [files|]; [|discriminate]. injection Hres as ->.
  erewrite enqueue_open; [|exact Hs|exact Ho].
  erewrite close_open; [|wsimpl; apply lookup_insert_eq|done].
  wsimpl. unfold with_streams. wsimpl. by rewrite insert_insert_eq.
Qed.

Lemma fresh_odd_name : fresh_trace odd_name init.
Proof. repeat split; try done; vm_compute; done. Qed.

Lemma fresh_late_success : fresh_trace late_success init.
Proof. repeat split; try done; vm_compute; done. Qed.

(** C4, as stated, fails in two ways.  What is cut off the file name is
    the job id together with the dot after it, wherever that first occurs: a
    file that starts with the job id alone keeps its whole name.  And nothing
    is published on a stream that an error line has closed already, although
    the timeout is set. *)
Lemma C4_counterexample :
  fresh_trace odd_name init
  ∧ Artifact.resolve (dir (run odd_name init)) (js "job1") = Some (Some (js "job1-a.mp4"))
  ∧ List.filter is_complete (events (run odd_name init) (js "job1"))
    = [ Complete (js "job1") (js "job1-a.mp4") (js "0.00 MB")
          (js "/api/download-file/job1/job1-a.mp4") ]
  ∧ fresh_trace late_success init
  ∧ count_events is_complete (events (run late_success init) (js "job1")) = 0%nat
  ∧ length (pending_for (js "job1") (run late_success init)) = 1%nat.
Proof.
  split; [apply fresh_odd_name|]. split; [vm_compute; done|].
  split; [vm_compute; done|]. split; [apply fresh_late_success|].
  split; vm_compute; done.
Qed.

(** C4, amended.  The process of a job whose stream is still open exits
    with code 0.  If the first file that the scan of the directory finds
    under the job id is named by the job id, a dot and a rest that can be
    percent-encoded, then the file is measured, one complete event is
    published, with the rest as its file name and the measured size in
    megabytes to two decimals, and the stream is closed; a timeout that
    deletes the file is set three minutes ahead and stored under the job id.
    If the scan finds no file under the job id, the stream ends with an error
    event and no timeout is set. *)
Theorem C4_clean_exit :
  ∀ (now : Z) (id : jsstring) (w : World) (s : Stream),
    streams w !! id = Some s → closed s = false →
    (∀ rest enc : jsstring,
       Artifact.resolve (dir w) id = Some (Some (id ++ js "." ++ rest)) →
       encodeURIComponent rest = Some enc →
       ∃ size_,
         statSync (dir w) (join tempDir (id ++ js "." ++ rest)) = Some size_
         ∧ streams (handle_input now (Close id (Some 0)) w) !! id
           = Some (mkStream
                     (queue s ++ [Complete id rest (megabytes_toFixed2 size_ ++ js " MB")
                                    (js "/api/download-file/" ++ id ++ js "/" ++ enc)])
                     true)
         ∧ timeouts (handle_input now (Close id (Some 0)) w)
           = timeouts w ++ [mkTimeout (next_handle w) (now + 180000)
                              (join tempDir (id ++ js "." ++ rest)) id]
         ∧ fileCleanupTimers (handle_input now (Close id (Some 0)) w) !! id
           = Some (next_handle w))
    ∧ (Artifact.resolve (dir w) id = Some None →
       streams (handle_input now (Close id (Some 0)) w) !! id
         = Some (mkStream (queue s ++ [Error id (js "Downloaded file not found")]) true)
       ∧ timeouts (handle_input now (Close id (Some 0)) w) = timeouts w
       ∧ fileCleanupTimers (handle_input now (Close id (Some 0)) w) = fileCleanupTimers w).
Proof.
  intros now id w s Hs Ho. cbn [handle_input]. unfold listening.
  unfold exec_handler at 1 2 3 4 5 6. rewrite Hs. split.
  - intros rest enc Hres Henc.
    destruct (resolve_statSync _ _ _ Hres) as (e & _ & _ & Hstat).
    exists (Z.of_nat (length (content e))). split; [done|].
    assert (replace (id ++ js "." ++ rest) (id ++ js ".") [] = rest) as Hrep.
    { rewrite (app_assoc id). apply replace_prefix. }
    pose proof (on_close_complete now id w s _ _ enc Hs Ho Hres Hstat) as Heq.
    rewrite Hrep in Heq. specialize (Heq Henc). unfold exec_handler in Heq at 1.
    rewrite Heq, scheduleFileCleanup_world. wsimpl.
    by rewrite !lookup_insert_eq.
  - intros Hres. pose proof (on_close_not_found now id w s Hs Ho Hres) as Heq.
    unfold exec_handler in Heq. rewrite Heq. wsimpl. by rewrite lookup_insert_eq.
Qed.

(** The exit of the process of [full_run]. *)
Lemma C4_clean_exit_witness :
  ∃ size_,
    statSync (dir before_exit) (join tempDir (js "job1" ++ js "." ++ js "mp3")) = Some size_
    ∧ streams (handle_input 1000 (Close (js "job1") (Some 0)) before_exit) !! js "job1"
      = Some (mkStream
                (queue (mkStream (events before_exit (js "job1")) false)
                   ++ [Complete (js "job1") (js "mp3") (megabytes_toFixed2 size_ ++ js " MB")
                         (js "/api/download-file/" ++ js "job1" ++ js "/" ++ js "mp3")])
                true)
    ∧ timeouts (handle_input 1000 (Close (js "job1") (Some 0)) before_exit)
      = timeouts before_exit
          ++ [mkTimeout (next_handle before_exit) (1000 + 180000)
                (join tempDir (js "job1" ++ js "." ++ js "mp3")) (js "job1")]
    ∧ fileCleanupTimers (handle_input 1000 (Close (js "job1") (Some 0)) before_exit)
        !! js "job1"
      = Some (next_handle before_exit).
Proof.
  apply (proj1 (C4_clean_exit 1000 (js "job1") before_exit
                  (mkStream (events before_exit (js "job1")) false)
                  ltac:(vm_compute; reflexivity) eq_refl) (js "mp3") (js "mp3"));
    vm_compute; reflexivity.
Defined.

(** *** What one input does to the timers, the registry and the directory *)

Lemma listening_run id (m : M unit) w :
  exec_handler (listening id m) w
  = match streams w !! id with
    | Some _ => exec_handler m w
    | None => w
    end.
Proof. unfold listening, exec_handler. by destruct (streams w !! id). Qed.

Lemma on_stdout_fields id data w :
  timeouts (exec_handler (on_stdout id data) w) = timeouts w
  ∧ fileCleanupTimers (exec_handler (on_stdout id data) w) = fileCleanupTimers w
  ∧ activeDownloads (exec_handler (on_stdout id data) w) = activeDownloads w
  ∧ dir (exec_handler (on_stdout id data) w) = dir w
  ∧ next_handle (exec_handler (on_stdout id data) w) = next_handle w.
Proof.
  destruct (on_stdout_appends id data w) as [->|(s & evs & _ & _ & _ & ->)]; done.
Qed.

Lemma handle_input_timers now i w :
  (timeouts (handle_input now i w) = timeouts w
   ∧ fileCleanupTimers (handle_input now i w) = fileCleanupTimers w
   ∧ next_handle (handle_input now i w) = next_handle w)
  ∨ (∃ id f, i = Close id (Some 0) ∧ is_Some (streams w !! id)
       ∧ timeouts (handle_input now i w)
         = timeouts w ++ [mkTimeout (next_handle w) (now + 180000) (join tempDir f) id]
       ∧ fileCleanupTimers (handle_input now i w)
         = <[id := next_handle w]> (fileCleanupTimers w)
       ∧ next_handle (handle_input now i w) = S (next_handle w))
  ∨ (∃ id h, i = Delete (Some id) ∧ is_Some (activeDownloads w !! id)
       ∧ fileCleanupTimers w !! id = Some h
       ∧ timeouts (handle_input now i w)
         = List.filter (fun t => negb (Nat.eqb (handle t) h)) (timeouts w)
       ∧ fileCleanupTimers (handle_input now i w) = delete id (fileCleanupTimers w)
       ∧ next_handle (handle_input now i w) = next_handle w).
Proof.
  destruct i as [url format ff ri uuid|id data|id data|id code|id msg|oid|e];
    cbn [handle_input].
  - left. rewrite POST_world. destruct (_ || _ || _); [done|].
    destruct (checkRateLimit _ _ _).1; [|done]. by destruct (existsb has_null _).
  - left. rewrite !listening_run. destruct (streams w !! id); [|done].
    by destruct (on_stdout_fields id data w) as (-> & -> & _ & _ & ->).
  - left. rewrite !listening_run.
    destruct (streams w !! id) as [s|] eqn:Hs; [|done].
    pose proof (on_stderr_world id data w s Hs) as Heq. rewrite Heq. by destruct (_ && _).
  - rewrite !listening_run.
    destruct (streams w !! id) as [s|] eqn:Hs; [|by left].
    destruct (on_close_summary now id code w s Hs) as (w2 & t & Hw2 & _ & _ & Heq).
    rewrite Heq.
    destruct Hw2 as [->|(f & -> & ->)].
    + left. by destruct (closed s).
    + right. left. exists id, f. rewrite scheduleFileCleanup_world.
      split; [done|]. split; [by rewrite Hs|]. by destruct (closed s).
  - left. rewrite !listening_run.
    destruct (streams w !! id) as [s|] eqn:Hs; [|done].
    pose proof (on_error_world id msg w s Hs) as Heq. rewrite Heq. by destruct (closed s).
  - rewrite DELETE_world. destruct oid as [[|c r]|]; [by left| |by left].
    destruct (activeDownloads w !! (c :: r)) as [d|] eqn:Ha; [|by left].
    destruct (fileCleanupTimers w !! (c :: r)) as [h|] eqn:Ht; [|by left].
    right. right. exists (c :: r), h. rewrite Ha. eauto 10.
  - by left.
Qed.

Lemma handle_input_active now i w (id' : jsstring) :
  activeDownloads (handle_input now i w) !! id' = activeDownloads w !! id'
  ∨ activeDownloads (handle_input now i w) !! id' = None
  ∨ (∃ url format ff ri, i = Post url format ff ri id'
       ∧ timeouts (handle_input now i w) = timeouts w
       ∧ fileCleanupTimers (handle_input now i w) = fileCleanupTimers w
       ∧ streams (handle_input now i w) !! id'
         = Some (mkStream [Started id' (js "Starting download...")] false)).
Proof.
  destruct i as [url format ff ri uuid|id data|id data|id code|id msg|oid|e];
    cbn [handle_input].
  - rewrite POST_world. destruct (_ || _ || _); [by left|].
    destruct (checkRateLimit _ _ _).1; [|by left].
    destruct (existsb has_null _); [by left|]. wsimpl.
    destruct (decide (uuid = id')) as [->|Hne].
    + right. right. exists url, format, ff, ri. by rewrite lookup_insert_eq.
    + left. by rewrite lookup_insert_ne.
  - left. rewrite !listening_run. destruct (streams w !! id); [|done].
    by destruct (on_stdout_fields id data w) as (_ & _ & -> & _).
  - rewrite !listening_run.
    destruct (streams w !! id) as [s|] eqn:Hs; [|by left].
    pose proof (on_stderr_world id data w s Hs) as Heq. rewrite Heq. destruct (_ && _); [|by left]. wsimpl.
    destruct (decide (id = id')) as [->|Hne].
    + right. left. apply lookup_delete_eq.
    + left. by apply lookup_delete_ne.
  - rewrite !listening_run.
    destruct (streams w !! id) as [s|] eqn:Hs; [|by left].
    destruct (on_close_summary now id code w s Hs) as (w2 & t & Hw2 & _ & _ & Heq).
    rewrite Heq.
    assert (activeDownloads w2 = delete id (activeDownloads w)) as Ha.
    { destruct Hw2 as [->|(f & _ & ->)]; [done|]. by rewrite scheduleFileCleanup_world. }
    assert (activeDownloads (if closed s then w2
              else with_streams <[id:=mkStream (queue s ++ [t]) true]> w2)
            = delete id (activeDownloads w)) as -> by (by destruct (closed s)).
    destruct (decide (id = id')) as [->|Hne].
    + right. left. apply lookup_delete_eq.
    + left. by apply lookup_delete_ne.
  - rewrite !listening_run.
    destruct (streams w !! id) as [s|] eqn:Hs; [|by left].
    pose proof (on_error_world id msg w s Hs) as Heq. rewrite Heq.
    assert (activeDownloads (if closed s then with_activeDownloads (delete id) w
              else with_streams
                     <[id:=mkStream (queue s ++ [Error id (js "Failed to start download: " ++ msg)]) true]>
                     (with_activeDownloads (delete id) w))
            = delete id (activeDownloads w)) as -> by (by destruct (closed s)).
    destruct (decide (id = id')) as [->|Hne].
    + right. left. apply lookup_delete_eq.
    + left. by apply lookup_delete_ne.
  - rewrite DELETE_world. destruct oid as [[|c r]|]; [by left| |by left].
    destruct (activeDownloads w !! (c :: r)) as [d|] eqn:Ha; [|by left].
    assert (activeDownloads
              match fileCleanupTimers w !! (c :: r) with
              | Some t =>
                  with_fileCleanupTimers (delete (c :: r))
                    (with_timeouts (List.filter (fun t' => negb (Nat.eqb (handle t') t)))
                       (with_activeDownloads (delete (c :: r))
                          (with_signals (fun l => l ++ [(c :: r, js "SIGTERM")]) w)))
              | None =>
                  with_activeDownloads (delete (c :: r))
                    (with_signals (fun l => l ++ [(c :: r, js "SIGTERM")]) w)
              end = delete (c :: r) (activeDownloads w)) as ->
      by (by destruct (fileCleanupTimers w !! (c :: r))).
    destruct (decide (c :: r = id')) as [->|Hne].
    + right. left. apply lookup_delete_eq.
    + left. by apply lookup_delete_ne.
  - by left.
Qed.

Lemma handle_input_dir now i w :
  dir (handle_input now i w) = dir w
  ∨ (dir w = None ∧ dir (handle_input now i w) = Some [])
  ∨ (∃ e, i = Write e ∧ dir (handle_input now i w) = write e (dir w)).
Proof.
  destruct i as [url format ff ri uuid|id data|id data|id code|id msg|oid|e];
    cbn [handle_input].
  - rewrite POST_world. destruct (_ || _ || _); [by left|].
    destruct (checkRateLimit _ _ _).1; [|by left].
    destruct (existsb has_null _); wsimpl; (destruct (dir w); [by left|right; by left]).
  - left. rewrite !listening_run. destruct (streams w !! id); [|done].
    by destruct (on_stdout_fields id data w) as (_ & _ & _ & -> & _).
  - left. rewrite !listening_run.
    destruct (streams w !! id) as [s|] eqn:Hs; [|done].
    pose proof (on_stderr_world id data w s Hs) as Heq. rewrite Heq. by destruct (_ && _).
  - left. rewrite !listening_run.
    destruct (streams w !! id) as [s|] eqn:Hs; [|done].
    destruct (on_close_summary now id code w s Hs) as (w2 & t & Hw2 & _ & _ & Heq).
    rewrite Heq.
    assert (dir w2 = dir w) as Hd.
    { destruct Hw2 as [->|(f & _ & ->)]; [done|]. by rewrite scheduleFileCleanup_world. }
    by destruct (closed s).
  - left. rewrite !listening_run.
    destruct (streams w !! id) as [s|] eqn:Hs; [|done].
    pose proof (on_error_world id msg w s Hs) as Heq. rewrite Heq. by destruct (closed s).
  - left. rewrite DELETE_world. destruct oid as [[|c r]|]; [done| |done].
    destruct (activeDownloads w !! (c :: r)); [|done].
    by destruct (fileCleanupTimers w !! (c :: r)).
  - right. right. by exists e.
Qed.

Lemma stream_move_is_Some o o' : stream_move o o' → is_Some o → is_Some o'.
Proof. intros [] ?; eauto. Qed.

Lemma handle_input_started now i w (id : jsstring) :
  is_Some (streams w !! id) → is_Some (streams (handle_input now i w) !! id).
Proof. apply stream_move_is_Some, handle_input_stream_move. Qed.

(** *** What one input does to one stream, in full *)

Lemma handle_input_stream now i w (id : jsstring) :
  streams (handle_input now i w) !! id = streams w !! id
  ∨ (∃ url format ff ri, i = Post url format ff ri id
       ∧ streams (handle_input now i w) !! id
         = Some (mkStream [Started id (js "Starting download...")] false))
  ∨ (∃ s evs, streams w !! id = Some s ∧ closed s = false
       ∧ Forall (fun ev => is_progress ev || is_processing ev = true) evs
       ∧ streams (handle_input now i w) !! id = Some (mkStream (queue s ++ evs) false)
       ∧ ∃ data, i = Stdout id data)
  ∨ (∃ s t, streams w !! id = Some s ∧ closed s = false ∧ is_terminal t = true
       ∧ (is_complete t = true → i = Close id (Some 0))
       ∧ streams (handle_input now i w) !! id = Some (mkStream (queue s ++ [t]) true)).
Proof.
  destruct i as [url format ff ri uuid|id' data|id' data|id' code|id' msg|oid|e];
    cbn [handle_input].
  - rewrite POST_world. destruct (_ || _ || _); [by left|].
    destruct (checkRateLimit _ _ _).1; [|by left].
    destruct (existsb has_null _); [by left|]. wsimpl.
    destruct (decide (uuid = id)) as [->|Hne].
    + right. left. exists url, format, ff, ri. by rewrite lookup_insert_eq.
    + left. by rewrite lookup_insert_ne.
  - rewrite listening_run. destruct (streams w !! id') as [s|] eqn:Hs; [|by left].
    destruct (on_stdout_appends id' data w) as [->|(s' & evs & Hs' & Ho & Hevs & ->)];
      [by left|]. wsimpl.
    destruct (decide (id' = id)) as [->|Hne].
    + right. right. left. exists s', evs. rewrite lookup_insert_eq. eauto 10.
    + left. by rewrite lookup_insert_ne.
  - rewrite listening_run. destruct (streams w !! id') as [s|] eqn:Hs; [|by left].
    rewrite (on_stderr_world id' data w s Hs).
    destruct (includes data (js "ERROR") && negb (closed s)) eqn:Hc; [|by left]. wsimpl.
    apply andb_prop in Hc as [_ Ho]. apply negb_true_iff in Ho.
    destruct (decide (id' = id)) as [->|Hne].
    + right. right. right. exists s, (Error id (js "Download failed: " ++ data)).
      rewrite lookup_insert_eq.
      split; [done|]. split; [done|]. split; [done|]. split; [|done]. discriminate.
    + left. by rewrite lookup_insert_ne.
  - rewrite listening_run. destruct (streams w !! id') as [s|] eqn:Hs; [|by left].
    destruct (on_close_summary now id' code w s Hs) as (w2 & t & Hw2 & Ht & Hc & ->).
    assert (streams w2 = streams w) as Hsame.
    { destruct Hw2 as [->|(f & _ & ->)]; [done|]. by rewrite scheduled_streams. }
    destruct (closed s) eqn:Ho; [left; by rewrite Hsame|]. wsimpl. rewrite Hsame.
    destruct (decide (id' = id)) as [->|Hne].
    + right. right. right. exists s, t. rewrite lookup_insert_eq.
      split; [done|]. split; [done|]. split; [done|]. split; [|done].
      intros Hcomp. by rewrite (Hc Hcomp).
    + left. by rewrite lookup_insert_ne.
  - rewrite listening_run. destruct (streams w !! id') as [s|] eqn:Hs; [|by left].
    rewrite (on_error_world id' msg w s Hs).
    destruct (closed s) eqn:Ho; [by left|]. wsimpl.
    destruct (decide (id' = id)) as [->|Hne].
    + right. right. right.
      exists s, (Error id (js "Failed to start download: " ++ msg)).
      rewrite lookup_insert_eq.
      split; [done|]. split; [done|]. split; [done|]. split; [|done]. discriminate.
    + left. by rewrite lookup_insert_ne.
  - left. rewrite DELETE_world. destruct oid as [[|c r]|]; [done| |done].
    destruct (activeDownloads w !! (c :: r)); [|done].
    by destruct (fileCleanupTimers w !! (c :: r)).
  - by left.
Qed.

Lemma close_deactivates now id code w :
  is_Some (streams w !! id) →
  activeDownloads (handle_input now (Close id code) w) !! id = None.
Proof.
  intros [s Hs]. cbn [handle_input]. rewrite listening_run, Hs.
  destruct (on_close_summary now id code w s Hs) as (w2 & t & Hw2 & _ & _ & ->).
  assert (activeDownloads w2 = delete id (activeDownloads w)) as Ha.
  { destruct Hw2 as [->|(f & _ & ->)]; [done|]. by rewrite scheduleFileCleanup_world. }
  destruct (closed s); wsimpl; rewrite Ha; apply lookup_delete_eq.
Qed.

Lemma events_lookup w (id : jsstring) s : streams w !! id = Some s → events w id = queue s.
Proof. unfold events. by intros ->. Qed.

(** An input other than a clean exit of the process of [id] publishes no
    complete event for [id]. *)
Lemma handle_input_no_complete now i w (id : jsstring) :
  no_clean_exit_of id i →
  count_events is_complete (events w id) = O →
  count_events is_complete (events (handle_input now i w) id) = O.
Proof.
  intros Hi Hzero.
  destruct (handle_input_stream now i w id)
    as [Heq|[(url & format & ff & ri & -> & Heq)
       |[(s & evs & Hs & Ho & Hevs & Heq & _)|(s & t & Hs & Ho & Ht & Hc & Heq)]]].
  - unfold events in *. by rewrite Heq.
  - by rewrite (events_lookup _ _ _ Heq).
  - rewrite (events_lookup _ _ _ Heq). rewrite (events_lookup _ _ _ Hs) in Hzero.
    cbn [queue]. rewrite count_events_app, Hzero. apply count_events_none.
    eapply Forall_impl; [exact Hevs|]. by intros [].
  - rewrite (events_lookup _ _ _ Heq). rewrite (events_lookup _ _ _ Hs) in Hzero.
    cbn [queue]. rewrite count_events_app, Hzero.
    destruct (is_complete t) eqn:Hcomp; [|unfold count_events; simpl; by rewrite Hcomp].
    rewrite (Hc eq_refl) in Hi. simpl in Hi. by destruct (Hi eq_refl).
Qed.

(** *** Pending timeouts of a job *)

Lemma pending_for_nil id w :
  pending_for id w = [] ↔ ∀ t, t ∈ timeouts w → owner t ≠ id.
Proof.
  unfold pending_for. induction (timeouts w) as [|t ts IH]; simpl.
  - split; [intros _ t Ht; by apply elem_of_nil in Ht|done].
  - destruct (decide (owner t = id)) as [Heq|Hne].
    + rewrite bool_decide_eq_true_2 by done. split; [done|].
      intros H. destruct (H t); [by left|done].
    + rewrite bool_decide_eq_false_2 by done. rewrite IH. split.
      * intros H t' [->|Ht']%elem_of_cons; [done|by apply H].
      * intros H t' Ht'. apply H. by right.
Qed.

Lemma elem_of_filter_list {A} (p : A → bool) (l : list A) (x : A) :
  x ∈ List.filter p l ↔ x ∈ l ∧ p x = true.
Proof. by rewrite !list_elem_of_In, filter_In. Qed.

(** An input sets a timeout for [id] only at a clean exit of its process;
    otherwise a job without timers stays without. *)
Lemma handle_input_no_timer now i w (id : jsstring) :
  i ≠ Close id (Some 0) ∨ streams w !! id = None →
  fileCleanupTimers w !! id = None → pending_for id w = [] →
  fileCleanupTimers (handle_input now i w) !! id = None
  ∧ pending_for id (handle_input now i w) = [].
Proof.
  intros Hi Htab Hpend. rewrite pending_for_nil in *.
  destruct (handle_input_timers now i w)
    as [(-> & -> & _)|[(id' & f & -> & Hst & -> & -> & _)|(id' & h & -> & _ & _ & -> & -> & _)]].
  - done.
  - assert (id' ≠ id) as Hne.
    { intros ->. destruct Hi as [Hi|Hi]; [done|].
      rewrite Hi in Hst. by destruct Hst. }
    split; [by rewrite lookup_insert_ne|].
    intros t [Ht| ->%list_elem_of_singleton]%elem_of_app; [by apply Hpend|done].
  - split.
    + destruct (decide (id' = id)) as [->|Hne];
        [apply lookup_delete_eq|by rewrite lookup_delete_ne].
    + intros t [Ht _]%elem_of_filter_list. by apply Hpend.
Qed.

(** *** The reachable worlds are consistent *)

Lemma advance_events now w (id : jsstring) : events (advance now w) id = events w id.
Proof. unfold events. by destruct (advance_frame now w) as (-> & _). Qed.

Lemma advance_table now w (id : jsstring) :
  fileCleanupTimers (advance now w) !! id = None
  ∨ fileCleanupTimers (advance now w) !! id = fileCleanupTimers w !! id.
Proof.
  unfold advance.
  exact (callbacks_table (List.filter (is_due now) (timeouts w))
           (with_timeouts (List.filter (fun t => negb (is_due now t))) w) id).
Qed.

Lemma advance_no_timer now w (id : jsstring) :
  fileCleanupTimers w !! id = None → pending_for id w = [] →
  fileCleanupTimers (advance now w) !! id = None ∧ pending_for id (advance now w) = [].
Proof.
  intros Htab Hpend. split.
  - destruct (advance_table now w id) as [H|H]; [done|by rewrite H].
  - rewrite pending_for_nil in *. destruct (advance_frame now w) as (_ & _ & _ & _ & _ & ->).
    intros t [Ht _]%elem_of_filter_list. by apply Hpend.
Qed.

Lemma advance_consistent now w : consistent w → consistent (advance now w).
Proof.
  intros (Hown & Htab & Hids & Hact).
  destruct (advance_frame now w) as (Hs & Ha & _ & _ & _ & Ht).
  split; [|split; [|split]].
  - intros t. rewrite Ht, Hs. intros [H _]%elem_of_filter_list. by apply Hown.
  - intros id Hsome. rewrite Hs. apply Htab.
    destruct (advance_table now w id) as [H|H]; rewrite H in Hsome; [by destruct Hsome|done].
  - intros id. rewrite Hs. apply Hids.
  - intros id. rewrite Ha, Hs, advance_events. intros Hid.
    destruct (Hact id Hid) as (H1 & H2 & H3 & H4).
    split; [done|]. split; [done|]. by apply advance_no_timer.
Qed.

Lemma handle_input_consistent now i w :
  consistent w → fresh i w → consistent (handle_input now i w).
Proof.
  intros (Hown & Htab & Hids & Hact) Hfresh.
  split; [|split; [|split]].
  - intros t Ht. destruct (handle_input_timers now i w)
      as [(Heq & _)|[(id' & f & -> & Hst & Heq & _)|(id' & h & -> & _ & _ & Heq & _)]];
      rewrite Heq in Ht; apply handle_input_started.
    + by apply Hown.
    + apply elem_of_app in Ht as [Ht| ->%list_elem_of_singleton]; [by apply Hown|done].
    + apply elem_of_filter_list in Ht as [Ht _]. by apply Hown.
  - intros id Hid. destruct (handle_input_timers now i w)
      as [(_ & Heq & _)|[(id' & f & -> & Hst & _ & Heq & _)|(id' & h & -> & _ & _ & _ & Heq & _)]];
      rewrite Heq in Hid; apply handle_input_started.
    + by apply Htab.
    + destruct (decide (id' = id)) as [->|Hne]; [done|].
      rewrite lookup_insert_ne in Hid by done. by apply Htab.
    + destruct (decide (id' = id)) as [->|Hne];
        [rewrite lookup_delete_eq in Hid; by destruct Hid|].
      rewrite lookup_delete_ne in Hid by done. by apply Htab.
  - intros id Hid. destruct (handle_input_stream now i w id)
      as [Heq|[(url & format & ff & ri & -> & Heq)
         |[(s & evs & Hs & _)|(s & t & Hs & _)]]].
    + rewrite Heq in Hid. by apply Hids.
    + by destruct Hfresh.
    + apply Hids. by rewrite Hs.
    + apply Hids. by rewrite Hs.
  - intros id Hid.
    destruct (handle_input_active now i w id)
      as [Heq|[Heq|(url & format & ff & ri & -> & Ht & Htb & Hst)]].
    + rewrite Heq in Hid. destruct (Hact id Hid) as (H1 & H2 & H3 & H4).
      assert (i ≠ Close id (Some 0)) as Hi.
      { intros ->. rewrite close_deactivates in Heq by done.
        rewrite <- Heq in Hid. by destruct Hid. }
      split; [by apply handle_input_started|]. split.
      * apply handle_input_no_complete; [|done]. destruct i; try done.
        simpl. intros -> ->. done.
      * apply handle_input_no_timer; auto.
    + rewrite Heq in Hid. by destruct Hid.
    + destruct Hfresh as [Hne Hnone]. rewrite Hst. split; [eauto|].
      rewrite (events_lookup _ _ _ Hst). split; [done|]. rewrite Htb. split.
      * destruct (fileCleanupTimers w !! id) eqn:E; [|done].
        destruct (Htab id) as [? ?]; [eauto|congruence].
      * rewrite pending_for_nil, Ht. intros t Hin <-.
        destruct (Hown t Hin) as [? ?]. congruence.
Qed.

Lemma reachable_consistent w : reachable w → consistent w.
Proof.
  induction 1 as [|now i w Hw IH Hfresh].
  - split; [|split; [|split]].
    + intros t Ht. by apply elem_of_nil in Ht.
    + intros id [? H]. unfold init in H. wsimpl. by rewrite lookup_empty in H.
    + intros id [? H]. unfold init in H. wsimpl. by rewrite lookup_empty in H.
    + intros id [? H]. unfold init in H. wsimpl. by rewrite lookup_empty in H.
  - unfold step. apply handle_input_consistent; [by apply advance_consistent|done].
Qed.

(** *** Events of a stream, counted *)

(** *** What a chunk of output publishes *)

Lemma bind_returned {A B} (m : M A) (k : A → M B) w w1 a :
  m w = (w1, Some a) → (m ≫= k) w = k a w1.
Proof. intros H. unfold mbind, M_bind, bind. by rewrite H. Qed.

Lemma on_stdout_events id data w s :
  streams w !! id = Some s → closed s = false →
  ∃ w', on_stdout id data w = (w', Some tt)
        ∧ streams w' !! id = Some (mkStream (queue s ++ stdout_events id data) false).
Proof.
  unfold on_stdout, stdout_events. generalize (split 10 data). intros lines.
  revert w s. induction lines as [|line lines IH]; intros w s Hs Ho.
  - exists w. split; [done|]. cbn. rewrite app_nil_r, Hs. destruct s; cbn in *. by subst.
  - cbn [for_each map concat].
    set (body := fun line : jsstring => _).
    assert (∃ w1, body line w = (w1, Some tt)
                  ∧ streams w1 !! id = Some (mkStream (queue s ++ line_events id line) false))
      as (w1 & Hrun & Hs1).
    { subst body. cbv beta. unfold line_events, has_marker.
      destruct (trim line).
      { exists w. split; [done|]. rewrite app_nil_r, Hs. destruct s; cbn in *. by subst. }
      unfold mbind, M_bind, bind.
      destruct (parseProgress line) as [p|].
      - rewrite (enqueue_open _ _ _ _ Hs Ho).
        destruct (includes line (js "[download] 100%")
                  || includes line (js "has already been downloaded")).
        + erewrite enqueue_open; [|wsimpl; apply lookup_insert_eq|done].
          eexists. split; [reflexivity|]. wsimpl. rewrite lookup_insert_eq.
          cbn [queue]. by rewrite <- app_assoc.
        + eexists. split; [reflexivity|]. wsimpl. by rewrite lookup_insert_eq.
      - unfold ret at 1.
        destruct (includes line (js "[download] 100%")
                  || includes line (js "has already been downloaded")).
        + rewrite (enqueue_open _ _ _ _ Hs Ho).
          eexists. split; [reflexivity|]. wsimpl. by rewrite lookup_insert_eq.
        + exists w. split; [done|]. cbn [app]. rewrite app_nil_r, Hs.
          destruct s; cbn in *. by subst. }
    rewrite (bind_returned _ _ _ _ _ Hrun).
    destruct (IH w1 _ Hs1 eq_refl) as (w' & Hrun' & Hs').
    exists w'. split; [done|]. rewrite Hs'. cbn [queue]. by rewrite <- app_assoc.
Qed.

(** A chunk of output that reaches an open stream adds its events to
    it. *)
Lemma stdout_step now id data w s :
  streams w !! id = Some s → closed s = false →
  streams (step now (Stdout id data) w) !! id
  = Some (mkStream (queue s ++ stdout_events id data) false).
Proof.
  intros Hs Ho. unfold step. destruct (advance_frame now w) as (Hst & _).
  rewrite <- Hst in Hs. cbn [handle_input]. rewrite listening_run, Hs.
  destruct (on_stdout_events id data _ s Hs Ho) as (w' & Hrun & Hs').
  unfold exec_handler. by rewrite Hrun.
Qed.

Lemma count_processing_line id line :
  count_events is_processing (line_events id line)
  = if negb (bool_decide (trim line = [])) && has_marker line then 1%nat else 0%nat.
Proof.
  unfold line_events. destruct (trim line) eqn:E; [done|].
  rewrite bool_decide_eq_false_2 by done. cbn [negb andb].
  rewrite count_events_app.
  by destruct (parseProgress line), (has_marker line).
Qed.

(** One processing event for each marker line. *)
Lemma count_processing_stdout id data :
  count_events is_processing (stdout_events id data) = length (marker_lines data).
Proof.
  unfold stdout_events, marker_lines. induction (split 10 data) as [|line lines IH]; [done|].
  cbn [map concat List.filter]. rewrite count_events_app, count_processing_line, IH.
  by destruct (negb (bool_decide (trim line = [])) && has_marker line).
Qed.

(** Processing events come from marker lines, and from nothing else. *)
Lemma step_processing now i w (id : jsstring) s :
  fresh i (advance now w) → streams w !! id = Some s →
  count_events is_processing (events (step now i w) id)
  = (count_events is_processing (queue s)
     + if closed s then 0 else markers_for id i)%nat.
Proof.
  intros Hfresh Hs.
  assert ((∃ data, i = Stdout id data ∧ closed s = false)
          ∨ ((if closed s then 0 else markers_for id i) = 0)%nat
            ∧ (closed s = false → ∀ data, i ≠ Stdout id data))
    as [(data & -> & Ho)|[-> Hno]].
  { destruct (closed s) eqn:Ho; [right; by split|].
    destruct i as [| id' data | | | | |]; try (right; split; [done|by intros]).
    destruct (decide (id' = id)) as [->|Hne]; [left; eauto|].
    right. cbn [markers_for]. rewrite bool_decide_eq_false_2 by done.
    split; [done|]. intros _ data' [=]. done. }
  { rewrite (events_lookup _ _ _ (stdout_step now id data w s Hs Ho)). cbn [queue markers_for].
    rewrite Ho, bool_decide_eq_true_2 by done.
    by rewrite count_events_app, count_processing_stdout. }
  rewrite Nat.add_0_r. unfold step.
  destruct (advance_frame now w) as (Hst & _). rewrite <- Hst in Hs.
  destruct (handle_input_stream now i (advance now w) id)
    as [Heq|[(url & format & ff & ri & -> & _)|[(s' & evs & Hs' & Ho & Hevs & Heq & data & ->)
       |(s' & t & Hs' & Ho & Ht & _ & Heq)]]].
  - unfold events. by rewrite Heq, Hs.
  - destruct Hfresh as [_ Hnone]. congruence.
  - exfalso. assert (s' = s) as -> by congruence. by apply (Hno Ho data).
  - rewrite (events_lookup _ _ _ Heq). cbn [queue]. rewrite count_events_app.
    assert (s' = s) as -> by congruence.
    unfold count_events at 2. cbn. destruct t; try done; lia.
Qed.

(** C3, as stated, fails for the processing event: it is published once
    for each output line that holds a completion marker.  A job whose
    process exits with code 1 right away publishes none, and its stream is
    [started], [error]; a job whose process reports two finished transfers
    publishes two. *)
Lemma C3_processing_counterexample :
  fresh_trace failed_early init
  ∧ count_events is_processing (events (run failed_early init) (js "job1")) = 0%nat
  ∧ events (run failed_early init) (js "job1")
    = [ Started (js "job1") (js "Starting download...");
        Error (js "job1") (js "Download failed with code 1") ]
  ∧ fresh_trace two_markers init
  ∧ count_events is_processing (events (run two_markers init) (js "job1")) = 2%nat.
Proof.
  split; [apply fresh_failed_early|]. split; [vm_compute; done|].
  split; [vm_compute; done|]. split; [apply fresh_two_markers|vm_compute; done].
Qed.

(** C3, amended.  In every state the server can reach, the stream of every
    job begins with its started event, which is the only one; while the
    stream is open it holds no terminal event, and once it is closed it holds
    exactly one terminal event (complete or error), which is its last event.
    When the process of a started job closes, or fails to start, the stream
    is closed from then on.  A chunk of output that reaches an open stream
    adds to it, line by line, a progress event for a line with the progress
    pattern and then a processing event for a line with a completion marker;
    and whatever happens next, the number of processing events of a stream
    grows by the number of marker lines if that is a chunk of output of its
    own process reaching it open, and stays as it is otherwise. *)
Theorem C3_events_in_order :
  ∀ w : World, reachable w →
    (∀ (id : jsstring) (s : Stream), streams w !! id = Some s →
       (∃ ev rest, queue s = ev :: rest ∧ is_started ev = true)
       ∧ count_events is_started (queue s) = 1%nat
       ∧ (if closed s
          then count_events is_terminal (queue s) = 1%nat
               ∧ ∃ t, last (queue s) = Some t ∧ is_terminal t = true
          else count_events is_terminal (queue s) = 0%nat))
    ∧ (∀ (now : Z) (id : jsstring) (code : option Z), is_Some (streams w !! id) →
         ∃ s', streams (step now (Close id code) w) !! id = Some s' ∧ closed s' = true)
    ∧ (∀ (now : Z) (id msg : jsstring), is_Some (streams w !! id) →
         ∃ s', streams (step now (ProcessError id msg) w) !! id = Some s'
               ∧ closed s' = true)
    ∧ (∀ (now : Z) (id data : jsstring) (s : Stream),
         streams w !! id = Some s → closed s = false →
         streams (step now (Stdout id data) w) !! id
         = Some (mkStream (queue s ++ stdout_events id data) false)
         ∧ count_events is_processing (stdout_events id data) = length (marker_lines data))
    ∧ (∀ (now : Z) (i : Input) (id : jsstring) (s : Stream),
         fresh i (advance now w) → streams w !! id = Some s →
         count_events is_processing (events (step now i w) id)
         = (count_events is_processing (queue s)
            + if closed s then 0 else markers_for id i)%nat).
Proof.
  intros w Hw. split; [|split; [|split; [|split]]].
  - intros id s Hs. pose proof (reachable_in_order w Hw id s Hs) as Hin.
    unfold stream_in_order in Hin.
    destruct (queue s) as [|[sid msg| | | |] body]; try done.
    destruct Hin as [Hstart Hterm]. split; [eauto|]. split.
    + unfold count_events in *. simpl. by rewrite Hstart.
    + destruct (closed s).
      * destruct Hterm as (body' & t & -> & Ht & Hnone). split.
        -- change (Started sid msg :: body' ++ [t]) with ([Started sid msg] ++ body' ++ [t]).
           rewrite !count_events_app, Hnone. unfold count_events. simpl. by rewrite Ht.
        -- exists t. split; [|done].
           change (Started sid msg :: body' ++ [t]) with ((Started sid msg :: body') ++ [t]).
           apply last_snoc.
      * unfold count_events in *. simpl. done.
  - intros now id code. apply closed_after_close.
  - intros now id msg. apply closed_after_error.
  - intros now id data s Hs Ho. split; [by apply stdout_step|apply count_processing_stdout].
  - intros now i id s. apply step_processing.
Qed.

(** The stream of a job that ran to its end. *)
Lemma C3_events_in_order_witness :
  (∀ (id : jsstring) (s : Stream), streams (run full_run init) !! id = Some s →
     (∃ ev rest, queue s = ev :: rest ∧ is_started ev = true)
     ∧ count_events is_started (queue s) = 1%nat
     ∧ (if closed s
        then count_events is_terminal (queue s) = 1%nat
             ∧ ∃ t, last (queue s) = Some t ∧ is_terminal t = true
        else count_events is_terminal (queue s) = 0%nat))
  ∧ (∀ (now : Z) (id : jsstring) (code : option Z),
       is_Some (streams (run full_run init) !! id) →
       ∃ s', streams (step now (Close id code) (run full_run init)) !! id = Some s'
             ∧ closed s' = true)
  ∧ (∀ (now : Z) (id msg : jsstring), is_Some (streams (run full_run init) !! id) →
       ∃ s', streams (step now (ProcessError id msg) (run full_run init)) !! id = Some s'
             ∧ closed s' = true)
  ∧ (∀ (now : Z) (id data : jsstring) (s : Stream),
       streams (run full_run init) !! id = Some s → closed s = false →
       streams (step now (Stdout id data) (run full_run init)) !! id
       = Some (mkStream (queue s ++ stdout_events id data) false)
       ∧ count_events is_processing (stdout_events id data) = length (marker_lines data))
  ∧ (∀ (now : Z) (i : Input) (id : jsstring) (s : Stream),
       fresh i (advance now (run full_run init)) →
       streams (run full_run init) !! id = Some s →
       count_events is_processing (events (step now i (run full_run init)) id)
       = (count_events is_processing (queue s)
          + if closed s then 0 else markers_for id i)%nat).
Proof.
  apply C3_events_in_order.
  apply reachable_run; [constructor|apply fresh_full_run].
Defined.

(** A chunk of two lines, the second one with a completion marker. *)
Example stdout_events_sample :
  stdout_events (js "job1")
    (js "[download]  99.0% of 10.00MiB at 1.20MiB/s ETA 00:00" ++ [10%N]
       ++ js "[download] 100% of 10.00MiB at 1.20MiB/s ETA 00:00")
  = [ ProgressEvent (js "job1")
        (mkProgress (Some (Finite (99 * 2 ^ 46) (-46))) (js "1.20MiB/s") (js "00:00")
           (js "10.00MiB"));
      ProgressEvent (js "job1")
        (mkProgress (Some (Finite (100 * 2 ^ 46) (-46))) (js "1.20MiB/s") (js "00:00")
           (js "10.00MiB"));
      Processing (js "job1") (js "Processing file...") ].
Proof. vm_compute. reflexivity. Qed.

Example full_run_events :
  map (fun ev => (is_started ev, is_progress ev, is_processing ev, is_complete ev))
      (events (run full_run init) (js "job1"))
  = [ (true, false, false, false); (false, true, false, false);
      (false, false, true, false); (false, false, false, true) ].
Proof. vm_compute. done. Qed.


(** *** The registry of running jobs *)

(** What an input can do to a job that is registered afterwards: it was
    registered before, and its stream has stayed open if it was; or the input
    is the request that has started it. *)
Lemma handle_input_registered now i w (id : jsstring) dl :
  activeDownloads (handle_input now i w) !! id = Some dl →
  (activeDownloads w !! id = Some dl
   ∧ (∀ s, streams w !! id = Some s → closed s = false →
        ∃ s', streams (handle_input now i w) !! id = Some s' ∧ closed s' = false))
  ∨ (∃ url format ff ri,
       i = Post url format ff ri id ∧ youtubeRegex_test url = true
       ∧ dl = mkDownload (ytDlpArgs url format id) now
       ∧ streams (handle_input now i w) !! id
         = Some (mkStream [Started id (js "Starting download...")] false)).
Proof.
  destruct i as [url format ff ri uuid|id' data|id' data|id' code|id' msg|oid|e];
    cbn [handle_input].
  - rewrite POST_world.
    destruct (bool_decide (url = []) || bool_decide (format = []) || negb (youtubeRegex_test url))
      eqn:Hrej; [intros H; left; eauto|].
    apply orb_false_elim in Hrej as [_ Hy]. apply negb_false_iff in Hy.
    destruct (checkRateLimit now (clientId_of ff ri) (rateLimits w)).1;
      [|intros H; left; eauto].
    destruct (existsb has_null _); [intros H; left; eauto|].
    wsimpl. destruct (decide (uuid = id)) as [->|Hne].
    + rewrite !lookup_insert_eq. intros [= <-]. right. by exists url, format, ff, ri.
    + rewrite !lookup_insert_ne by done. intros H. left. eauto.
  - rewrite listening_run. destruct (streams w !! id') as [s0|] eqn:Hs0; [|left; eauto].
    destruct (on_stdout_appends id' data w) as [->|(s1 & evs & Hs1 & Ho & _ & ->)];
      [left; eauto|].
    wsimpl. intros H. left. split; [done|]. intros s Hs Hopen.
    destruct (decide (id' = id)) as [->|Hne].
    + rewrite lookup_insert_eq. eauto.
    + rewrite lookup_insert_ne by done. eauto.
  - rewrite listening_run. destruct (streams w !! id') as [s0|] eqn:Hs0; [|left; eauto].
    rewrite (on_stderr_world _ _ _ _ Hs0).
    destruct (includes data (js "ERROR") && negb (closed s0)); [|left; eauto].
    wsimpl. destruct (decide (id' = id)) as [->|Hne].
    + by rewrite lookup_delete_eq.
    + rewrite lookup_delete_ne, lookup_insert_ne by done. left. eauto.
  - rewrite listening_run. destruct (streams w !! id') as [s0|] eqn:Hs0; [|left; eauto].
    destruct (on_close_summary now id' code w s0 Hs0) as (w2 & t & Hw2 & _ & _ & ->).
    assert (activeDownloads w2 = delete id' (activeDownloads w) ∧ streams w2 = streams w)
      as [Ha Hst].
    { destruct Hw2 as [->|(f & _ & ->)]; [done|]. by rewrite scheduleFileCleanup_world. }
    destruct (decide (id' = id)) as [->|Hne].
    + destruct (closed s0); wsimpl; rewrite Ha; by rewrite lookup_delete_eq.
    + destruct (closed s0); wsimpl; rewrite Ha, ?Hst, lookup_delete_ne, ?lookup_insert_ne by done;
        left; eauto.
  - rewrite listening_run. destruct (streams w !! id') as [s0|] eqn:Hs0; [|left; eauto].
    rewrite (on_error_world _ _ _ _ Hs0).
    destruct (decide (id' = id)) as [->|Hne].
    + destruct (closed s0); wsimpl; by rewrite lookup_delete_eq.
    + destruct (closed s0); wsimpl; rewrite lookup_delete_ne, ?lookup_insert_ne by done;
        left; eauto.
  - rewrite DELETE_world. destruct oid as [[|c r]|]; [left; eauto| |left; eauto].
    destruct (activeDownloads w !! (c :: r)); [|left; eauto].
    destruct (decide (c :: r = id)) as [<-|Hne].
    + destruct (fileCleanupTimers w !! (c :: r)); wsimpl; by rewrite lookup_delete_eq.
    + destruct (fileCleanupTimers w !! (c :: r)); wsimpl; rewrite lookup_delete_ne by done;
        left; eauto.
  - left. eauto.
Qed.

Lemma reachable_registered_well w : reachable w → registered_well w.
Proof.
  induction 1 as [|now i w Hw IH Hfresh]; [by intros id dl H|].
  intros id dl Hdl. unfold step in *.
  destruct (advance_frame now w) as (Hst & Hact & _).
  destruct (handle_input_registered _ _ _ _ _ Hdl)
    as [[Hold Hopen]|(url & format & ff & ri & -> & Hy & -> & Hs)].
  - rewrite Hact in Hold. destruct (IH id dl Hold) as [(s & Hs & Ho) Hargs].
    split; [|done]. apply (Hopen s); [by rewrite Hst|done].
  - split; [eauto|]. by exists url, format.
Qed.

(** *** After a cancellation *)

Lemma cancelled_step now i w (id : jsstring) :
  cancelled id w → fresh i (advance now w) → no_clean_exit_of id i →
  cancelled id (step now i w).
Proof.
  intros (Hst & Hact & Hcomp & Htab & Hpend) Hfresh Hi. unfold step.
  destruct (advance_frame now w) as (Hs & Ha & _).
  destruct (advance_no_timer now w id Htab Hpend) as [Htab' Hpend'].
  assert (is_Some (streams (advance now w) !! id)) as Hst' by (by rewrite Hs).
  assert (i ≠ Close id (Some 0)) as Hne.
  { intros ->. simpl in Hi. by destruct (Hi eq_refl). }
  split; [by apply handle_input_started|]. split; [|split].
  - destruct (handle_input_active now i (advance now w) id)
      as [Heq|[Heq|(url & format & ff & ri & -> & _)]].
    + by rewrite Heq, Ha.
    + done.
    + destruct Hfresh as [_ Hnone]. rewrite Hnone in Hst'. by destruct Hst'.
  - apply handle_input_no_complete; [done|]. by rewrite advance_events.
  - apply handle_input_no_timer; auto.
Qed.

Lemma cancelled_run trace w (id : jsstring) :
  cancelled id w → fresh_trace trace w →
  Forall (fun x => no_clean_exit_of id x.2) trace →
  cancelled id (run trace w).
Proof.
  revert w. induction trace as [|[now i] trace IH]; intros w Hc Hfresh Hno; [done|].
  destruct Hfresh as [Hi Hrest]. apply Forall_cons in Hno as [Hno1 Hno2].
  simpl. apply IH; [by apply cancelled_step|done|done].
Qed.

Lemma DELETE_cancels now w (id : jsstring) :
  consistent w → is_Some (activeDownloads w !! id) →
  cancelled id (step now (Delete (Some id)) w)
  ∧ (id, js "SIGTERM") ∈ signals (step now (Delete (Some id)) w).
Proof.
  intros Hcons Hact. apply (advance_consistent now) in Hcons.
  unfold step. destruct (advance_frame now w) as (_ & Ha & _). rewrite <- Ha in Hact.
  revert Hcons Hact. generalize (advance now w). clear w Ha. intros w Hcons Hact.
  destruct Hcons as (_ & _ & Hids & Hcons).
  destruct (Hcons id Hact) as (Hst & Hcomp & Htab & Hpend).
  cbn [handle_input]. rewrite DELETE_world.
  destruct id as [|c r]; [by destruct (Hids [] Hst)|].
  destruct Hact as [d Hd]. rewrite Hd, Htab. wsimpl.
  split; [|apply elem_of_app; right; by apply list_elem_of_singleton].
  split; [done|]. split; [apply lookup_delete_eq|]. done.
Qed.

Lemma on_close_failed now id code w s :
  streams w !! id = Some s → closed s = false → code ≠ Some 0 →
  exec_handler (on_close now id code) w
  = with_streams
      <[id := mkStream
                (queue s ++ [Error id (js "Download failed with code " ++ code_text code)])
                true]>
      (with_activeDownloads (delete id) w).
Proof.
  intros Hs Ho Hcode. unfold on_close, exec_handler. unfold mbind, M_bind.
  unfold bind at 1. unfold modify.
  set (w1 := with_activeDownloads (delete id) w).
  rewrite bool_decide_eq_false_2 by done. unfold bind.
  erewrite enqueue_open; [|exact Hs|exact Ho].
  erewrite close_open; [|wsimpl; apply lookup_insert_eq|done].
  wsimpl. unfold with_streams. wsimpl. by rewrite insert_insert_eq.
Qed.

Lemma DELETE_streams now oid w : streams (step now (Delete oid) w) = streams w.
Proof.
  unfold step. destruct (advance_frame now w) as (<- & _). cbn [handle_input].
  rewrite DELETE_world. destruct oid as [[|c r]|]; [done| |done].
  destruct (activeDownloads (advance now w) !! (c :: r)); [|done].
  by destruct (fileCleanupTimers (advance now w) !! (c :: r)).
Qed.

Lemma fresh_cancel_then_exit : fresh_trace cancel_then_exit init.
Proof. repeat split; try done; vm_compute; done. Qed.

Lemma fresh_cancel_too_late : fresh_trace cancel_too_late init.
Proof. repeat split; try done; vm_compute; done. Qed.

(** C2, as stated, fails: a cancellation removes the job from the registry
    and signals the process, but the listeners of the process stay in place.
    A line of output that arrives after the request is published as a
    progress event, and the close of the process publishes an error event.
    If the process was about to exit with code 0 when the request came, the
    complete event is published and the cleanup timeout is set. *)
Lemma C2_cancelled_job_counterexample :
  fresh_trace cancel_then_exit init
  ∧ is_Some (activeDownloads running !! js "job1")
  ∧ map type_of (events (run (take 3 cancel_then_exit) init) (js "job1"))
    = [js "started"; js "progress"]
  ∧ map type_of (events (run cancel_then_exit init) (js "job1"))
    = [js "started"; js "progress"; js "progress"; js "error"]
  ∧ fresh_trace cancel_too_late init
  ∧ is_Some (activeDownloads (run (take 2 cancel_too_late) init) !! js "job1")
  ∧ map type_of (events (run cancel_too_late init) (js "job1"))
    = [js "started"; js "complete"]
  ∧ length (pending_for (js "job1") (run cancel_too_late init)) = 1%nat.
Proof.
  split; [apply fresh_cancel_then_exit|]. split; [vm_compute; eauto|].
  split; [vm_compute; done|]. split; [vm_compute; done|].
  split; [apply fresh_cancel_too_late|]. split; [vm_compute; eauto|].
  split; vm_compute; done.
Qed.

(** A job that was started and is in the registry no more does not come
    back to it: only the request that starts a job enters it, under an id
    that has no stream yet. *)
Lemma gone_step now i w (id : jsstring) :
  is_Some (streams w !! id) → activeDownloads w !! id = None →
  fresh i (advance now w) →
  is_Some (streams (step now i w) !! id) ∧ activeDownloads (step now i w) !! id = None.
Proof.
  intros Hst Hnone Hfresh. unfold step.
  destruct (advance_frame now w) as (Hs & Ha & _).
  assert (is_Some (streams (advance now w) !! id)) as Hst' by (by rewrite Hs).
  split; [by apply handle_input_started|].
  destruct (handle_input_active now i (advance now w) id)
    as [Heq|[Heq|(url & format & ff & ri & -> & _)]].
  - by rewrite Heq, Ha.
  - done.
  - destruct Hfresh as [_ Hno]. rewrite Hno in Hst'. by destruct Hst'.
Qed.

Lemma gone_run trace w (id : jsstring) :
  is_Some (streams w !! id) ∧ activeDownloads w !! id = None →
  fresh_trace trace w →
  activeDownloads (run trace w) !! id = None.
Proof.
  revert w. induction trace as [|[now i] trace IH]; intros w [Hst Hnone] Hfresh; [done|].
  destruct Hfresh as [Hi Hrest]. simpl. apply IH; [|done]. by apply gone_step.
Qed.

(** A line with the progress pattern has its progress event among the
    events of its chunk. *)
Lemma progress_line_published (id data line : jsstring) (progress : DownloadProgress) :
  line ∈ split 10 data → parseProgress line = Some progress →
  ProgressEvent id progress ∈ stdout_events id data.
Proof.
  intros Hin Hp. unfold stdout_events. apply list_elem_of_In, in_concat.
  exists (line_events id line). split; [apply in_map; by apply list_elem_of_In|].
  unfold line_events. destruct (trim line) eqn:E.
  - exfalso. apply parseProgress_blank in E. congruence.
  - rewrite Hp. by left.
Qed.

(** C2, amended.  A cancellation request for a job that is in the registry
    sends the termination signal to its process and takes the job out of the
    registry, where it never returns, whatever happens next.  The stream of
    the job is left as it was, and it is open.  From then on, as long as the
    stream is open, a chunk of output that still arrives is published, a
    progress event for each line with the progress pattern (and a processing
    event for each line with a completion marker); and when the process
    closes with another code than 0, or with none, one error event is
    published and the stream is closed.  As long as the process does not
    close with exit code 0, no complete event is published for the job and no
    cleanup timeout is set for it. *)
Theorem C2_after_cancellation :
  ∀ (w : World) (now : Z) (id : jsstring),
    reachable w → is_Some (activeDownloads w !! id) →
    (id, js "SIGTERM") ∈ signals (step now (Delete (Some id)) w)
    ∧ streams (step now (Delete (Some id)) w) = streams w
    ∧ (∃ s, streams w !! id = Some s ∧ closed s = false)
    ∧ (∀ trace : list (Z * Input),
         fresh_trace trace (step now (Delete (Some id)) w) →
         activeDownloads (run trace (step now (Delete (Some id)) w)) !! id = None)
    ∧ (∀ trace : list (Z * Input),
         fresh_trace trace (step now (Delete (Some id)) w) →
         Forall (fun x => no_clean_exit_of id x.2) trace →
         count_events is_complete
           (events (run trace (step now (Delete (Some id)) w)) id) = 0%nat
         ∧ fileCleanupTimers (run trace (step now (Delete (Some id)) w)) !! id = None
         ∧ pending_for id (run trace (step now (Delete (Some id)) w)) = [])
    ∧ (∀ (trace : list (Z * Input)) (now' : Z) (data : jsstring) (s : Stream),
         streams (run trace (step now (Delete (Some id)) w)) !! id = Some s →
         closed s = false →
         streams (step now' (Stdout id data) (run trace (step now (Delete (Some id)) w))) !! id
         = Some (mkStream (queue s ++ stdout_events id data) false)
         ∧ ∀ (line : jsstring) (progress : DownloadProgress),
             line ∈ split 10 data → parseProgress line = Some progress →
             ProgressEvent id progress ∈ stdout_events id data)
    ∧ (∀ (trace : list (Z * Input)) (now' : Z) (code : option Z) (s : Stream),
         code ≠ Some 0 →
         streams (run trace (step now (Delete (Some id)) w)) !! id = Some s →
         closed s = false →
         streams (step now' (Close id code) (run trace (step now (Delete (Some id)) w))) !! id
         = Some (mkStream
                   (queue s ++ [Error id (js "Download failed with code " ++ code_text code)])
                   true)).
Proof.
  intros w now id Hw Hact.
  destruct (DELETE_cancels now w id (reachable_consistent w Hw) Hact) as [Hc Hsig].
  split; [done|]. split; [apply DELETE_streams|]. split.
  { destruct Hact as [dl Hdl]. by destruct (reachable_registered_well w Hw id dl Hdl). }
  split; [|split; [|split]].
  - intros trace Hfresh. apply (gone_run trace _ id); [|done].
    destruct Hc as (Hst & Hnone & _). done.
  - intros trace Hfresh Hno.
    destruct (cancelled_run trace _ id Hc Hfresh Hno) as (_ & H1 & H2 & H3 & H4). done.
  - intros trace now' data s Hs Ho. split; [by apply stdout_step|].
    intros line progress Hin Hp. by apply (progress_line_published id data line).
  - intros trace now' code s Hcode Hs Ho. unfold step at 1.
    destruct (advance_frame now' (run trace (step now (Delete (Some id)) w))) as (Hst & _).
    rewrite <- Hst in Hs.
    cbn [handle_input]. rewrite listening_run, Hs.
    rewrite (on_close_failed _ _ _ _ s Hs Ho Hcode). wsimpl. apply lookup_insert_eq.
Qed.

Lemma reachable_running : reachable running.
Proof.
  apply reachable_run; [constructor|]. repeat split; try done; vm_compute; done.
Qed.

(** The cancellation of [cancel_then_exit]. *)
Lemma C2_after_cancellation_witness :
  (js "job1", js "SIGTERM") ∈ signals (step 1200 (Delete (Some (js "job1"))) running)
  ∧ streams (step 1200 (Delete (Some (js "job1"))) running) = streams running
  ∧ (∃ s, streams running !! js "job1" = Some s ∧ closed s = false)
  ∧ (∀ trace : list (Z * Input),
       fresh_trace trace (step 1200 (Delete (Some (js "job1"))) running) →
       activeDownloads (run trace (step 1200 (Delete (Some (js "job1"))) running))
         !! js "job1" = None)
  ∧ (∀ trace : list (Z * Input),
       fresh_trace trace (step 1200 (Delete (Some (js "job1"))) running) →
       Forall (fun x => no_clean_exit_of (js "job1") x.2) trace →
       count_events is_complete
         (events (run trace (step 1200 (Delete (Some (js "job1"))) running)) (js "job1"))
       = 0%nat
       ∧ fileCleanupTimers (run trace (step 1200 (Delete (Some (js "job1"))) running))
           !! js "job1" = None
       ∧ pending_for (js "job1") (run trace (step 1200 (Delete (Some (js "job1"))) running))
         = [])
  ∧ (∀ (trace : list (Z * Input)) (now' : Z) (data : jsstring) (s : Stream),
       streams (run trace (step 1200 (Delete (Some (js "job1"))) running)) !! js "job1"
       = Some s →
       closed s = false →
       streams (step now' (Stdout (js "job1") data)
                  (run trace (step 1200 (Delete (Some (js "job1"))) running))) !! js "job1"
       = Some (mkStream (queue s ++ stdout_events (js "job1") data) false)
       ∧ ∀ (line : jsstring) (progress : DownloadProgress),
           line ∈ split 10 data → parseProgress line = Some progress →
           ProgressEvent (js "job1") progress ∈ stdout_events (js "job1") data)
  ∧ (∀ (trace : list (Z * Input)) (now' : Z) (code : option Z) (s : Stream),
       code ≠ Some 0 →
       streams (run trace (step 1200 (Delete (Some (js "job1"))) running)) !! js "job1"
       = Some s →
       closed s = false →
       streams (step now' (Close (js "job1") code)
                  (run trace (step 1200 (Delete (Some (js "job1"))) running))) !! js "job1"
       = Some (mkStream
                 (queue s ++ [Error (js "job1")
                                (js "Download failed with code " ++ code_text code)])
                 true)).
Proof.
  apply C2_after_cancellation; [apply reachable_running|]. vm_compute. eauto.
Defined.

(** *** Retention of an artifact *)

Lemma existsSync_false (d : Dir) (path : jsstring) :
  existsSync d path = false ↔ ∀ e, e ∈ entries d → at_path path e = false.
Proof.
  unfold existsSync. induction (entries d) as [|e es IH]; simpl.
  - split; [intros _ e He; by apply elem_of_nil in He|done].
  - rewrite orb_false_iff, IH. split.
    + intros [H1 H2] e' [->|He']%elem_of_cons; auto.
    + intros H. split; [apply H; by left|]. intros e' He'. apply H. by right.
Qed.

Lemma cleanup_deletes path id w :
  (∀ e, e ∈ entries (dir w) → at_path path e = true → removable e = true) →
  existsSync (dir (exec_handler (cleanup path id) w)) path = false.
Proof.
  intros Hrem. rewrite cleanup_world.
  destruct (existsSync (dir w) path) eqn:Hex; [|done].
  apply existsSync_find in Hex as [e He].
  apply find_elem_of in He as Hin. destruct Hin as [Hin Hat].
  unfold unlinkSync at 1. rewrite He, (Hrem e Hin Hat). wsimpl.
  apply (existsSync_unlinkSync (dir w)). unfold unlinkSync. by rewrite He, (Hrem e Hin Hat).
Qed.

Lemma callbacks_deletes ts w t :
  t ∈ ts →
  (∀ e, e ∈ entries (dir w) → at_path (filePath t) e = true → removable e = true) →
  existsSync (dir (callbacks ts w)) (filePath t) = false.
Proof.
  revert w. induction ts as [|t0 ts IH]; intros w Hin Hrem; [by apply elem_of_nil in Hin|].
  rewrite callbacks_cons.
  destruct (cleanup_dir (filePath t0) (owner t0) w) as [Hsub _].
  apply elem_of_cons in Hin as [->|Hin].
  - apply existsSync_false. intros e He.
    destruct (callbacks_dir ts (exec_handler (cleanup (filePath t0) (owner t0)) w))
      as [Hsub' _].
    pose proof (cleanup_deletes (filePath t0) (owner t0) w Hrem) as Hgone.
    rewrite existsSync_false in Hgone. by apply Hgone, Hsub'.
  - apply IH; [done|]. intros e He. apply Hrem. by apply Hsub.
Qed.

Lemma advance_dir now w :
  (∀ e, e ∈ entries (dir (advance now w)) → e ∈ entries (dir w))
  ∧ (is_Some (dir w) → is_Some (dir (advance now w))).
Proof.
  unfold advance.
  exact (callbacks_dir (List.filter (is_due now) (timeouts w))
           (with_timeouts (List.filter (fun t => negb (is_due now t))) w)).
Qed.

Lemma advance_retained now w (id f : jsstring) (D : Z) :
  retained id f D w →
  retained id f D (advance now w)
  ∧ (D <= now → ∀ e, e ∈ entries (dir (advance now w)) → startsWith (name e) id = false).
Proof.
  intros (Hdir & Honly & Hstate).
  destruct (advance_dir now w) as [Hsub Hsome].
  destruct (advance_frame now w) as (_ & _ & _ & _ & _ & Hts).
  assert (∀ e, e ∈ entries (dir (advance now w)) → startsWith (name e) id = true →
               name e = f ∧ removable e = true) as Honly'.
  { intros e He. by apply Honly, Hsub. }
  destruct Hstate as [(t & Ht & Hpath & Hdue)|Hgone].
  - destruct (is_due now t) eqn:Hd.
    + assert (∀ e, e ∈ entries (dir (advance now w)) → startsWith (name e) id = false)
        as Hgone.
      { intros e He. destruct (startsWith (name e) id) eqn:Hpre; [|done].
        destruct (Honly' e He Hpre) as [Hname _].
        assert (existsSync (dir (advance now w)) (filePath t) = false) as Hex.
        { unfold advance. apply callbacks_deletes.
          - apply elem_of_filter_list. done.
          - wsimpl. intros e' He' Hat. rewrite Hpath, at_path_join in Hat.
            apply bool_decide_eq_true_1 in Hat.
            destruct (startsWith (name e') id) eqn:Hpre'.
            + by destruct (Honly e' He' Hpre').
            + rewrite Hat, <- Hname, Hpre in Hpre'. done. }
        rewrite existsSync_false in Hex. specialize (Hex e He).
        rewrite Hpath, at_path_join in Hex. by apply bool_decide_eq_false_1 in Hex. }
      split; [|done]. split; [by apply Hsome|]. split; [done|by right].
    + split.
      * split; [by apply Hsome|]. split; [done|]. left. exists t. rewrite Hts.
        split; [|done]. apply elem_of_filter_list. by rewrite Hd.
      * intros Hle. unfold is_due in Hd. lia.
  - assert (∀ e, e ∈ entries (dir (advance now w)) → startsWith (name e) id = false)
      as Hgone' by (intros e He; by apply Hgone, Hsub).
    split; [|done]. split; [by apply Hsome|]. split; [done|by right].
Qed.

Lemma handle_input_retained now i w (id f : jsstring) (D : Z) :
  consistent w → retained id f D w → writes_nothing_for id i →
  retained id f D (handle_input now i w).
Proof.
  intros (_ & _ & _ & Hact) (Hdir & Honly & Hstate) Hi.
  assert (is_Some (dir (handle_input now i w))
          ∧ ∀ e, e ∈ entries (dir (handle_input now i w)) →
                 e ∈ entries (dir w) ∨ startsWith (name e) id = false) as [Hdir' Hsub].
  { destruct (handle_input_dir now i w) as [->|[[Hnone _]|(e & -> & ->)]].
    - split; [done|]. auto.
    - rewrite Hnone in Hdir. by destruct Hdir.
    - split; [by eexists|]. unfold write. cbn [entries default].
      intros e' [He'| ->%list_elem_of_singleton]%elem_of_app.
      + apply elem_of_filter_list in He' as [He' _]. by left.
      + by right. }
  split; [done|]. split.
  - intros e He Hpre. destruct (Hsub e He) as [Hin|Hno]; [by apply Honly|congruence].
  - destruct Hstate as [(t & Ht & Hpath & Hdue)|Hgone].
    + left. exists t. split; [|done].
      destruct (handle_input_timers now i w)
        as [(-> & _)|[(id' & f' & -> & _ & -> & _)|(id' & h & -> & Ha & Htab & _)]].
      * done.
      * apply elem_of_app. by left.
      * destruct (Hact id' Ha) as (_ & _ & Hnone & _). congruence.
    + right. intros e He. destruct (Hsub e He) as [Hin|Hno]; [by apply Hgone|done].
Qed.

Lemma retained_run trace w (id f : jsstring) (D : Z) :
  reachable w → retained id f D w → fresh_trace trace w →
  Forall (fun x => writes_nothing_for id x.2) trace →
  retained id f D (run trace w).
Proof.
  revert w. induction trace as [|[now i] trace IH]; intros w Hw Hret Hfresh Hwr; [done|].
  destruct Hfresh as [Hi Hrest]. apply Forall_cons in Hwr as [Hwr1 Hwr2].
  simpl. apply IH; [by constructor| |done|done].
  unfold step. apply handle_input_retained; [|by apply advance_retained|done].
  by apply advance_consistent, reachable_consistent.
Qed.

(** *** What a fetch finds *)

Lemma find_none_iff {A} (p : A → bool) (l : list A) :
  List.find p l = None ↔ ∀ x, x ∈ l → p x = false.
Proof.
  induction l as [|a l IH]; simpl.
  - split; [intros _ x Hx; by apply elem_of_nil in Hx|done].
  - destruct (p a) eqn:Ha.
    + split; [discriminate|]. intros H. rewrite H in Ha; [done|by left].
    + rewrite IH. split.
      * intros H x [->|Hx]%elem_of_cons; auto.
      * intros H x Hx. apply H. by right.
Qed.

Lemma GET_not_found (d : Dir) (id filename : jsstring) (range : option jsstring) :
  is_Some d → id ≠ [] → filename ≠ [] →
  (∀ e, e ∈ entries d → startsWith (name e) id = false) →
  Artifact.GET d id filename range = Artifact.not_found.
Proof.
  intros [es ->] Hid Hfn Hnone. unfold Artifact.GET.
  rewrite !bool_decide_eq_false_2 by done. cbn [orb].
  assert (Artifact.resolve (Some es) id = Some None) as ->; [|done].
  unfold Artifact.resolve, readdirSync. cbn [fmap option_fmap option_map]. f_equal.
  apply find_none_iff. intros x [e [-> He]]%list_elem_of_fmap. by apply Hnone.
Qed.

Lemma GET_served (d : Dir) (id f filename : jsstring) :
  id ≠ [] → Artifact.acceptable filename → Artifact.resolve d id = Some (Some f) →
  Artifact.status_of (Artifact.GET d id filename None) = 200.
Proof.
  intros Hid (Hfn & decoded & Hdec & Hvalid) Hres. unfold Artifact.GET.
  rewrite !bool_decide_eq_false_2 by done. cbn [orb]. rewrite Hres. cbv zeta.
  destruct (resolve_statSync d id f Hres) as (e & He & _ & Hstat).
  assert (existsSync d (join tempDir f) = true) as ->.
  { apply existsSync_find. by rewrite He. }
  cbn [negb]. rewrite Hstat. unfold createReadStream. rewrite He, Hdec, Hvalid. done.
Qed.

Lemma filter_head_find {A} (p : A → bool) (l : list A) (x : A) (r : list A) :
  List.filter p l = x :: r → List.find p l = Some x.
Proof.
  induction l as [|a l IH]; simpl; [discriminate|].
  destruct (p a); [by intros [= ->]|done].
Qed.

Lemma find_map {A B} (p : B → bool) (f : A → B) (l : list A) :
  List.find p (map f l) = f <$> List.find (fun a => p (f a)) l.
Proof. induction l as [|a l IH]; simpl; [done|]. by destruct (p (f a)). Qed.

(** The only file under a job id is the one the scan finds. *)
Lemma only_file_resolved (es : list Entry) (id : jsstring) (e : Entry) :
  List.filter (fun e' => startsWith (name e') id) es = [e] →
  Artifact.resolve (Some es) id = Some (Some (name e)).
Proof.
  intros H. unfold Artifact.resolve, readdirSync. cbn [fmap option_fmap option_map].
  f_equal. rewrite find_map. by rewrite (filter_head_find _ _ _ _ H).
Qed.

(** *** A file that cannot be deleted *)

Lemma filter_filter_comm {A} (p q : A → bool) (l : list A) :
  List.filter p (List.filter q l) = List.filter q (List.filter p l).
Proof.
  induction l as [|a l IH]; [done|]. simpl.
  destruct (p a) eqn:Hp, (q a) eqn:Hq; simpl; rewrite ?Hp, ?Hq, IH; done.
Qed.

Lemma cleanup_only_file path id' w (id : jsstring) (e : Entry) :
  removable e = false → only_file id e w →
  only_file id e (exec_handler (cleanup path id') w).
Proof.
  intros Hrem [Hdir Honly]. rewrite cleanup_world.
  destruct (existsSync (dir w) path); [|done].
  destruct (unlinkSync (dir w) path) as [d|] eqn:Hd; [|done]. wsimpl.
  pose proof (unlinkSync_others _ _ _ Hd) as Hent.
  assert (at_path path e = false) as Hat.
  { destruct (at_path path e) eqn:Hat; [|done]. exfalso.
    unfold unlinkSync in Hd.
    destruct (List.find (at_path path) (entries (dir w))) as [e0|] eqn:Hfind; [|done].
    destruct (removable e0) eqn:Hrem0; [|done].
    apply find_some in Hfind as [Hin Hat0].
    assert (name e0 = name e) as Hname.
    { unfold at_path in *. apply bool_decide_eq_true_1 in Hat, Hat0.
      apply (join_inj tempDir). congruence. }
    assert (e ∈ List.filter (fun e' => startsWith (name e') id) (entries (dir w))) as He
      by (rewrite Honly; by left).
    apply elem_of_filter_list in He as [_ Hpre].
    assert (e0 ∈ List.filter (fun e' => startsWith (name e') id) (entries (dir w))) as He0.
    { apply elem_of_filter_list. split; [by apply list_elem_of_In|]. by rewrite Hname. }
    rewrite Honly in He0. apply list_elem_of_singleton in He0. congruence. }
  split; wsimpl.
  - unfold unlinkSync in Hd. destruct (List.find _ _) as [e0|]; [|done].
    destruct (removable e0); [|done]. injection Hd as <-. eauto.
  - rewrite Hent, filter_filter_comm, Honly. simpl. by rewrite Hat.
Qed.

Lemma callbacks_only_file ts w (id : jsstring) (e : Entry) :
  removable e = false → only_file id e w → only_file id e (callbacks ts w).
Proof.
  intros Hrem. revert w. induction ts as [|t ts IH]; intros w Hw; [done|].
  rewrite callbacks_cons. apply IH. by apply cleanup_only_file.
Qed.

Lemma advance_only_file now w (id : jsstring) (e : Entry) :
  removable e = false → only_file id e w → only_file id e (advance now w).
Proof. intros Hrem Hw. unfold advance. by apply callbacks_only_file. Qed.

Lemma handle_input_only_file now i w (id : jsstring) (e : Entry) :
  only_file id e w → writes_nothing_for id i → only_file id e (handle_input now i w).
Proof.
  intros [Hdir Honly] Hi. unfold only_file.
  destruct (handle_input_dir now i w) as [->|[[Hnone _]|(e1 & -> & ->)]].
  - done.
  - rewrite Hnone in Hdir. by destruct Hdir.
  - split; [by eexists|]. unfold write. cbn [entries default]. unfold Datatypes.id.
    rewrite List.filter_app, filter_filter_comm, Honly. simpl in Hi. simpl. rewrite Hi.
    assert (e ∈ List.filter (fun e' => startsWith (name e') id) (entries (dir w))) as He
      by (rewrite Honly; by left).
    apply elem_of_filter_list in He as [_ Hpre].
    rewrite bool_decide_eq_false_2; [done|]. intros Hname. congruence.
Qed.

Lemma only_file_run trace w (id : jsstring) (e : Entry) :
  removable e = false → only_file id e w →
  Forall (fun x => writes_nothing_for id x.2) trace →
  only_file id e (run trace w).
Proof.
  intros Hrem. revert w. induction trace as [|[now i] trace IH]; intros w Hw Hwr; [done|].
  apply Forall_cons in Hwr as [Hwr1 Hwr2]. simpl. apply IH; [|done].
  unfold step. apply handle_input_only_file; [|done]. by apply advance_only_file.
Qed.

(** The one file under a job id exists and is what a fetch is answered
    with. *)
Lemma only_file_served w (id : jsstring) (e : Entry) (filename : jsstring) :
  id ≠ [] → only_file id e w →
  existsSync (dir w) (join tempDir (name e)) = true
  ∧ (Artifact.acceptable filename →
     Artifact.status_of (Artifact.GET (dir w) id filename None) = 200).
Proof.
  intros Hid [[es Hdir] Honly]. rewrite Hdir in *. cbn [entries default] in Honly.
  pose proof (only_file_resolved es id e Honly) as Hres.
  destruct (resolve_statSync _ _ _ Hres) as (e0 & Hfind & _ & _).
  split; [apply existsSync_find; by rewrite Hfind|].
  intros Hacc. by apply (GET_served _ _ (name e)).
Qed.

(** C7, as stated, fails: the callback of the timeout deletes the file if
    [unlinkSync] lets it, and gives up if not.  A job whose file cannot be
    deleted reaches Complete all the same; three minutes later, and at any
    later time, the file is still there and a fetch is answered with it. *)
Lemma C7_undeletable_counterexample :
  fresh_trace undeletable init
  ∧ map type_of (events (run undeletable init) (js "job1")) = [js "started"; js "complete"]
  ∧ length (pending_for (js "job1") (run undeletable init)) = 1%nat
  ∧ timeouts (advance 181000 (run undeletable init)) = []
  ∧ existsSync (dir (advance 181000 (run undeletable init))) (join tempDir (js "job1.mp3"))
    = true
  ∧ Artifact.status_of
      (Artifact.GET (dir (advance 181000 (run undeletable init))) (js "job1") (js "mp3") None)
    = 200
  ∧ length (Artifact.body_of
              (Artifact.GET (dir (advance 181000 (run undeletable init))) (js "job1")
                 (js "mp3") None)) = 5000%nat.
Proof.
  split; [repeat split; try done; vm_compute; done|]. vm_compute. done.
Qed.

(** C7, amended.  A job reaches Complete: its process exits with code 0
    while its stream is open and one file, whose name can be percent-encoded,
    lies under its job id.  Then the complete event is published and the
    stream closed; right afterwards the artifact exists and a fetch under any
    acceptable file name is answered with status 200.  Whatever happens next,
    as long as nothing writes a file under the job id: if the file can be
    deleted, from three minutes after the exit on it exists no more and a
    fetch, which scans the directory anew, is answered with not found; if it
    cannot be deleted, it stays where it is and a fetch is answered with
    status 200 as before. *)
Theorem C7_artifact_retention :
  ∀ (w : World) (now : Z) (id : jsstring) (s : Stream) (es : list Entry) (e : Entry)
    (enc : jsstring),
    reachable w →
    streams w !! id = Some s → closed s = false →
    dir (advance now w) = Some es →
    List.filter (fun e' => startsWith (name e') id) es = [e] →
    encodeURIComponent (replace (name e) (id ++ js ".") []) = Some enc →
    (∃ ev, is_complete ev = true
           ∧ streams (step now (Close id (Some 0)) w) !! id
             = Some (mkStream (queue s ++ [ev]) true))
    ∧ existsSync (dir (step now (Close id (Some 0)) w)) (join tempDir (name e)) = true
    ∧ (∀ filename : jsstring, Artifact.acceptable filename →
         Artifact.status_of
           (Artifact.GET (dir (step now (Close id (Some 0)) w)) id filename None) = 200)
    ∧ (removable e = true →
       ∀ (trace : list (Z * Input)) (t : Z) (filename : jsstring) (range : option jsstring),
         fresh_trace trace (step now (Close id (Some 0)) w) →
         Forall (fun x => writes_nothing_for id x.2) trace →
         now + 180000 <= t → filename ≠ [] →
         existsSync (dir (advance t (run trace (step now (Close id (Some 0)) w))))
                    (join tempDir (name e)) = false
         ∧ Artifact.GET (dir (advance t (run trace (step now (Close id (Some 0)) w))))
                        id filename range
           = Artifact.not_found)
    ∧ (removable e = false →
       ∀ (trace : list (Z * Input)) (t : Z) (filename : jsstring),
         fresh_trace trace (step now (Close id (Some 0)) w) →
         Forall (fun x => writes_nothing_for id x.2) trace →
         Artifact.acceptable filename →
         existsSync (dir (advance t (run trace (step now (Close id (Some 0)) w))))
                    (join tempDir (name e)) = true
         ∧ Artifact.status_of
             (Artifact.GET (dir (advance t (run trace (step now (Close id (Some 0)) w))))
                id filename None) = 200).
Proof.
  intros w now id s es e enc Hw Hs Ho Hdir Honly Henc.
  assert (reachable (step now (Close id (Some 0)) w)) as Hw1 by (by constructor).
  assert (id ≠ []) as Hid.
  { destruct (reachable_consistent w Hw) as (_ & _ & Hids & _). apply Hids. by rewrite Hs. }
  assert (startsWith (name e) id = true) as Hpre.
  { assert (e ∈ List.filter (fun e' => startsWith (name e') id) es) as Hin
      by (rewrite Honly; by left).
    by apply elem_of_filter_list in Hin as [_ ?]. }
  pose proof (only_file_resolved es id e Honly) as Hres.
  destruct (resolve_statSync _ _ _ Hres) as (e0 & Hfind & _ & Hstat).
  (* the world after the exit *)
  assert (step now (Close id (Some 0)) w
          = with_streams
              <[id := mkStream
                        (queue s ++ [Complete id (replace (name e) (id ++ js ".") [])
                                       (megabytes_toFixed2 (Z.of_nat (length (content e0)))
                                          ++ js " MB")
                                       (js "/api/download-file/" ++ id ++ js "/" ++ enc)])
                        true]>
              (exec_handler (scheduleFileCleanup now (join tempDir (name e)) id)
                 (with_activeDownloads (delete id) (advance now w)))) as Hstep.
  { unfold step. cbn [handle_input]. destruct (advance_frame now w) as (Hst & _).
    rewrite listening_run, Hst, Hs.
    apply on_close_complete; rewrite ?Hst, ?Hdir; done. }
  assert (dir (step now (Close id (Some 0)) w) = Some es) as Hdir1.
  { rewrite Hstep, scheduleFileCleanup_world. done. }
  split; [|split; [|split; [|split]]].
  - eexists. rewrite Hstep. wsimpl. rewrite lookup_insert_eq. split; [|done]. done.
  - rewrite Hdir1. apply existsSync_find. by rewrite Hfind.
  - intros filename Hacc. apply (GET_served _ _ (name e)); [done|done|by rewrite Hdir1].
  - intros Hrem trace t filename range Hfresh Hwr Ht Hfn.
    assert (retained id (name e) (now + 180000) (step now (Close id (Some 0)) w)) as Hret.
    { split; [rewrite Hdir1; eauto|]. split.
      - rewrite Hdir1. cbn [entries default]. intros e' He' Hpre'.
        assert (e' ∈ List.filter (fun e' => startsWith (name e') id) es) as Hin
          by (by apply elem_of_filter_list).
        rewrite Honly in Hin. by apply list_elem_of_singleton in Hin as ->.
      - left. eexists. rewrite Hstep, scheduleFileCleanup_world. wsimpl.
        split; [apply elem_of_app; right; by apply list_elem_of_singleton|done]. }
    pose proof (retained_run trace _ id (name e) (now + 180000) Hw1 Hret Hfresh Hwr) as Hret'.
    destruct (advance_retained t _ id (name e) (now + 180000) Hret')
      as [(Hsome & _) Hgone].
    specialize (Hgone Ht). split.
    + apply existsSync_false. intros e' He'. rewrite at_path_join.
      apply bool_decide_eq_false_2. intros Hname.
      specialize (Hgone e' He'). rewrite Hname, Hpre in Hgone. done.
    + by apply GET_not_found.
  - intros Hrem trace t filename Hfresh Hwr Hacc.
    assert (only_file id e (step now (Close id (Some 0)) w)) as Honly1.
    { split; rewrite Hdir1; [eauto|done]. }
    destruct (only_file_served (advance t (run trace (step now (Close id (Some 0)) w)))
                id e filename Hid) as [Hex Hget].
    { apply advance_only_file; [done|]. by apply only_file_run. }
    split; [done|]. by apply Hget.
Qed.

Lemma reachable_before_exit : reachable before_exit.
Proof.
  apply reachable_run; [constructor|]. repeat split; try done; vm_compute; done.
Qed.

(** The end of [full_run], and what comes three minutes later. *)
Lemma C7_artifact_retention_witness :
  (∃ ev, is_complete ev = true
         ∧ streams (step 1000 (Close (js "job1") (Some 0)) before_exit) !! js "job1"
           = Some (mkStream (queue (mkStream (events before_exit (js "job1")) false) ++ [ev])
                     true))
  ∧ existsSync (dir (step 1000 (Close (js "job1") (Some 0)) before_exit))
               (join tempDir (name (mkEntry (js "job1.mp3") (repeat "x"%byte 5000) true)))
    = true
  ∧ (∀ filename : jsstring, Artifact.acceptable filename →
       Artifact.status_of
         (Artifact.GET (dir (step 1000 (Close (js "job1") (Some 0)) before_exit))
            (js "job1") filename None) = 200)
  ∧ (removable (mkEntry (js "job1.mp3") (repeat "x"%byte 5000) true) = true →
     ∀ (trace : list (Z * Input)) (t : Z) (filename : jsstring) (range : option jsstring),
       fresh_trace trace (step 1000 (Close (js "job1") (Some 0)) before_exit) →
       Forall (fun x => writes_nothing_for (js "job1") x.2) trace →
       1000 + 180000 <= t → filename ≠ [] →
       existsSync
         (dir (advance t (run trace (step 1000 (Close (js "job1") (Some 0)) before_exit))))
         (join tempDir (name (mkEntry (js "job1.mp3") (repeat "x"%byte 5000) true)))
       = false
       ∧ Artifact.GET
           (dir (advance t (run trace (step 1000 (Close (js "job1") (Some 0)) before_exit))))
           (js "job1") filename range
         = Artifact.not_found)
  ∧ (removable (mkEntry (js "job1.mp3") (repeat "x"%byte 5000) true) = false →
     ∀ (trace : list (Z * Input)) (t : Z) (filename : jsstring),
       fresh_trace trace (step 1000 (Close (js "job1") (Some 0)) before_exit) →
       Forall (fun x => writes_nothing_for (js "job1") x.2) trace →
       Artifact.acceptable filename →
       existsSync
         (dir (advance t (run trace (step 1000 (Close (js "job1") (Some 0)) before_exit))))
         (join tempDir (name (mkEntry (js "job1.mp3") (repeat "x"%byte 5000) true)))
       = true
       ∧ Artifact.status_of
           (Artifact.GET
              (dir (advance t (run trace (step 1000 (Close (js "job1") (Some 0)) before_exit))))
              (js "job1") filename None) = 200).
Proof.
  apply (C7_artifact_retention before_exit 1000 (js "job1")
           (mkStream (events before_exit (js "job1")) false)
           [mkEntry (js "job1.mp3") (repeat "x"%byte 5000) true]
           (mkEntry (js "job1.mp3") (repeat "x"%byte 5000) true) (js "mp3")).
  - apply reachable_before_exit.
  - vm_compute. reflexivity.
  - reflexivity.
  - vm_compute. reflexivity.
  - vm_compute. reflexivity.
  - vm_compute. reflexivity.
Defined.

Example fetch_after_full_run :
  Artifact.status_of (Artifact.GET (dir (run full_run init)) (js "job1") (js "mp3") None) = 200
  ∧ Artifact.GET (dir (advance 181000 (run full_run init))) (js "job1") (js "mp3") None
    = Artifact.not_found.
Proof. vm_compute. done. Qed.

(** *** The timer lookup of the cancellation route *)

(** A job in the registry has no cleanup timer: the timer is set by the
    close listener, after it has taken the job out of the registry.  So the
    cancellation route never finds a timer to clear, and leaves the pending
    timeouts as they are. *)
Theorem DELETE_clears_no_timer :
  ∀ (w : World) (now : Z) (oid : option jsstring),
    reachable w →
    (∀ id : jsstring, is_Some (activeDownloads w !! id) →
       fileCleanupTimers w !! id = None ∧ pending_for id w = [])
    ∧ timeouts (step now (Delete oid) w) = timeouts (advance now w)
    ∧ fileCleanupTimers (step now (Delete oid) w) = fileCleanupTimers (advance now w).
Proof.
  intros w now oid Hw. split.
  - intros id Hid. destruct (reachable_consistent w Hw) as (_ & _ & _ & Hact).
    by destruct (Hact id Hid) as (_ & _ & ? & ?).
  - pose proof (advance_consistent now w (reachable_consistent w Hw)) as (_ & _ & _ & Hact).
    unfold step. cbn [handle_input]. rewrite DELETE_world.
    destruct oid as [[|c r]|]; [done| |done].
    destruct (activeDownloads (advance now w) !! (c :: r)) as [d|] eqn:Ha; [|done].
    destruct (Hact (c :: r)) as (_ & _ & -> & _); [by rewrite Ha|]. done.
Qed.

Lemma DELETE_clears_no_timer_witness :
  (∀ id : jsstring, is_Some (activeDownloads running !! id) →
     fileCleanupTimers running !! id = None ∧ pending_for id running = [])
  ∧ timeouts (step 1200 (Delete (Some (js "job1"))) running) = timeouts (advance 1200 running)
  ∧ fileCleanupTimers (step 1200 (Delete (Some (js "job1"))) running)
    = fileCleanupTimers (advance 1200 running).
Proof. apply DELETE_clears_no_timer, reachable_running. Defined.

End OrchestratorFacts.

(** * Further properties of the routes *)

(** ** Numerals and percent-encoding *)

Module RoundTrips.
Import JS JSFacts Numerals NumeralFacts NumberFacts.

Lemma parseInt_numeral d :
  d ≠ Decimal.Nil → parseInt (numeral d) = of_Z (Z.of_uint d)
  ∧ parseInt (45%N :: numeral d) = of_Z (- Z.of_uint d).
Proof.
  intros Hd. pose proof (numeral_digits d) as Hds.
  pose proof (numeral_not_nil d Hd) as Hne.
  assert (trimStart (numeral d) = numeral d) as Htrim.
  { unfold trimStart. destruct (numeral d) as [|c r] eqn:E; [done|].
    apply Forall_cons in Hds as [Hc _]. simpl.
    assert (is_space c = false) as ->; [|done].
    unfold is_digit in Hc. apply andb_prop in Hc as [H1 H2].
    apply N.leb_le in H1, H2. unfold is_space.
    repeat match goal with
    | |- context [(?a <=? ?b)%N] => destruct (N.leb_spec a b); try lia
    | |- context [(?a =? ?b)%N] => destruct (N.eqb_spec a b); try lia
    end; done. }
  assert (∀ s, Forall (fun c => is_digit c = true) s → s ≠ [] →
            match s with 45%N :: r => (-1, r) | 43%N :: r => (1, r) | _ => (1, s) end = (1, s))
    as Hsign.
  { intros [|c r] Hs _; [done|]. apply Forall_cons in Hs as [Hc _].
    unfold is_digit in Hc. apply andb_prop in Hc as [H1 H2]. apply N.leb_le in H1, H2.
    destruct c as [|p]; [done|].
    do 6 (destruct p as [p|p|]; try done); lia. }
  split.
  - unfold parseInt. rewrite Htrim. rewrite Hsign by done.
    rewrite run_all by done. rewrite firstn_all.
    destruct (numeral d) as [|c r] eqn:E; [congruence|]. rewrite <- E, digits_value_numeral. f_equal; lia.
  - unfold parseInt.
    assert (trimStart (45%N :: numeral d) = 45%N :: numeral d) as -> by reflexivity.
    cbv iota beta.
    rewrite run_all by done. rewrite firstn_all.
    destruct (numeral d) as [|c r] eqn:E; [congruence|].
    rewrite <- E, digits_value_numeral. f_equal; lia.
Qed.

(** [parseInt] reads back what [toString] writes. *)
Lemma parseInt_toString (z : Z) : parseInt (toString z) = of_Z z.
Proof.
  destruct z as [|p|p].
  - vm_compute. reflexivity.
  - rewrite toString_pos.
    destruct (parseInt_numeral (Pos.to_uint p) (to_uint_not_nil p)) as [-> _].
    unfold Z.of_uint. by rewrite DecimalPos.Unsigned.of_to.
  - rewrite toString_neg.
    destruct (parseInt_numeral (Pos.to_uint p) (to_uint_not_nil p)) as [_ ->].
    unfold Z.of_uint. by rewrite DecimalPos.Unsigned.of_to.
Qed.

(** *** Percent-encoding *)



Lemma hex_value_digit (v : N) : (v < 16)%N → hex_value (hex_digit v) = Some v.
Proof.
  intros Hv. unfold hex_digit, hex_value.
  destruct (v <? 10)%N eqn:E; nbool.
  - ncases. f_equal. lia.
  - ncases. f_equal. lia.
Qed.

Lemma decode_percent (more : option (nat * list N)) (b : N) (rest : jsstring) :
  (b < 256)%N →
  decode (Pct more) (hex_digit (b / 16) :: hex_digit (b mod 16) :: rest)
  = decode (Hex more (b / 16)) (hex_digit (b mod 16) :: rest).
Proof.
  intros Hb. cbn [decode]. rewrite hex_value_digit; [done|].
  apply N.Div0.div_lt_upper_bound. lia.
Qed.

Lemma byte_halves (b : N) : (16 * (b / 16) + b mod 16 = b)%N.
Proof. symmetry. apply N.div_mod. lia. Qed.

(** One escaped byte, read between escapes. *)
Lemma decode_byte_plain (b : N) (rest : jsstring) :
  (b < 256)%N →
  decode Plain (percent b ++ rest)
  = if (b <? 128)%N then cons b <$> decode Plain rest
    else match utf8_continuations b with
         | Some n => decode (Want n [b]) rest
         | None => None
         end.
Proof.
  intros Hb. unfold percent. cbn [app decode N.eqb Pos.eqb].
  rewrite !hex_value_digit.
  - by rewrite byte_halves.
  - apply N.mod_lt. lia.
  - apply N.Div0.div_lt_upper_bound. lia.
Qed.

(** One escaped continuation byte. *)
Lemma decode_byte_want (k : nat) (acc : list N) (b : N) (rest : jsstring) :
  (128 <= b <= 191)%N →
  decode (Want (S k) acc) (percent b ++ rest)
  = match k with
    | O => match utf8_decode (acc ++ [b]) with
           | Some cp => app (utf16_encode cp) <$> decode Plain rest
           | None => None
           end
    | S _ => decode (Want k (acc ++ [b])) rest
    end.
Proof.
  intros Hb. unfold percent. cbn [app decode N.eqb Pos.eqb Nat.pred].
  rewrite !hex_value_digit.
  - rewrite byte_halves. by ncases.
  - apply N.mod_lt. lia.
  - apply N.Div0.div_lt_upper_bound. lia.
Qed.


(** A code point below [2^16] that is no surrogate, escaped and read
    back. *)
Lemma decode_encoded_unit (c : N) (rest : jsstring) :
  (c < 65536)%N → is_lead_surrogate c = false → is_trail_surrogate c = false →
  decode Plain (concat (map percent (utf8_encode c)) ++ rest)
  = cons c <$> decode Plain rest.
Proof.
  intros Hc Hl Ht.
  assert (¬ (55296 <= c <= 57343)%N) as Hs.
  { unfold is_lead_surrogate, is_trail_surrogate in *. intros [A B].
    destruct (N.le_gt_cases c 56319).
    - rewrite (proj2 (N.leb_le 55296 c)), (proj2 (N.leb_le c 56319)) in Hl by lia. done.
    - rewrite (proj2 (N.leb_le 56320 c)), (proj2 (N.leb_le c 57343)) in Ht by lia. done. }
  clear Hl Ht. unfold utf8_encode.
  destruct (c <? 128)%N eqn:E1; [|destruct (c <? 2048)%N eqn:E2]; nbool.
  - cbn [map concat]. rewrite app_nil_r, decode_byte_plain by lia. by ncases.
  - cbn [map concat]. rewrite app_nil_r, <- app_assoc.
    divmod c 64%N. nabs.
    rewrite decode_byte_plain by lia. ncases. unfold utf8_continuations. ncases.
    rewrite decode_byte_want by lia. unfold utf8_decode. cbn [app].
    replace ((192 + q - 192) * 64 + (128 + r - 128))%N with c by lia.
    ncases. unfold utf16_encode. by ncases.
  - assert ((c <? 65536)%N = true) as -> by (apply N.ltb_lt; lia).
    cbn [map concat]. rewrite app_nil_r, <- !app_assoc.
    divmod c 64%N. divmod (c / 64)%N 64%N.
    pose proof (N.Div0.div_div c 64 64) as Hdd. change (64 * 64)%N with 4096%N in Hdd.
    rewrite Hdd in *. clear Hdd. nabs.
    rewrite decode_byte_plain by lia. ncases. unfold utf8_continuations. ncases.
    rewrite decode_byte_want by lia. rewrite decode_byte_want by lia.
    unfold utf8_decode. cbn [app].
    match goal with
    | |- context [(2048 <=? ?e)%N] => replace e with c by lia
    end.
    assert ((2048 <=? c)%N = true) as -> by (apply N.leb_le; lia).
    assert (negb ((55296 <=? c)%N && (c <=? 57343)%N) = true) as ->.
    { destruct (55296 <=? c)%N eqn:A; [|done].
      destruct (c <=? 57343)%N eqn:B; [|done]. nbool. lia. }
    cbn [andb]. unfold utf16_encode. by ncases.
Qed.

(** A surrogate pair, escaped and read back. *)
Lemma decode_encoded_pair (c d : N) (rest : jsstring) :
  is_lead_surrogate c = true → is_trail_surrogate d = true →
  decode Plain
    (concat (map percent (utf8_encode ((c - 55296) * 1024 + (d - 56320) + 65536))) ++ rest)
  = app [c; d] <$> decode Plain rest.
Proof.
  intros Hl Ht. unfold is_lead_surrogate, is_trail_surrogate in *. nbool.
  set (cp := ((c - 55296) * 1024 + (d - 56320) + 65536)%N).
  assert (65536 <= cp <= 1114111)%N as Hcp by (unfold cp; lia).
  unfold utf8_encode.
  assert ((cp <? 128)%N = false) as -> by (apply N.ltb_ge; lia).
  assert ((cp <? 2048)%N = false) as -> by (apply N.ltb_ge; lia).
  assert ((cp <? 65536)%N = false) as -> by (apply N.ltb_ge; lia).
  cbn [map concat]. rewrite app_nil_r, <- !app_assoc.
  assert (utf16_encode cp = [c; d]) as Hback.
  { unfold utf16_encode.
    assert ((cp <? 65536)%N = false) as -> by (apply N.ltb_ge; lia).
    divmod (cp - 65536)%N 1024%N. nabs. f_equal; [|f_equal]; unfold cp in *; lia. }
  divmod cp 64%N. divmod (cp / 64)%N 64%N. divmod (cp / 4096)%N 64%N.
  pose proof (N.Div0.div_div cp 64 64) as Hdd. change (64 * 64)%N with 4096%N in Hdd.
  pose proof (N.Div0.div_div cp 4096 64) as Hdd'.
  change (4096 * 64)%N with 262144%N in Hdd'.
  rewrite Hdd in *. rewrite Hdd' in *. clear Hdd Hdd'. clearbody cp. nabs.
  rewrite decode_byte_plain by lia. ncases. unfold utf8_continuations. ncases.
  do 3 rewrite decode_byte_want by lia.
  unfold utf8_decode. cbn [app].
  match goal with
  | |- context [(65536 <=? ?e)%N] => replace e with cp by lia
  end.
  ncases. by rewrite Hback.
Qed.

Lemma decode_unescaped (c : N) (rest : jsstring) :
  uri_unescaped c = true → decode Plain (c :: rest) = cons c <$> decode Plain rest.
Proof.
  intros Hc. cbn [decode]. destruct (c =? 37)%N eqn:E; [|done].
  apply N.eqb_eq in E. subst c. done.
Qed.

(** [decodeURIComponent] undoes [encodeURIComponent]. *)
Theorem decodeURIComponent_encodeURIComponent :
  ∀ s enc : jsstring,
    Forall (fun c => (c < 65536)%N) s →
    encodeURIComponent s = Some enc → decodeURIComponent enc = Some s.
Proof.
  intros s0 enc0 Hs0 Henc0.
  assert (∀ (n : nat) (s enc : jsstring),
            (length s <= n)%nat → Forall (fun c => (c < 65536)%N) s →
            encodeURIComponent s = Some enc → decode Plain enc = Some s) as Hupto;
    [|by apply (Hupto (length s0) s0 enc0)].
  clear. intros n.
  induction n as [|n IH]; intros s enc Hn Hs Henc.
  - destruct s; [|simpl in Hn; lia]. simpl in Henc. by injection Henc as <-.
  - destruct s as [|c rest]; [simpl in Henc; by injection Henc as <-|].
    apply Forall_cons in Hs as [Hc Hrest]. simpl in Hn.
    cbn [encodeURIComponent] in Henc.
    destruct (uri_unescaped c) eqn:Hu.
    { destruct (encodeURIComponent rest) as [enc'|] eqn:E; [|done].
      injection Henc as <-. rewrite decode_unescaped by done.
      rewrite (IH rest enc'); [done|lia|done|done]. }
    destruct (is_trail_surrogate c) eqn:Ht; [done|].
    destruct (is_lead_surrogate c) eqn:Hl.
    + destruct rest as [|d rest']; [done|].
      destruct (is_trail_surrogate d) eqn:Htd; [|done].
      destruct (encodeURIComponent rest') as [enc'|] eqn:E; [|done].
      injection Henc as <-. rewrite decode_encoded_pair by done.
      apply Forall_cons in Hrest as [_ Hrest']. simpl in Hn.
      rewrite (IH rest' enc'); [done|lia|done|done].
    + destruct (encodeURIComponent rest) as [enc'|] eqn:E; [|done].
      injection Henc as <-. rewrite decode_encoded_unit by done.
      rewrite (IH rest enc'); [done|lia|done|done].
Qed.

Lemma decodeURIComponent_encodeURIComponent_witness :
  decodeURIComponent (js "caf%C3%A9%20%F0%9F%98%80.mp4")
  = Some (js "caf" ++ [233; 32; 55357; 56832]%N ++ js ".mp4").
Proof.
  apply decodeURIComponent_encodeURIComponent; [|reflexivity].
  repeat constructor.
Defined.

End RoundTrips.

(** ** Artifact server: ranges, resolution, status codes *)

Module ArtifactEdges.
Import JS FS Artifact JSFacts Numerals NumeralFacts NumberFacts RoundTrips.

(** *** Splitting at a separator *)

Lemma split_not_nil (sep : N) (s : jsstring) : split sep s ≠ [].
Proof.
  induction s as [|c s IH]; simpl; [done|].
  destruct (c =? sep)%N; [done|]. by destruct (split sep s).
Qed.

Lemma split_app (sep : N) (a b : jsstring) :
  split sep (a ++ sep :: b) = split sep a ++ split sep b.
Proof.
  induction a as [|c a IH]; simpl.
  - by rewrite N.eqb_refl.
  - destruct (c =? sep)%N; [by rewrite IH|].
    rewrite IH. pose proof (split_not_nil sep a). by destruct (split sep a).
Qed.

Lemma split_whole (sep : N) (s : jsstring) :
  Forall (fun c => c ≠ sep) s → split sep s = [s].
Proof.
  induction 1 as [|c s Hc _ IH]; simpl; [done|].
  rewrite (proj2 (N.eqb_neq c sep)) by done. by rewrite IH.
Qed.

(** The numeral of a number that is not negative holds digits only. *)
Lemma toString_digits (z : Z) :
  0 <= z → toString z ≠ [] ∧ Forall (fun c => is_digit c = true) (toString z).
Proof.
  intros Hz. destruct z as [|p|p]; [split; [done|by repeat constructor]| |lia].
  rewrite toString_pos. split; [apply numeral_not_nil, to_uint_not_nil|apply numeral_digits].
Qed.

Lemma digits_no_dash (s : jsstring) :
  Forall (fun c => is_digit c = true) s → Forall (fun c => c ≠ 45%N) s.
Proof. intros H. eapply Forall_impl; [exact H|]. by intros c Hc ->. Qed.

(** *** The [Range] header, as clients write it *)

Lemma range_bounds_closed (a b fileSize : Z) :
  0 <= a → 0 <= b →
  range_bounds (js "bytes=" ++ toString a ++ js "-" ++ toString b) fileSize
  = (of_Z a, of_Z b).
Proof.
  intros Ha Hb. unfold range_bounds.
  rewrite OrchestratorFacts.replace_prefix. cbn [app].
  destruct (toString_digits a Ha) as [_ Hda]. destruct (toString_digits b Hb) as [Hnb Hdb].
  change (js "-" ++ toString b) with (45%N :: toString b).
  rewrite split_app, !split_whole by by apply digits_no_dash.
  cbn [app nth nth_error]. rewrite !parseInt_toString.
  destruct (toString b) eqn:E; [done|]. by rewrite <- E, parseInt_toString.
Qed.

Lemma range_bounds_open (a fileSize : Z) :
  0 <= a →
  range_bounds (js "bytes=" ++ toString a ++ js "-") fileSize
  = (of_Z a, Int (fileSize - 1)).
Proof.
  intros Ha. unfold range_bounds.
  rewrite OrchestratorFacts.replace_prefix. cbn [app].
  destruct (toString_digits a Ha) as [_ Hda].
  change (js "-") with (45%N :: []).
  rewrite split_app, !split_whole by by apply digits_no_dash.
  cbn [app nth nth_error split]. by rewrite !parseInt_toString.
Qed.

Lemma range_bounds_suffix (n fileSize : Z) :
  (range_bounds (js "bytes=-" ++ toString n) fileSize).1 = NaN.
Proof.
  unfold range_bounds. change (js "bytes=-" ++ toString n) with (js "bytes=" ++ 45%N :: toString n).
  rewrite OrchestratorFacts.replace_prefix. cbn [app].
  change (45%N :: toString n) with ([] ++ 45%N :: toString n).
  rewrite split_app. cbn [split app nth fst]. reflexivity.
Qed.

(** *** Range requests *)

Lemma existsSync_found (d : Dir) (path : jsstring) (e : Entry) :
  List.find (at_path path) (entries d) = Some e → existsSync d path = true.
Proof.
  intros Hfind. unfold existsSync. apply existsb_exists. exists e.
  by apply find_some in Hfind.
Qed.

(** The answer to a range request whose two positions are safe
    integers. *)
Lemma GET_range_eq (d : Dir) (downloadId filename f decoded range : jsstring) (e : Entry)
    (a b : Z) :
  downloadId ≠ [] → filename ≠ [] → range ≠ [] →
  resolve d downloadId = Some (Some f) →
  List.find (at_path (join tempDir f)) (entries d) = Some e →
  decodeURIComponent filename = Some decoded →
  valid_header_value (disposition decoded) = true →
  range_bounds range (Z.of_nat (length (content e))) = (Int a, Int b) →
  0 <= a <= MAX_SAFE_INTEGER → 0 <= b <= MAX_SAFE_INTEGER →
  GET d downloadId filename (Some range)
  = if a <=? b
    then File 206
           [ (js "Content-Range",
              js "bytes " ++ toString a ++ js "-" ++ toString b ++ js "/"
                ++ toString (Z.of_nat (length (content e))));
             (js "Accept-Ranges", js "bytes");
             (js "Content-Length", toString (b - a + 1));
             (js "Content-Type", contentType f);
             (js "Content-Disposition", disposition decoded);
             (js "Cache-Control", js "no-cache") ]
           (take (Z.to_nat (b - a + 1)) (drop (Z.to_nat a) (content e)))
    else failed.
Proof.
  intros Hid Hfn Hr Hres Hfind Hdec Hvalid Hbounds Ha Hb.
  unfold GET. rewrite !bool_decide_eq_false_2 by done. cbn [orb]. rewrite Hres. cbv zeta.
  rewrite (existsSync_found _ _ _ Hfind). cbn [negb].
  unfold statSync, createReadStream. rewrite Hfind.
  cbn [fmap option_fmap option_map]. destruct range as [|c r]; [done|].
  rewrite Hbounds, Hdec, Hvalid. cbn [safe_offset]. unfold MAX_SAFE_INTEGER in *.
  assert ((0 <=? a) && (a <=? 9007199254740991) = true) as ->
    by (apply andb_true_intro; split; lia).
  assert ((0 <=? b) && (b <=? 9007199254740991) = true) as ->
    by (apply andb_true_intro; split; lia).
  destruct (Z.leb_spec a b); [|done].
  rewrite plus_minus_safe by (change (2 ^ 53) with 9007199254740992; lia).
  reflexivity.
Qed.

(** A safe integer, written as a numeral, is read back as itself. *)
Lemma of_Z_offset (z : Z) : 0 <= z <= MAX_SAFE_INTEGER → of_Z z = Int z.
Proof.
  intros Hz. apply of_Z_safe. unfold MAX_SAFE_INTEGER in Hz.
  change (2 ^ 53) with 9007199254740992. lia.
Qed.

(** A first position that is no safe integer makes the stream
    constructor throw. *)
Lemma unsafe_offset (z : Z) : MAX_SAFE_INTEGER < z → safe_offset (of_Z z) = None.
Proof.
  intros Hz. unfold MAX_SAFE_INTEGER in Hz.
  destruct (of_Z_unsafe z) as [->|(z' & -> & Hz')];
    [change (2 ^ 53) with 9007199254740992; lia|done|].
  change (2 ^ 53) with 9007199254740992 in Hz'. cbn [safe_offset].
  unfold MAX_SAFE_INTEGER.
  assert ((z' <=? 9007199254740991) = false) as -> by lia. by rewrite andb_false_r.
Qed.

(** An open-ended range [bytes=a-] that starts inside the file is answered
    with the rest of the file from offset [a], announced as such. *)
Theorem GET_open_ended_range :
  ∀ (d : Dir) (downloadId filename f decoded : jsstring) (e : Entry) (a : Z),
    downloadId ≠ [] → filename ≠ [] →
    resolve d downloadId = Some (Some f) →
    List.find (at_path (join tempDir f)) (entries d) = Some e →
    decodeURIComponent filename = Some decoded →
    valid_header_value (disposition decoded) = true →
    Z.of_nat (length (content e)) <= MAX_SAFE_INTEGER →
    0 <= a < Z.of_nat (length (content e)) →
    let size := Z.of_nat (length (content e)) in
    let r := GET d downloadId filename (Some (js "bytes=" ++ toString a ++ js "-")) in
    status_of r = 206
    ∧ header (js "Content-Range") r
      = Some (js "bytes " ++ toString a ++ js "-" ++ toString (size - 1) ++ js "/"
                ++ toString size)
    ∧ header (js "Content-Length") r = Some (toString (size - a))
    ∧ body_of r = drop (Z.to_nat a) (content e).
Proof.
  intros d downloadId filename f decoded e a Hid Hfn Hres Hfind Hdec Hvalid Hsize Ha size r.
  subst r.
  rewrite (GET_range_eq d downloadId filename f decoded _ e a (size - 1));
    try done; try (subst size; lia).
  2: { rewrite range_bounds_open by lia. rewrite of_Z_offset by lia. done. }
  assert ((a <=? size - 1) = true) as -> by lia.
  split; [done|]. split; [reflexivity|]. split.
  - cbn [header]. replace (size - 1 - a + 1) with (size - a) by lia. reflexivity.
  - cbn [body_of]. apply take_ge. rewrite length_drop. subst size. lia.
Qed.

Lemma GET_open_ended_range_witness :
  let r := GET hundred (js "job1") (js "mp4") (Some (js "bytes=" ++ toString 40 ++ js "-")) in
  status_of r = 206
  ∧ header (js "Content-Range") r = Some (js "bytes 40-99/100")
  ∧ header (js "Content-Length") r = Some (js "60")
  ∧ body_of r = repeat "x"%byte 60.
Proof.
  apply (GET_open_ended_range hundred (js "job1") (js "mp4") (js "job1.mp4") (js "mp4")
           (mkEntry (js "job1.mp4") (repeat "x"%byte 100) true) 40);
    try discriminate; try reflexivity; vm_compute; split; congruence.
Defined.

(** A range request that names no first position (the suffix form
    [bytes=-n]) or whose first position lies after its last one is answered
    with status 500, whatever the file. *)
Theorem GET_unsatisfiable_range :
  ∀ (d : Dir) (downloadId filename f : jsstring) (e : Entry) (a b n : Z),
    downloadId ≠ [] → filename ≠ [] →
    resolve d downloadId = Some (Some f) →
    List.find (at_path (join tempDir f)) (entries d) = Some e →
    0 <= b < a →
    GET d downloadId filename (Some (js "bytes=-" ++ toString n)) = failed
    ∧ GET d downloadId filename (Some (js "bytes=" ++ toString a ++ js "-" ++ toString b))
      = failed.
Proof.
  intros d downloadId filename f e a b n Hid Hfn Hres Hfind Hab.
  assert (∀ range sa sb, range ≠ [] →
            range_bounds range (Z.of_nat (length (content e))) = (sa, sb) →
            createReadStream d (join tempDir f) (Some (sa, sb)) = None →
            GET d downloadId filename (Some range) = failed) as Hfail.
  { intros range sa sb Hr Hb Hnone. unfold GET.
    rewrite !bool_decide_eq_false_2 by done. cbn [orb]. rewrite Hres. cbv zeta.
    rewrite (existsSync_found _ _ _ Hfind). cbn [negb].
    unfold statSync. rewrite Hfind. cbn [fmap option_fmap option_map].
    destruct range as [|c r]; [done|]. by rewrite Hb, Hnone. }
  split.
  - pose proof (range_bounds_suffix n (Z.of_nat (length (content e)))) as Hs.
    destruct (range_bounds _ _) as [sa sb] eqn:E. cbn [fst] in Hs. subst sa.
    eapply Hfail; [done|exact E|]. unfold createReadStream. by rewrite Hfind.
  - eapply Hfail; [by destruct (toString a)|apply range_bounds_closed; lia|].
    unfold createReadStream. rewrite Hfind.
    destruct (Z.le_gt_cases a MAX_SAFE_INTEGER) as [Hsafe|Hunsafe].
    + rewrite !of_Z_offset by lia. cbn [safe_offset].
      destruct ((0 <=? a) && (a <=? MAX_SAFE_INTEGER)); [|done].
      destruct ((0 <=? b) && (b <=? MAX_SAFE_INTEGER)); [|done].
      by assert ((a <=? b) = false) as -> by lia.
    + by rewrite unsafe_offset.
Qed.

Lemma GET_unsatisfiable_range_witness :
  GET hundred (js "job1") (js "mp4") (Some (js "bytes=-" ++ toString 10)) = failed
  ∧ GET hundred (js "job1") (js "mp4") (Some (js "bytes=" ++ toString 50 ++ js "-" ++ toString 10))
    = failed.
Proof.
  apply (GET_unsatisfiable_range hundred (js "job1") (js "mp4") (js "job1.mp4")
           (mkEntry (js "job1.mp4") (repeat "x"%byte 100) true) 50 10 10);
    try discriminate; try reflexivity. lia.
Defined.

(** A last position with more digits than a number can hold is read as
    [Infinity]: the stream runs to the end of the file, and the announced
    length is [Infinity].  A first position of that kind makes the stream
    constructor throw. *)
Example GET_range_to_infinity :
  let r := GET hundred (js "job1") (js "mp4") (Some (js "bytes=10-" ++ repeat 57%N 400)) in
  status_of r = 206
  ∧ header (js "Content-Range") r = Some (js "bytes 10-Infinity/100")
  ∧ header (js "Content-Length") r = Some (js "Infinity")
  ∧ length (body_of r) = 90%nat
  ∧ GET hundred (js "job1") (js "mp4") (Some (repeat 57%N 400 ++ js "-")) = failed
  ∧ GET hundred (js "job1") (js "mp4") (Some (js "bytes=9007199254740992-")) = failed.
Proof. vm_compute. done. Qed.

(** *** The file a request resolves to *)

Lemma strip_prefix_trans (p q s : jsstring) :
  startsWith s q = true → startsWith q p = true → startsWith s p = true.
Proof.
  intros Hq Hp. apply startsWith_true in Hq as [r ->]. apply startsWith_true in Hp as [r' ->].
  apply startsWith_true. exists (r' ++ r). by rewrite app_assoc.
Qed.

Lemma find_prefix (names : list jsstring) (p id f : jsstring) :
  startsWith id p = true →
  List.find (fun n => startsWith n p) names = Some f → startsWith f id = true →
  List.find (fun n => startsWith n id) names = Some f.
Proof.
  intros Hp. induction names as [|n names IH]; [done|]. cbn [List.find].
  destruct (startsWith n p) eqn:Hn.
  - intros [= ->] Hf. by rewrite Hf.
  - intros Hfind Hf. destruct (startsWith n id) eqn:Hn'; [|by apply IH].
    by rewrite (strip_prefix_trans p id n) in Hn.
Qed.

(** The job id of a request is matched as a prefix: a request that names
    only the beginning [p] of a job id is answered like a request with the
    whole id, whenever the first file the directory lists under [p] is a file
    of that job. *)
Theorem GET_prefix_of_job_id :
  ∀ (d : Dir) (p downloadId filename f : jsstring) (range : option jsstring),
    p ≠ [] → startsWith downloadId p = true →
    resolve d p = Some (Some f) → startsWith f downloadId = true →
    GET d p filename range = GET d downloadId filename range.
Proof.
  intros d p downloadId filename f range Hp Hpre Hres Hf.
  assert (downloadId ≠ []) as Hid.
  { intros ->. apply startsWith_true in Hpre as [r Hr]. by destruct p. }
  assert (resolve d downloadId = Some (Some f)) as Hres'.
  { unfold resolve in *. destruct (readdirSync d) as [names|]; [|done].
    cbn [fmap option_fmap option_map] in *. injection Hres as Hres. f_equal.
    by apply (find_prefix names p). }
  unfold GET. rewrite (bool_decide_eq_false_2 (p = [])), (bool_decide_eq_false_2 (downloadId = []))
    by done.
  by rewrite Hres, Hres'.
Qed.

Lemma GET_prefix_of_job_id_witness :
  GET hundred (js "j") (js "mp4") None = GET hundred (js "job1") (js "mp4") None.
Proof.
  apply (GET_prefix_of_job_id hundred (js "j") (js "job1") (js "mp4") (js "job1.mp4") None);
    try discriminate; reflexivity.
Defined.

(** *** Status codes *)

Lemma resolve_found (d : Dir) (downloadId f : jsstring) :
  resolve d downloadId = Some (Some f) →
  ∃ e, List.find (at_path (join tempDir f)) (entries d) = Some e.
Proof.
  unfold resolve, readdirSync. destruct d as [es|]; [|done].
  cbn [fmap option_fmap option_map entries default]. intros [= Hfind].
  apply find_some in Hfind as [Hin _]. apply in_map_iff in Hin as (e & He & Hin).
  destruct (List.find (at_path (join tempDir f)) es) as [e'|] eqn:E; [eauto|].
  eapply find_none in E; [|exact Hin]. unfold at_path in E.
  rewrite He in E. by rewrite bool_decide_eq_true_2 in E.
Qed.

(** The status of every answer is one of five; it is 400 exactly when a
    parameter is empty, 404 exactly when the directory exists and lists no
    name that starts with the job id, and 500 when the directory is
    missing. *)
Theorem GET_status :
  ∀ (d : Dir) (downloadId filename : jsstring) (range : option jsstring),
    let st := status_of (GET d downloadId filename range) in
    (st = 200 ∨ st = 206 ∨ st = 400 ∨ st = 404 ∨ st = 500)
    ∧ (st = 400 ↔ downloadId = [] ∨ filename = [])
    ∧ (st = 404 ↔ downloadId ≠ [] ∧ filename ≠ [] ∧
                  ∃ es, d = Some es ∧
                        Forall (fun e => startsWith (name e) downloadId = false) es)
    ∧ (downloadId ≠ [] → filename ≠ [] → d = None → st = 500)
    ∧ (st = 206 → ∃ c r, range = Some (c :: r)).
Proof.
  intros d downloadId filename range st. subst st. unfold GET.
  destruct (decide (downloadId = [])) as [->|Hid].
  { cbn. split; [tauto|]. split; [tauto|]. split; [|done]. split; [done|]. tauto. }
  destruct (decide (filename = [])) as [->|Hfn].
  { rewrite bool_decide_eq_false_2 by done. cbn. split; [tauto|]. split; [tauto|].
    split; [|done]. split; [done|]. tauto. }
  rewrite !bool_decide_eq_false_2 by done. cbn [orb].
  destruct (resolve d downloadId) as [[f|]|] eqn:Hres.
  - destruct (resolve_found d downloadId f Hres) as [e Hfind]. cbv zeta.
    rewrite (existsSync_found _ _ _ Hfind). cbn [negb].
    assert (¬ (∃ es, d = Some es ∧
                 Forall (fun e => startsWith (name e) downloadId = false) es)) as Hno.
    { intros (es & -> & Hall). unfold resolve, readdirSync in Hres.
      cbn [fmap option_fmap option_map] in Hres. injection Hres as Hres.
      apply find_some in Hres as [Hin Hf]. apply in_map_iff in Hin as (e' & <- & Hin).
      rewrite Forall_forall in Hall. apply list_elem_of_In in Hin.
      by rewrite (Hall e' Hin) in Hf. }
    unfold statSync, createReadStream. rewrite Hfind. cbn [fmap option_fmap option_map].
    destruct range as [[|c r]|].
    + destruct (decodeURIComponent filename) as [decoded|];
        [destruct (valid_header_value (disposition decoded))|];
        cbn; (split; [tauto|]); (split; [split; [done|tauto]|]);
        (split; [split; [done|tauto]|]); (split; [by intros ? ? ->|done]).
    + destruct (range_bounds (c :: r) _) as [start end_].
      destruct (match safe_offset start with
                | Some s =>
                    match end_ with
                    | PosInfinity => Some (drop (Z.to_nat s) (content e))
                    | _ =>
                        match safe_offset end_ with
                        | Some e' =>
                            if s <=? e'
                            then Some (take (Z.to_nat (e' - s + 1))
                                         (drop (Z.to_nat s) (content e)))
                            else None
                        | None => None
                        end
                    end
                | None => None
                end);
        try (destruct (decodeURIComponent filename) as [decoded|];
             [destruct (valid_header_value (disposition decoded))|]);
        cbn; (split; [tauto|]); (split; [split; [done|tauto]|]);
        (split; [split; [done|tauto]|]); (split; [by intros ? ? ->|eauto]); done.
    + destruct (decodeURIComponent filename) as [decoded|];
        [destruct (valid_header_value (disposition decoded))|];
        cbn; (split; [tauto|]); (split; [split; [done|tauto]|]);
        (split; [split; [done|tauto]|]); (split; [by intros ? ? ->|done]).
  - cbn. split; [tauto|]. split; [split; [done|tauto]|]. split.
    + split; [|done]. intros _. split; [done|]. split; [done|].
      unfold resolve, readdirSync in Hres. destruct d as [es|]; [|done].
      exists es. split; [done|]. cbn [fmap option_fmap option_map] in Hres.
      injection Hres as Hres. rewrite Forall_forall. intros e He.
      apply list_elem_of_In in He.
      eapply find_none in Hres; [exact Hres|]. by apply in_map.
    + split; [|done]. intros _ _ ->. done.
  - cbn. split; [tauto|]. split; [split; [done|tauto]|]. split.
    + split; [done|]. intros (_ & _ & es & -> & _). done.
    + split; [done|]. done.
Qed.

(** *** Content type *)

(** The content type is read off what follows the last dot of the stored
    file's name, whatever precedes it. *)
Theorem contentType_by_extension :
  ∀ base ext : jsstring,
    Forall (fun c => c ≠ 46%N) ext →
    contentType (base ++ js "." ++ ext) = contentType ext
    ∧ contentType ext
      = if bool_decide (toLowerCase ext = js "mp4") then js "video/mp4"
        else if bool_decide (toLowerCase ext = js "mp3") then js "audio/mpeg"
        else if bool_decide (toLowerCase ext = js "webm") then js "video/webm"
        else if bool_decide (toLowerCase ext = js "m4a") then js "audio/mp4"
        else js "application/octet-stream".
Proof.
  intros base ext Hext. unfold contentType.
  change (js "." ++ ext) with (46%N :: ext).
  rewrite split_app, !(split_whole 46 ext) by done. by rewrite last_last.
Qed.

Lemma contentType_by_extension_witness :
  contentType (js "3f2a.tar" ++ js "." ++ js "MP4") = contentType (js "MP4")
  ∧ contentType (js "MP4") = js "video/mp4".
Proof.
  apply (contentType_by_extension (js "3f2a.tar") (js "MP4")).
  repeat constructor; discriminate.
Defined.

(** *** The name in the download link *)

(** A request whose file name is the percent-encoding of [name], as the
    download link of a complete event carries it, is answered, if it is
    answered with a file at all, with a [Content-Disposition] that names
    [name]. *)
Theorem GET_names_encoded_file :
  ∀ (d : Dir) (downloadId name enc : jsstring) (range : option jsstring),
    Forall (fun c => (c < 65536)%N) name →
    encodeURIComponent name = Some enc →
    let r := GET d downloadId enc range in
    (status_of r = 200 ∨ status_of r = 206) →
    header (js "Content-Disposition") r = Some (disposition name).
Proof.
  intros d downloadId name enc range Hname Henc r. subst r.
  pose proof (decodeURIComponent_encodeURIComponent name enc Hname Henc) as Hdec.
  unfold GET.
  destruct (bool_decide (downloadId = []) || bool_decide (enc = []));
    [cbn; intros [?|?]; done|].
  destruct (resolve d downloadId) as [[f|]|]; [|cbn; intros [?|?]; done..].
  cbv zeta. destruct (negb (existsSync d (join tempDir f))); [cbn; intros [?|?]; done|].
  destruct (statSync d (join tempDir f)) as [size|]; [|cbn; intros [?|?]; done].
  rewrite Hdec.
  destruct range as [[|c r]|].
  - destruct (createReadStream d (join tempDir f) None); [|cbn; intros [?|?]; done].
    destruct (valid_header_value (disposition name)); [|cbn; intros [?|?]; done].
    reflexivity.
  - destruct (range_bounds (c :: r) size) as [sa sb].
    destruct (createReadStream d (join tempDir f) (Some (sa, sb)));
      [|cbn; intros [?|?]; done].
    destruct (valid_header_value (disposition name)); [|cbn; intros [?|?]; done].
    reflexivity.
  - destruct (createReadStream d (join tempDir f) None); [|cbn; intros [?|?]; done].
    destruct (valid_header_value (disposition name)); [|cbn; intros [?|?]; done].
    reflexivity.
Qed.

Lemma GET_names_encoded_file_witness :
  header (js "Content-Disposition") (GET hundred (js "job1") (js "My%20Video.mp4") None)
  = Some (disposition (js "My Video.mp4")).
Proof.
  apply (GET_names_encoded_file hundred (js "job1") (js "My Video.mp4") (js "My%20Video.mp4")
           None); [repeat constructor|reflexivity|left; reflexivity].
Defined.

End ArtifactEdges.

(** ** Download route: requests, registry, signals, output *)

Module RouteFacts.
Import JS FS Progress RateLimit Orchestrator Routes JSFacts CleanupFacts OrchestratorFacts.

(** *** Requests the download route turns down *)

Lemma checkRateLimit_rejects_unchanged (now : Z) (c : jsstring) (rl : gmap jsstring Limit) :
  (checkRateLimit now c rl).1 = false → (checkRateLimit now c rl).2 = rl.
Proof.
  unfold checkRateLimit. destruct (rl !! c) as [l|]; [|done].
  destruct (now >? resetTime l); [done|]. by destruct (count l >=? MAX_DOWNLOADS_PER_HOUR).
Qed.

Lemma with_rateLimits_same (w : World) : with_rateLimits (fun _ => rateLimits w) w = w.
Proof. by destruct w. Qed.

(** A request that is turned down (a field missing, a URL that is not
    a YouTube address, a client over its quota) is answered with 400, 400 and
    429, and changes nothing on the server: no quota is used up, no job
    exists, no process is started. *)
Theorem POST_rejected_changes_nothing :
  ∀ (now : Z) (url format : jsstring) (ff ri : option jsstring) (uuid : jsstring) (w : World),
    (url = [] ∨ format = [] →
       POST now url format ff ri uuid w
       = (w, Some (Json 400 (js "error") (js "Missing required parameters: url and format"))))
    ∧ (url ≠ [] → format ≠ [] → youtubeRegex_test url = false →
       POST now url format ff ri uuid w
       = (w, Some (Json 400 (js "error") (js "Invalid YouTube URL"))))
    ∧ (url ≠ [] → format ≠ [] → youtubeRegex_test url = true →
       (checkRateLimit now (clientId_of ff ri) (rateLimits w)).1 = false →
       POST now url format ff ri uuid w
       = (w, Some (Json 429 (js "error")
                     (js "Rate limit exceeded. Maximum 5 downloads per hour.")))).
Proof.
  intros now url format ff ri uuid w. unfold POST. split; [|split].
  - intros [-> | ->]; [done|]. by rewrite orb_true_r.
  - intros Hu Hf Hy. rewrite !bool_decide_eq_false_2 by done. cbn [orb]. by rewrite Hy.
  - intros Hu Hf Hy Hrl. rewrite !bool_decide_eq_false_2 by done. cbn [orb]. rewrite Hy.
    cbn [negb]. mrun.
    pose proof (checkRateLimit_rejects_unchanged now (clientId_of ff ri) (rateLimits w)) as Hsame.
    destruct (checkRateLimit now (clientId_of ff ri) (rateLimits w)) as [b rl].
    cbn [fst snd] in *. subst b. cbn [negb]. rewrite Hsame by done.
    by rewrite with_rateLimits_same.
Qed.

(** *** The address check *)

Lemma elem_of_optionally (p s x : jsstring) :
  x ∈ optionally p s ↔ x = s ∨ s = p ++ x.
Proof.
  unfold optionally. destruct (strip_prefix p s) as [r|] eqn:E.
  - apply strip_prefix_Some in E. subst s. rewrite !elem_of_cons, elem_of_nil. split.
    + intros [->|[->|H]]; [by right|by left|done].
    + intros [->|H]; [right; by left|]. left. by apply app_inv_head in H.
  - rewrite list_elem_of_singleton. split; [by left|].
    intros [-> | ->]; [done|]. by rewrite strip_prefix_app in E.
Qed.

Lemma youtube_tail_true (s : jsstring) :
  youtube_tail s = true ↔
  ∃ host c rest, host ∈ [js "youtube.com"; js "youtu.be"] ∧
                 s = host ++ js "/" ++ c :: rest ∧ is_line_terminator c = false.
Proof.
  unfold youtube_tail. rewrite existsb_exists. split.
  - intros (host & Hin & Hm). apply list_elem_of_In in Hin.
    destruct (strip_prefix (host ++ js "/") s) as [[|c rest]|] eqn:E; try done.
    apply strip_prefix_Some in E. exists host, c, rest. split; [done|].
    split; [by rewrite E, <- app_assoc|]. by destruct (is_line_terminator c).
  - intros (host & c & rest & Hin & -> & Hc). exists host. split; [by apply list_elem_of_In|].
    rewrite app_assoc, strip_prefix_app. by rewrite Hc.
Qed.

(** The address check accepts exactly the strings that begin with an
    optional [http://] or [https://], an optional [www.], then [youtube.com/]
    or [youtu.be/], and one more character that ends no line; what follows
    is not looked at. *)
Theorem youtubeRegex_test_true :
  ∀ url : jsstring,
    youtubeRegex_test url = true ↔
    ∃ scheme www host c rest,
      scheme ∈ [[]; js "http://"; js "https://"] ∧ www ∈ [[]; js "www."] ∧
      host ∈ [js "youtube.com"; js "youtu.be"] ∧
      url = scheme ++ www ++ host ++ js "/" ++ c :: rest ∧ is_line_terminator c = false.
Proof.
  intros url. unfold youtubeRegex_test. rewrite existsb_exists. split.
  - intros (s & Hin & Htail). apply list_elem_of_In in Hin.
    apply list_elem_of_bind in Hin as (s1 & Hs & Hs1).
    apply youtube_tail_true in Htail as (host & c & rest & Hhost & -> & Hc).
    apply elem_of_optionally in Hs. apply elem_of_app in Hs1.
    assert (∃ scheme, scheme ∈ [[]; js "http://"; js "https://"] ∧ url = scheme ++ s1)
      as (scheme & Hscheme & ->).
    { destruct Hs1 as [H|H]; apply elem_of_optionally in H as [-> | ->].
      - exists []. split; [by left|done].
      - exists (js "https://"). split; [right; right; by left|done].
      - exists []. split; [by left|done].
      - exists (js "http://"). split; [right; by left|done]. }
    destruct Hs as [Hs|Hs]; subst s1.
    + exists scheme, [], host, c, rest. split; [done|]. split; [by left|]. done.
    + exists scheme, (js "www."), host, c, rest. split; [done|]. split; [right; by left|]. done.
  - intros (scheme & www & host & c & rest & Hscheme & Hwww & Hhost & -> & Hc).
    exists (host ++ js "/" ++ c :: rest). split.
    + apply list_elem_of_In, list_elem_of_bind. exists (www ++ host ++ js "/" ++ c :: rest). split.
      * apply elem_of_optionally.
        apply elem_of_cons in Hwww as [->|Hwww]; [by left|].
        apply list_elem_of_singleton in Hwww as ->. by right.
      * apply elem_of_app.
        apply elem_of_cons in Hscheme as [->|Hscheme];
          [left; apply elem_of_optionally; by left|].
        apply elem_of_cons in Hscheme as [->|Hscheme];
          [right; apply elem_of_optionally; by right|].
        apply list_elem_of_singleton in Hscheme as ->.
        left. apply elem_of_optionally. by right.
    + apply youtube_tail_true. by exists host, c, rest.
Qed.

(** *** Requests the download route admits *)

(** An accepted address begins with [h], [w] or [y]: the downloader never
    reads it as an option. *)
Lemma accepted_url_head (url : jsstring) :
  youtubeRegex_test url = true →
  ∃ c rest, url = c :: rest ∧ (c = 104 ∨ c = 119 ∨ c = 121)%N.
Proof.
  intros H. apply youtubeRegex_test_true in H
    as (scheme & www & host & c & rest & Hscheme & Hwww & Hhost & -> & _).
  repeat match goal with
  | H : _ ∈ _ :: _ |- _ => apply elem_of_cons in H as [->|H]
  | H : _ ∈ [] |- _ => by apply elem_of_nil in H
  end; eexists _, _; (split; [reflexivity|]); auto.
Qed.




(** An address with a null character after the host passes the address
    check and costs an admission, and no job comes of it. *)
Example POST_null_character :
  let url := js "https://youtu.be/a" ++ [0%N] ++ js "b" in
  let answer := POST 0 url (js "mp4") (Some (js "10.0.0.7")) None (js "job1") init in
  youtubeRegex_test url = true
  ∧ answer.2 = Some Caught
  ∧ rateLimits answer.1 !! js "10.0.0.7" = Some (mkLimit 1 3600000)
  ∧ activeDownloads answer.1 = ∅
  ∧ streams answer.1 = ∅.
Proof. vm_compute. done. Qed.

(** Any format other than [mp3] is handled as [mp4]. *)
Theorem POST_format_default :
  ∀ (now : Z) (url format : jsstring) (ff ri : option jsstring) (uuid : jsstring) (w : World),
    format ≠ [] → format ≠ js "mp3" →
    POST now url format ff ri uuid w = POST now url (js "mp4") ff ri uuid w.
Proof.
  intros now url format ff ri uuid w Hf Hmp3. unfold POST, ytDlpArgs.
  rewrite (bool_decide_eq_false_2 (format = [])) by done.
  rewrite (bool_decide_eq_false_2 (format = js "mp3")) by done. reflexivity.
Qed.

Lemma POST_format_default_witness :
  POST 0 (js "https://youtu.be/abc123") (js "webm") None None (js "job1") init
  = POST 0 (js "https://youtu.be/abc123") (js "mp4") None None (js "job1") init.
Proof. apply POST_format_default; discriminate. Defined.

(** *** Cancelling *)

(** A cancellation request without a job id is answered with 400; one
    for a job that is not registered with 404; neither changes anything.  A
    request for a registered job is accepted once: the process is sent
    [SIGTERM], the job leaves the registry, the answer is [Download
    cancelled], and the same request made again is answered with 404 and does
    nothing. *)
Theorem DELETE_answers :
  ∀ (w : World) (downloadId : jsstring),
    DELETE None w = (w, Some (Json 400 (js "error") (js "Missing downloadId")))
    ∧ DELETE (Some []) w = (w, Some (Json 400 (js "error") (js "Missing downloadId")))
    ∧ (downloadId ≠ [] → activeDownloads w !! downloadId = None →
       DELETE (Some downloadId) w
       = (w, Some (Json 404 (js "error") (js "Download not found"))))
    ∧ (downloadId ≠ [] → is_Some (activeDownloads w !! downloadId) →
       ∃ w1,
         DELETE (Some downloadId) w
         = (w1, Some (Json 200 (js "message") (js "Download cancelled")))
         ∧ signals w1 = signals w ++ [(downloadId, js "SIGTERM")]
         ∧ activeDownloads w1 = delete downloadId (activeDownloads w)
         ∧ streams w1 = streams w
         ∧ DELETE (Some downloadId) w1
           = (w1, Some (Json 404 (js "error") (js "Download not found")))).
Proof.
  intros w downloadId. split; [done|]. split; [done|]. split.
  - intros Hid Hnone. destruct downloadId as [|c r]; [done|].
    unfold DELETE. mrun. by rewrite Hnone.
  - intros Hid [dl Hdl]. destruct downloadId as [|c r]; [done|].
    unfold DELETE at 1. mrun. rewrite Hdl. wsimpl.
    destruct (fileCleanupTimers w !! (c :: r)) as [t|]; unfold clearTimeout; mrun; wsimpl.
    + eexists. split; [reflexivity|]. wsimpl. split; [done|]. split; [done|]. split; [done|].
      unfold DELETE. mrun. wsimpl. by rewrite lookup_delete_eq.
    + eexists. split; [reflexivity|]. wsimpl. split; [done|]. split; [done|]. split; [done|].
      unfold DELETE. mrun. wsimpl. by rewrite lookup_delete_eq.
Qed.

(** *** The registry of running jobs *)

(** In every state the server can reach, the process of a registered job
    was started with an address that passed the check as its first argument,
    so with one that does not begin with a dash, and with the output template
    of its own job id. *)
Theorem running_process_arguments :
  ∀ (w : World) (id : jsstring) (dl : Download),
    reachable w → activeDownloads w !! id = Some dl →
    ∃ url args,
      process dl = url :: args ∧ youtubeRegex_test url = true
      ∧ (∃ c rest, url = c :: rest ∧ c ≠ 45%N)
      ∧ nth_error args 3 = Some (js "--output")
      ∧ nth_error args 4 = Some (join tempDir (id ++ js ".%(ext)s")).
Proof.
  intros w id dl Hw Hdl.
  destruct (reachable_registered_well w Hw id dl Hdl) as [_ (url & format & -> & Hy)].
  eexists url, _. split; [reflexivity|]. split; [done|]. split; [|done].
  destruct (accepted_url_head url Hy) as (c & rest & -> & Hc).
  exists c, rest. split; [done|]. by destruct Hc as [->|[->| ->]].
Qed.

Lemma running_process_arguments_witness :
  ∃ url args,
    process (mkDownload (ytDlpArgs (js "https://youtu.be/abc123") (js "mp3") (js "job1")) 0)
    = url :: args ∧ youtubeRegex_test url = true
    ∧ (∃ c rest, url = c :: rest ∧ c ≠ 45%N)
    ∧ nth_error args 3 = Some (js "--output")
    ∧ nth_error args 4 = Some (join tempDir (js "job1" ++ js ".%(ext)s")).
Proof.
  apply (running_process_arguments running (js "job1")); [apply reachable_running|].
  vm_compute. reflexivity.
Defined.

(** In every state the server can reach, a job whose event stream has
    ended is no longer registered: a cancellation request for it is answered
    with 404 and does nothing. *)
Theorem finished_job_not_cancellable :
  ∀ (w : World) (id : jsstring) (s : Stream),
    reachable w → streams w !! id = Some s → closed s = true →
    activeDownloads w !! id = None
    ∧ DELETE (Some id) w = (w, Some (Json 404 (js "error") (js "Download not found"))).
Proof.
  intros w id s Hw Hs Hclosed.
  assert (activeDownloads w !! id = None) as Hnone.
  { destruct (activeDownloads w !! id) as [dl|] eqn:Hdl; [|done].
    destruct (reachable_registered_well w Hw id dl Hdl) as [(s' & Hs' & Ho) _].
    congruence. }
  split; [done|].
  destruct (reachable_consistent w Hw) as (_ & _ & Hne & _).
  assert (id ≠ []) as Hid by (apply Hne; eauto).
  destruct id as [|c r]; [done|]. unfold DELETE. mrun. by rewrite Hnone.
Qed.

Lemma finished_job_not_cancellable_witness :
  activeDownloads (run full_run init) !! js "job1" = None
  ∧ DELETE (Some (js "job1")) (run full_run init)
    = (run full_run init, Some (Json 404 (js "error") (js "Download not found"))).
Proof.
  apply (finished_job_not_cancellable (run full_run init) (js "job1")
           (mkStream (events (run full_run init) (js "job1")) true)).
  - apply reachable_run; [constructor|apply fresh_full_run].
  - vm_compute. reflexivity.
  - reflexivity.
Defined.

(** *** Output that arrives in pieces *)

Lemma for_each_app {A} (xs ys : list A) (body : A → M unit) (w : World) :
  for_each (xs ++ ys) body w
  = match for_each xs body w with
    | (w', Some _) => for_each ys body w'
    | (w', None) => (w', None)
    end.
Proof.
  revert w. induction xs as [|x xs IH]; intros w; [done|].
  cbn [app for_each]. mrun. destruct (body x w) as [w' [[]|]]; [apply IH|done].
Qed.

Lemma on_stdout_lines id data : on_stdout id data = for_each (split 10 data) (on_line id).
Proof. reflexivity. Qed.

Lemma enqueue_returns id ev w :
  open_at id w → ∃ w', enqueue id ev w = (w', Some tt) ∧ open_at id w'.
Proof.
  intros (s & Hs & Ho). rewrite (enqueue_open _ _ _ _ Hs Ho). eexists. split; [done|].
  eexists. wsimpl. by rewrite lookup_insert_eq.
Qed.

Lemma on_line_returns id line w :
  open_at id w → ∃ w', on_line id line w = (w', Some tt) ∧ open_at id w'.
Proof.
  intros Hopen. unfold on_line. destruct (trim line); [by exists w|]. mrun.
  assert (∃ w1, match parseProgress line with
                | Some progress => enqueue id (ProgressEvent id progress)
                | None => λ w, (w, Some tt)
                end w = (w1, Some tt) ∧ open_at id w1) as (w1 & -> & Hopen1).
  { destruct (parseProgress line); [by apply enqueue_returns|by exists w]. }
  destruct (_ || _); [by apply enqueue_returns|by exists w1].
Qed.

Lemma for_each_lines_returns id lines w :
  open_at id w → ∃ w', for_each lines (on_line id) w = (w', Some tt) ∧ open_at id w'.
Proof.
  revert w. induction lines as [|l lines IH]; intros w Hopen; [by exists w|].
  cbn [for_each]. mrun.
  destruct (on_line_returns id l w Hopen) as (w1 & -> & Hopen1). by apply IH.
Qed.

Lemma on_stdout_not_open id data w : ¬ open_at id w → exec_handler (on_stdout id data) w = w.
Proof.
  intros Hno. destruct (on_stdout_appends id data w) as [->|(s & evs & Hs & Ho & _)]; [done|].
  destruct Hno. by exists s.
Qed.

(** Output that arrives in two pieces, the first of which ends with a
    line break, has the effect of the same output arriving in one piece. *)
Theorem on_stdout_in_two_pieces :
  ∀ (id a b : jsstring) (w : World),
    exec_handler (on_stdout id (a ++ 10%N :: b)) w
    = exec_handler (on_stdout id b) (exec_handler (on_stdout id a) w).
Proof.
  intros id a b w.
  assert (¬ open_at id w →
          exec_handler (on_stdout id (a ++ 10%N :: b)) w
          = exec_handler (on_stdout id b) (exec_handler (on_stdout id a) w)) as Hshut.
  { intros Hno. rewrite (on_stdout_not_open id a w Hno).
    by rewrite (on_stdout_not_open id b w Hno), (on_stdout_not_open id _ w Hno). }
  destruct (streams w !! id) as [s|] eqn:Hs; [destruct (closed s) eqn:Ho|].
  - apply Hshut. intros (s' & Hs' & Ho'). congruence.
  - assert (open_at id w) as Hopen by by exists s.
    rewrite !on_stdout_lines, ArtifactEdges.split_app. unfold exec_handler.
    rewrite for_each_app.
    by destruct (for_each_lines_returns id (split 10 a) w Hopen) as (w1 & -> & _).
  - apply Hshut. intros (s' & Hs' & Ho'). congruence.
Qed.

(** *** Signals *)

Lemma handle_input_signals now i w :
  signals (handle_input now i w) = signals w
  ∨ (∃ id, i = Delete (Some id) ∧ is_Some (activeDownloads w !! id)
       ∧ signals (handle_input now i w) = signals w ++ [(id, js "SIGTERM")]
       ∧ activeDownloads (handle_input now i w) = delete id (activeDownloads w)).
Proof.
  destruct i as [url format ff ri uuid|id' data|id' data|id' code|id' msg|oid|e];
    cbn [handle_input].
  - left. rewrite POST_world.
    destruct (_ || _); [done|]. destruct (checkRateLimit _ _ _).1; [|done].
    by destruct (existsb has_null _).
  - left. rewrite listening_run. destruct (streams w !! id'); [|done].
    by destruct (on_stdout_appends id' data w) as [->|(s1 & evs & _ & _ & _ & ->)].
  - left. rewrite listening_run. destruct (streams w !! id') as [s0|] eqn:Hs0; [|done].
    rewrite (on_stderr_world _ _ _ _ Hs0). by destruct (_ && _).
  - left. rewrite listening_run. destruct (streams w !! id') as [s0|] eqn:Hs0; [|done].
    destruct (on_close_summary now id' code w s0 Hs0) as (w2 & t & Hw2 & _ & _ & ->).
    assert (signals w2 = signals w) as <-.
    { destruct Hw2 as [->|(f & _ & ->)]; [done|]. by rewrite scheduleFileCleanup_world. }
    by destruct (closed s0).
  - left. rewrite listening_run. destruct (streams w !! id') as [s0|] eqn:Hs0; [|done].
    rewrite (on_error_world _ _ _ _ Hs0). by destruct (closed s0).
  - rewrite DELETE_world. destruct oid as [[|c r]|]; [by left| |by left].
    destruct (activeDownloads w !! (c :: r)) eqn:Ha; [|by left].
    right. exists (c :: r). split; [done|]. split; [by rewrite Ha|].
    by destruct (fileCleanupTimers w !! (c :: r)).
  - by left.
Qed.

(** In every state the server can reach, the only signal a process has
    been sent is [SIGTERM], it was sent on a cancellation request, to the
    process of a started job that is registered no more, and no process has
    been sent it twice. *)
Theorem signals_sent_once :
  ∀ w : World, reachable w →
    NoDup (signals w)
    ∧ ∀ id sig, (id, sig) ∈ signals w →
        sig = js "SIGTERM" ∧ is_Some (streams w !! id) ∧ activeDownloads w !! id = None.
Proof.
  intros w Hw. induction Hw as [|now i w Hw IH Hfresh].
  - split; [constructor|]. intros id sig H. by apply elem_of_nil in H.
  - destruct IH as [Hnd Hall]. unfold step.
    destruct (advance_frame now w) as (Hst & Hact & _ & Hsig & _).
    pose proof (reachable_consistent w Hw) as Hcons.
    assert (∀ id sig, (id, sig) ∈ signals w →
              is_Some (streams (handle_input now i (advance now w)) !! id)
              ∧ activeDownloads (handle_input now i (advance now w)) !! id = None) as Hkeep.
    { intros id sig Hin. destruct (Hall id sig Hin) as (_ & Hs & Hnone). split.
      - apply handle_input_started. by rewrite Hst.
      - destruct (handle_input_active now i (advance now w) id)
          as [->|[->|(url & format & ff & ri & -> & _)]]; [by rewrite Hact|done|].
        destruct Hfresh as [_ Hf]. rewrite Hst in Hf. rewrite Hf in Hs. by destruct Hs. }
    destruct (handle_input_signals now i (advance now w))
      as [->|(id0 & -> & Hreg & -> & Ha)]; rewrite Hsig.
    + split; [done|]. intros id sig Hin.
      destruct (Hall id sig Hin) as (-> & _). destruct (Hkeep id _ Hin). done.
    + rewrite Hact in Hreg. split.
      * apply NoDup_app. split; [done|]. split; [|apply NoDup_singleton].
        intros [id sig] Hin Hin'. apply list_elem_of_singleton in Hin'. injection Hin' as -> ->.
        destruct (Hall id0 _ Hin) as (_ & _ & Hnone). rewrite Hnone in Hreg. by destruct Hreg.
      * intros id sig Hin. apply elem_of_app in Hin as [Hin|Hin].
        -- destruct (Hall id sig Hin) as (-> & _). destruct (Hkeep id _ Hin). done.
        -- apply list_elem_of_singleton in Hin. injection Hin as -> ->.
           split; [done|]. split.
           ++ apply handle_input_started. rewrite Hst.
              destruct Hcons as (_ & _ & _ & Hc). by destruct (Hc id0 Hreg).
           ++ rewrite Ha. apply lookup_delete_eq.
Qed.

Lemma signals_sent_once_witness :
  NoDup (signals (run cancel_then_exit init))
  ∧ ∀ id sig, (id, sig) ∈ signals (run cancel_then_exit init) →
      sig = js "SIGTERM" ∧ is_Some (streams (run cancel_then_exit init) !! id)
      ∧ activeDownloads (run cancel_then_exit init) !! id = None.
Proof.
  apply signals_sent_once, reachable_run; [constructor|apply fresh_cancel_then_exit].
Defined.

(** *** The error stream of the downloader *)

(** A chunk of the error stream without [ERROR] changes nothing.  A chunk
    with [ERROR], on an open stream, ends the job for its client: one error
    event with the chunk is published, the stream is closed and the job leaves
    the registry; no signal is sent, so the process runs on, and whatever it
    still writes, and its exit, publish nothing more. *)
Theorem stderr_error_ends_the_stream :
  ∀ (w : World) (id data : jsstring) (s : Stream),
    streams w !! id = Some s → closed s = false →
    (includes data (js "ERROR") = false → exec_handler (on_stderr id data) w = w)
    ∧ (includes data (js "ERROR") = true →
       let w1 := exec_handler (on_stderr id data) w in
       streams w1 !! id
       = Some (mkStream (queue s ++ [Error id (js "Download failed: " ++ data)]) true)
       ∧ activeDownloads w1 !! id = None
       ∧ signals w1 = signals w
       ∧ ∀ (now : Z) (code : option Z) (more : jsstring),
           exec_handler (on_stdout id more) w1 = w1
           ∧ exec_handler (on_stderr id more) w1 = w1
           ∧ streams (exec_handler (on_close now id code) w1) !! id = streams w1 !! id).
Proof.
  intros w id data s Hs Ho. rewrite (on_stderr_world _ _ _ _ Hs), Ho. cbn [negb].
  split; [by intros ->|]. intros ->. cbn [andb]. cbv zeta.
  set (s1 := mkStream (queue s ++ [Error id (js "Download failed: " ++ data)]) true).
  set (w1 := with_activeDownloads (delete id) (with_streams <[id := s1]> w)).
  assert (streams w1 !! id = Some s1) as Hs1 by (subst w1; wsimpl; apply lookup_insert_eq).
  split; [done|]. split; [subst w1; wsimpl; apply lookup_delete_eq|]. split; [done|].
  intros now code more. split; [|split].
  - apply on_stdout_not_open. intros (s' & Hs' & Ho'). rewrite Hs1 in Hs'. by injection Hs' as <-.
  - by rewrite (on_stderr_world _ _ _ _ Hs1), andb_false_r.
  - destruct (on_close_summary now id code w1 s1 Hs1) as (w2 & t & Hw2 & _ & _ & ->).
    cbn [closed s1].
    destruct Hw2 as [->|(f & _ & ->)]; [done|]. by rewrite scheduleFileCleanup_world.
Qed.

Lemma stderr_error_ends_the_stream_witness :
  (includes (js "ERROR: Video unavailable") (js "ERROR") = false →
   exec_handler (on_stderr (js "job1") (js "ERROR: Video unavailable")) running = running)
  ∧ (includes (js "ERROR: Video unavailable") (js "ERROR") = true →
     let w1 := exec_handler (on_stderr (js "job1") (js "ERROR: Video unavailable")) running in
     streams w1 !! js "job1"
     = Some (mkStream (events running (js "job1")
                       ++ [Error (js "job1") (js "Download failed: " ++ js "ERROR: Video unavailable")])
               true)
     ∧ activeDownloads w1 !! js "job1" = None
     ∧ signals w1 = signals running
     ∧ ∀ (now : Z) (code : option Z) (more : jsstring),
         exec_handler (on_stdout (js "job1") more) w1 = w1
         ∧ exec_handler (on_stderr (js "job1") more) w1 = w1
         ∧ streams (exec_handler (on_close now (js "job1") code) w1) !! js "job1"
           = streams w1 !! js "job1").
Proof.
  apply (stderr_error_ends_the_stream running (js "job1") (js "ERROR: Video unavailable")
           (mkStream (events running (js "job1")) false)); [|reflexivity].
  vm_compute. reflexivity.
Defined.

End RouteFacts.

(** ** Rate limiter: clients and the table *)

Module LimiterFacts.
Import JS RateLimit LimiterDefs JSFacts RateLimitFacts.

(** A verdict depends on the entry of the asking client only. *)
Lemma checkRateLimit_local (now : Z) (c : jsstring) (rl1 rl2 : gmap jsstring Limit) :
  rl1 !! c = rl2 !! c →
  (checkRateLimit now c rl1).1 = (checkRateLimit now c rl2).1
  ∧ (checkRateLimit now c rl1).2 !! c = (checkRateLimit now c rl2).2 !! c.
Proof.
  intros H. unfold checkRateLimit. rewrite H. destruct (rl2 !! c) as [l|] eqn:E.
  - destruct (now >? resetTime l); cbn [fst snd]; [by rewrite !lookup_insert_eq|].
    destruct (count l >=? MAX_DOWNLOADS_PER_HOUR); cbn [fst snd]; [by rewrite H, E|].
    by rewrite !lookup_insert_eq.
  - cbn [fst snd]. by rewrite !lookup_insert_eq.
Qed.

(** The verdicts a client gets, and the entry it is left with, are those
    it would get if it were the only client: the requests of the others play
    no role. *)
Theorem clients_are_independent :
  ∀ (clientId : jsstring) (reqs : list (Z * jsstring)) (rateLimits : gmap jsstring Limit),
    verdicts_of clientId reqs (serve_all reqs rateLimits).1
    = (serve_all (of_client clientId reqs) rateLimits).1
    ∧ (serve_all reqs rateLimits).2 !! clientId
      = (serve_all (of_client clientId reqs) rateLimits).2 !! clientId.
Proof.
  intros c reqs rl.
  assert (∀ rl1 rl2 : gmap jsstring Limit,
            rl1 !! c = rl2 !! c →
            verdicts_of c reqs (serve_all reqs rl1).1 = (serve_all (of_client c reqs) rl2).1
            ∧ (serve_all reqs rl1).2 !! c = (serve_all (of_client c reqs) rl2).2 !! c) as Hlocal;
    [|by apply Hlocal].
  induction reqs as [|[t c1] reqs IH]; intros rl1 rl2 H; [done|].
  rewrite serve_all_cons. cbn [fst snd verdicts_of of_client List.filter].
  destruct (decide (c1 = c)) as [->|Hne].
  - rewrite bool_decide_eq_true_2 by done. rewrite serve_all_cons. cbn [fst snd].
    destruct (checkRateLimit_local t c rl1 rl2 H) as [-> Hnext].
    destruct (IH _ _ Hnext) as [IH1 IH2]. unfold of_client in *. by rewrite IH1, IH2.
  - rewrite bool_decide_eq_false_2 by done. apply IH.
    by rewrite checkRateLimit_other.
Qed.

Lemma checkRateLimit_counts (now : Z) (c : jsstring) (rl : gmap jsstring Limit) :
  counts_in_range rl → counts_in_range (checkRateLimit now c rl).2.
Proof.
  intros Hrl c' l'. unfold checkRateLimit, MAX_DOWNLOADS_PER_HOUR.
  destruct (rl !! c) as [l|] eqn:E.
  - destruct (now >? resetTime l); cbn [snd].
    + destruct (decide (c = c')) as [->|Hne];
        [rewrite lookup_insert_eq; intros [= <-]; simpl; lia
        |rewrite lookup_insert_ne by done; apply Hrl].
    + destruct (count l >=? 5) eqn:E5; cbn [snd]; [apply Hrl|].
      destruct (decide (c = c')) as [->|Hne];
        [rewrite lookup_insert_eq; intros [= <-]; cbn [count];
         specialize (Hrl _ _ E); lia
        |rewrite lookup_insert_ne by done; apply Hrl].
  - cbn [snd]. destruct (decide (c = c')) as [->|Hne];
      [rewrite lookup_insert_eq; intros [= <-]; simpl; lia
      |rewrite lookup_insert_ne by done; apply Hrl].
Qed.

Lemma checkRateLimit_keeps (now : Z) (c c' : jsstring) (rl : gmap jsstring Limit) :
  is_Some ((checkRateLimit now c rl).2 !! c') ↔ c' = c ∨ is_Some (rl !! c').
Proof.
  destruct (decide (c' = c)) as [->|Hne].
  - split; [by left|]. intros _. unfold checkRateLimit.
    destruct (rl !! c) as [l|] eqn:E; cbn [snd]; [|by rewrite lookup_insert_eq].
    destruct (now >? resetTime l); cbn [snd]; [by rewrite lookup_insert_eq|].
    destruct (count l >=? MAX_DOWNLOADS_PER_HOUR); cbn [snd];
      [by rewrite E|by rewrite lookup_insert_eq].
  - rewrite checkRateLimit_other by done. split; [by right|]. by intros [?|?].
Qed.

(** Whatever the requests, the table keeps one entry for every client
    that has ever asked and for no one else; no entry is ever removed, and
    each counts between one and five admissions. *)
Theorem rateLimits_table :
  ∀ (reqs : list (Z * jsstring)) (clientId : jsstring),
    (is_Some ((serve_all reqs ∅).2 !! clientId) ↔ ∃ t, (t, clientId) ∈ reqs)
    ∧ ∀ l, (serve_all reqs ∅).2 !! clientId = Some l → 1 <= count l <= 5.
Proof.
  intros reqs c.
  assert (∀ rl : gmap jsstring Limit,
            (is_Some ((serve_all reqs rl).2 !! c) ↔ is_Some (rl !! c) ∨ ∃ t, (t, c) ∈ reqs)
            ∧ (counts_in_range rl → counts_in_range (serve_all reqs rl).2)) as Hgen.
  { induction reqs as [|[t c1] reqs IH]; intros rl.
    - cbn [serve_all snd]. split; [|done]. split; [by left|].
      intros [?|[t Ht]]; [done|]. by apply elem_of_nil in Ht.
    - rewrite serve_all_cons. cbn [snd].
      destruct (IH (checkRateLimit t c1 rl).2) as [IH1 IH2]. split.
      + rewrite IH1, checkRateLimit_keeps. split.
        * intros [[->|?]|[t' Ht']]; [right; exists t; by left|by left|].
          right. exists t'. by right.
        * intros [?|[t' Ht']]; [left; by right|].
          apply elem_of_cons in Ht' as [[= -> ->]|Ht']; [left; by left|right; eauto].
      + intros Hrl. by apply IH2, checkRateLimit_counts. }
  destruct (Hgen ∅) as [H1 H2]. split.
  - rewrite H1, lookup_empty. split; [intros [[? ?]|?]; done|by right].
  - intros l Hl. apply (H2 ltac:(by intros ? ? ?) c l Hl).
Qed.

End LimiterFacts.

(** ** Rate limiter: the bound on a rolling hour *)

Module RollingFacts.
Import JS RateLimit LimiterDefs RollingDefs JSFacts RateLimitFacts LimiterFacts.

Lemma in_time_order_later (r : Z * jsstring) (reqs : list (Z * jsstring)) :
  in_time_order (r :: reqs) → ∀ r', r' ∈ reqs → r.1 <= r'.1.
Proof.
  revert r. induction reqs as [|r1 reqs IH]; intros r Hord r' Hin; [by apply elem_of_nil in Hin|].
  destruct Hord as [Hle Hord]. apply elem_of_cons in Hin as [->|Hin]; [done|].
  specialize (IH r1 Hord r' Hin). lia.
Qed.

Lemma admitted_in_hour_cons (c : jsstring) (from : Z) (r : Z * jsstring)
    (adm : list (Z * jsstring)) :
  admitted_in_hour c from (r :: adm)
  = ((if bool_decide (r.2 = c) && (from <=? r.1)%Z && (r.1 <? from + 3600000)%Z
       then 1 else 0)
     + admitted_in_hour c from adm)%nat.
Proof.
  unfold admitted_in_hour. cbn [List.filter].
  by destruct (bool_decide (r.2 = c) && (from <=? r.1) && (r.1 <? from + 3600000)).
Qed.

(** Requests made after the hour count nothing in it. *)
Lemma admitted_in_hour_late (c : jsstring) (from : Z) (reqs : list (Z * jsstring)) :
  ∀ verdicts,
    (∀ r, r ∈ reqs → from + 3600000 <= r.1) →
    admitted_in_hour c from (granted reqs verdicts) = O.
Proof.
  induction reqs as [|r reqs IH]; intros vs Hlate; [by destruct vs|].
  destruct vs as [|[] vs]; cbn [granted]; [done| |].
  - rewrite admitted_in_hour_cons, IH by (intros r' Hr'; apply Hlate; by right).
    assert (from + 3600000 <= r.1) by (apply Hlate; by left).
    assert ((r.1 <? from + 3600000) = false) as -> by lia. by rewrite andb_false_r.
  - apply IH. intros r' Hr'. apply Hlate. by right.
Qed.

Lemma still_admissible_range (c : jsstring) (from : Z) (rl : gmap jsstring Limit) :
  counts_in_range rl → 0 <= still_admissible c from rl <= 9.
Proof.
  intros Hrl. unfold still_admissible. destruct (rl !! c) as [l|] eqn:E; [|lia].
  specialize (Hrl c l E). destruct (resetTime l <? from + 3600000 - 1); lia.
Qed.

(** Once every request is made at [from] or later, no more jobs are
    admitted in the hour than are still admissible. *)
Lemma admitted_in_hour_still (c : jsstring) (from : Z) (reqs : list (Z * jsstring)) :
  ∀ rl : gmap jsstring Limit,
    in_time_order reqs → (∀ r, r ∈ reqs → from <= r.1) → counts_in_range rl →
    Z.of_nat (admitted_in_hour c from (granted reqs (serve_all reqs rl).1))
    <= still_admissible c from rl.
Proof.
  induction reqs as [|[t c1] reqs IH]; intros rl Hord Hfrom Hrl.
  { cbn. by apply still_admissible_range. }
  assert (from <= t) as Ht by (apply (Hfrom (t, c1)); by left).
  assert (in_time_order reqs) as Hord' by (by destruct Hord).
  assert (∀ r, r ∈ reqs → from <= r.1) as Hfrom' by (intros r Hr; apply Hfrom; by right).
  pose proof (checkRateLimit_counts t c1 rl Hrl) as Hrl'.
  specialize (IH (checkRateLimit t c1 rl).2 Hord' Hfrom' Hrl').
  rewrite serve_all_cons. cbn [fst snd].
  destruct (decide (c1 = c)) as [->|Hne].
  2: { assert (still_admissible c from (checkRateLimit t c1 rl).2 = still_admissible c from rl)
         as Heq by (unfold still_admissible; by rewrite checkRateLimit_other).
       rewrite Heq in IH.
       destruct (checkRateLimit t c1 rl).1; cbn [granted]; [|done].
       rewrite admitted_in_hour_cons. cbn [fst snd].
       by rewrite (bool_decide_eq_false_2 (c1 = c)). }
  unfold still_admissible in *.
  destruct (rl !! c) as [l|] eqn:E.
  - destruct (Z_le_gt_dec t (resetTime l)) as [Hlive|Hexp].
    + rewrite (checkRateLimit_live _ _ _ l E Hlive) in *.
      destruct (count l <? 5) eqn:Hk; cbn [fst snd granted] in *.
      * rewrite lookup_insert_eq in IH. cbn [count resetTime] in IH.
        rewrite admitted_in_hour_cons.
        destruct (_ && _ && _); lia.
      * by rewrite E in IH.
    + rewrite checkRateLimit_expired in * by (unfold expired; rewrite E; lia).
      cbn [fst snd granted] in *. rewrite lookup_insert_eq in IH. cbn [count resetTime] in IH.
      specialize (Hrl c l E).
      assert ((t + 3600000 <? from + 3600000 - 1) = false) as Hcov by lia.
      rewrite Hcov in IH. rewrite admitted_in_hour_cons. cbn [fst snd].
      destruct (resetTime l <? from + 3600000 - 1) eqn:Hend.
      * destruct (_ && _ && _); lia.
      * assert (from + 3600000 <= t) as Hlate by lia.
        assert ((t <? from + 3600000) = false) as -> by lia. rewrite andb_false_r.
        rewrite admitted_in_hour_late; [lia|].
        intros r Hr. pose proof (in_time_order_later _ _ Hord r Hr). cbn [fst] in *. lia.
  - rewrite checkRateLimit_expired in * by (unfold expired; by rewrite E).
    cbn [fst snd granted] in *. rewrite lookup_insert_eq in IH. cbn [count resetTime] in IH.
    assert ((t + 3600000 <? from + 3600000 - 1) = false) as Hcov by lia.
    rewrite Hcov in IH. rewrite admitted_in_hour_cons. destruct (_ && _ && _); lia.
Qed.

(** Whatever the requests, made in the order of their time stamps, a
    client is admitted at most nine times in any one hour; and nine times it
    can be. *)
Theorem rolling_hour_at_most_nine :
  (∀ (reqs : list (Z * jsstring)) (clientId : jsstring) (from : Z),
     in_time_order reqs →
     (admitted_in_hour clientId from (granted reqs (serve_all reqs ∅).1) <= 9)%nat)
  ∧ in_time_order nine
  ∧ admitted_in_hour (js "10.0.0.7") 3599997 (granted nine (serve_all nine ∅).1) = 9%nat.
Proof.
  split; [|split; [simpl; lia|vm_compute; reflexivity]].
  intros reqs c from.
  assert (∀ rl : gmap jsstring Limit,
            in_time_order reqs → counts_in_range rl →
            (admitted_in_hour c from (granted reqs (serve_all reqs rl).1) <= 9)%nat) as Hgen;
    [|intros Hord; apply Hgen; [done|]; by intros c' l' H].
  induction reqs as [|[t c1] reqs IH]; intros rl Hord Hrl; [cbn; lia|].
  destruct (Z_lt_le_dec t from) as [Hearly|Hin].
  - rewrite serve_all_cons. cbn [fst snd].
    assert (admitted_in_hour c from (granted reqs (serve_all reqs (checkRateLimit t c1 rl).2).1)
            <= 9)%nat as Hrest.
    { apply IH; [by destruct Hord|by apply checkRateLimit_counts]. }
    destruct (checkRateLimit t c1 rl).1; cbn [granted]; [|done].
    rewrite admitted_in_hour_cons. cbn [fst snd].
    assert ((from <=? t) = false) as -> by lia. by rewrite andb_false_r.
  - pose proof (admitted_in_hour_still c from ((t, c1) :: reqs) rl Hord) as Hstill.
    pose proof (still_admissible_range c from rl Hrl).
    assert (∀ r, r ∈ (t, c1) :: reqs → from <= r.1) as Hfrom.
    { intros r Hr. apply elem_of_cons in Hr as [->|Hr]; [done|].
      pose proof (in_time_order_later _ _ Hord r Hr). cbn [fst] in *. lia. }
    specialize (Hstill Hfrom Hrl). lia.
Qed.

End RollingFacts.

(** ** Cleanup timers and the event loop *)

Module TimerFacts.
Import TimerDefs.
Import JS FS Progress RateLimit Orchestrator Routes JSFacts CleanupFacts OrchestratorFacts.

(** *** Timeouts fire once *)

Lemma filter_filter_same {A} (p : A → bool) (l : list A) :
  List.filter p (List.filter p l) = List.filter p l.
Proof.
  induction l as [|x l IH]; [done|]. simpl. destruct (p x) eqn:E; [|done].
  simpl. by rewrite E, IH.
Qed.

Lemma filter_filter_none {A} (p : A → bool) (l : list A) :
  List.filter p (List.filter (fun x => negb (p x)) l) = [].
Proof.
  induction l as [|x l IH]; [done|]. simpl. destruct (p x) eqn:E; [done|].
  simpl. by rewrite E.
Qed.

(** When the event loop has run the timeouts that are due, none of them
    is pending any more, the others still are, and running it again at the
    same time does nothing: a timeout fires once. *)
Theorem timeouts_fire_once :
  ∀ (now : Z) (w : World),
    timeouts (advance now w) = List.filter (fun t => negb (is_due now t)) (timeouts w)
    ∧ (∀ t, t ∈ timeouts (advance now w) → now < due t)
    ∧ advance now (advance now w) = advance now w.
Proof.
  intros now w. destruct (advance_frame now w) as (_ & _ & _ & _ & _ & Ht).
  split; [done|]. split.
  - intros t Hin. rewrite Ht in Hin. apply elem_of_filter_list in Hin as [_ Hd].
    unfold is_due in Hd. apply negb_true_iff, Z.leb_gt in Hd. lia.
  - unfold advance at 1. rewrite Ht, filter_filter_none. cbn [callbacks fold_left].
    assert (∀ f w', f (timeouts w') = timeouts w' → with_timeouts f w' = w') as Hsame.
    { intros f [] Hf. unfold with_timeouts. cbn in *. by rewrite Hf. }
    apply Hsame. by rewrite Ht, filter_filter_same.
Qed.

(** *** What the timers delete *)

Lemma enqueue_timeouts id ev w : timeouts (enqueue id ev w).1 = timeouts w.
Proof. unfold enqueue. destruct (streams w !! id) as [s|]; [by destruct (closed s)|done]. Qed.

Lemma close_timeouts id w : timeouts (close id w).1 = timeouts w.
Proof. unfold close. destruct (streams w !! id) as [s|]; [by destruct (closed s)|done]. Qed.

(** The timeout that the [try] block of the [close] listener sets, if it
    sets one, is for a file whose name begins with the job id. *)
Lemma finalize_timeouts now id w :
  timeouts (finalize now id w).1 = timeouts w
  ∨ ∃ f, startsWith f id = true
         ∧ timeouts (finalize now id w).1
           = timeouts w ++ [mkTimeout (next_handle w) (now + 180000) (join tempDir f) id].
Proof.
  rewrite finalize_eq. destruct (readdirSync (dir w)) as [files|]; [|by left].
  destruct (List.find _ files) as [f|] eqn:Hfind; [|left; apply enqueue_timeouts].
  apply find_some in Hfind as [_ Hf].
  destruct (statSync (dir w) (join tempDir f)); [|by left].
  right. exists f. split; [done|].
  destruct (encodeURIComponent _); [rewrite enqueue_timeouts|]; by rewrite scheduleFileCleanup_world.
Qed.

Lemma on_close_timeouts now id code w :
  timeouts (exec_handler (on_close now id code) w) = timeouts w
  ∨ ∃ f, startsWith f id = true
         ∧ timeouts (exec_handler (on_close now id code) w)
           = timeouts w ++ [mkTimeout (next_handle w) (now + 180000) (join tempDir f) id].
Proof.
  unfold on_close, exec_handler. mrun. set (w1 := with_activeDownloads (delete id) w).
  assert (∀ (m : M unit),
            timeouts (let (w', o) := m w1 in
                      match o with Some a => close id w' | None => (w', None) end).1
            = timeouts (m w1).1) as Hclose.
  { intros m. destruct (m w1) as [w' [a|]]; [apply close_timeouts|done]. }
  rewrite Hclose. destruct (bool_decide (code = Some 0)); [|left; by rewrite enqueue_timeouts].
  pose proof (finalize_timeouts now id w1) as Hfin.
  destruct (finalize now id w1) as [w2 [a|]]; cbn [fst] in *; [exact Hfin|].
  by rewrite enqueue_timeouts.
Qed.

Lemma handle_input_timers_on_job_files now i w :
  timers_on_job_files w → timers_on_job_files (handle_input now i w).
Proof.
  intros Hw t Hin.
  assert (t ∈ timeouts w
          ∨ (is_Some (streams w !! owner t)
             ∧ ∃ f, filePath t = join tempDir f ∧ startsWith f (owner t) = true)) as [Hold|Hnew].
  { assert ((∃ id code, i = Close id code) ∨ ¬ (∃ id code, i = Close id code))
      as [(id & code & ->)|Hother] by (destruct i; eauto; right; by intros (? & ? & ?)).
    - cbn [handle_input] in Hin. rewrite listening_run in Hin.
      destruct (streams w !! id) as [s|] eqn:Hs; [|by left].
      destruct (on_close_timeouts now id code w) as [Hsame|(f & Hf & Hadd)];
        [left; by rewrite <- Hsame|].
      rewrite Hadd in Hin. apply elem_of_app in Hin as [Hin|Hin]; [by left|].
      apply list_elem_of_singleton in Hin as ->. right. cbn [owner filePath].
      split; [by rewrite Hs|]. by exists f.
    - left. destruct (handle_input_timers now i w)
        as [(Ht & _)|[(id & f & -> & _)|(id & h & _ & _ & _ & Ht & _)]].
      + by rewrite <- Ht.
      + destruct Hother. eauto.
      + rewrite Ht in Hin. by apply elem_of_filter_list in Hin as [Hin _]. }
  - destruct (Hw t Hold) as [Hs Hf]. split; [by apply handle_input_started|done].
  - destruct Hnew as [Hs Hf]. split; [by apply handle_input_started|done].
Qed.

Lemma reachable_timers_on_job_files w : reachable w → timers_on_job_files w.
Proof.
  induction 1 as [|now i w Hw IH Hfresh]; [intros t Ht; by apply elem_of_nil in Ht|].
  apply handle_input_timers_on_job_files. intros t Hin.
  destruct (advance_frame now w) as (Hst & _ & _ & _ & _ & Ht).
  rewrite Ht in Hin. apply elem_of_filter_list in Hin as [Hin _].
  rewrite Hst. by apply IH.
Qed.

(** A file that no timeout is after survives the callbacks. *)
Lemma cleanup_spares path id w e :
  e ∈ entries (dir w) → at_path path e = false →
  e ∈ entries (dir (exec_handler (cleanup path id) w)).
Proof.
  intros Hin Hpath. rewrite cleanup_world. destruct (existsSync (dir w) path); [|done].
  destruct (unlinkSync (dir w) path) as [d|] eqn:Hun; [|done]. wsimpl.
  rewrite (unlinkSync_others _ _ _ Hun). apply elem_of_filter_list. by rewrite Hpath.
Qed.

Lemma callbacks_spare ts w e :
  e ∈ entries (dir w) → (∀ t, t ∈ ts → at_path (filePath t) e = false) →
  e ∈ entries (dir (callbacks ts w)).
Proof.
  revert w. induction ts as [|t ts IH]; intros w Hin Hts; [done|].
  rewrite callbacks_cons. apply IH.
  - apply cleanup_spares; [done|]. apply Hts. by left.
  - intros t' Ht'. apply Hts. by right.
Qed.

(** In every state the server can reach, each pending timeout is for a
    file of the download directory whose name begins with the id of the
    started job that has set it; so the timers delete nothing else: an entry
    of the directory whose name begins with the id of no started job is still
    there when the event loop has run. *)
Theorem timers_spare_foreign_files :
  ∀ (now : Z) (w : World),
    reachable w →
    (∀ t, t ∈ timeouts w →
       is_Some (streams w !! owner t)
       ∧ ∃ f, filePath t = join tempDir f ∧ startsWith f (owner t) = true)
    ∧ ∀ e : Entry,
        e ∈ entries (dir w) →
        (∀ id, is_Some (streams w !! id) → startsWith (name e) id = false) →
        e ∈ entries (dir (advance now w)).
Proof.
  intros now w Hw. pose proof (reachable_timers_on_job_files w Hw) as Hinv.
  split; [exact Hinv|]. intros e Hin Hforeign.
  unfold advance. apply callbacks_spare; [done|].
  intros t Ht. apply elem_of_filter_list in Ht as [Ht _].
  destruct (Hinv t Ht) as [Hs (f & Hpath & Hf)].
  unfold at_path. apply bool_decide_eq_false_2. rewrite Hpath. intros Heq.
  apply join_inj in Heq. subst f. by rewrite (Hforeign (owner t) Hs) in Hf.
Qed.

Lemma streams_with_notes :
  streams with_notes = {[ js "job1" := mkStream (events with_notes (js "job1")) true ]}.
Proof. vm_compute. reflexivity. Qed.

Lemma timers_spare_foreign_files_witness :
  (∀ t, t ∈ timeouts with_notes →
     is_Some (streams with_notes !! owner t)
     ∧ ∃ f, filePath t = join tempDir f ∧ startsWith f (owner t) = true)
  ∧ mkEntry (js "notes.txt") [] true ∈ entries (dir (advance 200000 with_notes)).
Proof.
  destruct (timers_spare_foreign_files 200000 with_notes) as [Hinv Hspare].
  - apply reachable_step; [|done]. apply reachable_run; [constructor|apply fresh_full_run].
  - split; [exact Hinv|]. apply Hspare.
    + vm_compute. right. left.
    + intros id [s Hs]. rewrite streams_with_notes in Hs.
      apply lookup_singleton_Some in Hs as [<- _]. reflexivity.
Defined.

End TimerFacts.

(** ** The assistant and its two streaming routes *)

Module AgentFacts.
Import JS Agent AgentDefs.

Section AgentFacts.
Context {Value : Type}.
Variable insights_of : jsstring → option Value.
Variable could_not_be_processed : Value.
Variable env : Env.

Implicit Types (st : State Value) (ev : Event Value).

Lemma extends_refl st : closed st = false → extends st st.
Proof. intros H. split; [done|]. exists []. by rewrite app_nil_r. Qed.

Lemma extends_trans st1 st2 st3 : extends st1 st2 → extends st2 st3 → extends st1 st3.
Proof.
  intros [_ (evs & E & F)] [H (evs' & E' & F')]. split; [done|].
  exists (evs ++ evs'). split; [by rewrite E', E, app_assoc|by apply Forall_app].
Qed.

Lemma quiet_ret {A} (a : A) : quiet (ret a : M Value A).
Proof. intros st H. by apply extends_refl. Qed.

Lemma quiet_throw {A} message : quiet (throw message : M Value A).
Proof. intros st H. by apply extends_refl. Qed.

Lemma quiet_bind {A B} (m : M Value A) (k : A → M Value B) :
  quiet m → (∀ a, quiet (k a)) → quiet (m ≫= k).
Proof.
  intros Hm Hk st H. arun. specialize (Hm st H).
  destruct (m st) as [st' [msg|a]]; [done|].
  eapply extends_trans; [exact Hm|]. apply Hk. by destruct Hm.
Qed.

Lemma quiet_try_catch {A} (m : M Value A) (h : jsstring → M Value A) :
  quiet m → (∀ msg, quiet (h msg)) → quiet (try_catch m h).
Proof.
  intros Hm Hh st H. arun. specialize (Hm st H).
  destruct (m st) as [st' [msg|a]]; [|done].
  eapply extends_trans; [exact Hm|]. apply Hh. by destruct Hm.
Qed.

Lemma quiet_enqueue ev : is_terminal ev = false → quiet (enqueue ev).
Proof.
  intros Hev st H. unfold enqueue. rewrite H. split; [done|]. exists [ev]. split; [done|].
  by constructor.
Qed.

Lemma quiet_callGemini : quiet (callGemini env : M Value jsstring).
Proof.
  intros st H. unfold callGemini.
  assert (extends st (mkState (queue st) (closed st) (S (gemini_calls st)) (search_calls st)))
    as He by (split; [done|]; exists []; by rewrite app_nil_r).
  by destruct (gemini env (gemini_calls st)) as [msg|[[|c r]|]].
Qed.

Lemma quiet_processFile files i results :
  quiet (processFile insights_of could_not_be_processed env stream_callbacks files i results).
Proof.
  unfold processFile. apply quiet_bind; [by apply quiet_enqueue|]. intros _.
  apply quiet_try_catch.
  - apply quiet_bind.
    + unfold extractFileContent. destruct (index files i) as [f|]; [|apply quiet_throw].
      destruct (reading f); [apply quiet_ret|apply quiet_throw].
    + intros content. destruct (index files i) as [f|]; [|apply quiet_throw].
      apply quiet_bind; [|intros v; apply quiet_ret].
      unfold analyzeFileContent. apply quiet_bind; [apply quiet_callGemini|].
      intros a. destruct (insights_of a); [apply quiet_ret|apply quiet_throw].
  - intros _. destruct (index files i); [apply quiet_ret|apply quiet_throw].
Qed.

Lemma quiet_processFiles_from files todo :
  ∀ i results,
    quiet (processFiles_from insights_of could_not_be_processed env stream_callbacks
             files i todo results).
Proof.
  induction todo as [|todo IH]; intros i results; [apply quiet_ret|].
  cbn [processFiles_from]. apply quiet_bind; [apply quiet_processFile|]. intros r. apply IH.
Qed.

Lemma quiet_searchOne q i n results :
  quiet (searchOne env stream_callbacks q i n results : M Value _).
Proof.
  unfold searchOne. apply quiet_bind; [by apply quiet_enqueue|]. intros _.
  apply quiet_try_catch; [|intros _; apply quiet_ret].
  destruct (encodeURIComponent q); [|apply quiet_throw].
  apply quiet_bind.
  - intros st H. split; [done|]. exists []. by rewrite app_nil_r.
  - intros [items|]; apply quiet_ret.
Qed.

Lemma quiet_searchAll queries n :
  ∀ i results, quiet (searchAll env stream_callbacks queries i n results : M Value _).
Proof.
  induction queries as [|q queries IH]; intros i results; [apply quiet_ret|].
  cbn [searchAll]. apply quiet_bind; [apply quiet_searchOne|]. intros r. apply IH.
Qed.

(** *** A method between [try] and [catch], and the promise chain of a
        route *)

Lemma reported_try {A} (first : Event Value) (body : M Value A) :
  is_terminal first = false → quiet body →
  reported first
    (try_catch (enqueue first;; body)
       (fun message => onError stream_callbacks message;; throw message)).
Proof.
  intros Hfirst Hbody st H. arun. unfold enqueue at 1. rewrite H.
  set (st0 := mkState (queue st ++ [first]) false (gemini_calls st) (search_calls st)).
  specialize (Hbody st0 eq_refl).
  destruct (body st0) as [st1 [msg|a]]; cbn [fst] in Hbody;
    destruct Hbody as [Ho (evs & E & F)]; cbn [queue st0] in E.
  - cbn [onError stream_callbacks]. arun.
    unfold enqueue, close. rewrite Ho. cbn [closed queue]. split; [done|].
    exists evs. split; [by rewrite E, <- !app_assoc|done].
  - split; [done|]. exists evs. split; [by rewrite E, <- app_assoc|done].
Qed.

(** [m.then(result => { enqueue(complete); close() })
      .catch(error => { enqueue(error); close() })], run to its end. *)
Lemma then_catch_ended (first : Event Value) (m : M Value jsstring) :
  is_terminal first = false → reported first m →
  ended (try_catch (result ← m; enqueue (CompleteEvent result);; close)
           (fun message => enqueue (ErrorEvent message);; close) start_state).1
  ∧ hd_error (queue (try_catch (result ← m; enqueue (CompleteEvent result);; close)
                       (fun message => enqueue (ErrorEvent message);; close) start_state).1)
    = Some first.
Proof.
  intros Hfirst Hm. unfold ended. arun. specialize (Hm start_state eq_refl).
  cbn [queue start_state app] in Hm.
  destruct (m start_state) as [st1 [msg|r]].
  - destruct Hm as [Hc (evs & E & F)]. unfold enqueue. rewrite Hc. cbn [fst].
    split; [|by rewrite E]. split; [done|].
    exists (first :: evs), (ErrorEvent msg). split; [by rewrite E|]. split; [done|].
    by constructor.
  - destruct Hm as [Ho (evs & E & F)]. unfold enqueue, close. rewrite Ho.
    cbn [closed queue fst]. split; [|by rewrite E]. split; [done|].
    exists (first :: evs), (CompleteEvent r). split; [by rewrite E|]. split; [done|].
    by constructor.
Qed.

Lemma processMessage_reported message files :
  reported (PhaseStart (js "analysis") (js "Understanding your message and context"))
    (processMessage insights_of could_not_be_processed env stream_callbacks message files).
Proof.
  unfold processMessage. apply reported_try; [done|].
  apply quiet_bind; [apply quiet_callGemini|]. intros analysis.
  apply quiet_bind; [by apply quiet_enqueue|]. intros _.
  apply quiet_bind.
  { destruct files as [fl|]; [|apply quiet_ret].
    destruct (0 <? length fl)%nat; [|apply quiet_ret].
    apply quiet_bind; [by apply quiet_enqueue|]. intros _.
    apply quiet_bind; [apply quiet_processFiles_from|]. intros rs.
    apply quiet_bind; [by apply quiet_enqueue|]. intros _. apply quiet_ret. }
  intros rs.
  apply quiet_bind; [by apply quiet_enqueue|]. intros _.
  apply quiet_bind; [apply quiet_callGemini|]. intros enhanced.
  apply quiet_bind; [by apply quiet_enqueue|]. intros _.
  apply quiet_bind; [by apply quiet_enqueue|]. intros _.
  apply quiet_bind; [apply quiet_callGemini|]. intros final.
  apply quiet_bind; [by apply quiet_enqueue|]. intros _. apply quiet_ret.
Qed.

Lemma performDeepSearch_reported query :
  reported (PhaseStart (js "query_enhancement")
              (js "Enhancing your search query for better results"))
    (performDeepSearch env stream_callbacks query : M Value _).
Proof.
  unfold performDeepSearch. apply reported_try; [done|].
  apply quiet_bind.
  { unfold enhanceSearchQuery. apply quiet_bind; [apply quiet_callGemini|].
    intros r. apply quiet_ret. }
  intros queries.
  apply quiet_bind; [by apply quiet_enqueue|]. intros _.
  apply quiet_bind; [by apply quiet_enqueue|]. intros _.
  apply quiet_bind; [apply quiet_searchAll|]. intros rs.
  apply quiet_bind; [by apply quiet_enqueue|]. intros _.
  apply quiet_bind; [by apply quiet_enqueue|]. intros _.
  apply quiet_bind; [apply quiet_callGemini|]. intros synth.
  apply quiet_bind; [by apply quiet_enqueue|]. intros _.
  apply quiet_bind; [by apply quiet_enqueue|]. intros _.
  apply quiet_bind; [apply quiet_callGemini|]. intros human.
  apply quiet_bind; [by apply quiet_enqueue|]. intros _. apply quiet_ret.
Qed.

(** *** The file route *)

(** The file route answers 400 when the request has neither a message
    nor a file, and with the demo reply when no key of the language model is
    set; otherwise it answers with a stream, which begins with the start of
    the analysis phase and ends closed, after exactly one terminal event
    ([complete] or [error]), whatever the services do. *)
Theorem file_route_answers :
  ∀ (message : jsstring) (files : list File)
    (GEMINI_KEY_1 GEMINI_KEY_2 GOOGLE_SEARCH_API_KEY : option jsstring),
    let answer := FileRoute.POST insights_of could_not_be_processed env
                    (Answers (message, files))
                    GEMINI_KEY_1 GEMINI_KEY_2 GOOGLE_SEARCH_API_KEY in
    (message = [] ∧ files = [] →
       answer = (FileRoute.Json 400 (js "error") (js "Missing message or files"), None))
    ∧ (¬ (message = [] ∧ files = []) →
       FileRoute.first_set GEMINI_KEY_1 GEMINI_KEY_2 = None →
       answer = (FileRoute.Json 200 (js "reply") FileRoute.demo_reply, None))
    ∧ (¬ (message = [] ∧ files = []) →
       is_Some (FileRoute.first_set GEMINI_KEY_1 GEMINI_KEY_2) →
       ∃ st, answer = (FileRoute.EventStream, Some st) ∧ ended st
             ∧ hd_error (queue st)
               = Some (PhaseStart (js "analysis") (js "Understanding your message and context"))).
Proof.
  intros message files k1 k2 ks answer. subst answer. unfold FileRoute.POST.
  split; [|split].
  - intros [-> ->]. done.
  - intros Hsome Hkey.
    assert (bool_decide (message = []) && bool_decide (files = []) = false) as ->.
    { apply andb_false_iff. destruct (decide (message = [])) as [->|?];
        [right|left]; apply bool_decide_eq_false_2; [|done]. intros ->. by apply Hsome. }
    by rewrite Hkey.
  - intros Hsome [key Hkey].
    assert (bool_decide (message = []) && bool_decide (files = []) = false) as ->.
    { apply andb_false_iff. destruct (decide (message = [])) as [->|?];
        [right|left]; apply bool_decide_eq_false_2; [|done]. intros ->. by apply Hsome. }
    rewrite Hkey. eexists. split; [reflexivity|].
    unfold FileRoute.start. apply then_catch_ended; [done|]. apply processMessage_reported.
Qed.

(** A request to the file route that carries files never gets them
    processed: the list that the route hands to the agent has no property
    under an index, the agent reads [files[0]] as [undefined], and the phase
    ends in a [TypeError].  The stream holds the analysis phase, the start of
    the file phase, one progress record and the error, and then is closed;
    the language model has been asked once. *)
Theorem uploaded_files_are_not_processed :
  ∀ (message : jsstring) (files : list File),
    files ≠ [] →
    let st := FileRoute.start insights_of could_not_be_processed env message files in
    closed st = true
    ∧ gemini_calls st = 1%nat
    ∧ queue st
      = PhaseStart (js "analysis") (js "Understanding your message and context")
        :: match gemini env 0 with
           | Fails error => [ ErrorEvent error ]
           | Answers reply =>
               [ PhaseComplete (js "analysis") (Text (reply_text reply));
                 PhaseStart (js "file_processing")
                   (js "Processing your files and extracting insights");
                 PhaseUpdate (js "file_processing") 0 (List.length files);
                 ErrorEvent type_of_undefined ]
           end.
Proof.
  intros message [|f files] Hfiles st; [done|]. subst st.
  unfold FileRoute.start, processMessage, analyzeMessage, callGemini, processFiles.
  cbn [FileRoute.fileList length List.length Nat.ltb Nat.leb processFiles_from].
  unfold processFile, extractFileContent. cbn [FileRoute.fileList index length].
  cbn [onPhaseStart onPhaseUpdate onPhaseComplete onError stream_callbacks].
  arun. unfold enqueue, close. cbn [closed queue gemini_calls search_calls start_state].
  destruct (gemini env 0) as [error|[[|c text]|]]; cbn [closed queue gemini_calls fst app];
    done.
Qed.

(** A message without files goes through three phases, each a request to
    the language model; the first request that fails ends the stream with its
    error, right after the start of its phase; if none fails the stream ends
    with [complete], whose result is the last reply (the apology where that
    reply holds no text) under the brand line. *)
Theorem message_without_files :
  ∀ message : jsstring,
    let st := FileRoute.start insights_of could_not_be_processed env message [] in
    closed st = true
    ∧ queue st
      = PhaseStart (js "analysis") (js "Understanding your message and context")
        :: match gemini env 0 with
           | Fails error => [ ErrorEvent error ]
           | Answers analysis =>
               PhaseComplete (js "analysis") (Text (reply_text analysis))
               :: PhaseStart (js "response_generation") (js "Crafting a personalized response")
               :: match gemini env 1 with
                  | Fails error => [ ErrorEvent error ]
                  | Answers enhanced =>
                      PhaseComplete (js "response_generation") (Text (reply_text enhanced))
                      :: PhaseStart (js "polishing") (js "Adding final touches for natural flow")
                      :: match gemini env 2 with
                         | Fails error => [ ErrorEvent error ]
                         | Answers final =>
                             [ PhaseComplete (js "polishing") (Text (reply_text final));
                               CompleteEvent (brand ++ [10; 10]%N ++ reply_text final) ]
                         end
                  end
           end.
Proof.
  intros message st. subst st.
  unfold FileRoute.start, processMessage, analyzeMessage, generateHumanizedResponse,
    polishResponse, callGemini, formatFinalResponse.
  cbn [FileRoute.fileList length List.length Nat.ltb Nat.leb].
  cbn [onPhaseStart onPhaseUpdate onPhaseComplete onError stream_callbacks].
  arun. unfold enqueue, close. cbn [closed queue gemini_calls search_calls start_state].
  destruct (gemini env 0) as [error|[[|c text]|]];
    cbn [closed queue gemini_calls search_calls fst app reply_text]; try done;
    (destruct (gemini env 1) as [error1|[[|c1 text1]|]];
     cbn [closed queue gemini_calls search_calls fst app reply_text]; try done;
     (destruct (gemini env 2) as [error2|[[|c2 text2]|]];
      cbn [closed queue gemini_calls search_calls fst app reply_text]; done)).
Qed.

(** *** The deep-search route *)

(** The deep-search route answers 400 when the query, the key of the
    language model or the key of the search engine is missing; otherwise it
    answers with a stream, which begins with the start of the first phase and
    ends closed, after exactly one terminal event, whatever the services
    do. *)
Theorem deep_search_route_answers :
  ∀ (query GEMINI_KEY_1 GEMINI_KEY_2 GOOGLE_SEARCH_API_KEY : option jsstring),
    let answer := DeepSearchRoute.GET (Value := Value) env query
                    GEMINI_KEY_1 GEMINI_KEY_2 GOOGLE_SEARCH_API_KEY in
    (query = None ∨ query = Some [] →
       answer = (DeepSearchRoute.Json 400 (js "error") (js "Missing query parameter"), None))
    ∧ (∀ q, query = Some q → q ≠ [] →
       FileRoute.first_set GEMINI_KEY_1 GEMINI_KEY_2 = None →
       answer = (DeepSearchRoute.Json 400 (js "error")
                   (js "Demo mode - Deep search requires API configuration"), None))
    ∧ (∀ q, query = Some q → q ≠ [] →
       is_Some (FileRoute.first_set GEMINI_KEY_1 GEMINI_KEY_2) →
       GOOGLE_SEARCH_API_KEY = None ∨ GOOGLE_SEARCH_API_KEY = Some [] →
       answer = (DeepSearchRoute.Json 400 (js "error")
                   (js "Search functionality not available - missing search API key"), None))
    ∧ (∀ q key, query = Some q → q ≠ [] →
       is_Some (FileRoute.first_set GEMINI_KEY_1 GEMINI_KEY_2) →
       GOOGLE_SEARCH_API_KEY = Some key → key ≠ [] →
       ∃ st, answer = (DeepSearchRoute.EventStream, Some st) ∧ ended st
             ∧ hd_error (queue st)
               = Some (PhaseStart (js "query_enhancement")
                         (js "Enhancing your search query for better results"))).
Proof.
  intros query k1 k2 ks answer. subst answer. unfold DeepSearchRoute.GET.
  split; [|split; [|split]].
  - by intros [-> | ->].
  - intros [|c q] -> Hq Hkey; [done|]. by rewrite Hkey.
  - intros [|c q] -> Hq [key Hkey] Hs; [done|]. rewrite Hkey. by destruct Hs as [-> | ->].
  - intros [|c q] [|k key] -> Hq [gk Hkey] -> Hk; try done. rewrite Hkey.
    eexists. split; [reflexivity|].
    unfold DeepSearchRoute.start. apply then_catch_ended; [done|].
    apply performDeepSearch_reported.
Qed.

Lemma enhanced_queries_few response :
  (List.length (enhanced_queries response) <= 5)%nat
  ∧ Forall (fun q => trim q ≠ []) (enhanced_queries response).
Proof.
  unfold enhanced_queries. split; [rewrite length_take; lia|].
  apply Forall_take, Forall_forall. intros q Hq.
  apply list_elem_of_In, filter_In in Hq as [_ Hq]. by destruct (trim q).
Qed.

(** The search loop never throws: it publishes one progress record for
    each query, in order, and returns results for some of the queries. *)
Lemma searchAll_returns queries n :
  ∀ i results (st : State Value),
    closed st = false →
    ∃ st' rs,
      searchAll env stream_callbacks queries i n results st = (st', Answers rs)
      ∧ closed st' = false ∧ gemini_calls st' = gemini_calls st
      ∧ queue st' = queue st
                    ++ map (fun j => PhaseUpdate (js "deep_search") j n)
                         (seq i (List.length queries))
      ∧ (List.length rs <= List.length results + List.length queries)%nat
      ∧ Forall (fun r => query r ∈ queries ∨ r ∈ results) rs.
Proof.
  induction queries as [|q queries IH]; intros i results st Ho.
  - exists st, results. cbn. rewrite app_nil_r. repeat split; try done; [lia|].
    apply Forall_forall. by right.
  - cbn [searchAll]. arun.
    assert (∃ st1 rs1,
              searchOne env stream_callbacks q i n results st = (st1, Answers rs1)
              ∧ closed st1 = false ∧ gemini_calls st1 = gemini_calls st
              ∧ queue st1 = queue st ++ [PhaseUpdate (js "deep_search") i n]
              ∧ (rs1 = results ∨ ∃ items, rs1 = results ++ [mkSearchResult q items]))
      as (st1 & rs1 & -> & Ho1 & Hg1 & Hq1 & Hrs1).
    { unfold searchOne. cbn [onPhaseUpdate stream_callbacks]. arun. unfold enqueue. rewrite Ho.
      destruct (encodeURIComponent q); [|eexists _, _; split; [reflexivity|]; by eauto].
      cbn [search_calls].
      destruct (search env (search_calls st)) as [msg|[items|]];
        eexists _, _; (split; [reflexivity|]); cbn [closed queue gemini_calls]; eauto 10. }
    destruct (IH (S i) rs1 st1 Ho1) as (st' & rs & -> & Ho' & Hg' & Hq' & Hlen & Hall).
    exists st', rs. split; [done|]. split; [done|]. split; [congruence|]. split.
    { rewrite Hq', Hq1. cbn [List.length seq map]. by rewrite <- app_assoc. }
    split.
    { cbn [List.length]. destruct Hrs1 as [->|[items ->]]; [lia|].
      rewrite length_app in Hlen. cbn [List.length] in Hlen. lia. }
    eapply Forall_impl; [exact Hall|]. intros r [Hr|Hr]; [left; by right|].
    destruct Hrs1 as [->|[items ->]]; [by right|].
    apply elem_of_app in Hr as [Hr|Hr]; [by right|].
    apply list_elem_of_singleton in Hr as ->. left. by left.
Qed.

Lemma run_bind {A B} (m : M Value A) (k : A → M Value B) st :
  (m ≫= k) st
  = match m st with
    | (st', Answers a) => k a st'
    | (st', Fails message) => (st', Fails message)
    end.
Proof. reflexivity. Qed.

Lemma run_try {A} (m : M Value A) (h : jsstring → M Value A) st :
  try_catch m h st
  = match m st with
    | (st', Answers a) => (st', Answers a)
    | (st', Fails message) => h message st'
    end.
Proof. reflexivity. Qed.

Lemma enqueue_on_open ev st :
  closed st = false →
  enqueue ev st
  = (mkState (queue st ++ [ev]) false (gemini_calls st) (search_calls st), Answers tt).
Proof. intros H. unfold enqueue. by rewrite H. Qed.

Lemma callGemini_run st :
  callGemini env st
  = (mkState (queue st) (closed st) (S (gemini_calls st)) (search_calls st),
     match gemini env (gemini_calls st) with
     | Fails message => Fails message
     | Answers reply => Answers (reply_text reply)
     end).
Proof. unfold callGemini. by destruct (gemini env (gemini_calls st)) as [msg|[[|c r]|]]. Qed.

(** The two last phases of a method, each a request to the language
    model, from a state in which one request has been made. *)
Lemma two_last_phases (second third : jsstring) (start2 start3 : Event Value) st :
  closed st = false → gemini_calls st = 1%nat →
  is_terminal start3 = false →
  (enqueue start2;;
     a ← callGemini env;
     enqueue (PhaseComplete second (Text a));;
     enqueue start3;;
     b ← callGemini env;
     enqueue (PhaseComplete third (Text b));;
     ret (formatFinalResponse b)) st
    = match gemini env 1 with
      | Fails error => (mkState (queue st ++ [start2]) false 2 (search_calls st), Fails error)
      | Answers a =>
          match gemini env 2 with
          | Fails error =>
              (mkState (queue st ++ [start2; PhaseComplete second (Text (reply_text a)); start3])
                 false 3 (search_calls st), Fails error)
          | Answers b =>
              (mkState (queue st ++ [start2; PhaseComplete second (Text (reply_text a)); start3;
                                     PhaseComplete third (Text (reply_text b))])
                 false 3 (search_calls st),
               Answers (formatFinalResponse (reply_text b)))
          end
      end.
Proof.
  intros Ho Hg _.
  rewrite run_bind, enqueue_on_open by done. cbv beta iota.
  rewrite run_bind, callGemini_run. cbn [queue closed gemini_calls search_calls]. rewrite Hg.
  destruct (gemini env 1) as [error|a]; [done|]. cbv beta iota.
  rewrite run_bind, enqueue_on_open by done. cbv beta iota.
  rewrite run_bind, enqueue_on_open by done. cbv beta iota.
  rewrite run_bind, callGemini_run. cbn [queue closed gemini_calls search_calls].
  destruct (gemini env 2) as [error|b]; cbv beta iota.
  - by rewrite <- !app_assoc.
  - rewrite run_bind, enqueue_on_open by done. cbv beta iota.
    cbn [queue closed gemini_calls search_calls]. by rewrite <- !app_assoc.
Qed.

(** A deep search whose first request to the language model is answered
    searches for at most five queries, the lines of that answer that are not
    blank; it publishes one progress record for each, in order, and then goes
    on to the synthesis whatever the search engine does; the stream ends with
    the error of the first later request that fails, or with [complete]. *)
Theorem deep_search_trace :
  ∀ (query : jsstring) (reply : option jsstring),
    gemini env 0 = Answers reply →
    let st := DeepSearchRoute.start (Value := Value) env query in
    let qs := enhanced_queries (reply_text reply) in
    (List.length qs <= 5)%nat ∧ Forall (fun q => trim q ≠ []) qs
    ∧ ∃ rs,
        (List.length rs <= List.length qs)%nat ∧ Forall (fun r => Agent.query r ∈ qs) rs
        ∧ closed st = true
        ∧ queue st
          = [ PhaseStart (js "query_enhancement")
                (js "Enhancing your search query for better results");
              PhaseComplete (js "query_enhancement") (Queries qs);
              PhaseStart (js "deep_search") (js "Searching across multiple sources") ]
            ++ map (fun i => PhaseUpdate (js "deep_search") i (List.length qs))
                 (seq 0 (List.length qs))
            ++ PhaseComplete (js "deep_search") (SearchResults rs)
               :: PhaseStart (js "synthesis")
                    (js "Analyzing and connecting information from different sources")
               :: match gemini env 1 with
                  | Fails error => [ ErrorEvent error ]
                  | Answers synthesis =>
                      PhaseComplete (js "synthesis") (Text (reply_text synthesis))
                      :: PhaseStart (js "humanization")
                           (js "Creating a natural, conversational response")
                      :: match gemini env 2 with
                         | Fails error => [ ErrorEvent error ]
                         | Answers final =>
                             [ PhaseComplete (js "humanization") (Text (reply_text final));
                               CompleteEvent (brand ++ [10; 10]%N ++ reply_text final) ]
                         end
                  end.
Proof.
  intros query reply Hreply st qs.
  destruct (enhanced_queries_few (reply_text reply)) as [Hfew Hblank].
  split; [done|]. split; [done|]. subst st.
  set (P1 := PhaseStart (js "query_enhancement")
               (js "Enhancing your search query for better results") : Event Value).
  set (P2 := PhaseComplete (js "query_enhancement") (Queries qs) : Event Value).
  set (P3 := PhaseStart (js "deep_search") (js "Searching across multiple sources")
             : Event Value).
  destruct (searchAll_returns qs (List.length qs) 0 [] (mkState [P1; P2; P3] false 1 0) eq_refl)
    as (st5 & rs & Hloop & Ho5 & Hg5 & Hq5 & Hlen & Hall).
  exists rs. split; [cbn [List.length] in Hlen; lia|]. split.
  { eapply Forall_impl; [exact Hall|]. intros r [Hr|Hr]; [done|]. by apply elem_of_nil in Hr. }
  cbn [queue gemini_calls] in Hq5, Hg5.
  assert (performDeepSearch env stream_callbacks query start_state
          = (let Q := [P1; P2; P3]
                      ++ map (fun i => PhaseUpdate (js "deep_search") i (List.length qs))
                           (seq 0 (List.length qs))
                      ++ [PhaseComplete (js "deep_search") (SearchResults rs)] in
             let S2 := PhaseStart (js "synthesis")
                         (js "Analyzing and connecting information from different sources") in
             let S3 := PhaseStart (js "humanization")
                         (js "Creating a natural, conversational response") in
             match gemini env 1 with
             | Fails error =>
                 (mkState (Q ++ [S2; ErrorEvent error]) true 2 (search_calls st5), Fails error)
             | Answers a =>
                 match gemini env 2 with
                 | Fails error =>
                     (mkState (Q ++ [S2; PhaseComplete (js "synthesis") (Text (reply_text a)); S3;
                                     ErrorEvent error]) true 3 (search_calls st5), Fails error)
                 | Answers b =>
                     (mkState (Q ++ [S2; PhaseComplete (js "synthesis") (Text (reply_text a)); S3;
                                     PhaseComplete (js "humanization") (Text (reply_text b))])
                        false 3 (search_calls st5),
                      Answers (formatFinalResponse (reply_text b)))
                 end
             end)) as Hrun.
  { unfold performDeepSearch, enhanceSearchQuery, performMultiSourceSearch,
      synthesizeSearchResults, humanizeSearchResponse.
    cbn [onPhaseStart onPhaseUpdate onPhaseComplete onError stream_callbacks].
    rewrite run_try, run_bind, enqueue_on_open by done. cbv beta iota.
    rewrite !run_bind, callGemini_run. cbn [queue closed gemini_calls search_calls start_state app].
    rewrite Hreply. cbv beta iota. unfold ret at 1. cbv beta iota.
    fold (enhanced_queries (reply_text reply)). fold qs. fold P1. fold P2.
    rewrite run_bind, enqueue_on_open by done. cbv beta iota.
    rewrite run_bind, enqueue_on_open by done.
    cbv beta iota. cbn [queue closed gemini_calls search_calls app]. fold P3.
    rewrite run_bind, Hloop. cbv beta iota.
    rewrite run_bind, enqueue_on_open by done. cbv beta iota.
    set (st6 := mkState (queue st5 ++ [PhaseComplete (js "deep_search") (SearchResults rs)]) false
                  (gemini_calls st5) (search_calls st5)).
    rewrite (two_last_phases (js "synthesis") (js "humanization")
               (PhaseStart (js "synthesis")
                  (js "Analyzing and connecting information from different sources"))
               (PhaseStart (js "humanization")
                  (js "Creating a natural, conversational response")) st6) by done.
    cbn [search_calls st6 queue]. rewrite Hq5.
    destruct (gemini env 1) as [error|a]; [|destruct (gemini env 2) as [error|b]];
      cbv beta iota zeta; unfold enqueue, close; arun;
      cbn [closed queue gemini_calls search_calls]; rewrite <- ?app_assoc; try done. }
  unfold DeepSearchRoute.start. rewrite run_try, run_bind, Hrun. cbv zeta.
  destruct (gemini env 1) as [error|a]; [|destruct (gemini env 2) as [error|b]];
    cbv beta iota; unfold enqueue, close; arun; cbn [closed queue fst formatFinalResponse];
    rewrite <- ?app_assoc; done.
Qed.

End AgentFacts.

Lemma uploaded_files_are_not_processed_witness :
  let st := FileRoute.start (fun _ => Some tt) tt sample_env (js "summarise") [sample_file] in
  closed st = true
  ∧ gemini_calls st = 1%nat
  ∧ queue st
    = PhaseStart (js "analysis") (js "Understanding your message and context")
      :: match gemini sample_env 0 with
         | Fails error => [ ErrorEvent error ]
         | Answers reply =>
             [ PhaseComplete (js "analysis") (Text (reply_text reply));
               PhaseStart (js "file_processing")
                 (js "Processing your files and extracting insights");
               PhaseUpdate (js "file_processing") 0 (List.length [sample_file]);
               ErrorEvent type_of_undefined ]
         end.
Proof. apply uploaded_files_are_not_processed. discriminate. Defined.

Lemma deep_search_trace_witness :
  let st := DeepSearchRoute.start (Value := unit) sample_env (js "energy") in
  let qs := [js "solar panels"; js "wind turbines"] in
  (List.length qs <= 5)%nat ∧ Forall (fun q => trim q ≠ []) qs
  ∧ ∃ rs,
      (List.length rs <= List.length qs)%nat ∧ Forall (fun r => Agent.query r ∈ qs) rs
      ∧ closed st = true
      ∧ queue st
        = [ PhaseStart (js "query_enhancement")
              (js "Enhancing your search query for better results");
            PhaseComplete (js "query_enhancement") (Queries qs);
            PhaseStart (js "deep_search") (js "Searching across multiple sources") ]
          ++ [ PhaseUpdate (js "deep_search") 0 2; PhaseUpdate (js "deep_search") 1 2 ]
          ++ PhaseComplete (js "deep_search") (SearchResults rs)
             :: PhaseStart (js "synthesis")
                  (js "Analyzing and connecting information from different sources")
             :: [ PhaseComplete (js "synthesis") (Text apology);
                  PhaseStart (js "humanization")
                    (js "Creating a natural, conversational response");
                  ErrorEvent (js "fetch failed") ].
Proof.
  apply (deep_search_trace (Value := unit) sample_env (js "energy")
           (Some (js "solar panels" ++ [10%N] ++ js "  " ++ [10%N] ++ js "wind turbines"))).
  reflexivity.
Defined.

End AgentFacts.
